(** * Fused Adam / AdamW CPU kernel (aten/src/ATen/native/cpu/FusedAdamKernel.cpp)

    A shallow embedding of the kernel and the proofs of its specified
    properties.

    - Floating-point values are [spec_float]s of the Standard Library
      (IEEE 754 binary formats, round to nearest even, one NaN), so every
      definition computes.  A format is a precision and a maximal exponent;
      [double], [float], [Half] and [BFloat16] are four formats.
    - The five buffers are lists indexed from the tensor's [data_ptr]; a
      pointer [buf + begin] is the pair of the list and the offset [begin].
      The buffers are distinct lists: the kernel is only called on
      non-aliasing tensors.
    - A [Vectorized<T>] register is the list of its lanes, and its operators
      act lane by lane.
    - [at::parallel_for] runs the body once per shard; the shards chosen by
      the runtime are an argument of the model, and ranges are run in list
      order (they write disjoint indices).
    - Indices are [nat]: every index is below [numel], so no [int64_t]
      computation of the source wraps.
    - C++ leaves reads and writes outside a buffer undefined.  Here a read
      outside yields [+0.0] and a write outside is dropped; the theorems
      that depend on it assume the buffers hold [numel] elements. *)

From Stdlib Require Import ZArith Bool Lia.
From Stdlib Require Import Floats.SpecFloat.
From stdpp Require Import base list.

Local Open Scope nat_scope.

(** ** Floating-point formats and arithmetic *)

Inductive ScalarType := kDouble | kFloat | kBFloat16 | kHalf.

Inductive ADAM_MODE := ORIGINAL | ADAMW.

Record Format := { prec : Z; emax : Z }.

Definition binary64 : Format := {| prec := 53; emax := 1024 |}.
Definition binary32 : Format := {| prec := 24; emax := 128 |}.
Definition binary16 : Format := {| prec := 11; emax := 16 |}.
Definition bfloat16 : Format := {| prec := 8; emax := 128 |}.

Definition format_of (t : ScalarType) : Format :=
  match t with
  | kDouble => binary64
  | kFloat => binary32
  | kBFloat16 => bfloat16
  | kHalf => binary16
  end.

(** [at::opmath_type<scalar_t>]: [float] for the 16-bit types, the type
    itself otherwise. *)
Definition opmath_type (t : ScalarType) : ScalarType :=
  match t with
  | kDouble => kDouble
  | kFloat => kFloat
  | kBFloat16 => kFloat
  | kHalf => kFloat
  end.

Definition ScalarType_eqb (a b : ScalarType) : bool :=
  match a, b with
  | kDouble, kDouble | kFloat, kFloat | kBFloat16, kBFloat16 | kHalf, kHalf => true
  | _, _ => false
  end.

Definition fadd (f : Format) : spec_float -> spec_float -> spec_float := SFadd (prec f) (emax f).
Definition fsub (f : Format) : spec_float -> spec_float -> spec_float := SFsub (prec f) (emax f).
Definition fmul (f : Format) : spec_float -> spec_float -> spec_float := SFmul (prec f) (emax f).
Definition fdiv (f : Format) : spec_float -> spec_float -> spec_float := SFdiv (prec f) (emax f).
Definition fsqrt (f : Format) : spec_float -> spec_float := SFsqrt (prec f) (emax f).
Definition fneg : spec_float -> spec_float := SFopp.

Definition is_nan (x : spec_float) : bool :=
  match x with S754_nan => true | _ => false end.

(** The value of the format nearest to [x] (a C++ conversion between two
    floating-point types). *)
Definition round_to (f : Format) (x : spec_float) : spec_float :=
  match x with
  | S754_finite s m e => binary_round (prec f) (emax f) s m e
  | _ => x
  end.

(** [static_cast<to>(x)] for [x] of type [from]: nothing happens when the
    two types are the same. *)
Definition convert (from to : ScalarType) (x : spec_float) : spec_float :=
  if ScalarType_eqb from to then x else round_to (format_of to) x.

(** [x != 0.f] *)
Definition ne_zero (x : spec_float) : bool := negb (SFeqb x (S754_zero false)).

(** [std::max(a, b)] is [(a < b) ? b : a]. *)
Definition std_max (a b : spec_float) : spec_float := if SFltb a b then b else a.

(** One lane of [at::vec::maximum(a, b)]: [(a > b) ? a : b], and [a] when
    [a] is a NaN, so that a NaN on either side is propagated. *)
Definition maximum (a b : spec_float) : spec_float :=
  if is_nan a then a else if SFltb b a then a else b.

(** The constant [T(-1.0)]. *)
Definition minus_one (f : Format) : spec_float := SFopp (SFone (prec f) (emax f)).

#[global] Instance spec_float_inhabited : Inhabited spec_float := populate (S754_zero false).

(** ** Buffers and vector registers *)

Record Bufs := mkBufs {
  param : list spec_float;
  exp_avg : list spec_float;
  exp_avg_sq : list spec_float;
  grad : list spec_float;
  max_exp_avg_sq : list spec_float
}.

Definition set_param (st : Bufs) (l : list spec_float) : Bufs :=
  mkBufs l (exp_avg st) (exp_avg_sq st) (grad st) (max_exp_avg_sq st).
Definition set_exp_avg (st : Bufs) (l : list spec_float) : Bufs :=
  mkBufs (param st) l (exp_avg_sq st) (grad st) (max_exp_avg_sq st).
Definition set_exp_avg_sq (st : Bufs) (l : list spec_float) : Bufs :=
  mkBufs (param st) (exp_avg st) l (grad st) (max_exp_avg_sq st).
Definition set_grad (st : Bufs) (l : list spec_float) : Bufs :=
  mkBufs (param st) (exp_avg st) (exp_avg_sq st) l (max_exp_avg_sq st).
Definition set_max_exp_avg_sq (st : Bufs) (l : list spec_float) : Bufs :=
  mkBufs (param st) (exp_avg st) (exp_avg_sq st) (grad st) l.

(** [Vec::loadu(ptr + i)] for a register of [w] lanes, and [v.store(ptr + i)]. *)
Definition loadu (w : nat) (buf : list spec_float) (i : nat) : list spec_float :=
  take w (drop i buf).
Definition store (v : list spec_float) (buf : list spec_float) (i : nat) : list spec_float :=
  list_inserts i v buf.

(** [Vec(x)]: [x] in every lane. *)
Definition broadcast (w : nat) (x : spec_float) : list spec_float := replicate w x.

(** [Vectorized<T>::size()] is the register width in bytes over [sizeof(T)];
    the width is [k] 8-byte words ([k = 4] for 256-bit registers, [k = 8]
    for 512-bit ones). *)
Definition Vec_size (k : nat) (t : ScalarType) : nat :=
  match t with
  | kDouble => k
  | kFloat => 2 * k
  | kBFloat16 => 4 * k
  | kHalf => 4 * k
  end.

(** The loop [for (; d < stop; d += w) body(d)], started at [d], as the
    number of iterations left. *)
Fixpoint for_loop (body : nat -> Bufs -> Bufs) (w n d : nat) (st : Bufs) : Bufs :=
  match n with
  | O => st
  | S n' => for_loop body w n' (d + w) (body d st)
  end.

(** The two loops of [adam_math] on the shard that starts at [base] and
    holds [size] elements: [for (; d < size - (size % w); d += w)] runs
    [size / w] times from [d = 0], and [for (; d < size; d++)] goes on from
    there over the [size % w] elements left. *)
Definition two_loops (w : nat) (vec_body tail_body : nat -> Bufs -> Bufs)
    (base size : nat) (st : Bufs) : Bufs :=
  let st := for_loop (fun d => vec_body (base + d)) w (size / w) 0 st in
  for_loop (fun d => tail_body (base + d)) 1 (size mod w) (size - size mod w) st.

(** ** Math layer, float and double storage *)

Module Wide.
Section adam_math.
Variable Vec_size : nat.
Variable scalar_t : ScalarType.
Variable adam_mode : ADAM_MODE.
Variables lr step_size exp_avg_grad_coefficient exp_avg_sq_grad_coefficient
  bias_correction2_sqrt eps weight_decay beta2 : spec_float.
Variables amsgrad maximize : bool.
(** [grad_scale_ptr]: [None] for the null pointer, else the [float] it
    points to. *)
Variable grad_scale_ptr : option spec_float.

(** Here [opmath_t] is [scalar_t], so the casts [scalar_t(lr)],
    [scalar_t(eps)], ... of the source do nothing; only
    [scalar_t( *grad_scale_ptr)] converts, from [float].  The parameter
    [bias_correction2] of the source is not used by it. *)
Local Abbreviation fmt := (format_of scalar_t).
Local Abbreviation Vec := (broadcast Vec_size).
Local Notation "a +. b" := (zip_with (fadd fmt) a b) (at level 50, left associativity).
Local Notation "a -. b" := (zip_with (fsub fmt) a b) (at level 50, left associativity).
Local Notation "a *. b" := (zip_with (fmul fmt) a b) (at level 40, left associativity).
Local Notation "a /. b" := (zip_with (fdiv fmt) a b) (at level 40, left associativity).
Local Notation "a + b" := (fadd fmt a b).
Local Notation "a - b" := (fsub fmt a b).
Local Notation "a * b" := (fmul fmt a b).
Local Notation "a / b" := (fdiv fmt a b).

(** *** The vector loop, on the [Vec_size] elements from index [i] *)

(** Lines 178-184: the gradient is loaded, unscaled and stored back, then
    negated. *)
Definition vec_grad (i : nat) (st : Bufs) : list spec_float * Bufs :=
  let grad_vec := loadu Vec_size (grad st) i in
  let '(grad_vec, st) :=
    match grad_scale_ptr with
    | Some s =>
        let grad_vec := grad_vec /. Vec (convert kFloat scalar_t s) in
        let grad_vec_to_store := grad_vec in
        (grad_vec, set_grad st (store grad_vec_to_store (grad st) i))
    | None => (grad_vec, st)
    end in
  let grad_vec := if maximize then grad_vec *. Vec (minus_one fmt) else grad_vec in
  (grad_vec, st).

(** Lines 185-191. *)
Definition vec_weight_decay (grad_vec param_vec : list spec_float)
    : list spec_float * list spec_float :=
  if ne_zero weight_decay then
    match adam_mode with
    | ORIGINAL => (grad_vec +. param_vec *. Vec weight_decay, param_vec)
    | ADAMW => (grad_vec, param_vec -. Vec lr *. Vec weight_decay *. param_vec)
    end
  else (grad_vec, param_vec).

(** Lines 192-213. *)
Definition vec_update (i : nat) (grad_vec param_vec : list spec_float) (st : Bufs) : Bufs :=
  let exp_avg_vec := loadu Vec_size (exp_avg st) i in
  let exp_avg_vec := exp_avg_vec +. Vec exp_avg_grad_coefficient *. (grad_vec -. exp_avg_vec) in
  let exp_avg_sq_vec :=
    loadu Vec_size (exp_avg_sq st) i *. Vec beta2 +.
    Vec exp_avg_sq_grad_coefficient *. grad_vec *. grad_vec in
  let st := set_exp_avg st (store exp_avg_vec (exp_avg st) i) in
  let st := set_exp_avg_sq st (store exp_avg_sq_vec (exp_avg_sq st) i) in
  let '(denom_vec, st) :=
    if amsgrad then
      let max_exp_avg_sq_vec :=
        zip_with maximum (loadu Vec_size (max_exp_avg_sq st) i) exp_avg_sq_vec in
      let st := set_max_exp_avg_sq st (store max_exp_avg_sq_vec (max_exp_avg_sq st) i) in
      ((fsqrt fmt <$> max_exp_avg_sq_vec) /. Vec bias_correction2_sqrt +. Vec eps, st)
    else
      ((fsqrt fmt <$> exp_avg_sq_vec) /. Vec bias_correction2_sqrt +. Vec eps, st) in
  let param_vec := param_vec -. Vec step_size *. exp_avg_vec /. denom_vec in
  set_param st (store param_vec (param st) i).

(** Lines 177-213. *)
Definition vec_body (i : nat) (st : Bufs) : Bufs :=
  let param_vec := loadu Vec_size (param st) i in
  let '(grad_vec, st) := vec_grad i st in
  let '(grad_vec, param_vec) := vec_weight_decay grad_vec param_vec in
  vec_update i grad_vec param_vec st.

(** *** The tail loop, on the element of index [i] *)

(** Lines 217-223. *)
Definition tail_grad (i : nat) (st : Bufs) : spec_float * Bufs :=
  let grad_val := grad st !!! i in
  let '(grad_val, st) :=
    match grad_scale_ptr with
    | Some s =>
        let grad_val := grad st !!! i / convert kFloat scalar_t s in
        let grad_val_to_store := grad_val in
        (grad_val, set_grad st (<[i := grad_val_to_store]> (grad st)))
    | None => (grad_val, st)
    end in
  let grad_val := if maximize then fneg grad_val else grad_val in
  (grad_val, st).

(** Lines 224-230. *)
Definition tail_weight_decay (i : nat) (grad_val : spec_float) (st : Bufs)
    : spec_float * Bufs :=
  if ne_zero weight_decay then
    match adam_mode with
    | ORIGINAL => (grad_val + param st !!! i * weight_decay, st)
    | ADAMW =>
        (grad_val,
         set_param st (<[i := param st !!! i - lr * weight_decay * param st !!! i]> (param st)))
    end
  else (grad_val, st).

(** Lines 231-244. *)
Definition tail_update (i : nat) (grad_val : spec_float) (st : Bufs) : Bufs :=
  let st := set_exp_avg st
    (<[i := exp_avg st !!! i + exp_avg_grad_coefficient * (grad_val - exp_avg st !!! i)]>
       (exp_avg st)) in
  let st := set_exp_avg_sq st (<[i := exp_avg_sq st !!! i * beta2]> (exp_avg_sq st)) in
  let st := set_exp_avg_sq st
    (<[i := exp_avg_sq st !!! i + exp_avg_sq_grad_coefficient * grad_val * grad_val]>
       (exp_avg_sq st)) in
  let '(demon_val, st) :=
    if amsgrad then
      let st := set_max_exp_avg_sq st
        (<[i := std_max (max_exp_avg_sq st !!! i) (exp_avg_sq st !!! i)]> (max_exp_avg_sq st)) in
      (fsqrt fmt (max_exp_avg_sq st !!! i) / bias_correction2_sqrt + eps, st)
    else
      (fsqrt fmt (exp_avg_sq st !!! i) / bias_correction2_sqrt + eps, st) in
  set_param st (<[i := param st !!! i - step_size * exp_avg st !!! i / demon_val]> (param st)).

(** Lines 216-245. *)
Definition tail_body (i : nat) (st : Bufs) : Bufs :=
  let '(grad_val, st) := tail_grad i st in
  let '(grad_val, st) := tail_weight_decay i grad_val st in
  tail_update i grad_val st.

(** Lines 153-246. *)
Definition adam_math (base size : nat) (st : Bufs) : Bufs :=
  two_loops Vec_size vec_body tail_body base size st.

(** *** The variant without the weight-decay branch

    The same code with lines 185-191 and 224-230 taken out. *)

Definition vec_body_no_decay (i : nat) (st : Bufs) : Bufs :=
  let param_vec := loadu Vec_size (param st) i in
  let '(grad_vec, st) := vec_grad i st in
  vec_update i grad_vec param_vec st.

Definition tail_body_no_decay (i : nat) (st : Bufs) : Bufs :=
  let '(grad_val, st) := tail_grad i st in
  tail_update i grad_val st.

Definition adam_math_no_decay (base size : nat) (st : Bufs) : Bufs :=
  two_loops Vec_size vec_body_no_decay tail_body_no_decay base size st.
End adam_math.
End Wide.

(** ** Math layer, Half and BFloat16 storage with float arithmetic *)

Module Narrow.
Section adam_math.
(** [fVec_size] is [Vectorized<float>::size()]; a register of [scalar_t]
    has twice as many lanes. *)
Variable fVec_size : nat.
Variable scalar_t : ScalarType.
Variable adam_mode : ADAM_MODE.
Variables lr step_size exp_avg_grad_coefficient exp_avg_sq_grad_coefficient
  bias_correction2_sqrt eps weight_decay beta2 : spec_float.
Variables amsgrad maximize : bool.
Variable grad_scale_ptr : option spec_float.

(** [opmath_t] is [float]. *)
Local Abbreviation fmt := binary32.
Local Abbreviation lpVec_size := (2 * fVec_size)%nat.
Local Abbreviation fVec := (broadcast fVec_size).
Local Notation "a +. b" := (zip_with (fadd fmt) a b) (at level 50, left associativity).
Local Notation "a -. b" := (zip_with (fsub fmt) a b) (at level 50, left associativity).
Local Notation "a *. b" := (zip_with (fmul fmt) a b) (at level 40, left associativity).
Local Notation "a /. b" := (zip_with (fdiv fmt) a b) (at level 40, left associativity).
Local Notation "a + b" := (fadd fmt a b).
Local Notation "a - b" := (fsub fmt a b).
Local Notation "a * b" := (fmul fmt a b).
Local Notation "a / b" := (fdiv fmt a b).

(** [opmath_t(x)] for a [scalar_t], and [scalar_t(x)] for an [opmath_t]. *)
Definition to_opmath (x : spec_float) : spec_float := convert scalar_t kFloat x.
Definition to_scalar (x : spec_float) : spec_float := convert kFloat scalar_t x.

(** [vec::convert_to_float]: the low and the high half of the lanes,
    each widened to [float]; [vec::convert_from_float] packs two [float]
    registers back. *)
Definition convert_to_float (v : list spec_float) : list spec_float * list spec_float :=
  (to_opmath <$> take fVec_size v, to_opmath <$> drop fVec_size v).
Definition convert_from_float (v1 v2 : list spec_float) : list spec_float :=
  (to_scalar <$> v1) ++ (to_scalar <$> v2).

(** *** The vector loop, on the [lpVec_size] elements from index [i] *)

(** Lines 50-61. *)
Definition vec_grad (i : nat) (st : Bufs) : list spec_float * list spec_float * Bufs :=
  let grad_lpvec := loadu lpVec_size (grad st) i in
  let '(grad_vec1, grad_vec2) := convert_to_float grad_lpvec in
  let '(grad_vec1, grad_vec2, st) :=
    match grad_scale_ptr with
    | Some s =>
        let grad_vec1 := grad_vec1 /. fVec s in
        let grad_vec2 := grad_vec2 /. fVec s in
        let grad_vec_to_store := convert_from_float grad_vec1 grad_vec2 in
        (grad_vec1, grad_vec2, set_grad st (store grad_vec_to_store (grad st) i))
    | None => (grad_vec1, grad_vec2, st)
    end in
  if maximize then (grad_vec1 *. fVec (minus_one fmt), grad_vec2 *. fVec (minus_one fmt), st)
  else (grad_vec1, grad_vec2, st).

(** Lines 62-70. *)
Definition vec_weight_decay (grad_vec1 grad_vec2 param_vec1 param_vec2 : list spec_float)
    : list spec_float * list spec_float * list spec_float * list spec_float :=
  if ne_zero weight_decay then
    match adam_mode with
    | ORIGINAL =>
        (grad_vec1 +. param_vec1 *. fVec weight_decay,
         grad_vec2 +. param_vec2 *. fVec weight_decay,
         param_vec1, param_vec2)
    | ADAMW =>
        (grad_vec1, grad_vec2,
         param_vec1 -. fVec lr *. fVec weight_decay *. param_vec1,
         param_vec2 -. fVec lr *. fVec weight_decay *. param_vec2)
    end
  else (grad_vec1, grad_vec2, param_vec1, param_vec2).

(** Lines 72-106. *)
Definition vec_update (i : nat) (grad_vec1 grad_vec2 param_vec1 param_vec2 : list spec_float)
    (st : Bufs) : Bufs :=
  let exp_avg_lpvec := loadu lpVec_size (exp_avg st) i in
  let '(exp_avg_vec1, exp_avg_vec2) := convert_to_float exp_avg_lpvec in
  let exp_avg_vec1 :=
    exp_avg_vec1 +. fVec exp_avg_grad_coefficient *. (grad_vec1 -. exp_avg_vec1) in
  let exp_avg_vec2 :=
    exp_avg_vec2 +. fVec exp_avg_grad_coefficient *. (grad_vec1 -. exp_avg_vec2) in
  let exp_avg_sq_lpvec := loadu lpVec_size (exp_avg_sq st) i in
  let '(exp_avg_sq_vec1, exp_avg_sq_vec2) := convert_to_float exp_avg_sq_lpvec in
  let exp_avg_sq_vec1 :=
    exp_avg_sq_vec1 *. fVec beta2 +.
    fVec exp_avg_sq_grad_coefficient *. grad_vec1 *. grad_vec1 in
  let exp_avg_sq_vec2 :=
    exp_avg_sq_vec2 *. fVec beta2 +.
    fVec exp_avg_sq_grad_coefficient *. grad_vec2 *. grad_vec2 in
  let st := set_exp_avg st
    (store (convert_from_float exp_avg_vec1 exp_avg_vec2) (exp_avg st) i) in
  let st := set_exp_avg_sq st
    (store (convert_from_float exp_avg_sq_vec1 exp_avg_sq_vec2) (exp_avg_sq st) i) in
  let '(denom_vec1, denom_vec2, st) :=
    if amsgrad then
      let max_exp_avg_sq_lpvec := loadu lpVec_size (max_exp_avg_sq st) i in
      let '(max_exp_avg_sq_vec1, max_exp_avg_sq_vec2) :=
        convert_to_float max_exp_avg_sq_lpvec in
      let max_exp_avg_sq_vec1 := zip_with maximum max_exp_avg_sq_vec1 exp_avg_sq_vec1 in
      let max_exp_avg_sq_vec2 := zip_with maximum max_exp_avg_sq_vec2 exp_avg_sq_vec2 in
      let st := set_max_exp_avg_sq st
        (store (convert_from_float max_exp_avg_sq_vec1 max_exp_avg_sq_vec2)
           (max_exp_avg_sq st) i) in
      ((fsqrt fmt <$> max_exp_avg_sq_vec1) /. fVec bias_correction2_sqrt +. fVec eps,
       (fsqrt fmt <$> max_exp_avg_sq_vec2) /. fVec bias_correction2_sqrt +. fVec eps,
       st)
    else
      ((fsqrt fmt <$> exp_avg_sq_vec1) /. fVec bias_correction2_sqrt +. fVec eps,
       (fsqrt fmt <$> exp_avg_sq_vec2) /. fVec bias_correction2_sqrt +. fVec eps,
       st) in
  let param_vec1 := param_vec1 -. fVec step_size *. exp_avg_vec1 /. denom_vec1 in
  let param_vec2 := param_vec2 -. fVec step_size *. exp_avg_vec2 /. denom_vec2 in
  set_param st (store (convert_from_float param_vec1 param_vec2) (param st) i).

(** Lines 48-106. *)
Definition vec_body (i : nat) (st : Bufs) : Bufs :=
  let param_lpvec := loadu lpVec_size (param st) i in
  let '(param_vec1, param_vec2) := convert_to_float param_lpvec in
  let '(grad_vec1, grad_vec2, st) := vec_grad i st in
  let '(grad_vec1, grad_vec2, param_vec1, param_vec2) :=
    vec_weight_decay grad_vec1 grad_vec2 param_vec1 param_vec2 in
  vec_update i grad_vec1 grad_vec2 param_vec1 param_vec2 st.

(** *** The tail loop, on the element of index [i]

    A [scalar_t] operand of a [float] operation is widened first. *)

(** Lines 110, 112-117. *)
Definition tail_grad (i : nat) (st : Bufs) : spec_float * Bufs :=
  let grad_val := to_opmath (grad st !!! i) in
  let '(grad_val, st) :=
    match grad_scale_ptr with
    | Some s =>
        let grad_val := to_opmath (grad st !!! i) / s in
        let grad_val_to_store := to_scalar grad_val in
        (grad_val, set_grad st (<[i := grad_val_to_store]> (grad st)))
    | None => (grad_val, st)
    end in
  let grad_val := if maximize then fneg grad_val else grad_val in
  (grad_val, st).

(** Lines 118-124. *)
Definition tail_weight_decay (i : nat) (grad_val param_val : spec_float) (st : Bufs)
    : spec_float * spec_float :=
  if ne_zero weight_decay then
    match adam_mode with
    | ORIGINAL => (grad_val + to_opmath (param st !!! i) * weight_decay, param_val)
    | ADAMW => (grad_val, param_val - lr * weight_decay * param_val)
    end
  else (grad_val, param_val).

(** Lines 125-144. *)
Definition tail_update (i : nat) (grad_val param_val : spec_float) (st : Bufs) : Bufs :=
  let exp_avg_var := to_opmath (exp_avg st !!! i) in
  let exp_avg_var := exp_avg_var + exp_avg_grad_coefficient * (grad_val - exp_avg_var) in
  let st := set_exp_avg st (<[i := to_scalar exp_avg_var]> (exp_avg st)) in
  let exp_avg_sq_var := to_opmath (exp_avg_sq st !!! i) in
  let exp_avg_sq_var := exp_avg_sq_var * beta2 in
  let exp_avg_sq_var := exp_avg_sq_var + exp_avg_sq_grad_coefficient * grad_val * grad_val in
  let st := set_exp_avg_sq st (<[i := to_scalar exp_avg_sq_var]> (exp_avg_sq st)) in
  let '(demon_val, st) :=
    if amsgrad then
      let max_exp_avg_sq_var := to_opmath (max_exp_avg_sq st !!! i) in
      let max_exp_avg_sq_var := std_max max_exp_avg_sq_var exp_avg_sq_var in
      let st := set_max_exp_avg_sq st
        (<[i := to_scalar max_exp_avg_sq_var]> (max_exp_avg_sq st)) in
      (fsqrt fmt max_exp_avg_sq_var / bias_correction2_sqrt + eps, st)
    else
      (fsqrt fmt exp_avg_sq_var / bias_correction2_sqrt + eps, st) in
  set_param st
    (<[i := to_scalar (param_val - step_size * exp_avg_var / demon_val)]> (param st)).

(** Lines 109-145. *)
Definition tail_body (i : nat) (st : Bufs) : Bufs :=
  let param_val := to_opmath (param st !!! i) in
  let '(grad_val, st) := tail_grad i st in
  let '(grad_val, param_val) := tail_weight_decay i grad_val param_val st in
  tail_update i grad_val param_val st.

(** Lines 18-146. *)
Definition adam_math (base size : nat) (st : Bufs) : Bufs :=
  two_loops lpVec_size vec_body tail_body base size st.

(** *** The variant without the weight-decay branch

    The same code with lines 62-70 and 118-124 taken out. *)

Definition vec_body_no_decay (i : nat) (st : Bufs) : Bufs :=
  let param_lpvec := loadu lpVec_size (param st) i in
  let '(param_vec1, param_vec2) := convert_to_float param_lpvec in
  let '(grad_vec1, grad_vec2, st) := vec_grad i st in
  vec_update i grad_vec1 grad_vec2 param_vec1 param_vec2 st.

Definition tail_body_no_decay (i : nat) (st : Bufs) : Bufs :=
  let param_val := to_opmath (param st !!! i) in
  let '(grad_val, st) := tail_grad i st in
  tail_update i grad_val param_val st.

Definition adam_math_no_decay (base size : nat) (st : Bufs) : Bufs :=
  two_loops lpVec_size vec_body_no_decay tail_body_no_decay base size st.
End adam_math.
End Narrow.

(** ** Shard layer and entry layer *)

(** [at::parallel_for(0, numel, 0, f)] calls [f(begin, end)] once for every
    shard the runtime has cut the range into. *)
Definition parallel_for (shards : list (nat * nat)) (f : nat -> nat -> Bufs -> Bufs)
    (st : Bufs) : Bufs :=
  fold_left (fun st '(b, e) => f b e st) shards st.

(** The partitions of [[b, n)] into consecutive shards. *)
Fixpoint is_partition (b n : nat) (shards : list (nat * nat)) : Prop :=
  match shards with
  | [] => b = n
  | (b', e) :: rest => b' = b /\ b <= e /\ e <= n /\ is_partition e n rest
  end.

(** A tensor, as far as the kernel looks at it: its element type, the
    storage from [data_ptr()] on, [numel()], and the distance in storage
    between two consecutive elements (a one-dimensional strided view). *)
Record Tensor := mkTensor {
  scalar_type : ScalarType;
  data_ptr : list spec_float;
  numel : nat;
  stride : nat
}.

Definition is_contiguous (t : Tensor) : bool := (numel t <=? 1) || (stride t =? 1).

(** [t.contiguous()]: [t] itself when it is contiguous, else a fresh tensor
    holding the elements of [t] in order. *)
Definition contiguous (t : Tensor) : Tensor :=
  if is_contiguous t then t
  else mkTensor (scalar_type t)
         ((fun j => data_ptr t !!! (j * stride t)) <$> seq 0 (numel t)) (numel t) 1.

(** [t.item<float>()] of a one-element tensor. *)
Definition item_float (t : Tensor) : spec_float :=
  convert (scalar_type t) kFloat (data_ptr t !!! 0).

Definition one (t : ScalarType) : spec_float := SFone (prec (format_of t)) (emax (format_of t)).

(** The scalars of lines 274-279. *)
Record StepScalars := mkStepScalars {
  bias_correction1 : spec_float;
  step_size : spec_float;
  bias_correction2 : spec_float;
  exp_avg_grad_coefficient : spec_float;
  exp_avg_sq_grad_coefficient : spec_float;
  bias_correction2_sqrt : spec_float
}.

Section Kernel.
(** [std::pow] on [double]s belongs to the C library. *)
Variable std_pow : spec_float -> spec_float -> spec_float.
(** The register width, in 8-byte words, of the build. *)
Variable k : nat.
(** The shards [at::parallel_for] cuts [[0, numel)] into. *)
Variable shards : list (nat * nat).

Definition step_scalars (scalar_t : ScalarType) (step lr beta1 beta2 : spec_float) : StepScalars :=
  let opmath_t := opmath_type scalar_t in
  let bias_correction1 :=
    fsub binary64 (one kDouble) (std_pow beta1 (convert kFloat kDouble step)) in
  let step_size := convert kDouble opmath_t (fdiv binary64 lr bias_correction1) in
  let bias_correction2 :=
    convert kDouble opmath_t
      (fsub binary64 (one kDouble) (std_pow beta2 (convert kFloat kDouble step))) in
  let exp_avg_grad_coefficient := convert kDouble opmath_t (fsub binary64 (one kDouble) beta1) in
  let exp_avg_sq_grad_coefficient :=
    convert kDouble opmath_t (fsub binary64 (one kDouble) beta2) in
  let bias_correction2_sqrt := fsqrt (format_of opmath_t) bias_correction2 in
  mkStepScalars bias_correction1 step_size bias_correction2 exp_avg_grad_coefficient
    exp_avg_sq_grad_coefficient bias_correction2_sqrt.

(** The overload of [adam_math] that [scalar_t] selects; its [opmath_t]
    parameters are initialised from the [double]s of the caller. *)
Definition adam_math (scalar_t : ScalarType) (adam_mode : ADAM_MODE)
    (lr : spec_float) (sc : StepScalars) (eps weight_decay beta2 : spec_float)
    (amsgrad maximize : bool) (grad_scale_ptr : option spec_float)
    (base size : nat) (st : Bufs) : Bufs :=
  let opmath_t := opmath_type scalar_t in
  match scalar_t with
  | kHalf | kBFloat16 =>
      Narrow.adam_math (Vec_size k kFloat) scalar_t adam_mode
        (convert kDouble opmath_t lr) (step_size sc)
        (exp_avg_grad_coefficient sc) (exp_avg_sq_grad_coefficient sc)
        (bias_correction2_sqrt sc) (convert kDouble opmath_t eps)
        (convert kDouble opmath_t weight_decay) (convert kDouble opmath_t beta2)
        amsgrad maximize grad_scale_ptr base size st
  | kFloat | kDouble =>
      Wide.adam_math (Vec_size k scalar_t) scalar_t adam_mode
        (convert kDouble opmath_t lr) (step_size sc)
        (exp_avg_grad_coefficient sc) (exp_avg_sq_grad_coefficient sc)
        (bias_correction2_sqrt sc) (convert kDouble opmath_t eps)
        (convert kDouble opmath_t weight_decay) (convert kDouble opmath_t beta2)
        amsgrad maximize grad_scale_ptr base size st
  end.

(** Lines 250-314.  The result is the storage of the five tensors after
    the call. *)
Definition adam_fused_step_impl (scalar_t : ScalarType) (adam_mode : ADAM_MODE)
    (param grad exp_avg exp_avg_sq max_exp_avg_sq state_step : Tensor)
    (lr beta1 beta2 weight_decay eps : spec_float)
    (amsgrad maximize : bool) (grad_scale_ptr : option spec_float) : Bufs :=
  let step := item_float state_step in
  let param_data := data_ptr param in
  let exp_avg_data := data_ptr exp_avg in
  let exp_avg_sq_data := data_ptr exp_avg_sq in
  let max_exp_avg_sq_data := if amsgrad then data_ptr max_exp_avg_sq else [] in
  let grad_data := data_ptr grad in
  let sc := step_scalars scalar_t step lr beta1 beta2 in
  let st :=
    parallel_for shards
      (fun begin end_ =>
         let size := end_ - begin in
         adam_math scalar_t adam_mode lr sc eps weight_decay beta2 amsgrad maximize
           grad_scale_ptr begin size)
      (mkBufs param_data exp_avg_data exp_avg_sq_data grad_data max_exp_avg_sq_data) in
  if amsgrad then st else set_max_exp_avg_sq st (data_ptr max_exp_avg_sq).

(** Lines 316-342. *)
Definition fused_adam_kernel
    (param grad exp_avg exp_avg_sq max_exp_avg_sq state_step : Tensor)
    (lr beta1 beta2 weight_decay eps : spec_float)
    (amsgrad maximize : bool) (grad_scale_ptr : option spec_float)
    (adam_mode : ADAM_MODE) : Bufs :=
  let grad_contiguous := contiguous grad in
  match adam_mode with
  | ORIGINAL =>
      adam_fused_step_impl (scalar_type param) ORIGINAL param grad exp_avg exp_avg_sq
        max_exp_avg_sq state_step lr beta1 beta2 weight_decay eps amsgrad maximize
        grad_scale_ptr
  | ADAMW =>
      adam_fused_step_impl (scalar_type param) ADAMW param grad exp_avg exp_avg_sq
        max_exp_avg_sq state_step lr beta1 beta2 weight_decay eps amsgrad maximize
        grad_scale_ptr
  end.

(** *** The kernel without the weight-decay branch

    [adam_math], [adam_fused_step_impl] and [fused_adam_kernel] over the
    variants of the math layer in which the branch on [weight_decay] is
    taken out; neither [weight_decay] nor the mode is looked at any more. *)

Definition adam_math_no_decay (scalar_t : ScalarType)
    (sc : StepScalars) (eps beta2 : spec_float)
    (amsgrad maximize : bool) (grad_scale_ptr : option spec_float)
    (base size : nat) (st : Bufs) : Bufs :=
  let opmath_t := opmath_type scalar_t in
  match scalar_t with
  | kHalf | kBFloat16 =>
      Narrow.adam_math_no_decay (Vec_size k kFloat) scalar_t (step_size sc)
        (exp_avg_grad_coefficient sc) (exp_avg_sq_grad_coefficient sc)
        (bias_correction2_sqrt sc) (convert kDouble opmath_t eps)
        (convert kDouble opmath_t beta2)
        amsgrad maximize grad_scale_ptr base size st
  | kFloat | kDouble =>
      Wide.adam_math_no_decay (Vec_size k scalar_t) scalar_t (step_size sc)
        (exp_avg_grad_coefficient sc) (exp_avg_sq_grad_coefficient sc)
        (bias_correction2_sqrt sc) (convert kDouble opmath_t eps)
        (convert kDouble opmath_t beta2)
        amsgrad maximize grad_scale_ptr base size st
  end.

Definition adam_fused_step_impl_no_decay (scalar_t : ScalarType)
    (param grad exp_avg exp_avg_sq max_exp_avg_sq state_step : Tensor)
    (lr beta1 beta2 eps : spec_float)
    (amsgrad maximize : bool) (grad_scale_ptr : option spec_float) : Bufs :=
  let step := item_float state_step in
  let max_exp_avg_sq_data := if amsgrad then data_ptr max_exp_avg_sq else [] in
  let sc := step_scalars scalar_t step lr beta1 beta2 in
  let st :=
    parallel_for shards
      (fun begin end_ =>
         adam_math_no_decay scalar_t sc eps beta2 amsgrad maximize grad_scale_ptr
           begin (end_ - begin))
      (mkBufs (data_ptr param) (data_ptr exp_avg) (data_ptr exp_avg_sq) (data_ptr grad)
         max_exp_avg_sq_data) in
  if amsgrad then st else set_max_exp_avg_sq st (data_ptr max_exp_avg_sq).

Definition fused_adam_kernel_no_decay
    (param grad exp_avg exp_avg_sq max_exp_avg_sq state_step : Tensor)
    (lr beta1 beta2 eps : spec_float)
    (amsgrad maximize : bool) (grad_scale_ptr : option spec_float) : Bufs :=
  let grad_contiguous := contiguous grad in
  adam_fused_step_impl_no_decay (scalar_type param) param grad exp_avg exp_avg_sq
    max_exp_avg_sq state_step lr beta1 beta2 eps amsgrad maximize grad_scale_ptr.
End Kernel.

(** ** The order of execution of [adam_fused_step_impl]

    A run of lines 266-313 as the list of what it does, in order: the
    initialisation of each local scalar, with the type of the local and the
    value given to it, and each call of [adam_math], with its range and the
    per-step scalars it receives. *)

Inductive Local :=
  | L_step | L_bias_correction1 | L_step_size | L_bias_correction2
  | L_exp_avg_grad_coefficient | L_exp_avg_sq_grad_coefficient | L_bias_correction2_sqrt.

Inductive Event :=
  | Init (x : Local) (t : ScalarType) (v : spec_float)
  | Math (begin size : nat)
      (step_size bias_correction2 exp_avg_grad_coefficient exp_avg_sq_grad_coefficient
         bias_correction2_sqrt : spec_float).

(** A value together with what was done to get it. *)
Definition Traced (A : Type) : Type := (A * list Event)%type.

#[global] Instance traced_ret : MRet Traced := fun A a => (a, []).

#[global] Instance traced_bind : MBind Traced := fun A B f m =>
  let '(a, t) := m in
  let '(b, t') := f a in
  (b, t ++ t').

(** [T x = v;] for a local [x] of type [T]. *)
Definition init (x : Local) (t : ScalarType) (v : spec_float) : Traced spec_float :=
  (v, [Init x t v]).

(** [at::parallel_for] over a body that is traced. *)
Definition parallel_for_traced (shards : list (nat * nat))
    (f : nat -> nat -> Bufs -> Traced Bufs) (st : Bufs) : Traced Bufs :=
  fold_left (fun m '(b, e) => st ← m; f b e st) shards (mret st).

Section TracedKernel.
Variable std_pow : spec_float -> spec_float -> spec_float.
Variable k : nat.
Variable shards : list (nat * nat).

(** Lines 266 and 274-279. *)
Definition step_scalars_traced (scalar_t : ScalarType) (state_step : Tensor)
    (lr beta1 beta2 : spec_float) : Traced StepScalars :=
  let opmath_t := opmath_type scalar_t in
  step ← init L_step kFloat (item_float state_step);
  bias_correction1 ← init L_bias_correction1 kDouble
    (fsub binary64 (one kDouble) (std_pow beta1 (convert kFloat kDouble step)));
  step_size ← init L_step_size opmath_t
    (convert kDouble opmath_t (fdiv binary64 lr bias_correction1));
  bias_correction2 ← init L_bias_correction2 opmath_t
    (convert kDouble opmath_t
       (fsub binary64 (one kDouble) (std_pow beta2 (convert kFloat kDouble step))));
  exp_avg_grad_coefficient ← init L_exp_avg_grad_coefficient opmath_t
    (convert kDouble opmath_t (fsub binary64 (one kDouble) beta1));
  exp_avg_sq_grad_coefficient ← init L_exp_avg_sq_grad_coefficient opmath_t
    (convert kDouble opmath_t (fsub binary64 (one kDouble) beta2));
  bias_correction2_sqrt ← init L_bias_correction2_sqrt opmath_t
    (fsqrt (format_of opmath_t) bias_correction2);
  mret
    (mkStepScalars bias_correction1 step_size bias_correction2 exp_avg_grad_coefficient
       exp_avg_sq_grad_coefficient bias_correction2_sqrt).

(** Lines 250-314, traced. *)
Definition adam_fused_step_impl_traced (scalar_t : ScalarType) (adam_mode : ADAM_MODE)
    (param grad exp_avg exp_avg_sq max_exp_avg_sq state_step : Tensor)
    (lr beta1 beta2 weight_decay eps : spec_float)
    (amsgrad maximize : bool) (grad_scale_ptr : option spec_float) : Traced Bufs :=
  let param_data := data_ptr param in
  let exp_avg_data := data_ptr exp_avg in
  let exp_avg_sq_data := data_ptr exp_avg_sq in
  let max_exp_avg_sq_data := if amsgrad then data_ptr max_exp_avg_sq else [] in
  let grad_data := data_ptr grad in
  sc ← step_scalars_traced scalar_t state_step lr beta1 beta2;
  st ← parallel_for_traced shards
          (fun begin end_ st =>
             let size := end_ - begin in
             (adam_math k scalar_t adam_mode lr sc eps weight_decay beta2 amsgrad maximize
                grad_scale_ptr begin size st,
              [Math begin size (step_size sc) (bias_correction2 sc)
                 (exp_avg_grad_coefficient sc) (exp_avg_sq_grad_coefficient sc)
                 (bias_correction2_sqrt sc)]))
          (mkBufs param_data exp_avg_data exp_avg_sq_data grad_data max_exp_avg_sq_data);
  mret (if amsgrad then st else set_max_exp_avg_sq st (data_ptr max_exp_avg_sq)).
End TracedKernel.

(** ** Constants and a model of [std::pow] for the worked examples *)

Definition of_Z (f : Format) (z : Z) : spec_float :=
  binary_normalize (prec f) (emax f) z 0 false.

(** The [double] nearest to [n / 10^k]. *)
Definition dec (n : Z) (k : nat) : spec_float :=
  fdiv binary64 (of_Z binary64 n) (of_Z binary64 (10 ^ Z.of_nat k)).

(** The natural number a float stands for, if any. *)
Definition to_nat_opt (x : spec_float) : option nat :=
  match x with
  | S754_zero _ => Some 0
  | S754_finite false m e =>
      match e with
      | Zneg p => if (Zpos m mod 2 ^ Zpos p =? 0)%Z then Some (Z.to_nat (Zpos m / 2 ^ Zpos p)) else None
      | _ => Some (Z.to_nat (Zpos m * 2 ^ e))
      end
  | _ => None
  end.

(** [b^n] by [n] multiplications in [double]; exact for [n <= 1]. *)
Definition pow_model (b e : spec_float) : spec_float :=
  match to_nat_opt e with
  | Some n => Nat.iter n (fun x => fmul binary64 x b) (one kDouble)
  | None => S754_nan
  end.

(** ** Vocabulary of the properties *)

(** [g'] is [g] with [f] applied to the elements of indices [lo], ...,
    [hi - 1]. *)
Definition mapped (f : spec_float -> spec_float) (lo hi : nat) (g g' : list spec_float) : Prop :=
  forall j, g' !! j = if bool_decide (lo <= j < hi) then f <$> g !! j else g !! j.

(** What the unscaling stores back for a gradient [x]: [x / scale] in
    [opmath_t], converted to the storage type. *)
Definition unscale (scalar_t : ScalarType) (s x : spec_float) : spec_float :=
  match scalar_t with
  | kHalf | kBFloat16 =>
      Narrow.to_scalar scalar_t (fdiv binary32 (Narrow.to_opmath scalar_t x) s)
  | kFloat | kDouble => fdiv (format_of scalar_t) x (convert kFloat scalar_t s)
  end.

(** What a call does to the gradient buffer. *)
Definition grad_effect (scalar_t : ScalarType) (grad_scale_ptr : option spec_float)
    : spec_float -> spec_float :=
  match grad_scale_ptr with
  | Some s => unscale scalar_t s
  | None => id
  end.

(** [x] is a value of the type [t]: a finite one has a mantissa and an
    exponent of the format. *)
Definition valid_in (t : ScalarType) (x : spec_float) : Prop :=
  valid_binary (prec (format_of t)) (emax (format_of t)) x = true.

(** [m] and [e] are the mantissa and the exponent of a value of the
    format, but for the upper bound on the exponent. *)
Definition canonic (prec emax m e : Z) : Prop :=
  (SpecFloat.fexp prec emax (Zdigits2 m + e) = e)%Z.

(** The value [m * 2^e], counted in units of [2^E]. *)
Definition scaled (E m e : Z) : Z := (m * 2 ^ (e - E))%Z.

(** The tensor of the negated elements. *)
Definition neg_tensor (t : Tensor) : Tensor :=
  mkTensor (scalar_type t) (fneg <$> data_ptr t) (numel t) (stride t).

(** Two runs on gradient buffers that are negations of each other: the
    second state is the first one up to its gradient buffer. *)
Definition same_but_grad (g : list spec_float) (st st' : Bufs) : Prop :=
  grad st = g /\ st' = set_grad st (fneg <$> g).

(** [opmath_t(x)] and [scalar_t(x)]. *)
Definition to_op (t : ScalarType) (x : spec_float) : spec_float := convert t (opmath_type t) x.
Definition to_st (t : ScalarType) (x : spec_float) : spec_float := convert (opmath_type t) t x.

Definition same_lengths (st st' : Bufs) : Prop :=
  length (param st') = length (param st) /\
  length (exp_avg st') = length (exp_avg st) /\
  length (exp_avg_sq st') = length (exp_avg_sq st) /\
  length (grad st') = length (grad st) /\
  length (max_exp_avg_sq st') = length (max_exp_avg_sq st).

(** The AMSGrad step at index [j]: the new second moment [v], an
    [opmath_t], is stored; the stored maximum is the larger of the old one
    and [v].  When [opmath_t] is wider than [scalar_t], [v] is a value of
    [opmath_t]. *)
Definition ams_step (t : ScalarType) (st st' : Bufs) (j : nat) : Prop :=
  exists v a mx,
    (mx = maximum \/ mx = std_max) /\
    (opmath_type t = t \/ valid_in (opmath_type t) v) /\
    exp_avg_sq st' !! j = Some (to_st t v) /\
    max_exp_avg_sq st !! j = Some a /\
    max_exp_avg_sq st' !! j = Some (to_st t (mx (to_op t a) v)).

Definition ams_seg (t : ScalarType) (lo hi : nat) (st st' : Bufs) : Prop :=
  same_lengths st st' /\
  (forall j, lo <= j < hi -> ams_step t st st' j) /\
  (forall j, ~ lo <= j < hi ->
     exp_avg_sq st' !! j = exp_avg_sq st !! j /\
     max_exp_avg_sq st' !! j = max_exp_avg_sq st !! j).

(** The buffers the AMSGrad step reads hold at least [n] elements. *)
Definition long_enough (n : nat) (st : Bufs) : Prop :=
  n <= length (param st) /\ n <= length (grad st) /\
  n <= length (exp_avg_sq st) /\ n <= length (max_exp_avg_sq st).

(** The scalars as the specification words them: each one computed in
    double precision. *)
Definition step_scalars_in_double (std_pow : spec_float -> spec_float -> spec_float)
    (step lr beta1 beta2 : spec_float) : StepScalars :=
  let bias_correction1 :=
    fsub binary64 (one kDouble) (std_pow beta1 (convert kFloat kDouble step)) in
  let bias_correction2 :=
    fsub binary64 (one kDouble) (std_pow beta2 (convert kFloat kDouble step)) in
  mkStepScalars bias_correction1 (fdiv binary64 lr bias_correction1) bias_correction2
    (fsub binary64 (one kDouble) beta1) (fsub binary64 (one kDouble) beta2)
    (fsqrt binary64 bias_correction2).

(** ** Data of the worked examples *)

(** The value of type [t] nearest to the [double] nearest to [n / 10^k]. *)
Definition lit (t : ScalarType) (n : Z) (k : nat) : spec_float := convert kDouble t (dec n k).

(** A contiguous tensor. *)
Definition tensor (t : ScalarType) (l : list spec_float) : Tensor := mkTensor t l (length l) 1.
Definition zeros (t : ScalarType) (n : nat) : Tensor := tensor t (replicate n (S754_zero false)).

(** The step counter of the first step. *)
Definition first_step : Tensor := tensor kFloat [lit kFloat 1 0].

(** Sixteen [Half] gradients, [1] in the low half of the register and [2]
    in the high half. *)
Definition two_halves : Tensor :=
  tensor kHalf (replicate 8 (lit kHalf 1 0) ++ replicate 8 (lit kHalf 2 0)).

(** One step from zero on [two_halves], with 256-bit registers, for the
    given shards. *)
Definition run_two_halves (shards : list (nat * nat)) : Bufs :=
  fused_adam_kernel pow_model 4 shards (zeros kHalf 16) two_halves (zeros kHalf 16)
    (zeros kHalf 16) (tensor kHalf []) first_step
    (dec 1 3) (dec 9 1) (dec 999 3) (dec 0 0) (dec 1 8) false false None ORIGINAL.

(** The gradients [1; 2], stored two elements apart; the storage slot in
    between holds [9]. *)
Definition strided_grad : Tensor :=
  mkTensor kFloat [lit kFloat 1 0; lit kFloat 9 0; lit kFloat 2 0] 2 2.

(** One step from zero on two [float] elements. *)
Definition run_two (grad_t : Tensor) (grad_scale_ptr : option spec_float) : Bufs :=
  fused_adam_kernel pow_model 4 [(0, 2)] (zeros kFloat 2) grad_t (zeros kFloat 2)
    (zeros kFloat 2) (tensor kFloat []) first_step
    (dec 1 3) (dec 9 1) (dec 999 3) (dec 0 0) (dec 1 8) false false grad_scale_ptr ORIGINAL.

(** Scenario 1 of the specification. *)
Definition scenario1 : Bufs :=
  fused_adam_kernel pow_model 4 [(0, 1)] (tensor kFloat [lit kFloat 1 0])
    (tensor kFloat [lit kFloat 5 1]) (zeros kFloat 1) (zeros kFloat 1) (tensor kFloat [])
    first_step (dec 1 1) (dec 9 1) (dec 999 3) (dec 0 0) (dec 1 8) false false None ORIGINAL.

(** Scenario 4: nine gradients [128 * 3], scaled by [128]. *)
Definition scaled_grad : Tensor := tensor kFloat (replicate 9 (lit kFloat 384 0)).
Definition scenario4 (maximize : bool) : Bufs :=
  fused_adam_kernel pow_model 4 [(0, 4); (4, 9)] (zeros kFloat 9) scaled_grad (zeros kFloat 9)
    (zeros kFloat 9) (tensor kFloat []) first_step
    (dec 1 3) (dec 9 1) (dec 999 3) (dec 0 0) (dec 1 8) false maximize
    (Some (lit kFloat 128 0)) ORIGINAL.

(** Scenario 5: four gradients [1], maximized or negated. *)
Definition ones_grad : Tensor := tensor kFloat (replicate 4 (lit kFloat 1 0)).
Definition scenario5 (grad_t : Tensor) (maximize : bool) : Bufs :=
  fused_adam_kernel pow_model 4 [(0, 4)] (zeros kFloat 4) grad_t (zeros kFloat 4)
    (zeros kFloat 4) (tensor kFloat []) first_step
    (dec 1 0) (dec 9 1) (dec 999 3) (dec 0 0) (dec 1 8) false maximize None ORIGINAL.

(** An empty tensor. *)
Definition scenario_empty : Bufs :=
  fused_adam_kernel pow_model 4 [] (zeros kHalf 0) (zeros kHalf 0) (zeros kHalf 0)
    (zeros kHalf 0) (zeros kHalf 0) first_step
    (dec 1 3) (dec 9 1) (dec 999 3) (dec 1 2) (dec 1 8) true true
    (Some (lit kFloat 128 0)) ADAMW.

(** One element whose gradient is a NaN, with AMSGrad. *)
Definition scenario_nan : Bufs :=
  fused_adam_kernel pow_model 4 [(0, 1)] (zeros kFloat 1) (tensor kFloat [S754_nan])
    (zeros kFloat 1) (zeros kFloat 1) (tensor kFloat [lit kFloat 1 0]) first_step
    (dec 1 3) (dec 9 1) (dec 999 3) (dec 0 0) (dec 1 8) true false None ORIGINAL.

(** Seventeen [Half] elements with AMSGrad: one full register and one
    element of the tail loop. *)
Definition seventeen (x : spec_float) : Tensor := tensor kHalf (replicate 17 x).
Definition scenario_amsgrad : Bufs :=
  fused_adam_kernel pow_model 4 [(0, 17)] (seventeen (lit kHalf 1 0))
    (seventeen (lit kHalf 5 1)) (zeros kHalf 17) (zeros kHalf 17) (seventeen (lit kHalf 1 4))
    first_step (dec 1 3) (dec 9 1) (dec 999 3) (dec 0 0) (dec 1 8) true false None ORIGINAL.

(** ** Vocabulary of the element-wise view *)

(** The five buffers by name. *)
Inductive Buf := Param | ExpAvg | ExpAvgSq | Grad | MaxExpAvgSq.

(** The buffer of that name in a state. *)
Definition get (b : Buf) (st : Bufs) : list spec_float :=
  match b with
  | Param => param st
  | ExpAvg => exp_avg st
  | ExpAvgSq => exp_avg_sq st
  | Grad => grad st
  | MaxExpAvgSq => max_exp_avg_sq st
  end.

(** The one-element buffers that hold the elements of index [j]. *)
Definition elem_state (st : Bufs) (j : nat) : Bufs :=
  mkBufs [param st !!! j] [exp_avg st !!! j] [exp_avg_sq st !!! j] [grad st !!! j]
    [max_exp_avg_sq st !!! j].

(** [st'] is [st] after an element-wise pass over [[lo, hi)]: at an index
    of the range whose elements are [good], the buffers of [sel] hold what
    the one-element pass [T] makes of the elements of that index; outside
    the range nothing has changed. *)
Definition elem_seg (good : Bufs -> Prop) (sel : list Buf) (T : Bufs -> Bufs)
    (lo hi : nat) (st st' : Bufs) : Prop :=
  same_lengths st st' /\
  (forall j b, lo <= j < hi -> good (elem_state st j) -> b ∈ sel ->
     get b st' !! j = get b (T (elem_state st j)) !! 0) /\
  (forall j b, ~ lo <= j < hi -> get b st' !! j = get b st !! j).

(** The gradient of the element is a value of the storage type, and the
    gradient scale, when there is one, is a [float]. *)
Definition good_elem (t : ScalarType) (scale : option spec_float) (e : Bufs) : Prop :=
  valid_in t (grad e !!! 0) /\ (forall s, scale = Some s -> valid_in kFloat s).

(** The buffers the pass reads hold at least [n] elements. *)
Definition enough (ams : bool) (n : nat) (st : Bufs) : Prop :=
  n <= length (param st) /\ n <= length (exp_avg st) /\
  n <= length (exp_avg_sq st) /\ n <= length (grad st) /\
  (ams = true -> n <= length (max_exp_avg_sq st)).

(** The buffers that the two loops of the [float] and [double] overload
    update alike.  With [amsgrad] the vector loop takes [maximum] and the
    tail loop [std::max], which differ on NaNs and on zeros of opposite
    signs: [max_exp_avg_sq], and [param] with it, are left out then. *)
Definition wide_sel (amsgrad : bool) : list Buf :=
  [ExpAvg; ExpAvgSq; Grad] ++ (if amsgrad then [] else [Param]).

(** The buffers that the two loops of the [Half] and [BFloat16] overload
    update alike: line 75 sets [exp_avg], and [param] with it, apart. *)
Definition narrow_sel : list Buf := [ExpAvgSq; Grad].

(** The buffers that the overload chosen for [t] updates element by
    element in both of its loops. *)
Definition kernel_sel (t : ScalarType) (amsgrad : bool) : list Buf :=
  match t with
  | kHalf | kBFloat16 => narrow_sel
  | kFloat | kDouble => wide_sel amsgrad
  end.

(** The tail-loop body of the overload chosen for [scalar_t], at index 0,
    with the scalars as [adam_math] receives them. *)
Definition tail_step (scalar_t : ScalarType) (adam_mode : ADAM_MODE)
    (lr : spec_float) (sc : StepScalars) (eps weight_decay beta2 : spec_float)
    (amsgrad maximize : bool) (grad_scale_ptr : option spec_float) (e : Bufs) : Bufs :=
  let opmath_t := opmath_type scalar_t in
  match scalar_t with
  | kHalf | kBFloat16 =>
      Narrow.tail_body scalar_t adam_mode
        (convert kDouble opmath_t lr) (step_size sc)
        (exp_avg_grad_coefficient sc) (exp_avg_sq_grad_coefficient sc)
        (bias_correction2_sqrt sc) (convert kDouble opmath_t eps)
        (convert kDouble opmath_t weight_decay) (convert kDouble opmath_t beta2)
        amsgrad maximize grad_scale_ptr 0 e
  | kFloat | kDouble =>
      Wide.tail_body scalar_t adam_mode
        (convert kDouble opmath_t lr) (step_size sc)
        (exp_avg_grad_coefficient sc) (exp_avg_sq_grad_coefficient sc)
        (bias_correction2_sqrt sc) (convert kDouble opmath_t eps)
        (convert kDouble opmath_t weight_decay) (convert kDouble opmath_t beta2)
        amsgrad maximize grad_scale_ptr 0 e
  end.

(** The buffers [adam_fused_step_impl] hands to the shards. *)
Definition initial (amsgrad : bool)
    (param_t grad_t exp_avg_t exp_avg_sq_t max_exp_avg_sq_t : Tensor) : Bufs :=
  mkBufs (data_ptr param_t) (data_ptr exp_avg_t) (data_ptr exp_avg_sq_t) (data_ptr grad_t)
    (if amsgrad then data_ptr max_exp_avg_sq_t else []).

(** Two states that agree on every buffer but [param]. *)
Definition same_but_param (st st' : Bufs) : Prop :=
  exp_avg st = exp_avg st' /\ exp_avg_sq st = exp_avg_sq st' /\
  grad st = grad st' /\ max_exp_avg_sq st = max_exp_avg_sq st'.

(** [x] is a NaN or has the sign bit [s]. *)
Definition has_sign (s : bool) (x : spec_float) : Prop :=
  match x with
  | S754_nan => True
  | S754_zero s' | S754_infinity s' | S754_finite s' _ _ => s' = s
  end.

(** [x] is a NaN or its sign bit is clear. *)
Definition not_negative (x : spec_float) : Prop := has_sign false x.

(** The second state is the first one with every gradient negated; there
    are at least [n] gradients, and they are values of the type [t]. *)
Definition negated_grads (t : ScalarType) (n : nat) (st st' : Bufs) : Prop :=
  n <= length (grad st) /\ Forall (valid_in t) (grad st) /\
  st' = set_grad st (fneg <$> grad st).

(** On the old maximum and the new second moment of the element, the
    [maximum] of the vector loop and the [std::max] of the tail loop
    agree. *)
Definition agree_on_max (T : Bufs -> Bufs) (e : Bufs) : Prop :=
  maximum (max_exp_avg_sq e !!! 0) (exp_avg_sq (T e) !!! 0)
  = std_max (max_exp_avg_sq e !!! 0) (exp_avg_sq (T e) !!! 0).

(** The five buffers. *)
Definition all_bufs : list Buf := [Param; ExpAvg; ExpAvgSq; Grad; MaxExpAvgSq].

(** [x] is a zero, or a finite value [m * 2^e] of magnitude below
    [2^-150], half the least positive [float]. *)
Definition below_float (x : spec_float) : Prop :=
  match x with
  | S754_zero _ => True
  | S754_finite _ m e => (Z.pos (digits2_pos m) + e <= -150)%Z
  | _ => False
  end.

(** ** Data of the worked instances of the element-wise view *)

(** Three elements at the head of a storage of four. *)
Definition padded (t : ScalarType) (x : spec_float) : Tensor := mkTensor t (replicate 4 x) 3 1.

(** Two [float] tensors of different sizes whose last elements agree. *)
Definition two_floats : Tensor := tensor kFloat [lit kFloat 7 0; lit kFloat 3 0].
Definition three_floats : Tensor :=
  tensor kFloat [lit kFloat 1 0; lit kFloat 2 0; lit kFloat 3 0].

(** * Properties *)

(** ** Loops and shards *)

Lemma for_loop_ext (f g : nat -> Bufs -> Bufs) (w n d : nat) (st : Bufs) :
  (forall i s, f i s = g i s) -> for_loop f w n d st = for_loop g w n d st.
Proof.
  intros Hfg. revert d st.
  induction n as [|n IH]; intros d st; simpl; [reflexivity|].
  rewrite Hfg. apply IH.
Qed.

Lemma for_loop_invariant (P : Bufs -> Prop) (f : nat -> Bufs -> Bufs) (w n d : nat) (st : Bufs) :
  (forall i s, P s -> P (f i s)) -> P st -> P (for_loop f w n d st).
Proof.
  intros Hf. revert d st.
  induction n as [|n IH]; intros d st Hst; simpl; [assumption|].
  apply IH, Hf, Hst.
Qed.

Lemma two_loops_ext (w : nat) (v v' t t' : nat -> Bufs -> Bufs) (base size : nat) (st : Bufs) :
  (forall i s, v i s = v' i s) -> (forall i s, t i s = t' i s) ->
  two_loops w v t base size st = two_loops w v' t' base size st.
Proof.
  intros Hv Ht. unfold two_loops.
  rewrite (for_loop_ext (fun d => v (base + d)) (fun d => v' (base + d))) by (intros; apply Hv).
  apply for_loop_ext. intros; apply Ht.
Qed.

Lemma two_loops_invariant (P : Bufs -> Prop) (w : nat) (v t : nat -> Bufs -> Bufs)
    (base size : nat) (st : Bufs) :
  (forall i s, P s -> P (v i s)) -> (forall i s, P s -> P (t i s)) ->
  P st -> P (two_loops w v t base size st).
Proof.
  intros Hv Ht Hst. unfold two_loops.
  apply for_loop_invariant; [intros; apply Ht; assumption|].
  apply for_loop_invariant; [intros; apply Hv; assumption|assumption].
Qed.

Lemma two_loops_empty (w : nat) (v t : nat -> Bufs -> Bufs) (base : nat) (st : Bufs) :
  two_loops w v t base 0 st = st.
Proof.
  unfold two_loops. rewrite Nat.Div0.div_0_l, Nat.Div0.mod_0_l. reflexivity.
Qed.

Lemma parallel_for_ext (shards : list (nat * nat)) (f g : nat -> nat -> Bufs -> Bufs) (st : Bufs) :
  (forall b e s, f b e s = g b e s) -> parallel_for shards f st = parallel_for shards g st.
Proof.
  intros Hfg. unfold parallel_for. revert st.
  induction shards as [|[b e] shards IH]; intros st; simpl; [reflexivity|].
  rewrite Hfg. apply IH.
Qed.

Lemma parallel_for_invariant (P : Bufs -> Prop) (shards : list (nat * nat))
    (f : nat -> nat -> Bufs -> Bufs) (st : Bufs) :
  (forall b e s, P s -> P (f b e s)) -> P st -> P (parallel_for shards f st).
Proof.
  intros Hf. unfold parallel_for. revert st.
  induction shards as [|[b e] shards IH]; intros st Hst; simpl; [assumption|].
  apply IH, Hf, Hst.
Qed.

(** A partition of an empty range is made of empty shards only. *)
Lemma is_partition_empty (b : nat) (shards : list (nat * nat)) :
  is_partition b b shards -> Forall (fun s => s.2 - s.1 = 0) shards.
Proof.
  induction shards as [|[b' e] shards IH]; simpl; intros H; [constructor|].
  destruct H as (-> & Hle & Hle' & Hrest).
  assert (e = b) as -> by lia.
  constructor; [simpl; lia|apply IH, Hrest].
Qed.

(** ** An empty tensor *)

Lemma adam_math_empty k scalar_t adam_mode lr sc eps weight_decay beta2 amsgrad maximize
    grad_scale_ptr base st :
  adam_math k scalar_t adam_mode lr sc eps weight_decay beta2 amsgrad maximize
    grad_scale_ptr base 0 st = st.
Proof.
  unfold adam_math, Wide.adam_math, Narrow.adam_math.
  destruct scalar_t; apply two_loops_empty.
Qed.

Lemma parallel_for_empty_shards (shards : list (nat * nat)) (f : nat -> nat -> Bufs -> Bufs)
    (st : Bufs) :
  Forall (fun s => s.2 - s.1 = 0) shards ->
  (forall b e s, e - b = 0 -> f b e s = s) ->
  parallel_for shards f st = st.
Proof.
  intros Hall Hf. unfold parallel_for. revert st.
  induction Hall as [|[b e] shards Hbe _ IH]; intros st; simpl; [reflexivity|].
  rewrite Hf by exact Hbe. apply IH.
Qed.

(** C10: with [numel = 0] the call leaves the five buffers as they are,
    whatever the element type, the mode and the flags. *)
Theorem fused_adam_kernel_zero_numel std_pow k shards
    param grad exp_avg exp_avg_sq max_exp_avg_sq state_step
    lr beta1 beta2 weight_decay eps amsgrad maximize grad_scale_ptr adam_mode :
  numel param = 0 ->
  is_partition 0 (numel param) shards ->
  fused_adam_kernel std_pow k shards param grad exp_avg exp_avg_sq max_exp_avg_sq state_step
    lr beta1 beta2 weight_decay eps amsgrad maximize grad_scale_ptr adam_mode
  = mkBufs (data_ptr param) (data_ptr exp_avg) (data_ptr exp_avg_sq) (data_ptr grad)
      (data_ptr max_exp_avg_sq).
Proof.
  intros Hn Hp. rewrite Hn in Hp. apply is_partition_empty in Hp.
  assert (forall mode,
    adam_fused_step_impl std_pow k shards (scalar_type param) mode param grad exp_avg
      exp_avg_sq max_exp_avg_sq state_step lr beta1 beta2 weight_decay eps amsgrad maximize
      grad_scale_ptr
    = mkBufs (data_ptr param) (data_ptr exp_avg) (data_ptr exp_avg_sq) (data_ptr grad)
        (data_ptr max_exp_avg_sq)) as Himpl.
  { intros mode. unfold adam_fused_step_impl.
    rewrite parallel_for_empty_shards; [by destruct amsgrad|exact Hp|].
    intros b e s ->. apply adam_math_empty. }
  unfold fused_adam_kernel. destruct adam_mode; apply Himpl.
Qed.

(** ** No weight decay *)

Lemma ne_zero_convert_zero (from to : ScalarType) (s : bool) :
  ne_zero (convert from to (S754_zero s)) = false.
Proof. unfold convert. by destruct (ScalarType_eqb from to). Qed.

Lemma Wide_adam_math_no_decay w scalar_t adam_mode lr step_size coef1 coef2 bc2_sqrt eps
    weight_decay beta2 amsgrad maximize grad_scale_ptr base size st :
  ne_zero weight_decay = false ->
  Wide.adam_math w scalar_t adam_mode lr step_size coef1 coef2 bc2_sqrt eps weight_decay beta2
    amsgrad maximize grad_scale_ptr base size st
  = Wide.adam_math_no_decay w scalar_t step_size coef1 coef2 bc2_sqrt eps beta2
      amsgrad maximize grad_scale_ptr base size st.
Proof.
  intros Hwd. unfold Wide.adam_math, Wide.adam_math_no_decay.
  apply two_loops_ext; intros i s.
  - unfold Wide.vec_body, Wide.vec_body_no_decay, Wide.vec_weight_decay.
    rewrite Hwd. by destruct (Wide.vec_grad _ _ _ _ _ _).
  - unfold Wide.tail_body, Wide.tail_body_no_decay, Wide.tail_weight_decay.
    rewrite Hwd. by destruct (Wide.tail_grad _ _ _ _ _).
Qed.

Lemma Narrow_adam_math_no_decay w scalar_t adam_mode lr step_size coef1 coef2 bc2_sqrt eps
    weight_decay beta2 amsgrad maximize grad_scale_ptr base size st :
  ne_zero weight_decay = false ->
  Narrow.adam_math w scalar_t adam_mode lr step_size coef1 coef2 bc2_sqrt eps weight_decay beta2
    amsgrad maximize grad_scale_ptr base size st
  = Narrow.adam_math_no_decay w scalar_t step_size coef1 coef2 bc2_sqrt eps beta2
      amsgrad maximize grad_scale_ptr base size st.
Proof.
  intros Hwd. unfold Narrow.adam_math, Narrow.adam_math_no_decay.
  apply two_loops_ext; intros i s.
  - unfold Narrow.vec_body, Narrow.vec_body_no_decay, Narrow.vec_weight_decay.
    rewrite Hwd. destruct (Narrow.convert_to_float _ _ _) as [p1 p2].
    by destruct (Narrow.vec_grad _ _ _ _ _ _) as [[g1 g2] s'].
  - unfold Narrow.tail_body, Narrow.tail_body_no_decay, Narrow.tail_weight_decay.
    rewrite Hwd. by destruct (Narrow.tail_grad _ _ _ _ _).
Qed.

(** C6: with [weight_decay = 0] (of either sign) the kernel leaves in the
    five buffers exactly what the kernel without the weight-decay branch
    leaves there. *)
Theorem fused_adam_kernel_zero_weight_decay std_pow k shards
    param grad exp_avg exp_avg_sq max_exp_avg_sq state_step
    lr beta1 beta2 eps amsgrad maximize grad_scale_ptr adam_mode (s : bool) :
  fused_adam_kernel std_pow k shards param grad exp_avg exp_avg_sq max_exp_avg_sq state_step
    lr beta1 beta2 (S754_zero s) eps amsgrad maximize grad_scale_ptr adam_mode
  = fused_adam_kernel_no_decay std_pow k shards param grad exp_avg exp_avg_sq max_exp_avg_sq
      state_step lr beta1 beta2 eps amsgrad maximize grad_scale_ptr.
Proof.
  assert (forall mode,
    adam_fused_step_impl std_pow k shards (scalar_type param) mode param grad exp_avg
      exp_avg_sq max_exp_avg_sq state_step lr beta1 beta2 (S754_zero s) eps amsgrad maximize
      grad_scale_ptr
    = adam_fused_step_impl_no_decay std_pow k shards (scalar_type param) param grad exp_avg
        exp_avg_sq max_exp_avg_sq state_step lr beta1 beta2 eps amsgrad maximize
        grad_scale_ptr) as Himpl.
  { intros mode. unfold adam_fused_step_impl, adam_fused_step_impl_no_decay.
    erewrite parallel_for_ext; [reflexivity|].
    intros b e st. unfold adam_math, adam_math_no_decay.
    destruct (scalar_type param);
      first [apply Wide_adam_math_no_decay | apply Narrow_adam_math_no_decay];
      apply ne_zero_convert_zero. }
  unfold fused_adam_kernel, fused_adam_kernel_no_decay. destruct adam_mode; apply Himpl.
Qed.

(** ** The gradient buffer *)

Lemma mapped_refl f lo g : mapped f lo lo g g.
Proof. intros j. rewrite bool_decide_eq_false_2 by lia. reflexivity. Qed.

Lemma mapped_trans f lo mid hi g g' g'' :
  lo <= mid <= hi -> mapped f lo mid g g' -> mapped f mid hi g' g'' -> mapped f lo hi g g''.
Proof.
  intros Hle H1 H2 j. rewrite (H2 j), (H1 j).
  repeat case_bool_decide; try reflexivity; lia.
Qed.

Lemma mapped_store f w g i : mapped f i (i + w) g (store (f <$> loadu w g i) g i).
Proof.
  intros j. unfold store, loadu.
  case_bool_decide as Hj.
  - destruct (decide (j < length g)) as [Hlt|Hge].
    + rewrite list_lookup_inserts.
      * rewrite list_lookup_fmap, lookup_take_lt, lookup_drop by lia.
        do 2 f_equal. lia.
      * rewrite length_fmap, length_take, length_drop. lia.
      * exact Hlt.
    + rewrite (proj2 (lookup_ge_None g j)) by lia.
      apply lookup_ge_None. rewrite length_inserts. lia.
  - destruct (decide (j < i)).
    + by apply list_lookup_inserts_lt.
    + apply list_lookup_inserts_ge.
      rewrite length_fmap, length_take, length_drop. lia.
Qed.

Lemma mapped_insert f g i : mapped f i (i + 1) g (<[i := f (g !!! i)]> g).
Proof.
  intros j. case_bool_decide as Hj.
  - assert (j = i) as -> by lia.
    destruct (decide (i < length g)) as [Hlt|Hge].
    + rewrite list_lookup_insert_eq by exact Hlt.
      destruct (lookup_lt_is_Some_2 g i Hlt) as [x Hx].
      rewrite Hx. simpl. f_equal. f_equal. by apply list_lookup_total_correct.
    + rewrite list_insert_ge by lia.
      rewrite (proj2 (lookup_ge_None g i)) by lia. reflexivity.
  - apply list_lookup_insert_ne. lia.
Qed.

Lemma for_loop_mapped f (body : nat -> Bufs -> Bufs) (w n d base : nat) (st : Bufs) :
  (forall i s, mapped f (base + i) (base + i + w) (grad s) (grad (body i s))) ->
  mapped f (base + d) (base + d + n * w) (grad st) (grad (for_loop body w n d st)).
Proof.
  intros Hbody. revert d st.
  induction n as [|n IH]; intros d st; simpl.
  - rewrite Nat.add_0_r. apply mapped_refl.
  - eapply (mapped_trans f _ (base + d + w)); [lia|apply Hbody|].
    replace (base + d + (w + n * w)) with (base + (d + w) + n * w) by lia.
    replace (base + d + w) with (base + (d + w)) by lia.
    apply IH.
Qed.

Lemma two_loops_mapped f (w : nat) (v t : nat -> Bufs -> Bufs) (base size : nat) (st : Bufs) :
  (forall i s, mapped f i (i + w) (grad s) (grad (v i s))) ->
  (forall i s, mapped f i (i + 1) (grad s) (grad (t i s))) ->
  mapped f base (base + size) (grad st) (grad (two_loops w v t base size st)).
Proof.
  intros Hv Ht. unfold two_loops.
  pose proof (Nat.div_mod_eq size w) as Hdm.
  pose proof (Nat.Div0.mod_le size w) as Hle.
  eapply (mapped_trans f _ (base + (size - size mod w))); [lia| |].
  - pose proof (for_loop_mapped f (fun d => v (base + d)) w (size / w) 0 base st) as H.
    rewrite Nat.add_0_r in H.
    replace (base + (size - size mod w)) with (base + size / w * w) by lia.
    apply H. intros i s. apply Hv.
  - pose proof (for_loop_mapped f (fun d => t (base + d)) 1 (size mod w)
                  (size - size mod w) base) as H.
    replace (base + size) with (base + (size - size mod w) + size mod w * 1) by lia.
    apply H. intros i s. apply Ht.
Qed.

Lemma parallel_for_mapped f (shards : list (nat * nat)) (body : nat -> nat -> Bufs -> Bufs)
    (b n : nat) (st : Bufs) :
  is_partition b n shards ->
  (forall lo hi s, lo <= hi -> mapped f lo hi (grad s) (grad (body lo hi s))) ->
  mapped f b n (grad st) (grad (parallel_for shards body st)).
Proof.
  intros Hp Hbody. unfold parallel_for. revert b st Hp.
  induction shards as [|[b' e] shards IH]; simpl; intros b st Hp.
  - subst. apply mapped_refl.
  - destruct Hp as (-> & Hbe & Hen & Hrest).
    eapply (mapped_trans f _ e); [lia|by apply Hbody|by apply IH].
Qed.

Lemma mapped_id lo hi g : mapped id lo hi g g.
Proof. intros j. case_bool_decide; [|reflexivity]. by destruct (g !! j). Qed.

Section WideGrad.
Variables (w : nat) (t : ScalarType) (mode : ADAM_MODE).
Variables (lr ss c1 c2 bcs eps wd b2 : spec_float) (ams mx : bool) (scale : option spec_float).

Local Abbreviation f := (match scale with
                         | Some s => fun x => fdiv (format_of t) x (convert kFloat t s)
                         | None => id
                         end).

Lemma Wide_vec_update_grad i gv pv st :
  grad (Wide.vec_update w t ss c1 c2 bcs eps b2 ams i gv pv st) = grad st.
Proof. unfold Wide.vec_update. by destruct ams. Qed.

Lemma Wide_tail_update_grad i g st :
  grad (Wide.tail_update t ss c1 c2 bcs eps b2 ams i g st) = grad st.
Proof. unfold Wide.tail_update. by destruct ams. Qed.

Lemma Wide_tail_weight_decay_grad i g st :
  grad (Wide.tail_weight_decay t mode lr wd i g st).2 = grad st.
Proof. unfold Wide.tail_weight_decay. by destruct (ne_zero wd), mode. Qed.

Lemma Wide_vec_body_grad i st :
  mapped f i (i + w) (grad st)
    (grad (Wide.vec_body w t mode lr ss c1 c2 bcs eps wd b2 ams mx scale i st)).
Proof.
  unfold Wide.vec_body, Wide.vec_grad.
  destruct scale as [s|].
  - destruct (Wide.vec_weight_decay _ _ _ _ _ _ _) as [gv pv].
    rewrite Wide_vec_update_grad. simpl.
    unfold broadcast. rewrite zip_with_replicate_r.
    + apply mapped_store.
    + unfold loadu. rewrite length_take. lia.
  - destruct (Wide.vec_weight_decay _ _ _ _ _ _ _) as [gv pv].
    rewrite Wide_vec_update_grad. apply mapped_id.
Qed.

Lemma Wide_tail_body_grad i st :
  mapped f i (i + 1) (grad st)
    (grad (Wide.tail_body t mode lr ss c1 c2 bcs eps wd b2 ams mx scale i st)).
Proof.
  unfold Wide.tail_body, Wide.tail_grad.
  destruct scale as [s|].
  - destruct (Wide.tail_weight_decay _ _ _ _ _ _ _) as [g st'] eqn:Hwd.
    rewrite Wide_tail_update_grad.
    change st' with (g, st').2. rewrite <- Hwd, Wide_tail_weight_decay_grad. simpl.
    apply (mapped_insert (fun x => fdiv (format_of t) x (convert kFloat t s))).
  - destruct (Wide.tail_weight_decay _ _ _ _ _ _ _) as [g st'] eqn:Hwd.
    rewrite Wide_tail_update_grad.
    change st' with (g, st').2. rewrite <- Hwd, Wide_tail_weight_decay_grad.
    apply mapped_id.
Qed.
End WideGrad.

Section NarrowGrad.
Variables (h : nat) (t : ScalarType) (mode : ADAM_MODE).
Variables (lr ss c1 c2 bcs eps wd b2 : spec_float) (ams mx : bool) (scale : option spec_float).

Local Abbreviation f := (match scale with
                         | Some s => fun x =>
                             Narrow.to_scalar t (fdiv binary32 (Narrow.to_opmath t x) s)
                         | None => id
                         end).

Lemma Narrow_vec_update_grad i g1 g2 p1 p2 st :
  grad (Narrow.vec_update h t ss c1 c2 bcs eps b2 ams i g1 g2 p1 p2 st) = grad st.
Proof.
  unfold Narrow.vec_update.
  repeat match goal with |- context [Narrow.convert_to_float ?a ?b ?c] =>
    destruct (Narrow.convert_to_float a b c) end.
  by destruct ams.
Qed.

Lemma Narrow_tail_update_grad i g p st :
  grad (Narrow.tail_update t ss c1 c2 bcs eps b2 ams i g p st) = grad st.
Proof. unfold Narrow.tail_update. by destruct ams. Qed.

(** Both halves of a register are unscaled lane by lane. *)
Lemma Narrow_unscale_chunk s (l : list spec_float) :
  length l <= 2 * h ->
  Narrow.convert_from_float t
    (zip_with (fdiv binary32) (Narrow.convert_to_float h t l).1 (broadcast h s))
    (zip_with (fdiv binary32) (Narrow.convert_to_float h t l).2 (broadcast h s))
  = (fun x => Narrow.to_scalar t (fdiv binary32 (Narrow.to_opmath t x) s)) <$> l.
Proof.
  intros Hl. unfold Narrow.convert_from_float, Narrow.convert_to_float, broadcast. simpl.
  rewrite !zip_with_replicate_r
    by (rewrite length_fmap, ?length_take, ?length_drop; lia).
  rewrite <- !list_fmap_compose, <- fmap_app, take_drop. reflexivity.
Qed.

Lemma Narrow_vec_body_grad i st :
  mapped f i (i + 2 * h) (grad st)
    (grad (Narrow.vec_body h t mode lr ss c1 c2 bcs eps wd b2 ams mx scale i st)).
Proof.
  unfold Narrow.vec_body, Narrow.vec_grad.
  destruct (Narrow.convert_to_float h t (loadu (2 * h) (param st) i)) as [p1 p2].
  pose proof (Narrow_unscale_chunk) as Hchunk.
  destruct (Narrow.convert_to_float h t (loadu (2 * h) (grad st) i)) as [g1 g2] eqn:Hg.
  destruct scale as [s|].
  - specialize (Hchunk s (loadu (2 * h) (grad st) i)).
    rewrite Hg in Hchunk. simpl in Hchunk.
    assert (length (loadu (2 * h) (grad st) i) <= 2 * h) as Hlen
      by (unfold loadu; rewrite length_take; lia).
    specialize (Hchunk Hlen).
    destruct mx;
      destruct (Narrow.vec_weight_decay _ _ _ _ _ _ _ _) as [[[g1' g2'] p1'] p2'];
      rewrite Narrow_vec_update_grad; simpl; rewrite Hchunk; apply mapped_store.
  - destruct mx;
      destruct (Narrow.vec_weight_decay _ _ _ _ _ _ _ _) as [[[g1' g2'] p1'] p2'];
      rewrite Narrow_vec_update_grad; apply mapped_id.
Qed.

Lemma Narrow_tail_body_grad i st :
  mapped f i (i + 1) (grad st)
    (grad (Narrow.tail_body t mode lr ss c1 c2 bcs eps wd b2 ams mx scale i st)).
Proof.
  unfold Narrow.tail_body, Narrow.tail_grad.
  destruct scale as [s|].
  - destruct (Narrow.tail_weight_decay _ _ _ _ _ _ _ _) as [g p].
    rewrite Narrow_tail_update_grad. simpl.
    apply (mapped_insert
             (fun x => Narrow.to_scalar t (fdiv binary32 (Narrow.to_opmath t x) s))).
  - destruct (Narrow.tail_weight_decay _ _ _ _ _ _ _ _) as [g p].
    rewrite Narrow_tail_update_grad. apply mapped_id.
Qed.
End NarrowGrad.

(** A shard applies [grad_effect] to its own elements of the gradient
    buffer and leaves the others alone. *)
Lemma adam_math_grad k scalar_t adam_mode lr sc eps weight_decay beta2 amsgrad maximize
    grad_scale_ptr base size st :
  mapped (grad_effect scalar_t grad_scale_ptr) base (base + size) (grad st)
    (grad (adam_math k scalar_t adam_mode lr sc eps weight_decay beta2 amsgrad maximize
             grad_scale_ptr base size st)).
Proof.
  unfold adam_math, Wide.adam_math, Narrow.adam_math, grad_effect, unscale.
  destruct scalar_t; apply two_loops_mapped; intros i s;
    first [ apply Wide_vec_body_grad | apply Wide_tail_body_grad
          | apply Narrow_vec_body_grad | apply Narrow_tail_body_grad ].
Qed.

Lemma fused_adam_kernel_grad std_pow k shards
    param grad_t exp_avg exp_avg_sq max_exp_avg_sq state_step
    lr beta1 beta2 weight_decay eps amsgrad maximize grad_scale_ptr adam_mode :
  is_partition 0 (numel param) shards ->
  mapped (grad_effect (scalar_type param) grad_scale_ptr) 0 (numel param) (data_ptr grad_t)
    (grad (fused_adam_kernel std_pow k shards param grad_t exp_avg exp_avg_sq max_exp_avg_sq
             state_step lr beta1 beta2 weight_decay eps amsgrad maximize grad_scale_ptr
             adam_mode)).
Proof.
  intros Hp.
  assert (forall mode,
    mapped (grad_effect (scalar_type param) grad_scale_ptr) 0 (numel param) (data_ptr grad_t)
      (grad (adam_fused_step_impl std_pow k shards (scalar_type param) mode param grad_t
               exp_avg exp_avg_sq max_exp_avg_sq state_step lr beta1 beta2 weight_decay eps
               amsgrad maximize grad_scale_ptr))) as Himpl.
  { intros mode. unfold adam_fused_step_impl.
    match goal with |- mapped _ _ _ _ (grad (if amsgrad then ?s else _)) =>
      assert (grad (if amsgrad then s else set_max_exp_avg_sq s (data_ptr max_exp_avg_sq))
              = grad s) as -> by (by destruct amsgrad) end.
    match goal with |- mapped _ _ _ ?g (grad (parallel_for _ ?body ?st)) =>
      change g with (grad st) end.
    apply parallel_for_mapped; [exact Hp|].
    intros lo hi s Hle.
    replace hi with (lo + (hi - lo)) at 1 by lia.
    apply adam_math_grad. }
  unfold fused_adam_kernel. destruct adam_mode; apply Himpl.
Qed.

(** C4: when a gradient scale is given, every gradient is replaced by its
    quotient by the scale, computed in [opmath_t] and stored in the storage
    type; the [maximize] flag plays no part in the stored value. *)
Theorem unscale_write_back std_pow k shards
    param grad_t exp_avg exp_avg_sq max_exp_avg_sq state_step
    lr beta1 beta2 weight_decay eps amsgrad maximize (s : spec_float) adam_mode (d : nat) :
  is_partition 0 (numel param) shards ->
  d < numel param ->
  grad (fused_adam_kernel std_pow k shards param grad_t exp_avg exp_avg_sq max_exp_avg_sq
          state_step lr beta1 beta2 weight_decay eps amsgrad maximize (Some s) adam_mode) !! d
  = unscale (scalar_type param) s <$> data_ptr grad_t !! d.
Proof.
  intros Hp Hd.
  rewrite (fused_adam_kernel_grad std_pow k shards param grad_t exp_avg exp_avg_sq
             max_exp_avg_sq state_step lr beta1 beta2 weight_decay eps amsgrad maximize
             (Some s) adam_mode Hp d).
  rewrite bool_decide_eq_true_2 by lia. reflexivity.
Qed.

Lemma adam_math_grad_unscaled k scalar_t adam_mode lr sc eps weight_decay beta2 amsgrad maximize
    base size st :
  grad (adam_math k scalar_t adam_mode lr sc eps weight_decay beta2 amsgrad maximize
          None base size st) = grad st.
Proof.
  apply list_eq. intros j.
  rewrite (adam_math_grad k scalar_t adam_mode lr sc eps weight_decay beta2 amsgrad maximize
             None base size st j).
  simpl. case_bool_decide; [|reflexivity]. by destruct (grad st !! j).
Qed.

(** C9: without a gradient scale the gradient buffer comes back as it was,
    whatever the shards; with one, every element of the buffer is
    overwritten with the unscaled gradient. *)
Theorem grad_written_iff_scaled std_pow k shards
    param grad_t exp_avg exp_avg_sq max_exp_avg_sq state_step
    lr beta1 beta2 weight_decay eps amsgrad maximize adam_mode :
  grad (fused_adam_kernel std_pow k shards param grad_t exp_avg exp_avg_sq max_exp_avg_sq
          state_step lr beta1 beta2 weight_decay eps amsgrad maximize None adam_mode)
  = data_ptr grad_t
  /\ (is_partition 0 (numel param) shards ->
      forall s d, d < numel param ->
        grad (fused_adam_kernel std_pow k shards param grad_t exp_avg exp_avg_sq
                max_exp_avg_sq state_step lr beta1 beta2 weight_decay eps amsgrad maximize
                (Some s) adam_mode) !! d
        = unscale (scalar_type param) s <$> data_ptr grad_t !! d).
Proof.
  split.
  - assert (forall mode,
      grad (adam_fused_step_impl std_pow k shards (scalar_type param) mode param grad_t
              exp_avg exp_avg_sq max_exp_avg_sq state_step lr beta1 beta2 weight_decay eps
              amsgrad maximize None) = data_ptr grad_t) as Himpl.
    { intros mode. unfold adam_fused_step_impl.
      match goal with |- grad (if amsgrad then ?s else _) = _ =>
        assert (grad (if amsgrad then s else set_max_exp_avg_sq s (data_ptr max_exp_avg_sq))
                = grad s) as -> by (by destruct amsgrad) end.
      apply (parallel_for_invariant (fun st => grad st = data_ptr grad_t)); [|reflexivity].
      intros b e st Hst. by rewrite adam_math_grad_unscaled. }
    unfold fused_adam_kernel. destruct adam_mode; apply Himpl.
  - intros Hp s d Hd.
    rewrite (fused_adam_kernel_grad std_pow k shards param grad_t exp_avg exp_avg_sq
               max_exp_avg_sq state_step lr beta1 beta2 weight_decay eps amsgrad maximize
               (Some s) adam_mode Hp d).
    rewrite bool_decide_eq_true_2 by lia. reflexivity.
Qed.

(** ** Arithmetic facts *)

Lemma round_to_opp f x : round_to f (SFopp x) = SFopp (round_to f x).
Proof.
  destruct x as [s|s| |s m e]; try reflexivity.
  simpl. unfold binary_round.
  destruct (shl_align m e _) as [mz ez].
  unfold binary_round_aux.
  destruct (shr_fexp _ _ (Z.pos mz) ez loc_Exact) as [mrs' e'].
  destruct (shr_fexp _ _ _ e' loc_Exact) as [mrs'' e''].
  destruct (shr_m mrs''); try reflexivity.
  by destruct (Z.leb e'' _).
Qed.

Lemma convert_opp a b x : convert a b (SFopp x) = SFopp (convert a b x).
Proof. unfold convert. destruct (ScalarType_eqb a b); [reflexivity|apply round_to_opp]. Qed.

Section Iter.
Context {A : Type} (f : A -> A).

Lemma iter_pos_comm (p : positive) (x : A) : SpecFloat.iter_pos f p (f x) = f (SpecFloat.iter_pos f p x).
Proof.
  revert x. induction p as [p IH|p IH|]; intros x; simpl; [|by rewrite !IH|reflexivity].
  by rewrite !IH.
Qed.

Lemma iter_pos_succ (p : positive) (x : A) : SpecFloat.iter_pos f (Pos.succ p) x = SpecFloat.iter_pos f p (f x).
Proof.
  revert x. induction p as [p IH|p IH|]; intros x; simpl.
  - rewrite !IH. by rewrite !iter_pos_comm.
  - reflexivity.
  - reflexivity.
Qed.
End Iter.

Lemma iter_shr_1_shifted (n m : positive) :
  SpecFloat.iter_pos shr_1 n (Build_shr_record (Z.pos (Pos.iter xO m n)) false false)
  = Build_shr_record (Z.pos m) false false.
Proof.
  induction n as [|n IH] using Pos.peano_ind.
  - reflexivity.
  - rewrite iter_pos_succ, Pos.iter_succ. simpl. exact IH.
Qed.

Lemma digits2_pos_shifted (n m : positive) :
  digits2_pos (Pos.iter xO m n) = (digits2_pos m + n)%positive.
Proof.
  induction n as [|n IH] using Pos.peano_ind.
  - simpl. lia.
  - rewrite Pos.iter_succ. simpl. rewrite IH. lia.
Qed.

Lemma mul_shifted_one (n m : positive) : (m * Pos.iter xO 1 n = Pos.iter xO m n)%positive.
Proof.
  induction n as [|n IH] using Pos.peano_ind.
  - simpl. lia.
  - rewrite !Pos.iter_succ. lia.
Qed.

(** A bounded mantissa and exponent go through the rounding unchanged. *)
Lemma binary_round_aux_bounded prec emax s m e :
  bounded prec emax m e = true ->
  binary_round_aux prec emax s (Z.pos m) e loc_Exact = S754_finite s m e.
Proof.
  unfold bounded, canonical_mantissa. intros H.
  apply andb_prop in H as [Hc Hb]. apply Z.eqb_eq in Hc.
  unfold binary_round_aux, shr_fexp. simpl Zdigits2.
  rewrite Hc, Z.sub_diag. simpl. rewrite Hc, Z.sub_diag. simpl.
  by rewrite Hb.
Qed.

Lemma SFmul_minus_one prec emax (q : positive) s m e :
  bounded prec emax m e = true ->
  SFmul prec emax (S754_finite s m e) (S754_finite true (Pos.iter xO 1%positive q) (Z.neg q))
  = S754_finite (negb s) m e.
Proof.
  intros H. pose proof H as H'. unfold bounded, canonical_mantissa in H'.
  apply andb_prop in H' as [Hc Hb]. apply Z.eqb_eq in Hc.
  unfold SFmul. rewrite mul_shifted_one.
  unfold binary_round_aux at 1. unfold shr_fexp at 1. simpl Zdigits2.
  rewrite digits2_pos_shifted.
  replace (Z.pos (digits2_pos m + q) + (e + Z.neg q))%Z with (Z.pos (digits2_pos m) + e)%Z by lia.
  rewrite Hc.
  replace (e - (e + Z.neg q))%Z with (Z.pos q) by lia.
  unfold shr at 1. cbn [shr_record_of_loc]. rewrite iter_shr_1_shifted.
  replace (e + Z.neg q + Z.pos q)%Z with e by lia.
  cbn [shr_m loc_of_shr_record round_nearest_even].
  unfold shr_fexp. simpl Zdigits2. rewrite Hc, Z.sub_diag. simpl.
  rewrite Hb. by destruct s.
Qed.

Lemma SFmul_minus_one_valid prec emax (q : positive) x :
  valid_binary prec emax x = true ->
  SFmul prec emax x (S754_finite true (Pos.iter xO 1%positive q) (Z.neg q)) = SFopp x.
Proof.
  destruct x as [s|s| |s m e]; simpl; intros H.
  - by destruct s.
  - by destruct s.
  - reflexivity.
  - by apply SFmul_minus_one.
Qed.

Lemma fmul_minus_one t x :
  valid_binary (prec (format_of (opmath_type t))) (emax (format_of (opmath_type t))) x = true ->
  fmul (format_of (opmath_type t)) x (minus_one (format_of (opmath_type t))) = fneg x.
Proof.
  intros H. unfold fmul, fneg.
  destruct t; simpl in *.
  - change (minus_one binary64) with (S754_finite true (Pos.iter xO 1%positive 52) (Z.neg 52)).
    by apply SFmul_minus_one_valid.
  - change (minus_one binary32) with (S754_finite true (Pos.iter xO 1%positive 23) (Z.neg 23)).
    by apply SFmul_minus_one_valid.
  - change (minus_one binary32) with (S754_finite true (Pos.iter xO 1%positive 23) (Z.neg 23)).
    by apply SFmul_minus_one_valid.
  - change (minus_one binary32) with (S754_finite true (Pos.iter xO 1%positive 23) (Z.neg 23)).
    by apply SFmul_minus_one_valid.
Qed.

(** A mantissa that already fits the format is only shifted by the
    rounding, so the result is a value of the format. *)
Lemma binary_round_fits prec emax s m e :
  (fexp prec emax (Z.pos (digits2_pos m) + e) <= e)%Z ->
  valid_binary prec emax (binary_round prec emax s m e) = true.
Proof.
  intros Hfit. unfold binary_round, shl_align.
  destruct (fexp prec emax (Z.pos (digits2_pos m) + e) - e)%Z as [|d|d] eqn:Hd; try lia.
  - assert (bounded prec emax m e = true \/ (e <=? emax - prec)%Z = false) as [Hb|Hb].
    { unfold bounded, canonical_mantissa.
      destruct (e <=? emax - prec)%Z; [left|by right].
      rewrite andb_true_r. apply Z.eqb_eq. lia. }
    + rewrite binary_round_aux_bounded by exact Hb. exact Hb.
    + unfold binary_round_aux, shr_fexp. simpl Zdigits2.
      rewrite Hd. simpl. rewrite Hd. simpl. by rewrite Hb.
  - set (e' := fexp prec emax (Z.pos (digits2_pos m) + e)) in *.
    assert (fexp prec emax (Z.pos (digits2_pos (Pos.iter xO m d)) + e') = e') as Hc.
    { rewrite digits2_pos_shifted.
      replace (Z.pos (digits2_pos m + d) + e')%Z with (Z.pos (digits2_pos m) + e)%Z by lia.
      reflexivity. }
    destruct (e' <=? emax - prec)%Z eqn:Hb.
    + assert (bounded prec emax (Pos.iter xO m d) e' = true) as Hbd.
      { unfold bounded, canonical_mantissa. rewrite Hb, andb_true_r. by apply Z.eqb_eq. }
      rewrite binary_round_aux_bounded by exact Hbd. exact Hbd.
    + unfold binary_round_aux, shr_fexp. simpl Zdigits2.
      rewrite Hc, Z.sub_diag. simpl. rewrite Hc, Z.sub_diag. simpl. by rewrite Hb.
Qed.

(** Widening a [Half] or a [BFloat16] to [float] gives a [float]. *)
Lemma to_opmath_valid t x :
  t = kHalf \/ t = kBFloat16 ->
  valid_in t x -> valid_in kFloat (Narrow.to_opmath t x).
Proof.
  unfold valid_in, Narrow.to_opmath, convert.
  intros Ht Hx. destruct x as [s|s| |s m e]; try (by destruct Ht as [-> | ->]).
  assert (fexp 24 128 (Z.pos (digits2_pos m) + e) <= e)%Z as Hfit.
  { simpl in Hx. unfold bounded, canonical_mantissa in Hx.
    apply andb_prop in Hx as [Hc _]. apply Z.eqb_eq in Hc.
    destruct Ht as [-> | ->]; simpl in Hc; unfold fexp, emin in *; lia. }
  destruct Ht as [-> | ->]; simpl; by apply binary_round_fits.
Qed.

(** ** Two runs that differ in the sign of the gradients *)

Lemma for_loop_rel (R : Bufs -> Bufs -> Prop) (f g : nat -> Bufs -> Bufs) (w n d : nat)
    (st st' : Bufs) :
  (forall i s s', d <= i -> i + w <= d + n * w -> R s s' -> R (f i s) (g i s')) ->
  R st st' -> R (for_loop f w n d st) (for_loop g w n d st').
Proof.
  revert d st st'.
  induction n as [|n IH]; intros d st st' Hfg Hst; simpl; [assumption|].
  apply IH.
  - intros i s s' Hi Hi'. apply Hfg; lia.
  - apply Hfg; [lia|lia|assumption].
Qed.

Lemma two_loops_rel (R : Bufs -> Bufs -> Prop) (w : nat) (v v' t t' : nat -> Bufs -> Bufs)
    (base size : nat) (st st' : Bufs) :
  (forall i s s', R s s' -> R (v i s) (v' i s')) ->
  (forall i s s', base <= i < base + size -> R s s' -> R (t i s) (t' i s')) ->
  R st st' -> R (two_loops w v t base size st) (two_loops w v' t' base size st').
Proof.
  intros Hv Ht Hst. unfold two_loops.
  pose proof (Nat.Div0.mod_le size w) as Hle.
  apply for_loop_rel.
  - intros i s s' Hi Hi'. apply Ht. lia.
  - apply for_loop_rel; [|assumption]. intros i s s' _ _. apply Hv.
Qed.

Lemma parallel_for_rel (R : Bufs -> Bufs -> Prop) (shards : list (nat * nat))
    (f g : nat -> nat -> Bufs -> Bufs) (b n : nat) (st st' : Bufs) :
  is_partition b n shards ->
  (forall lo hi s s', lo <= hi <= n -> R s s' -> R (f lo hi s) (g lo hi s')) ->
  R st st' -> R (parallel_for shards f st) (parallel_for shards g st').
Proof.
  intros Hp Hfg. unfold parallel_for. revert b st st' Hp.
  induction shards as [|[b' e] shards IH]; simpl; intros b st st' Hp Hst; [assumption|].
  destruct Hp as (-> & Hbe & Hen & Hrest).
  eapply IH; [exact Hrest|]. apply Hfg; [lia|assumption].
Qed.

Lemma loadu_fmap (f : spec_float -> spec_float) w l i : loadu w (f <$> l) i = f <$> loadu w l i.
Proof. unfold loadu. by rewrite <- fmap_drop, <- fmap_take. Qed.

Lemma Forall_loadu (P : spec_float -> Prop) w l i : Forall P l -> Forall P (loadu w l i).
Proof. intros H. unfold loadu. by apply Forall_take, Forall_drop. Qed.

Section WideNeg.
Variables (w : nat) (t : ScalarType) (mode : ADAM_MODE).
Variables (lr ss c1 c2 bcs eps wd b2 : spec_float) (ams : bool).
Variable G : list spec_float.
Hypothesis t_wide : opmath_type t = t.
Hypothesis G_valid : Forall (valid_in t) G.

Lemma Wide_vec_update_set_grad i gv pv st g :
  Wide.vec_update w t ss c1 c2 bcs eps b2 ams i gv pv (set_grad st g)
  = set_grad (Wide.vec_update w t ss c1 c2 bcs eps b2 ams i gv pv st) g.
Proof. unfold Wide.vec_update. by destruct ams. Qed.

Lemma Wide_tail_update_set_grad i gv st g :
  Wide.tail_update t ss c1 c2 bcs eps b2 ams i gv (set_grad st g)
  = set_grad (Wide.tail_update t ss c1 c2 bcs eps b2 ams i gv st) g.
Proof. unfold Wide.tail_update. by destruct ams. Qed.

Lemma Wide_tail_weight_decay_set_grad i gv st g :
  Wide.tail_weight_decay t mode lr wd i gv (set_grad st g)
  = ((Wide.tail_weight_decay t mode lr wd i gv st).1,
     set_grad (Wide.tail_weight_decay t mode lr wd i gv st).2 g).
Proof. unfold Wide.tail_weight_decay. by destruct (ne_zero wd), mode. Qed.

Lemma Wide_negated_chunk i :
  zip_with (fmul (format_of t)) (loadu w G i) (broadcast w (minus_one (format_of t)))
  = loadu w (fneg <$> G) i.
Proof.
  unfold broadcast. rewrite zip_with_replicate_r by (unfold loadu; rewrite length_take; lia).
  rewrite loadu_fmap. apply Forall_fmap_ext_1.
  eapply Forall_impl; [apply Forall_loadu, G_valid|].
  intros x Hx. simpl. rewrite <- t_wide. apply fmul_minus_one. by rewrite t_wide.
Qed.

Lemma Wide_vec_body_neg i st st' :
  same_but_grad G st st' ->
  same_but_grad G
    (Wide.vec_body w t mode lr ss c1 c2 bcs eps wd b2 ams true None i st)
    (Wide.vec_body w t mode lr ss c1 c2 bcs eps wd b2 ams false None i st').
Proof.
  intros [HG ->]. unfold Wide.vec_body, Wide.vec_grad. simpl.
  rewrite HG, Wide_negated_chunk.
  destruct (Wide.vec_weight_decay _ _ _ _ _ _ _) as [gv pv].
  rewrite Wide_vec_update_set_grad. split; [|reflexivity].
  by rewrite Wide_vec_update_grad.
Qed.

Lemma Wide_tail_body_neg i st st' :
  i < length G ->
  same_but_grad G st st' ->
  same_but_grad G
    (Wide.tail_body t mode lr ss c1 c2 bcs eps wd b2 ams true None i st)
    (Wide.tail_body t mode lr ss c1 c2 bcs eps wd b2 ams false None i st').
Proof.
  intros Hi [HG ->]. unfold Wide.tail_body, Wide.tail_grad. simpl.
  rewrite HG, (list_lookup_total_fmap fneg G i Hi).
  rewrite Wide_tail_weight_decay_set_grad.
  destruct (Wide.tail_weight_decay _ _ _ _ _ _ _) as [gv s'] eqn:Hwd. simpl.
  rewrite Wide_tail_update_set_grad. split; [|reflexivity].
  rewrite Wide_tail_update_grad.
  change s' with (gv, s').2. rewrite <- Hwd. by rewrite Wide_tail_weight_decay_grad.
Qed.
End WideNeg.

Section NarrowNeg.
Variables (h : nat) (t : ScalarType) (mode : ADAM_MODE).
Variables (lr ss c1 c2 bcs eps wd b2 : spec_float) (ams : bool).
Variable G : list spec_float.
Hypothesis t_narrow : t = kHalf \/ t = kBFloat16.
Hypothesis G_valid : Forall (valid_in t) G.

Lemma Narrow_vec_update_set_grad i g1 g2 p1 p2 st g :
  Narrow.vec_update h t ss c1 c2 bcs eps b2 ams i g1 g2 p1 p2 (set_grad st g)
  = set_grad (Narrow.vec_update h t ss c1 c2 bcs eps b2 ams i g1 g2 p1 p2 st) g.
Proof.
  unfold Narrow.vec_update. simpl.
  repeat match goal with |- context [Narrow.convert_to_float ?a ?b ?c] =>
    destruct (Narrow.convert_to_float a b c) end.
  by destruct ams.
Qed.

Lemma Narrow_tail_update_set_grad i gv pv st g :
  Narrow.tail_update t ss c1 c2 bcs eps b2 ams i gv pv (set_grad st g)
  = set_grad (Narrow.tail_update t ss c1 c2 bcs eps b2 ams i gv pv st) g.
Proof. unfold Narrow.tail_update. by destruct ams. Qed.

Lemma Narrow_negated_elem x :
  valid_in t x ->
  fmul binary32 (Narrow.to_opmath t x) (minus_one binary32) = Narrow.to_opmath t (fneg x).
Proof.
  intros Hx. unfold Narrow.to_opmath at 2. unfold fneg. rewrite convert_opp.
  apply (fmul_minus_one kFloat). by apply to_opmath_valid.
Qed.

Lemma Narrow_negated_half (l : list spec_float) :
  length l <= h -> Forall (valid_in t) l ->
  zip_with (fmul binary32) (Narrow.to_opmath t <$> l) (broadcast h (minus_one binary32))
  = Narrow.to_opmath t <$> (fneg <$> l).
Proof.
  intros Hl Hv. unfold broadcast.
  rewrite zip_with_replicate_r by (by rewrite length_fmap).
  rewrite <- !list_fmap_compose. apply Forall_fmap_ext_1.
  eapply Forall_impl; [exact Hv|]. intros x Hx. simpl. by apply Narrow_negated_elem.
Qed.

Lemma Narrow_vec_body_neg i st st' :
  same_but_grad G st st' ->
  same_but_grad G
    (Narrow.vec_body h t mode lr ss c1 c2 bcs eps wd b2 ams true None i st)
    (Narrow.vec_body h t mode lr ss c1 c2 bcs eps wd b2 ams false None i st').
Proof.
  intros [HG ->]. unfold Narrow.vec_body, Narrow.vec_grad. simpl param. simpl grad.
  rewrite HG.
  destruct (Narrow.convert_to_float h t (loadu (2 * h) (param st) i)) as [p1 p2].
  unfold Narrow.convert_to_float at 2. rewrite loadu_fmap, <- fmap_take, <- fmap_drop.
  assert (length (loadu (2 * h) G i) <= 2 * h) as Hlen
    by (unfold loadu; rewrite length_take; lia).
  rewrite <- !Narrow_negated_half;
    [ | rewrite length_drop; lia | by apply Forall_drop, Forall_loadu
      | rewrite length_take; lia | by apply Forall_take, Forall_loadu ].
  unfold Narrow.convert_to_float at 1.
  destruct (Narrow.vec_weight_decay _ _ _ _ _ _ _ _) as [[[g1' g2'] p1'] p2'].
  rewrite Narrow_vec_update_set_grad. split; [|reflexivity].
  by rewrite Narrow_vec_update_grad.
Qed.

Lemma Narrow_tail_body_neg i st st' :
  i < length G ->
  same_but_grad G st st' ->
  same_but_grad G
    (Narrow.tail_body t mode lr ss c1 c2 bcs eps wd b2 ams true None i st)
    (Narrow.tail_body t mode lr ss c1 c2 bcs eps wd b2 ams false None i st').
Proof.
  intros Hi [HG ->]. unfold Narrow.tail_body, Narrow.tail_grad. simpl param. simpl grad.
  rewrite HG, (list_lookup_total_fmap fneg G i Hi).
  assert (Narrow.to_opmath t (fneg (G !!! i)) = fneg (Narrow.to_opmath t (G !!! i))) as ->
    by apply convert_opp.
  change (Narrow.tail_weight_decay t mode lr wd i ?g ?p (set_grad st ?x))
    with (Narrow.tail_weight_decay t mode lr wd i g p st).
  destruct (Narrow.tail_weight_decay _ _ _ _ _ _ _ _) as [gv pv].
  rewrite Narrow_tail_update_set_grad. split; [|reflexivity].
  by rewrite Narrow_tail_update_grad.
Qed.
End NarrowNeg.

Lemma adam_math_neg k scalar_t adam_mode lr sc eps weight_decay beta2 amsgrad
    (G : list spec_float) base size st st' :
  Forall (valid_in scalar_t) G ->
  base + size <= length G ->
  same_but_grad G st st' ->
  same_but_grad G
    (adam_math k scalar_t adam_mode lr sc eps weight_decay beta2 amsgrad true None
       base size st)
    (adam_math k scalar_t adam_mode lr sc eps weight_decay beta2 amsgrad false None
       base size st').
Proof.
  intros HG Hlen Hst. unfold adam_math, Wide.adam_math, Narrow.adam_math.
  destruct scalar_t; apply two_loops_rel; try exact Hst; intros i s s' **;
    first [ apply Wide_vec_body_neg | apply Wide_tail_body_neg
          | apply Narrow_vec_body_neg | apply Narrow_tail_body_neg ];
    first [ assumption | exact HG | lia | by left | by right | reflexivity ].
Qed.

Lemma fused_adam_kernel_neg std_pow k shards
    param grad_t exp_avg exp_avg_sq max_exp_avg_sq state_step
    lr beta1 beta2 weight_decay eps amsgrad adam_mode :
  is_partition 0 (numel param) shards ->
  numel param <= length (data_ptr grad_t) ->
  Forall (valid_in (scalar_type param)) (data_ptr grad_t) ->
  same_but_grad (data_ptr grad_t)
    (fused_adam_kernel std_pow k shards param grad_t exp_avg exp_avg_sq max_exp_avg_sq
       state_step lr beta1 beta2 weight_decay eps amsgrad true None adam_mode)
    (fused_adam_kernel std_pow k shards param (neg_tensor grad_t) exp_avg exp_avg_sq
       max_exp_avg_sq state_step lr beta1 beta2 weight_decay eps amsgrad false None
       adam_mode).
Proof.
  intros Hp Hlen HG.
  assert (forall mode,
    same_but_grad (data_ptr grad_t)
      (adam_fused_step_impl std_pow k shards (scalar_type param) mode param grad_t
         exp_avg exp_avg_sq max_exp_avg_sq state_step lr beta1 beta2 weight_decay eps
         amsgrad true None)
      (adam_fused_step_impl std_pow k shards (scalar_type param) mode param
         (neg_tensor grad_t) exp_avg exp_avg_sq max_exp_avg_sq state_step lr beta1 beta2
         weight_decay eps amsgrad false None)) as Himpl.
  { intros mode. unfold adam_fused_step_impl.
    match goal with
    | |- same_but_grad ?G (if _ then parallel_for _ ?f ?s else _)
                          (if _ then parallel_for _ ?g ?s' else _) =>
        assert (same_but_grad G (parallel_for shards f s) (parallel_for shards g s'))
          as [Hg ->]
    end.
    { eapply parallel_for_rel; [exact Hp| |by split].
      intros lo hi s s' Hlohi Hs. apply adam_math_neg; [exact HG|lia|exact Hs]. }
    destruct amsgrad; split; try reflexivity; exact Hg. }
  unfold fused_adam_kernel. destruct adam_mode; apply Himpl.
Qed.

(** C7: without a gradient scale, maximizing with the gradients [g]
    leaves in [param], [exp_avg], [exp_avg_sq] (and [max_exp_avg_sq])
    exactly what minimizing with the gradients [-g] leaves there; [exp_avg]
    in particular is the same, sign included. *)
Theorem maximize_symmetry std_pow k shards
    param_t grad_t exp_avg_t exp_avg_sq_t max_exp_avg_sq_t state_step
    lr beta1 beta2 weight_decay eps amsgrad adam_mode :
  is_partition 0 (numel param_t) shards ->
  numel param_t <= length (data_ptr grad_t) ->
  Forall (valid_in (scalar_type param_t)) (data_ptr grad_t) ->
  let maximized :=
    fused_adam_kernel std_pow k shards param_t grad_t exp_avg_t exp_avg_sq_t
      max_exp_avg_sq_t state_step lr beta1 beta2 weight_decay eps amsgrad true None
      adam_mode in
  let negated :=
    fused_adam_kernel std_pow k shards param_t (neg_tensor grad_t) exp_avg_t exp_avg_sq_t
      max_exp_avg_sq_t state_step lr beta1 beta2 weight_decay eps amsgrad false None
      adam_mode in
  exp_avg maximized = exp_avg negated /\
  exp_avg_sq maximized = exp_avg_sq negated /\
  param maximized = param negated /\
  max_exp_avg_sq maximized = max_exp_avg_sq negated.
Proof.
  intros Hp Hlen HG maximized negated.
  destruct (fused_adam_kernel_neg std_pow k shards param_t grad_t exp_avg_t exp_avg_sq_t
              max_exp_avg_sq_t state_step lr beta1 beta2 weight_decay eps amsgrad adam_mode
              Hp Hlen HG) as [_ Heq].
  subst maximized negated. rewrite Heq. by repeat split.
Qed.

(** ** Rounding to a format

    What [binary_round] does to a mantissa and an exponent, read off the
    definitions of [SpecFloat]. *)

Section Rounding.
Local Open Scope Z_scope.

(** *** Binary digits *)

Lemma digits2_pos_spec (m : positive) :
  2 ^ (Z.pos (digits2_pos m) - 1) <= Z.pos m < 2 ^ Z.pos (digits2_pos m).
Proof.
  induction m as [m IH|m IH|]; simpl digits2_pos.
  - rewrite Pos2Z.inj_succ. replace (Z.succ (Z.pos (digits2_pos m)) - 1) with
      (Z.succ (Z.pos (digits2_pos m) - 1)) by lia.
    rewrite !Z.pow_succ_r by lia. lia.
  - rewrite Pos2Z.inj_succ. replace (Z.succ (Z.pos (digits2_pos m)) - 1) with
      (Z.succ (Z.pos (digits2_pos m) - 1)) by lia.
    rewrite !Z.pow_succ_r by lia. lia.
  - simpl. lia.
Qed.

Lemma Zdigits2_spec (m : Z) :
  0 < m -> 2 ^ (Zdigits2 m - 1) <= m < 2 ^ Zdigits2 m.
Proof. destruct m as [|m|m]; try lia. intros _. apply digits2_pos_spec. Qed.

Lemma Zdigits2_nonneg (m : Z) : 0 <= Zdigits2 m.
Proof. destruct m; simpl; lia. Qed.

Lemma Zdigits2_pos (m : Z) : 0 < m -> 0 < Zdigits2 m.
Proof. destruct m; simpl; lia. Qed.

Lemma Zdigits2_unique (m k : Z) :
  2 ^ (k - 1) <= m < 2 ^ k -> 0 < m -> Zdigits2 m = k.
Proof.
  intros [Hlo Hhi] Hm.
  pose proof (Zdigits2_spec m Hm) as [Hlo' Hhi'].
  pose proof (Zdigits2_pos m Hm) as Hd.
  assert (0 < k) as Hk.
  { destruct (Z_lt_le_dec 0 k) as [|Hk]; [assumption|].
    rewrite (Z.pow_neg_r 2 k) in Hhi by (destruct (Z.eq_dec k 0) as [->|]; [simpl in Hhi; lia|lia]).
    lia. }
  destruct (Z.lt_trichotomy (Zdigits2 m) k) as [Hlt|[Heq|Hgt]]; [|assumption|].
  - assert (2 ^ Zdigits2 m <= 2 ^ (k - 1)) by (apply Z.pow_le_mono_r; lia). lia.
  - assert (2 ^ k <= 2 ^ (Zdigits2 m - 1)) by (apply Z.pow_le_mono_r; lia). lia.
Qed.

(** Digits of a quotient by a power of two. *)
Lemma Zdigits2_div_pow2 (m n : Z) :
  0 < m -> 0 <= n -> n < Zdigits2 m -> Zdigits2 (m / 2 ^ n) = Zdigits2 m - n.
Proof.
  intros Hm Hn Hlt.
  pose proof (Zdigits2_spec m Hm) as [Hlo Hhi].
  assert (0 < 2 ^ n) as Hpn by (apply Z.pow_pos_nonneg; lia).
  assert (2 ^ (Zdigits2 m - 1) = 2 ^ (Zdigits2 m - n - 1) * 2 ^ n) as E1.
  { rewrite <- Z.pow_add_r by lia. f_equal. lia. }
  assert (2 ^ Zdigits2 m = 2 ^ (Zdigits2 m - n) * 2 ^ n) as E2.
  { rewrite <- Z.pow_add_r by lia. f_equal. lia. }
  assert (2 ^ (Zdigits2 m - n - 1) <= m / 2 ^ n) as Hq1.
  { apply Z.div_le_lower_bound; [assumption|]. lia. }
  assert (m / 2 ^ n < 2 ^ (Zdigits2 m - n)) as Hq2.
  { apply Z.div_lt_upper_bound; [assumption|]. lia. }
  apply Zdigits2_unique; [split; assumption|].
  assert (0 < 2 ^ (Zdigits2 m - n - 1)) by (apply Z.pow_pos_nonneg; lia). lia.
Qed.

Lemma Zdiv_pow2_small (m n : Z) :
  0 <= m -> Zdigits2 m <= n -> m / 2 ^ n = 0.
Proof.
  intros Hm Hn. destruct (Z.eq_dec m 0) as [->|Hne].
  - apply Z.div_0_l. assert (0 < 2 ^ n) by (apply Z.pow_pos_nonneg; [lia|]; pose proof (Zdigits2_nonneg 0); simpl in *; lia). lia.
  - apply Z.div_small. pose proof (Zdigits2_spec m ltac:(lia)) as [_ Hhi].
    assert (2 ^ Zdigits2 m <= 2 ^ n) by (apply Z.pow_le_mono_r; lia). lia.
Qed.

(** Digits of a successor. *)
Lemma Zdigits2_succ (m : Z) :
  0 <= m ->
  Zdigits2 (m + 1) = Zdigits2 m \/
  (Zdigits2 (m + 1) = Zdigits2 m + 1 /\ m + 1 = 2 ^ Zdigits2 m).
Proof.
  intros Hm. destruct (Z.eq_dec m 0) as [->|Hne].
  - right. simpl. lia.
  - pose proof (Zdigits2_spec m ltac:(lia)) as [Hlo Hhi].
    pose proof (Zdigits2_pos m ltac:(lia)) as Hd.
    destruct (Z.eq_dec (m + 1) (2 ^ Zdigits2 m)) as [Heq|Hneq].
    + right. split; [|assumption]. apply Zdigits2_unique; [|lia].
      replace (Zdigits2 m + 1 - 1) with (Zdigits2 m) by lia.
      rewrite Z.pow_add_r by lia. lia.
    + left. apply Zdigits2_unique; lia.
Qed.

(** *** The shift to the right *)

Lemma shr_1_spec (x : shr_record) :
  0 <= shr_m x ->
  shr_m (shr_1 x) = shr_m x / 2 /\
  (shr_r (shr_1 x) = false /\ shr_s (shr_1 x) = false <->
   Z.even (shr_m x) = true /\ shr_r x = false /\ shr_s x = false).
Proof.
  destruct x as [m r s]. simpl. intros Hm.
  destruct m as [|[p|p|]|p]; try lia; simpl shr_m; simpl shr_r; simpl shr_s.
  - split; [reflexivity|]. destruct r, s; simpl; intuition congruence.
  - split.
    + rewrite <- Z.div2_div. reflexivity.
    + simpl. intuition congruence.
  - split.
    + rewrite <- Z.div2_div. reflexivity.
    + destruct r, s; simpl; intuition congruence.
  - split; [reflexivity|]. simpl. intuition congruence.
Qed.

(** After [n] steps the mantissa is the quotient by [2^n], and both
    bits are clear exactly when the division is exact. *)
Lemma iter_shr_1_spec (n : positive) (m : Z) :
  0 <= m ->
  let x := SpecFloat.iter_pos shr_1 n (Build_shr_record m false false) in
  shr_m x = m / 2 ^ Z.pos n /\
  (shr_r x = false /\ shr_s x = false <-> m mod 2 ^ Z.pos n = 0).
Proof.
  intros Hm. induction n as [|n IH] using Pos.peano_ind.
  - simpl SpecFloat.iter_pos.
    destruct (shr_1_spec (Build_shr_record m false false) Hm) as [H1 H2].
    split; [exact H1|]. rewrite H2. cbn [shr_m shr_r shr_s].
    rewrite Z.pow_1_r. rewrite Zeven_mod, Z.eqb_eq. intuition.
  - rewrite iter_pos_succ, iter_pos_comm.
    destruct IH as [IHm IHb].
    set (x := SpecFloat.iter_pos shr_1 n (Build_shr_record m false false)) in *.
    assert (0 < 2 ^ Z.pos n) as Hpn by (apply Z.pow_pos_nonneg; lia).
    assert (0 <= shr_m x) as Hx by (rewrite IHm; apply Z.div_pos; lia).
    destruct (shr_1_spec x Hx) as [H1 H2].
    rewrite Pos2Z.inj_succ, Z.pow_succ_r by lia.
    split.
    + rewrite H1, IHm. rewrite Z.div_div by lia. f_equal. lia.
    + rewrite H2, IHb, IHm.
      rewrite Zeven_mod, Z.eqb_eq.
      pose proof (Z.div_mod m (2 ^ Z.pos n) ltac:(lia)) as Hdm.
      pose proof (Z.mod_pos_bound m (2 ^ Z.pos n) Hpn) as Hb.
      split.
      * intros [He Hz].
        pose proof (Z.div_mod (m / 2 ^ Z.pos n) 2 ltac:(lia)) as Hd2.
        apply Z.mod_divide; [lia|].
        exists (m / 2 ^ Z.pos n / 2). lia.
      * intros Hz. apply Z.mod_divide in Hz; [|lia]. destruct Hz as [c Hc].
        assert (m mod 2 ^ Z.pos n = 0) as Hz'.
        { apply Z.mod_divide; [lia|]. exists (2 * c). lia. }
        split; [|exact Hz'].
        assert (m / 2 ^ Z.pos n = 2 * c) as ->.
        { symmetry. apply Z.div_unique_exact; lia. }
        rewrite Z.mul_comm. apply Z.mod_mul. lia.
Qed.

Lemma iter_shr_1_m (n : positive) (x : shr_record) :
  0 <= shr_m x ->
  shr_m (SpecFloat.iter_pos shr_1 n x) = shr_m x / 2 ^ Z.pos n.
Proof.
  intros Hm. induction n as [|n IH] using Pos.peano_ind.
  - simpl SpecFloat.iter_pos. rewrite Z.pow_1_r. by apply shr_1_spec.
  - rewrite iter_pos_succ, iter_pos_comm.
    assert (0 < 2 ^ Z.pos n) as Hpn by (apply Z.pow_pos_nonneg; lia).
    assert (0 <= shr_m (SpecFloat.iter_pos shr_1 n x)) as Hx
      by (rewrite IH; apply Z.div_pos; lia).
    destruct (shr_1_spec _ Hx) as [H1 _].
    rewrite H1, IH, Pos2Z.inj_succ, Z.pow_succ_r by lia.
    rewrite Z.div_div by lia. f_equal. lia.
Qed.

Lemma shr_record_of_loc_m m l : shr_m (shr_record_of_loc m l) = m.
Proof. by destruct l as [|[]]. Qed.

Lemma round_nearest_even_spec (q : Z) (l : location) :
  (round_nearest_even q l = q \/ round_nearest_even q l = q + 1) /\
  (l = loc_Exact -> round_nearest_even q l = q).
Proof.
  split; [|by intros ->].
  destruct l as [|[]]; simpl; auto. destruct (Z.even q); auto.
Qed.

Section RoundingSpec.
Variables prec emax : Z.
Hypothesis prec_pos : 0 < prec.

Local Abbreviation fexp := (SpecFloat.fexp prec emax).
Local Abbreviation emin := (SpecFloat.emin prec emax).

Lemma fexp_mono (a b : Z) : a <= b -> fexp a <= fexp b.
Proof. unfold SpecFloat.fexp. lia. Qed.

Lemma fexp_ge_emin (a : Z) : emin <= fexp a.
Proof. unfold SpecFloat.fexp. lia. Qed.

(** The first shift of the rounding. *)
Lemma shr_fexp_spec (m e : Z) (l : location) :
  0 <= m -> e <= fexp (Zdigits2 m + e) ->
  let e' := fexp (Zdigits2 m + e) in
  shr_fexp prec emax m e l = (fst (shr_fexp prec emax m e l), e') /\
  shr_m (fst (shr_fexp prec emax m e l)) = m / 2 ^ (e' - e) /\
  canonic prec emax (m / 2 ^ (e' - e)) e' /\
  (l = loc_Exact -> m mod 2 ^ (e' - e) = 0 ->
   loc_of_shr_record (fst (shr_fexp prec emax m e l)) = loc_Exact).
Proof.
  intros Hm Hle e'. unfold shr_fexp. fold e'.
  destruct (e' - e) as [|n|n] eqn:Hn; try lia.
  - simpl. assert (e' = e) as He by lia. rewrite shr_record_of_loc_m, Z.div_1_r.
    repeat split; try congruence.
    + unfold canonic. rewrite He. exact He.
    + intros -> _. reflexivity.
  - unfold shr. cbn [fst].
    rewrite iter_shr_1_m by (rewrite shr_record_of_loc_m; exact Hm).
    rewrite shr_record_of_loc_m.
    repeat split.
    + f_equal. lia.
    + unfold canonic.
      destruct (Z_lt_le_dec (Z.pos n) (Zdigits2 m)) as [Hlt|Hge].
      * assert (0 < m) as Hm' by (destruct m; simpl in *; lia).
        rewrite Zdigits2_div_pow2 by lia.
        replace (Zdigits2 m - Z.pos n + e') with (Zdigits2 m + e) by lia. reflexivity.
      * rewrite Zdiv_pow2_small by lia. simpl Zdigits2.
        unfold e' in *. unfold SpecFloat.fexp in *. lia.
    + intros -> Hmod. simpl shr_record_of_loc.
      destruct (iter_shr_1_spec n m Hm) as [_ Hb].
      apply Hb in Hmod as [Hr Hs].
      destruct (SpecFloat.iter_pos shr_1 n _) as [m' r s]. simpl in *. by subst.
Qed.

(** The second shift: at most one position, and exact. *)
Lemma shr_fexp_renorm (q m2 e' : Z) :
  0 <= q -> canonic prec emax q e' -> m2 = q \/ m2 = q + 1 ->
  exists m3 e3,
    shr_fexp prec emax m2 e' loc_Exact = (Build_shr_record m3 false false, e3) /\
    0 <= m3 /\ canonic prec emax m3 e3 /\ e' <= e3 /\ m3 * 2 ^ (e3 - e') = m2.
Proof.
  intros Hq Hc Hm2. unfold canonic in Hc.
  assert (0 <= m2) as Hm2' by lia.
  assert (Zdigits2 m2 = Zdigits2 q \/
          (Zdigits2 m2 = Zdigits2 q + 1 /\ m2 = 2 ^ Zdigits2 q)) as Hd.
  { destruct Hm2 as [->| ->]; [by left|]. by apply Zdigits2_succ. }
  pose proof (Zdigits2_nonneg q) as Hdq.
  destruct Hd as [Hd|[Hd Hpow]].
  - exists m2, e'. unfold shr_fexp. rewrite Hd, Hc, Z.sub_diag. simpl.
    repeat split; try lia.
    unfold canonic. by rewrite Hd.
  - destruct (Z.eq_dec (fexp (Zdigits2 m2 + e')) e') as [Heq|Hne].
    + exists m2, e'. unfold shr_fexp. rewrite Heq, Z.sub_diag. simpl.
      repeat split; try lia. exact Heq.
    + assert (Zdigits2 q = prec /\ fexp (Zdigits2 m2 + e') = e' + 1) as [Hp He].
      { rewrite Hd in *. unfold SpecFloat.fexp in *. lia. }
      exists (2 ^ (prec - 1)), (e' + 1).
      unfold shr_fexp. rewrite He.
      replace (e' + 1 - e') with 1 by lia.
      assert (m2 = 2 * 2 ^ (prec - 1)) as Hm2eq.
      { rewrite Hpow, Hp. rewrite <- Z.pow_succ_r by lia. f_equal. lia. }
      assert (0 < 2 ^ (prec - 1)) as Hpp by (apply Z.pow_pos_nonneg; lia).
      repeat split; try lia.
      * unfold shr. simpl SpecFloat.iter_pos. simpl shr_record_of_loc.
        rewrite Hm2eq. destruct (2 ^ (prec - 1)) as [|p|p]; try lia.
        simpl. reflexivity.
      * unfold canonic.
        rewrite (Zdigits2_unique (2 ^ (prec - 1)) prec);
          [|split; [lia|apply Z.pow_lt_mono_r; lia]|lia].
        unfold SpecFloat.fexp in *. lia.
Qed.

(** What the rounding of a mantissa with an exponent that is not above
    the one of the format returns. *)
Lemma binary_round_aux_spec (s : bool) (m e : Z) (l : location) :
  0 <= m -> e <= fexp (Zdigits2 m + e) ->
  let e' := fexp (Zdigits2 m + e) in
  let q := m / 2 ^ (e' - e) in
  exists m2 m3 e3,
    (m2 = q \/ m2 = q + 1) /\
    (l = loc_Exact -> m mod 2 ^ (e' - e) = 0 -> m2 = q) /\
    0 <= m3 /\ canonic prec emax m3 e3 /\ e' <= e3 /\ m3 * 2 ^ (e3 - e') = m2 /\
    binary_round_aux prec emax s m e l =
      match m3 with
      | Z0 => S754_zero s
      | Z.pos m3' =>
          if e3 <=? emax - prec then S754_finite s m3' e3 else S754_infinity s
      | Z.neg _ => S754_nan
      end.
Proof.
  intros Hm Hle e' q.
  destruct (shr_fexp_spec m e l Hm Hle) as (H1 & H2 & H3 & H4).
  fold e' in H1, H2, H3, H4. fold q in H2, H3.
  assert (0 <= q) as Hq.
  { unfold q. apply Z.div_pos; [lia|]. apply Z.pow_pos_nonneg; lia. }
  set (mrs := fst (shr_fexp prec emax m e l)) in *.
  destruct (round_nearest_even_spec q (loc_of_shr_record mrs)) as [Hr1 Hr2].
  destruct (shr_fexp_renorm q (round_nearest_even q (loc_of_shr_record mrs)) e' Hq H3 Hr1)
    as (m3 & e3 & Hs & Hm3 & Hc3 & He3 & Hv).
  exists (round_nearest_even q (loc_of_shr_record mrs)), m3, e3.
  repeat split; try assumption.
  - intros Hl Hmod. apply Hr2. by apply H4.
  - unfold binary_round_aux. rewrite H1, H2, Hs. reflexivity.
Qed.

Lemma binary_round_aux_valid (s : bool) (m e : Z) (l : location) :
  0 <= m -> e <= fexp (Zdigits2 m + e) ->
  valid_binary prec emax (binary_round_aux prec emax s m e l) = true.
Proof.
  intros Hm Hle.
  destruct (binary_round_aux_spec s m e l Hm Hle)
    as (m2 & m3 & e3 & _ & _ & Hm3 & Hc & _ & _ & ->).
  destruct m3 as [|m3|m3]; try reflexivity.
  destruct (e3 <=? emax - prec) eqn:Hb; [|reflexivity].
  simpl. unfold bounded, canonical_mantissa. rewrite Hb, andb_true_r.
  apply Z.eqb_eq. exact Hc.
Qed.
End RoundingSpec.

Lemma Zdigits2_ge (m k : Z) : 0 < m -> 2 ^ (k - 1) <= m -> k <= Zdigits2 m.
Proof.
  intros Hm Hk. pose proof (Zdigits2_spec m Hm) as [_ Hhi].
  pose proof (Zdigits2_pos m Hm).
  destruct (Z_lt_le_dec (Zdigits2 m) k) as [Hlt|]; [|assumption].
  assert (2 ^ Zdigits2 m <= 2 ^ (k - 1)) by (apply Z.pow_le_mono_r; lia). lia.
Qed.

Section Validity.
Variables prec emax : Z.
Hypothesis prec_pos : 0 < prec.
Hypothesis emin_nonpos : 3 - emax - prec <= 0.

Local Abbreviation fexp := (SpecFloat.fexp prec emax).
Local Abbreviation emin := (SpecFloat.emin prec emax).
Local Abbreviation valid := (valid_binary prec emax).

Lemma binary_round_valid (s : bool) (m : positive) (e : Z) :
  valid (binary_round prec emax s m e) = true.
Proof.
  unfold binary_round, shl_align.
  destruct (fexp (Z.pos (digits2_pos m) + e) - e) as [|d|d] eqn:Hd.
  - apply binary_round_aux_valid; [assumption|lia|]. simpl Zdigits2. lia.
  - apply binary_round_aux_valid; [assumption|lia|]. simpl Zdigits2. lia.
  - apply binary_round_aux_valid; [assumption|lia|]. simpl Zdigits2.
    rewrite digits2_pos_shifted.
    replace (Z.pos (digits2_pos m + d) + fexp (Z.pos (digits2_pos m) + e))
      with (Z.pos (digits2_pos m) + e) by lia.
    lia.
Qed.

Lemma binary_normalize_valid (m e : Z) (s : bool) :
  valid (binary_normalize prec emax m e s) = true.
Proof. destruct m; simpl; [reflexivity| |]; apply binary_round_valid. Qed.

Lemma bounded_canonic (m : positive) (e : Z) :
  bounded prec emax m e = true -> fexp (Z.pos (digits2_pos m) + e) = e.
Proof.
  unfold bounded, canonical_mantissa. intros H.
  apply andb_prop in H as [H _]. by apply Z.eqb_eq.
Qed.

Lemma SFadd_valid (x y : spec_float) :
  valid x = true -> valid y = true -> valid (SFadd prec emax x y) = true.
Proof.
  intros Hx Hy.
  destruct x as [sx|sx| |sx mx ex], y as [sy|sy| |sy my ey]; simpl SFadd;
    try assumption; try reflexivity;
    try (by destruct sx, sy).
  apply binary_normalize_valid.
Qed.

Lemma SFmul_valid (x y : spec_float) :
  valid x = true -> valid y = true -> valid (SFmul prec emax x y) = true.
Proof.
  intros Hx Hy.
  destruct x as [sx|sx| |sx mx ex], y as [sy|sy| |sy my ey]; simpl SFmul;
    try reflexivity.
  apply bounded_canonic in Hx, Hy.
  apply binary_round_aux_valid; [assumption|lia|].
  pose proof (digits2_pos_spec mx) as [Hx1 Hx2].
  pose proof (digits2_pos_spec my) as [Hy1 Hy2].
  set (dx := Z.pos (digits2_pos mx)) in *.
  set (dy := Z.pos (digits2_pos my)) in *.
  assert (dx + dy - 1 <= Zdigits2 (Z.pos (mx * my))) as Hd.
  { apply Zdigits2_ge; [lia|].
    replace (dx + dy - 1 - 1) with ((dx - 1) + (dy - 1)) by lia.
    rewrite Z.pow_add_r by lia. rewrite Pos2Z.inj_mul.
    apply Z.mul_le_mono_nonneg; try assumption; apply Z.pow_nonneg; lia. }
  unfold SpecFloat.fexp, SpecFloat.emin in *. lia.
Qed.

Lemma SFopp_valid (x : spec_float) : valid x = true -> valid (SFopp x) = true.
Proof. by destruct x. Qed.

Lemma SFdiv_valid (x y : spec_float) :
  valid x = true -> valid y = true -> valid (SFdiv prec emax x y) = true.
Proof.
  intros Hx Hy.
  destruct x as [sx|sx| |sx mx ex], y as [sy|sy| |sy my ey]; simpl SFdiv;
    try reflexivity.
  unfold SFdiv_core_binary.
  set (d1 := Zdigits2 (Z.pos mx)). set (d2 := Zdigits2 (Z.pos my)).
  set (e' := Z.min (fexp (d1 + ex - (d2 + ey))) (ex - ey)).
  set (sh := ex - ey - e').
  set (m' := match sh with
             | 0 => Z.pos mx
             | Z.pos _ => Z.shiftl (Z.pos mx) sh
             | Z.neg _ => 0
             end).
  assert (0 <= sh) as Hsh by (unfold sh, e'; lia).
  assert (m' = Z.pos mx * 2 ^ sh) as Hm'.
  { unfold m'. clearbody sh. destruct sh; try lia.
    by rewrite Z.shiftl_mul_pow2. }
  clearbody m'.
  destruct (Z.div_eucl m' (Z.pos my)) as [q r] eqn:Hqr.
  pose proof (Z_div_mod m' (Z.pos my) ltac:(lia)) as Hdm. rewrite Hqr in Hdm.
  destruct Hdm as [Hdm Hr].
  assert (0 < 2 ^ sh) as Hps by (apply Z.pow_pos_nonneg; lia).
  assert (0 <= q) as Hq by nia.
  apply binary_round_aux_valid; [assumption|assumption|].
  pose proof (digits2_pos_spec mx) as [Hx1 Hx2].
  pose proof (digits2_pos_spec my) as [Hy1 Hy2].
  fold (Zdigits2 (Z.pos mx)) in Hx1, Hx2. fold (Zdigits2 (Z.pos my)) in Hy1, Hy2.
  fold d1 in Hx1, Hx2. fold d2 in Hy1, Hy2.
  assert (0 < d1) as Hd1 by (unfold d1; simpl; lia).
  assert (0 < d2) as Hd2 by (unfold d2; simpl; lia).
  assert (2 ^ (d1 - 1 + sh) <= m') as Hlow.
  { rewrite Hm', Z.pow_add_r by lia. apply Z.mul_le_mono_nonneg_r; lia. }
  assert (m' < (q + 1) * 2 ^ d2) as Hup by nia.
  destruct (Z.eq_dec q 0) as [->|Hq0].
  - simpl Zdigits2.
    assert (d1 - 1 + sh < d2) as Hlt.
    { destruct (Z_lt_le_dec (d1 - 1 + sh) d2) as [|Hge]; [assumption|].
      assert (2 ^ d2 <= 2 ^ (d1 - 1 + sh)) by (apply Z.pow_le_mono_r; lia). lia. }
    unfold sh, e' in *. unfold SpecFloat.fexp, SpecFloat.emin in *. lia.
  - assert (d1 + sh - d2 <= Zdigits2 q) as Hdq.
    { destruct (Z_lt_le_dec (d1 - 1 + sh - d2) 0) as [Hneg|Hpos].
      - pose proof (Zdigits2_pos q ltac:(lia)). lia.
      - apply Zdigits2_ge; [lia|].
        replace (d1 + sh - d2 - 1) with (d1 - 1 + sh - d2) by lia.
        assert (2 ^ (d1 - 1 + sh) = 2 ^ (d1 - 1 + sh - d2) * 2 ^ d2) as E.
        { rewrite <- Z.pow_add_r by lia. f_equal. lia. }
        assert (0 < 2 ^ d2) by (apply Z.pow_pos_nonneg; lia).
        assert (2 ^ (d1 - 1 + sh - d2) < q + 1) by nia. lia. }
    unfold sh, e' in *. unfold SpecFloat.fexp, SpecFloat.emin in *. lia.
Qed.
End Validity.

Lemma scaled_pos E m e : 0 < m -> E <= e -> 0 < scaled E m e.
Proof.
  intros. unfold scaled.
  assert (0 < 2 ^ (e - E)) by (apply Z.pow_pos_nonneg; lia). nia.
Qed.

Lemma scaled_shift E m e k : E <= e -> 0 <= k -> scaled E (m * 2 ^ k) e = scaled E m (e + k).
Proof.
  intros. unfold scaled. replace (e + k - E) with (k + (e - E)) by lia.
  rewrite Z.pow_add_r by lia. ring.
Qed.

Lemma scaled_le_mono E m m' e : E <= e -> m <= m' -> scaled E m e <= scaled E m' e.
Proof.
  intros. unfold scaled.
  assert (0 < 2 ^ (e - E)) by (apply Z.pow_pos_nonneg; lia). nia.
Qed.

Lemma scaled_le_inv E m m' e : E <= e -> scaled E m e <= scaled E m' e -> m <= m'.
Proof.
  intros. unfold scaled in *.
  assert (0 < 2 ^ (e - E)) by (apply Z.pow_pos_nonneg; lia). nia.
Qed.

Lemma scaled_lt_inv E m m' e : E <= e -> scaled E m e < scaled E m' e -> m < m'.
Proof.
  intros. unfold scaled in *.
  assert (0 < 2 ^ (e - E)) by (apply Z.pow_pos_nonneg; lia). nia.
Qed.

Section Order.
Variables prec emax : Z.
Hypothesis prec_pos : 0 < prec.

Local Abbreviation fexp := (SpecFloat.fexp prec emax).
Local Abbreviation emin := (SpecFloat.emin prec emax).

Lemma canonic_emin m e : canonic prec emax m e -> emin <= e.
Proof. unfold canonic, SpecFloat.fexp. lia. Qed.

Lemma canonic_digits m e : canonic prec emax m e -> Zdigits2 m <= prec.
Proof. unfold canonic, SpecFloat.fexp. lia. Qed.

(** A value of the format is below two to the sum of its digits and its
    exponent, and not below half of it. *)
Lemma scaled_bounds E m e :
  0 < m -> E <= e ->
  2 ^ (Zdigits2 m + e - 1 - E) <= scaled E m e < 2 ^ (Zdigits2 m + e - E).
Proof.
  intros Hm HE. pose proof (Zdigits2_spec m Hm) as [Hlo Hhi].
  pose proof (Zdigits2_pos m Hm).
  unfold scaled.
  replace (Zdigits2 m + e - 1 - E) with ((Zdigits2 m - 1) + (e - E)) by lia.
  replace (Zdigits2 m + e - E) with (Zdigits2 m + (e - E)) by lia.
  rewrite !Z.pow_add_r by lia.
  assert (0 < 2 ^ (e - E)) by (apply Z.pow_pos_nonneg; lia). nia.
Qed.

(** Among values of the format, the larger exponent is the larger value. *)
Lemma canonic_lt_exp E m1 e1 m2 e2 :
  canonic prec emax m1 e1 -> canonic prec emax m2 e2 -> 0 < m1 -> 0 < m2 -> E <= e1 -> e1 < e2 ->
  scaled E m1 e1 < scaled E m2 e2.
Proof.
  intros H1 H2 Hm1 Hm2 HE Hlt.
  pose proof (scaled_bounds E m1 e1 Hm1 HE) as [_ Hhi].
  pose proof (scaled_bounds E m2 e2 Hm2 ltac:(lia)) as [Hlo _].
  assert (2 ^ (Zdigits2 m1 + e1 - E) <= 2 ^ (Zdigits2 m2 + e2 - 1 - E)); [|lia].
  pose proof (Zdigits2_pos m1 Hm1).
  apply Z.pow_le_mono_r; [lia|].
  unfold canonic, SpecFloat.fexp in *. lia.
Qed.

Lemma SFleb_pos E (m1 m2 : positive) e1 e2 :
  canonic prec emax (Z.pos m1) e1 -> canonic prec emax (Z.pos m2) e2 -> E <= e1 -> E <= e2 ->
  SFleb (S754_finite false m1 e1) (S754_finite false m2 e2) = true <->
  scaled E (Z.pos m1) e1 <= scaled E (Z.pos m2) e2.
Proof.
  intros H1 H2 HE1 HE2. unfold SFleb, SFcompare.
  destruct (Z.compare_spec e1 e2) as [->|Hlt|Hgt].
  - fold (Pos.compare m1 m2).
    destruct (Pos.compare_spec m1 m2) as [->|Hlt|Hgt].
    + intuition lia.
    + split; [intros _|reflexivity]. apply scaled_le_mono; lia.
    + split; [discriminate|]. intros H. apply scaled_le_inv in H; [exfalso; lia|lia].
  - split; [intros _|reflexivity].
    pose proof (canonic_lt_exp E (Z.pos m1) e1 (Z.pos m2) e2 H1 H2 ltac:(lia) ltac:(lia) ltac:(lia) ltac:(lia)). lia.
  - split; [discriminate|]. intros H. exfalso.
    pose proof (canonic_lt_exp E (Z.pos m2) e2 (Z.pos m1) e1 H2 H1 ltac:(lia) ltac:(lia) ltac:(lia) ltac:(lia)). lia.
Qed.

Lemma SFleb_neg E (m1 m2 : positive) e1 e2 :
  canonic prec emax (Z.pos m1) e1 -> canonic prec emax (Z.pos m2) e2 -> E <= e1 -> E <= e2 ->
  SFleb (S754_finite true m1 e1) (S754_finite true m2 e2) = true <->
  scaled E (Z.pos m2) e2 <= scaled E (Z.pos m1) e1.
Proof.
  intros H1 H2 HE1 HE2. unfold SFleb, SFcompare.
  destruct (Z.compare_spec e1 e2) as [->|Hlt|Hgt].
  - fold (Pos.compare m1 m2).
    destruct (Pos.compare_spec m1 m2) as [->|Hlt|Hgt]; simpl.
    + intuition lia.
    + split; [discriminate|]. intros H. apply scaled_le_inv in H; [exfalso; lia|lia].
    + split; [intros _|reflexivity]. apply scaled_le_mono; lia.
  - split; [discriminate|]. intros H. exfalso.
    pose proof (canonic_lt_exp E (Z.pos m1) e1 (Z.pos m2) e2 H1 H2 ltac:(lia) ltac:(lia) ltac:(lia) ltac:(lia)). lia.
  - split; [intros _|reflexivity].
    pose proof (canonic_lt_exp E (Z.pos m2) e2 (Z.pos m1) e1 H2 H1 ltac:(lia) ltac:(lia) ltac:(lia) ltac:(lia)). lia.
Qed.
End Order.

Lemma Zpos_iter_xO (m d : positive) : Z.pos (Pos.iter xO m d) = Z.pos m * 2 ^ Z.pos d.
Proof.
  induction d as [|d IH] using Pos.peano_ind.
  - simpl. lia.
  - rewrite Pos.iter_succ, Pos2Z.inj_succ, Z.pow_succ_r by lia.
    rewrite Pos2Z.inj_xO, IH. ring.
Qed.

Lemma binary_round_no_shl prec emax s m e :
  e <= SpecFloat.fexp prec emax (Z.pos (digits2_pos m) + e) ->
  binary_round prec emax s m e = binary_round_aux prec emax s (Z.pos m) e loc_Exact.
Proof.
  intros H. unfold binary_round, shl_align.
  destruct (SpecFloat.fexp prec emax (Z.pos (digits2_pos m) + e) - e) eqn:E; try reflexivity.
  lia.
Qed.

Section Shape.
Variables prec emax : Z.
Hypothesis prec_pos : 0 < prec.

Local Abbreviation fexp := (SpecFloat.fexp prec emax).

(** The mantissa is first shifted to the left when the format has room
    for more digits. *)
Lemma binary_round_align s m e :
  exists mz ez,
    binary_round prec emax s m e = binary_round_aux prec emax s (Z.pos mz) ez loc_Exact /\
    ez <= fexp (Zdigits2 (Z.pos mz) + ez) /\
    ez <= e /\ Z.pos mz = Z.pos m * 2 ^ (e - ez) /\
    fexp (Zdigits2 (Z.pos mz) + ez) = fexp (Zdigits2 (Z.pos m) + e) /\
    (ez = e \/ ez = fexp (Zdigits2 (Z.pos m) + e)).
Proof.
  unfold binary_round, shl_align. simpl Zdigits2.
  destruct (fexp (Z.pos (digits2_pos m) + e) - e) as [|d|d] eqn:Hd.
  - exists m, e. rewrite Z.sub_diag, Z.pow_0_r. repeat split; lia.
  - exists m, e. rewrite Z.sub_diag, Z.pow_0_r. repeat split; lia.
  - exists (Pos.iter xO m d), (fexp (Z.pos (digits2_pos m) + e)).
    rewrite digits2_pos_shifted.
    replace (Z.pos (digits2_pos m + d) + fexp (Z.pos (digits2_pos m) + e))
      with (Z.pos (digits2_pos m) + e) by lia.
    repeat split; try lia.
    rewrite Zpos_iter_xO. do 2 f_equal. lia.
Qed.

Lemma bounded_iff m e :
  bounded prec emax m e = true <->
  canonic prec emax (Z.pos m) e /\ e <= emax - prec.
Proof.
  unfold bounded, canonical_mantissa, canonic. simpl Zdigits2.
  rewrite andb_true_iff, Z.eqb_eq, Z.leb_le. reflexivity.
Qed.

(** The shape of a rounded finite value. *)
Lemma binary_round_shape s m e :
  binary_round prec emax s m e = S754_zero s \/
  binary_round prec emax s m e = S754_infinity s \/
  exists m' e', binary_round prec emax s m e = S754_finite s m' e' /\
                bounded prec emax m' e' = true.
Proof.
  destruct (binary_round_align s m e) as (mz & ez & -> & Hle & _).
  destruct (binary_round_aux_spec prec emax prec_pos s (Z.pos mz) ez loc_Exact
              ltac:(lia) Hle) as (m2 & m3 & e3 & _ & _ & Hm3 & Hc & _ & _ & ->).
  destruct m3 as [|m3|m3]; [by left| |lia].
  destruct (e3 <=? emax - prec) eqn:Hb; [|right; by left].
  right; right. exists m3, e3. split; [reflexivity|].
  unfold bounded, canonical_mantissa. rewrite Hb, andb_true_r. by apply Z.eqb_eq.
Qed.
End Shape.

Lemma Zdigits2_mul_pow2 (m k : Z) : 0 < m -> 0 <= k -> Zdigits2 (m * 2 ^ k) = Zdigits2 m + k.
Proof.
  intros Hm Hk. pose proof (Zdigits2_spec m Hm) as [Hlo Hhi].
  pose proof (Zdigits2_pos m Hm).
  assert (0 < 2 ^ k) by (apply Z.pow_pos_nonneg; lia).
  apply Zdigits2_unique; [|nia].
  replace (Zdigits2 m + k - 1) with ((Zdigits2 m - 1) + k) by lia.
  rewrite !Z.pow_add_r by lia. nia.
Qed.

Section TwoFormats.
(** A small format and a big one that holds all the values of the small
    one. *)
Variables fs fb : Format.
Local Abbreviation ps := (prec fs).
Local Abbreviation emaxs := (emax fs).
Local Abbreviation pb := (prec fb).
Local Abbreviation emaxb := (emax fb).
Hypothesis ps_pos : 0 < ps.
Hypothesis ps_le_pb : ps <= pb.
Hypothesis emin_le : 3 - emaxb - pb <= 3 - emaxs - ps.
Hypothesis emax_le : emaxs <= emaxb.
Hypothesis emaxb_ge : 3 <= 2 * emaxb.

Local Abbreviation fexps := (SpecFloat.fexp ps emaxs).
Local Abbreviation fexpb := (SpecFloat.fexp pb emaxb).
Local Abbreviation E := (SpecFloat.emin pb emaxb).

Lemma pb_pos : 0 < pb.
Proof. lia. Qed.

(** Widening is exact. *)
Lemma widen_exact s m e :
  bounded ps emaxs m e = true ->
  exists m' e',
    binary_round pb emaxb s m e = S754_finite s m' e' /\
    bounded pb emaxb m' e' = true /\
    e' <= e /\ Z.pos m' = Z.pos m * 2 ^ (e - e').
Proof.
  intros Hb. apply bounded_iff in Hb as [Hc He].
  destruct (binary_round_align pb emaxb s m e) as (mz & ez & -> & Hle & Hez & Hmz & Hf & Hcase).
  exists mz, ez.
  assert (fexpb (Zdigits2 (Z.pos m) + e) <= e) as Hfit.
  { unfold canonic, SpecFloat.fexp, SpecFloat.emin in *. lia. }
  assert (bounded pb emaxb mz ez = true) as Hbz.
  { apply bounded_iff. split.
    - unfold canonic. rewrite Hf. lia.
    - unfold canonic, SpecFloat.fexp, SpecFloat.emin in *. lia. }
  split; [by apply binary_round_aux_bounded|]. auto.
Qed.

(** Widening and narrowing back gives the value back. *)
Lemma widen_narrow s m e :
  bounded ps emaxs m e = true ->
  round_to fs (binary_round pb emaxb s m e) = S754_finite s m e.
Proof.
  intros Hb. destruct (widen_exact s m e Hb) as (m' & e' & -> & Hb' & He' & Hm').
  apply bounded_iff in Hb as [Hc He]. simpl round_to.
  assert (Zdigits2 (Z.pos m') + e' = Zdigits2 (Z.pos m) + e) as Hd.
  { rewrite Hm', Zdigits2_mul_pow2 by lia. lia. }
  assert (e' <= fexps (Zdigits2 (Z.pos m') + e')) as Hle.
  { rewrite Hd. unfold canonic in Hc. lia. }
  rewrite binary_round_no_shl by exact Hle.
  destruct (binary_round_aux_spec ps emaxs ps_pos s (Z.pos m') e' loc_Exact ltac:(lia) Hle)
    as (m2 & m3 & e3 & Hm2 & Hex & Hm3 & Hc3 & He3 & Hv & ->).
  rewrite Hd in *. unfold canonic in Hc. rewrite Hc in *.
  assert (0 < 2 ^ (e - e')) as Hpk by (apply Z.pow_pos_nonneg; lia).
  assert (Z.pos m' mod 2 ^ (e - e') = 0) as Hmod.
  { rewrite Hm'. apply Z.mod_mul. lia. }
  assert (Z.pos m' / 2 ^ (e - e') = Z.pos m) as Hq.
  { rewrite Hm'. apply Z.div_mul. lia. }
  rewrite Hq in *. specialize (Hex eq_refl Hmod). subst m2.
  assert (0 < 2 ^ (e3 - e)) as Hp3 by (apply Z.pow_pos_nonneg; lia).
  assert (0 < m3) as Hm3' by nia.
  assert (e3 = e) as ->.
  { unfold canonic in Hc3.
    assert (Zdigits2 (Z.pos m) = Zdigits2 m3 + (e3 - e)) as Hdd
      by (rewrite <- Hv; apply Zdigits2_mul_pow2; lia).
    transitivity (fexps (Zdigits2 m3 + e3)); [symmetry; exact Hc3|].
    rewrite <- Hc. f_equal. lia. }
  rewrite Z.sub_diag, Z.pow_0_r, Z.mul_1_r in Hv. subst m3.
  apply Z.leb_le in He. by rewrite He.
Qed.

Lemma scaled_renorm m3 e3 e' : E <= e' -> e' <= e3 -> scaled E m3 e3 = scaled E (m3 * 2 ^ (e3 - e')) e'.
Proof.
  intros. unfold scaled. replace (e3 - E) with ((e3 - e') + (e' - E)) by lia.
  rewrite Z.pow_add_r by lia. ring.
Qed.

(** Narrowing a value of the big format, against a value of the small
    one: the rounded value is on the same side of it. *)
Lemma narrow_vs_point (s : bool) (mv : positive) (ev : Z) (ma : positive) (ea : Z) :
  bounded pb emaxb mv ev = true ->
  bounded ps emaxs ma ea = true ->
  (scaled E (Z.pos mv) ev <= scaled E (Z.pos ma) ea ->
   binary_round ps emaxs s mv ev = S754_zero s \/
   exists m3 e3,
     binary_round ps emaxs s mv ev = S754_finite s m3 e3 /\
     canonic ps emaxs (Z.pos m3) e3 /\ E <= e3 /\
     scaled E (Z.pos m3) e3 <= scaled E (Z.pos ma) ea) /\
  (scaled E (Z.pos ma) ea <= scaled E (Z.pos mv) ev ->
   binary_round ps emaxs s mv ev = S754_infinity s \/
   exists m3 e3,
     binary_round ps emaxs s mv ev = S754_finite s m3 e3 /\
     canonic ps emaxs (Z.pos m3) e3 /\ E <= e3 /\
     scaled E (Z.pos ma) ea <= scaled E (Z.pos m3) e3).
Proof.
  intros Hv Ha.
  apply bounded_iff in Hv as [Hcv _]. apply bounded_iff in Ha as [Hca Hea].
  set (dv := Zdigits2 (Z.pos mv)). set (da := Zdigits2 (Z.pos ma)).
  assert (0 < dv) as Hdv by (unfold dv; simpl; lia).
  assert (0 < da) as Hda by (unfold da; simpl; lia).
  assert (ev <= fexps (dv + ev)) as Hle.
  { unfold canonic in Hcv. fold dv in Hcv.
    unfold SpecFloat.fexp, SpecFloat.emin in *. lia. }
  assert (E <= ev) as HEv.
  { unfold canonic, SpecFloat.fexp in Hcv. lia. }
  assert (E <= ea) as HEa.
  { unfold canonic, SpecFloat.fexp, SpecFloat.emin in *. lia. }
  rewrite binary_round_no_shl by exact Hle.
  destruct (binary_round_aux_spec ps emaxs ps_pos s (Z.pos mv) ev loc_Exact ltac:(lia) Hle)
    as (m2 & m3 & e3 & Hm2 & Hex & Hm3 & Hc3 & He3 & Hval & ->).
  fold dv in Hex, He3, Hval, Hm2.
  set (e' := fexps (dv + ev)) in *.
  set (n := e' - ev) in *.
  assert (0 <= n) as Hn by (unfold n; lia).
  assert (0 < 2 ^ n) as Hpn by (apply Z.pow_pos_nonneg; lia).
  specialize (Hex eq_refl).
  set (q := Z.pos mv / 2 ^ n) in *.
  pose proof (Z.div_mod (Z.pos mv) (2 ^ n) ltac:(lia)) as Hdm. fold q in Hdm.
  pose proof (Z.mod_pos_bound (Z.pos mv) (2 ^ n) Hpn) as Hr.
  assert (E <= e') as HE'.
  { unfold e', SpecFloat.fexp, SpecFloat.emin in *. lia. }
  assert (scaled E m3 e3 = scaled E m2 e') as Hs3.
  { rewrite (scaled_renorm m3 e3 e') by lia. by rewrite Hval. }
  assert (forall X, scaled E X e' = scaled E (X * 2 ^ n) ev) as Hsn.
  { intros X. symmetry. rewrite scaled_shift by lia. f_equal. unfold n. lia. }
  assert (0 <= q) as Hq by (apply Z.div_pos; lia).
  pose proof (scaled_bounds E (Z.pos ma) ea ltac:(lia) HEa) as [Halo Hahi].
  pose proof (scaled_bounds E (Z.pos mv) ev ltac:(lia) HEv) as [Hvlo Hvhi].
  fold da in Halo, Hahi. fold dv in Hvlo, Hvhi.
  split.
  - intros Hva.
    assert (scaled E m2 e' <= scaled E (Z.pos ma) ea) as Hres.
    { destruct (Z_le_gt_dec e' ea) as [Hcase|Hcase].
      - rewrite (scaled_renorm (Z.pos ma) ea e') by lia.
        apply scaled_le_mono; [lia|].
        set (M := Z.pos ma * 2 ^ (ea - e')) in *.
        assert (Z.pos mv <= M * 2 ^ n) as HM.
        { apply (scaled_le_inv E _ _ ev); [lia|].
          rewrite <- Hsn. unfold M. rewrite <- scaled_renorm by lia. exact Hva. }
        destruct Hm2 as [->| ->]; [nia|].
        destruct (Z.eq_dec (Z.pos mv mod 2 ^ n) 0) as [Hz|Hnz]; [specialize (Hex Hz); lia|].
        nia.
      - exfalso.
        assert (da + ea < dv + ev) as Hlt.
        { unfold canonic in Hca. fold da in Hca. unfold e' in Hcase.
          unfold SpecFloat.fexp in *. lia. }
        assert (2 ^ (da + ea - E) <= 2 ^ (dv + ev - 1 - E))
          by (apply Z.pow_le_mono_r; lia).
        lia. }
    rewrite <- Hs3 in Hres.
    destruct m3 as [|m3|m3]; [by left| |lia].
    right. exists m3, e3.
    destruct (e3 <=? emaxs - ps) eqn:Hb.
    + repeat split; try assumption. lia.
    + exfalso. apply Z.leb_gt in Hb.
      pose proof (canonic_lt_exp ps emaxs E (Z.pos ma) ea (Z.pos m3) e3
                    Hca Hc3 ltac:(lia) ltac:(lia) HEa ltac:(lia)). lia.
  - intros Hav.
    assert (scaled E (Z.pos ma) ea <= scaled E m2 e' /\ 0 < m2) as [Hres Hpos].
    { destruct (Z_le_gt_dec e' ea) as [Hcase|Hcase].
      - rewrite (scaled_renorm (Z.pos ma) ea e') by lia.
        set (M := Z.pos ma * 2 ^ (ea - e')) in *.
        assert (0 < 2 ^ (ea - e')) by (apply Z.pow_pos_nonneg; lia).
        assert (0 < M) by (unfold M; nia).
        assert (M * 2 ^ n <= Z.pos mv) as HM.
        { apply (scaled_le_inv E _ _ ev); [lia|].
          rewrite <- Hsn. unfold M. rewrite <- scaled_renorm by lia. exact Hav. }
        assert (M <= q) by nia.
        split; [apply scaled_le_mono; lia|lia].
      - assert (n < dv) as Hnd.
        { unfold canonic in Hca. fold da in Hca. unfold n, e' in *.
          unfold SpecFloat.fexp, SpecFloat.emin in *. lia. }
        assert (Zdigits2 q = dv - n) as Hdq
          by (unfold q, dv; apply Zdigits2_div_pow2; lia).
        assert (0 < q) as Hq0.
        { destruct (Z.eq_dec q 0) as [Hz|]; [|lia]. rewrite Hz in Hdq. simpl in Hdq. lia. }
        assert (canonic ps emaxs q e') as Hcq.
        { unfold canonic. rewrite Hdq. replace (dv - n + e') with (dv + ev) by (unfold n; lia).
          reflexivity. }
        pose proof (canonic_lt_exp ps emaxs E (Z.pos ma) ea q e'
                      Hca Hcq ltac:(lia) Hq0 HEa ltac:(lia)) as Hlt.
        assert (scaled E q e' <= scaled E m2 e') by (apply scaled_le_mono; lia).
        split; lia. }
    rewrite <- Hs3 in Hres.
    assert (0 < 2 ^ (e3 - e')) by (apply Z.pow_pos_nonneg; lia).
    destruct m3 as [|m3|m3]; [lia| |lia].
    destruct (e3 <=? emaxs - ps) eqn:Hb; [right|by left].
    exists m3, e3. repeat split; try assumption. lia.
Qed.

Lemma widen_scaled s m e :
  bounded ps emaxs m e = true ->
  exists m' e',
    binary_round pb emaxb s m e = S754_finite s m' e' /\
    canonic pb emaxb (Z.pos m') e' /\ E <= e' /\
    scaled E (Z.pos m') e' = scaled E (Z.pos m) e.
Proof.
  intros Hb. destruct (widen_exact s m e Hb) as (m' & e' & Heq & Hb' & He' & Hm').
  exists m', e'. apply bounded_iff in Hb' as [Hc' _].
  pose proof (canonic_emin _ _ _ _ Hc') as HE.
  repeat split; try assumption.
  rewrite (scaled_renorm (Z.pos m) e e') by (fold E in HE; lia). by rewrite Hm'.
Qed.

Ltac shape s m e :=
  destruct (binary_round_shape ps emaxs ps_pos s m e)
    as [-> | [-> | (? & ? & -> & _)]].

(** A value of the big format below a widened small one rounds
    to a small value below it. *)
Lemma narrow_le_point v a :
  valid_binary pb emaxb v = true ->
  valid_binary ps emaxs a = true ->
  SFleb v (round_to fb a) = true ->
  SFleb (round_to fs v) a = true.
Proof.
  intros Hv Ha.
  destruct a as [sa|sa| |sa ma ea]; simpl round_to at 1.
  - destruct v as [sv|sv| |sv mv ev]; simpl round_to; try done.
    destruct sv; [|done]. intros _. shape true mv ev; reflexivity.
  - destruct v as [sv|sv| |sv mv ev]; simpl round_to; try done.
    destruct sa, sv; try done; intros _.
    + shape true mv ev; reflexivity.
    + shape false mv ev; reflexivity.
  - destruct v as [| | |]; done.
  - simpl in Ha.
    destruct (widen_scaled sa ma ea Ha) as (m' & e' & -> & Hc' & HE' & Hs).
    pose proof Ha as Hba. apply bounded_iff in Hba as [Hca Hea].
    assert (E <= ea) as HEa.
    { pose proof (canonic_emin _ _ _ _ Hca). unfold E, SpecFloat.emin in *. lia. }
    destruct v as [sv|sv| |sv mv ev]; simpl round_to; try done.
    simpl in Hv. pose proof Hv as Hbv. apply bounded_iff in Hbv as [Hcv _].
    pose proof (canonic_emin _ _ _ _ Hcv) as HEv. fold E in HEv.
    destruct (narrow_vs_point sv mv ev ma ea Hv Ha) as [H1 H2].
    destruct sv, sa; try done.
    + intros Hle. apply (SFleb_neg pb emaxb E) in Hle; try assumption.
      rewrite Hs in Hle.
      destruct (H2 Hle) as [-> | (m3 & e3 & -> & Hc3 & HE3 & Hle3)]; [done|].
      by apply (SFleb_neg ps emaxs E).
    + intros _. shape true mv ev; reflexivity.
    + intros Hle. apply (SFleb_pos pb emaxb E) in Hle; try assumption.
      rewrite Hs in Hle.
      destruct (H1 Hle) as [-> | (m3 & e3 & -> & Hc3 & HE3 & Hle3)]; [done|].
      by apply (SFleb_pos ps emaxs E).
Qed.

(** The same from the other side. *)
Lemma point_le_narrow v a :
  valid_binary pb emaxb v = true ->
  valid_binary ps emaxs a = true ->
  SFleb (round_to fb a) v = true ->
  SFleb a (round_to fs v) = true.
Proof.
  intros Hv Ha.
  destruct a as [sa|sa| |sa ma ea]; simpl round_to at 1.
  - destruct v as [sv|sv| |sv mv ev]; simpl round_to; try done.
    destruct sv; [done|]. intros _. shape false mv ev; reflexivity.
  - destruct v as [sv|sv| |sv mv ev]; simpl round_to; try done.
    destruct sa, sv; try done; intros _.
    + shape true mv ev; reflexivity.
    + shape false mv ev; reflexivity.
  - destruct v as [| | |]; done.
  - simpl in Ha.
    destruct (widen_scaled sa ma ea Ha) as (m' & e' & -> & Hc' & HE' & Hs).
    pose proof Ha as Hba. apply bounded_iff in Hba as [Hca Hea].
    assert (E <= ea) as HEa.
    { pose proof (canonic_emin _ _ _ _ Hca). unfold E, SpecFloat.emin in *. lia. }
    destruct v as [sv|sv| |sv mv ev]; simpl round_to; try done.
    simpl in Hv. pose proof Hv as Hbv. apply bounded_iff in Hbv as [Hcv _].
    pose proof (canonic_emin _ _ _ _ Hcv) as HEv. fold E in HEv.
    destruct (narrow_vs_point sv mv ev ma ea Hv Ha) as [H1 H2].
    destruct sv, sa; try done.
    + intros Hle. apply (SFleb_neg pb emaxb E) in Hle; try assumption.
      rewrite Hs in Hle.
      destruct (H1 Hle) as [-> | (m3 & e3 & -> & Hc3 & HE3 & Hle3)]; [done|].
      by apply (SFleb_neg ps emaxs E).
    + intros _. shape false mv ev; reflexivity.
    + intros Hle. apply (SFleb_pos pb emaxb E) in Hle; try assumption.
      rewrite Hs in Hle.
      destruct (H2 Hle) as [-> | (m3 & e3 & -> & Hc3 & HE3 & Hle3)]; [done|].
      by apply (SFleb_pos ps emaxs E).
Qed.
End TwoFormats.

End Rounding.

(** ** The AMSGrad maximum *)

Lemma same_lengths_refl st : same_lengths st st.
Proof. by repeat split. Qed.

Lemma same_lengths_trans st st' st'' :
  same_lengths st st' -> same_lengths st' st'' -> same_lengths st st''.
Proof. unfold same_lengths. intros (?&?&?&?&?) (?&?&?&?&?). repeat split; congruence. Qed.

Lemma ams_seg_refl t lo st : ams_seg t lo lo st st.
Proof. split; [apply same_lengths_refl|]. split; [lia|done]. Qed.

Lemma ams_seg_trans t lo mid hi st st' st'' :
  lo <= mid <= hi -> ams_seg t lo mid st st' -> ams_seg t mid hi st' st'' ->
  ams_seg t lo hi st st''.
Proof.
  intros Hle (Hl1 & Hin1 & Hout1) (Hl2 & Hin2 & Hout2).
  split; [by eapply same_lengths_trans|]. split.
  - intros j Hj. destruct (decide (j < mid)) as [Hlt|Hge].
    + destruct (Hin1 j ltac:(lia)) as (v & a & mx & Hmx & Hval & Hv & Ha & Hm).
      destruct (Hout2 j ltac:(lia)) as [Hv2 Hm2].
      exists v, a, mx. by rewrite Hv2, Hm2.
    + destruct (Hin2 j ltac:(lia)) as (v & a & mx & Hmx & Hval & Hv & Ha & Hm).
      destruct (Hout1 j ltac:(lia)) as [Hv1 Hm1].
      exists v, a, mx. by rewrite <- Hm1.
  - intros j Hj.
    destruct (Hout1 j ltac:(lia)) as [Hv1 Hm1].
    destruct (Hout2 j ltac:(lia)) as [Hv2 Hm2].
    split; congruence.
Qed.

(** The shape of one vector iteration. *)
Lemma ams_seg_chunk t w i st st' (V : list spec_float) :
  length V = w ->
  i + w <= length (exp_avg_sq st) -> i + w <= length (max_exp_avg_sq st) ->
  same_lengths st st' ->
  exp_avg_sq st' = store (to_st t <$> V) (exp_avg_sq st) i ->
  max_exp_avg_sq st' =
    store (to_st t <$> zip_with maximum (to_op t <$> loadu w (max_exp_avg_sq st) i) V)
      (max_exp_avg_sq st) i ->
  opmath_type t = t \/ Forall (valid_in (opmath_type t)) V ->
  ams_seg t i (i + w) st st'.
Proof.
  intros HV Hv Hm Hlen Hv' Hm' Hval. split; [exact Hlen|]. split.
  - intros j Hj.
    destruct (lookup_lt_is_Some_2 V (j - i)) as [v Hx]; [lia|].
    destruct (lookup_lt_is_Some_2 (max_exp_avg_sq st) j) as [a Ha]; [lia|].
    exists v, a, maximum. split; [by left|]. split.
    { destruct Hval as [Hw|Hval]; [by left|right].
      by apply (Forall_lookup_1 _ _ _ _ Hval Hx). }
    rewrite Hv', Hm'. unfold store.
    rewrite !list_lookup_inserts;
      rewrite ?length_fmap, ?length_zip_with, ?length_fmap; unfold loadu;
      rewrite ?length_take, ?length_drop; try lia.
    rewrite !list_lookup_fmap, !lookup_zip_with, list_lookup_fmap.
    rewrite lookup_take_lt, lookup_drop by lia.
    replace (i + (j - i)) with j by lia.
    rewrite Hx, Ha. simpl. done.
  - intros j Hj. rewrite Hv', Hm'. unfold store.
    destruct (decide (j < i)).
    + by rewrite !list_lookup_inserts_lt.
    + rewrite !list_lookup_inserts_ge; [done| |];
        rewrite ?length_fmap, ?length_zip_with, ?length_fmap; unfold loadu;
        rewrite ?length_take, ?length_drop; lia.
Qed.

(** The shape of one tail iteration. *)
Lemma ams_seg_elem t i st st' (v : spec_float) :
  i < length (exp_avg_sq st) -> i < length (max_exp_avg_sq st) ->
  same_lengths st st' ->
  exp_avg_sq st' !! i = Some (to_st t v) ->
  (forall j, j <> i -> exp_avg_sq st' !! j = exp_avg_sq st !! j) ->
  max_exp_avg_sq st' =
    <[i := to_st t (std_max (to_op t (max_exp_avg_sq st !!! i)) v)]> (max_exp_avg_sq st) ->
  opmath_type t = t \/ valid_in (opmath_type t) v ->
  ams_seg t i (i + 1) st st'.
Proof.
  intros Hv Hm Hlen Hv' Hvo Hm' Hval. split; [exact Hlen|]. split.
  - intros j Hj. assert (j = i) as -> by lia.
    destruct (lookup_lt_is_Some_2 (max_exp_avg_sq st) i) as [a Ha]; [lia|].
    exists v, a, std_max. split; [by right|]. split; [exact Hval|].
    rewrite Hv', Hm', list_lookup_insert_eq by lia.
    by rewrite (list_lookup_total_correct _ _ _ Ha).
  - intros j Hj. split; [apply Hvo; lia|].
    rewrite Hm'. apply list_lookup_insert_ne. lia.
Qed.

Ltac len :=
  unfold loadu, broadcast, store, Narrow.convert_from_float, Narrow.convert_to_float in *;
  simpl;
  repeat rewrite ?length_zip_with, ?length_fmap, ?length_replicate, ?length_take,
    ?length_drop, ?length_app, ?length_inserts, ?length_insert;
  lia.

Lemma length_zip_with_eq {A B C} (f : A -> B -> C) (l : list A) (l' : list B) (w : nat) :
  length l = w -> length l' = w -> length (zip_with f l l') = w.
Proof. intros. rewrite length_zip_with. lia. Qed.

Lemma length_broadcast w x : length (broadcast w x) = w.
Proof. apply length_replicate. Qed.

(** The number of lanes of a register computed from loaded registers. *)
Ltac lanes :=
  repeat first [ apply length_zip_with_eq | apply length_broadcast | rewrite length_fmap ];
  try len.

Lemma convert_same t x : convert t t x = x.
Proof. unfold convert. by destruct t. Qed.

Lemma to_st_wide t x : opmath_type t = t -> to_st t x = x.
Proof. intros H. unfold to_st. rewrite H. apply convert_same. Qed.

Lemma to_op_wide t x : opmath_type t = t -> to_op t x = x.
Proof. intros H. unfold to_op. rewrite H. apply convert_same. Qed.

Lemma fmap_to_st_wide t (l : list spec_float) : opmath_type t = t -> to_st t <$> l = l.
Proof.
  intros H. rewrite <- (list_fmap_id l) at 2. apply list_fmap_ext.
  intros ? x _. by apply to_st_wide.
Qed.

Lemma fmap_to_op_wide t (l : list spec_float) : opmath_type t = t -> to_op t <$> l = l.
Proof.
  intros H. rewrite <- (list_fmap_id l) at 2. apply list_fmap_ext.
  intros ? x _. by apply to_op_wide.
Qed.

(** ** The order of the comparisons *)

Lemma SFcompare_antisym x y c :
  SFcompare x y = Some c -> SFcompare y x = Some (CompOpp c).
Proof.
  destruct x as [sx|sx| |sx mx ex], y as [sy|sy| |sy my ey]; simpl;
    intros H; try discriminate; injection H as <-;
    try (by destruct sx); try (by destruct sy); try (by destruct sx, sy).
  assert (Pos.compare_cont Eq my mx = CompOpp (Pos.compare_cont Eq mx my)) as Hm
    by (by rewrite Pos.compare_cont_antisym).
  destruct sx, sy; try reflexivity;
    rewrite (Z.compare_antisym ex ey), Hm;
    destruct (ex ?= ey)%Z; simpl; try reflexivity.
Qed.

Lemma SFcompare_not_nan x y :
  is_nan x = false -> is_nan y = false -> exists c, SFcompare x y = Some c.
Proof. destruct x, y; simpl; intros; try discriminate; eauto. Qed.

Lemma SFleb_refl x : is_nan x = false -> SFleb x x = true.
Proof.
  unfold SFleb. destruct x as [s|s| |s m e]; simpl; intros H; try done.
  - by destruct s.
  - rewrite Z.compare_refl, Pos.compare_cont_refl. by destruct s.
Qed.

Lemma SFltb_SFleb x y : SFltb x y = true -> SFleb x y = true.
Proof. unfold SFltb, SFleb. by destruct (SFcompare x y) as [[| |]|]. Qed.

Lemma SFltb_false_SFleb x y :
  is_nan x = false -> is_nan y = false -> SFltb x y = false -> SFleb y x = true.
Proof.
  intros Hx Hy. destruct (SFcompare_not_nan x y Hx Hy) as [c Hc].
  unfold SFltb, SFleb. rewrite (SFcompare_antisym x y c Hc), Hc. by destruct c.
Qed.

(** The larger of two values that are not NaNs is one of them, and the
    other one is below it; [std::max] and [at::vec::maximum] agree there. *)
Lemma max_cases (mx : spec_float -> spec_float -> spec_float) a v :
  mx = maximum \/ mx = std_max ->
  is_nan a = false -> is_nan v = false ->
  (mx a v = a /\ SFleb v a = true) \/ (mx a v = v /\ SFleb a v = true).
Proof.
  intros [-> | ->] Ha Hv.
  - unfold maximum. rewrite Ha. destruct (SFltb v a) eqn:Hlt.
    + left. split; [reflexivity|by apply SFltb_SFleb].
    + right. split; [reflexivity|by apply SFltb_false_SFleb].
  - unfold std_max. destruct (SFltb a v) eqn:Hlt.
    + right. split; [reflexivity|by apply SFltb_SFleb].
    + left. split; [reflexivity|by apply SFltb_false_SFleb].
Qed.

(** A conversion makes no NaN and loses none. *)
Lemma round_to_nan f x : (0 < prec f)%Z -> is_nan (round_to f x) = is_nan x.
Proof.
  intros Hf. destruct x as [s|s| |s m e]; try reflexivity. simpl.
  destruct (binary_round_shape (prec f) (emax f) Hf s m e)
    as [-> | [-> | (m' & e' & -> & _)]]; reflexivity.
Qed.

Lemma format_prec_pos t : (0 < prec (format_of t))%Z.
Proof. by destruct t. Qed.

Lemma convert_nan a b x : is_nan (convert a b x) = is_nan x.
Proof.
  unfold convert. destruct (ScalarType_eqb a b); [reflexivity|].
  apply round_to_nan, format_prec_pos.
Qed.

(** ** [Half] and [BFloat16] against [float] *)

Section NarrowFormats.
Variable t : ScalarType.
Hypothesis t_narrow : t = kHalf \/ t = kBFloat16.

Lemma to_op_narrow x : to_op t x = round_to binary32 x.
Proof. by destruct t_narrow as [-> | ->]. Qed.

Lemma to_st_narrow x : to_st t x = round_to (format_of t) x.
Proof. by destruct t_narrow as [-> | ->]. Qed.

(** Widening and narrowing back gives the value back. *)
Lemma to_st_to_op a : valid_in t a -> to_st t (to_op t a) = a.
Proof.
  intros Ha. rewrite to_op_narrow, to_st_narrow.
  destruct a as [s|s| |s m e]; try reflexivity.
  simpl round_to at 2.
  apply (widen_narrow (format_of t) binary32);
    destruct t_narrow as [-> | ->]; simpl; first [lia | exact Ha].
Qed.

Lemma to_st_le v a :
  valid_in kFloat v -> valid_in t a ->
  SFleb v (to_op t a) = true -> SFleb (to_st t v) a = true.
Proof.
  intros Hv Ha. rewrite to_op_narrow, to_st_narrow.
  apply (narrow_le_point (format_of t) binary32);
    destruct t_narrow as [-> | ->]; simpl; first [lia | exact Ha | exact Hv].
Qed.

Lemma to_st_ge v a :
  valid_in kFloat v -> valid_in t a ->
  SFleb (to_op t a) v = true -> SFleb a (to_st t v) = true.
Proof.
  intros Hv Ha. rewrite to_op_narrow, to_st_narrow.
  apply (point_le_narrow (format_of t) binary32);
    destruct t_narrow as [-> | ->]; simpl; first [lia | exact Ha | exact Hv].
Qed.
End NarrowFormats.

(** The stored maximum against the old one and the stored second moment. *)
Lemma ams_step_order t (mx : spec_float -> spec_float -> spec_float) a v :
  mx = maximum \/ mx = std_max ->
  opmath_type t = t \/ valid_in (opmath_type t) v ->
  valid_in t a ->
  is_nan a = false -> is_nan (to_st t v) = false ->
  SFleb a (to_st t (mx (to_op t a) v)) = true /\
  SFleb (to_st t v) (to_st t (mx (to_op t a) v)) = true.
Proof.
  intros Hmx Hv Ha Hna Hnv.
  assert (is_nan (to_op t a) = false) as Hna' by (unfold to_op; by rewrite convert_nan).
  assert (is_nan v = false) as Hnv' by (unfold to_st in Hnv; by rewrite convert_nan in Hnv).
  assert (opmath_type t = t \/ (t = kHalf \/ t = kBFloat16)) as [Hw|Hn]
    by (destruct t; auto).
  - rewrite !to_st_wide, !to_op_wide by exact Hw.
    rewrite to_op_wide in Hna' by exact Hw.
    destruct (max_cases mx a v Hmx Hna' Hnv') as [[-> Hle] | [-> Hle]];
      split; try assumption; by apply SFleb_refl.
  - assert (valid_in kFloat v) as Hv'.
    { destruct Hv as [Hv|Hv]; destruct Hn as [-> | ->]; try discriminate; exact Hv. }
    destruct (max_cases mx (to_op t a) v Hmx Hna' Hnv') as [[-> Hle] | [-> Hle]].
    + rewrite to_st_to_op by assumption.
      split; [by apply SFleb_refl|by apply to_st_le].
    + split; [by apply to_st_ge|by apply SFleb_refl].
Qed.

(** ** Values of [float] in the [Half] and [BFloat16] code *)

Lemma round_to_valid f x :
  (0 < prec f)%Z -> valid_binary (prec f) (emax f) (round_to f x) = true.
Proof.
  intros Hf. destruct x as [s|s| |s m e]; try reflexivity.
  by apply binary_round_valid.
Qed.

Lemma to_opmath_float t x : t = kHalf \/ t = kBFloat16 -> valid_in kFloat (Narrow.to_opmath t x).
Proof. intros [-> | ->]; by apply (round_to_valid binary32). Qed.

Lemma convert_double_float x : valid_in kFloat (convert kDouble kFloat x).
Proof. by apply (round_to_valid binary32). Qed.

Lemma fadd_float x y :
  valid_in kFloat x -> valid_in kFloat y -> valid_in kFloat (fadd binary32 x y).
Proof. by apply SFadd_valid. Qed.

Lemma fmul_float x y :
  valid_in kFloat x -> valid_in kFloat y -> valid_in kFloat (fmul binary32 x y).
Proof. by apply SFmul_valid. Qed.

Lemma fdiv_float x y :
  valid_in kFloat x -> valid_in kFloat y -> valid_in kFloat (fdiv binary32 x y).
Proof. by apply SFdiv_valid. Qed.

Lemma fneg_float x : valid_in kFloat x -> valid_in kFloat (fneg x).
Proof. apply SFopp_valid. Qed.

Lemma minus_one_float : valid_in kFloat (minus_one binary32).
Proof. reflexivity. Qed.

Lemma Forall_zip_with_op {A} (P : A -> Prop) (op : A -> A -> A) (l l' : list A) :
  (forall x y, P x -> P y -> P (op x y)) ->
  Forall P l -> Forall P l' -> Forall P (zip_with op l l').
Proof.
  intros Hop Hl. revert l'.
  induction Hl as [|x l Hx Hl IH]; intros l' Hl'; [constructor|].
  destruct Hl' as [|y l' Hy Hl']; [constructor|].
  simpl. constructor; [by apply Hop|by apply IH].
Qed.

Lemma Forall_broadcast (P : spec_float -> Prop) w x : P x -> Forall P (broadcast w x).
Proof. intros Hx. by apply Forall_replicate. Qed.

Lemma Forall_to_opmath t (l : list spec_float) :
  t = kHalf \/ t = kBFloat16 -> Forall (valid_in kFloat) (Narrow.to_opmath t <$> l).
Proof. intros Ht. apply Forall_fmap, Forall_true. intros x. by apply to_opmath_float. Qed.

(** Every [float] the code computes from loaded values is a [float]. *)
Ltac floats :=
  repeat first
    [ assumption
    | apply minus_one_float
    | apply fadd_float | apply fmul_float | apply fdiv_float | apply fneg_float
    | apply to_opmath_float
    | apply Forall_broadcast
    | apply Forall_to_opmath
    | apply Forall_zip_with_op;
      [ intros ? ? ? ?; first [by apply fadd_float | by apply fmul_float | by apply fdiv_float]
      | | ] ].

Section WideAms.
Variables (w : nat) (t : ScalarType) (mode : ADAM_MODE).
Variables (lr ss c1 c2 bcs eps wd b2 : spec_float) (mx : bool) (scale : option spec_float).
Hypothesis t_wide : opmath_type t = t.

Lemma Wide_vec_body_lengths ams i st :
  same_lengths st (Wide.vec_body w t mode lr ss c1 c2 bcs eps wd b2 ams mx scale i st).
Proof.
  unfold Wide.vec_body, Wide.vec_grad, Wide.vec_weight_decay, Wide.vec_update.
  destruct scale, mx, (ne_zero wd), mode, ams; simpl; repeat split; len.
Qed.

Lemma Wide_tail_body_lengths ams i st :
  same_lengths st (Wide.tail_body t mode lr ss c1 c2 bcs eps wd b2 ams mx scale i st).
Proof.
  unfold Wide.tail_body, Wide.tail_grad, Wide.tail_weight_decay, Wide.tail_update.
  destruct scale, mx, (ne_zero wd), mode, ams; simpl; repeat split; len.
Qed.

Lemma Wide_vec_body_ams i st :
  i + w <= length (param st) -> i + w <= length (grad st) ->
  i + w <= length (exp_avg_sq st) -> i + w <= length (max_exp_avg_sq st) ->
  ams_seg t i (i + w) st
    (Wide.vec_body w t mode lr ss c1 c2 bcs eps wd b2 true mx scale i st).
Proof.
  intros Hp Hg Hv Hm.
  pose proof (Wide_vec_body_lengths true i st) as Hlen. revert Hlen.
  unfold Wide.vec_body, Wide.vec_grad, Wide.vec_weight_decay, Wide.vec_update.
  destruct scale, mx, (ne_zero wd), mode; simpl; intros Hlen;
    (eapply ams_seg_chunk; [| | |exact Hlen| | |by left];
     [| | |
      simpl; rewrite fmap_to_st_wide by exact t_wide; reflexivity|
      simpl; rewrite fmap_to_st_wide, fmap_to_op_wide by exact t_wide; reflexivity];
     clear Hlen; lanes).
Qed.
Lemma Wide_tail_body_ams i st :
  i < length (exp_avg_sq st) -> i < length (max_exp_avg_sq st) ->
  ams_seg t i (i + 1) st
    (Wide.tail_body t mode lr ss c1 c2 bcs eps wd b2 true mx scale i st).
Proof.
  intros Hv Hm.
  pose proof (Wide_tail_body_lengths true i st) as Hlen. revert Hlen.
  unfold Wide.tail_body, Wide.tail_grad, Wide.tail_weight_decay, Wide.tail_update.
  destruct scale, mx, (ne_zero wd), mode; simpl; intros Hlen;
    (eapply ams_seg_elem; [exact Hv|exact Hm|exact Hlen| | | |by left]; simpl;
     [ rewrite list_lookup_insert_eq by len; rewrite to_st_wide by exact t_wide;
       reflexivity
     | intros j Hj; by rewrite !list_lookup_insert_ne by done
     | rewrite list_lookup_total_insert_eq by len;
       rewrite to_st_wide, to_op_wide by exact t_wide; reflexivity ]).
Qed.
End WideAms.

Lemma ams_seg_chunk_narrow t h i st st' (V1 V2 : list spec_float) :
  t = kHalf \/ t = kBFloat16 ->
  length V1 = h -> length V2 = h ->
  i + 2 * h <= length (exp_avg_sq st) -> i + 2 * h <= length (max_exp_avg_sq st) ->
  same_lengths st st' ->
  exp_avg_sq st' =
    store ((Narrow.to_scalar t <$> V1) ++ (Narrow.to_scalar t <$> V2)) (exp_avg_sq st) i ->
  max_exp_avg_sq st' =
    store ((Narrow.to_scalar t <$>
              zip_with maximum
                (Narrow.to_opmath t <$> take h (loadu (2 * h) (max_exp_avg_sq st) i)) V1) ++
           (Narrow.to_scalar t <$>
              zip_with maximum
                (Narrow.to_opmath t <$> drop h (loadu (2 * h) (max_exp_avg_sq st) i)) V2))
      (max_exp_avg_sq st) i ->
  Forall (valid_in kFloat) V1 -> Forall (valid_in kFloat) V2 ->
  ams_seg t i (i + 2 * h) st st'.
Proof.
  intros Ht HV1 HV2 Hv Hm Hlen Hv' Hm' Hf1 Hf2.
  assert (opmath_type t = kFloat) as Hop by (by destruct Ht as [-> | ->]).
  apply (ams_seg_chunk t (2 * h) i st st' (V1 ++ V2));
    try assumption; try len.
  - rewrite Hv'. unfold to_st, Narrow.to_scalar. rewrite Hop. by rewrite fmap_app.
  - rewrite Hm'. unfold to_st, to_op, Narrow.to_scalar, Narrow.to_opmath.
    rewrite Hop.
    rewrite <- (take_drop h (loadu (2 * h) (max_exp_avg_sq st) i)) at 3.
    rewrite fmap_app, !zip_with_app, fmap_app; [reflexivity|len].
  - right. rewrite Hop. by apply Forall_app.
Qed.

Section NarrowAms.
Variables (h : nat) (t : ScalarType) (mode : ADAM_MODE).
Variables (lr ss c1 c2 bcs eps wd b2 : spec_float) (mx : bool) (scale : option spec_float).
Hypothesis t_narrow : t = kHalf \/ t = kBFloat16.
(** The scalars are [float]s. *)
Hypothesis c2_float : valid_in kFloat c2.
Hypothesis b2_float : valid_in kFloat b2.
Hypothesis wd_float : valid_in kFloat wd.
Hypothesis scale_float : forall s, scale = Some s -> valid_in kFloat s.

Lemma Narrow_vec_body_lengths ams i st :
  same_lengths st (Narrow.vec_body h t mode lr ss c1 c2 bcs eps wd b2 ams mx scale i st).
Proof.
  unfold Narrow.vec_body, Narrow.vec_grad, Narrow.vec_weight_decay, Narrow.vec_update.
  destruct scale, mx, (ne_zero wd), mode, ams; simpl; repeat split; len.
Qed.

Lemma Narrow_tail_body_lengths ams i st :
  same_lengths st (Narrow.tail_body t mode lr ss c1 c2 bcs eps wd b2 ams mx scale i st).
Proof.
  unfold Narrow.tail_body, Narrow.tail_grad, Narrow.tail_weight_decay, Narrow.tail_update.
  destruct scale, mx, (ne_zero wd), mode, ams; simpl; repeat split; len.
Qed.

Lemma Narrow_vec_body_ams i st :
  i + 2 * h <= length (param st) -> i + 2 * h <= length (grad st) ->
  i + 2 * h <= length (exp_avg_sq st) -> i + 2 * h <= length (max_exp_avg_sq st) ->
  ams_seg t i (i + 2 * h) st
    (Narrow.vec_body h t mode lr ss c1 c2 bcs eps wd b2 true mx scale i st).
Proof.
  intros Hp Hg Hv Hm.
  pose proof (Narrow_vec_body_lengths true i st) as Hlen. revert Hlen.
  unfold Narrow.vec_body, Narrow.vec_grad, Narrow.vec_weight_decay, Narrow.vec_update.
  unfold Narrow.convert_to_float, Narrow.convert_from_float.
  generalize scale_float.
  destruct scale as [s|], mx, (ne_zero wd), mode; simpl; intros Hs Hlen;
    try (pose proof (Hs s eq_refl));
    (eapply ams_seg_chunk_narrow; [exact t_narrow| | | | |exact Hlen| | | |];
     [| | | | simpl; reflexivity | simpl; reflexivity | |]; clear Hlen;
     first [ by lanes | by floats ]).
Qed.

Lemma Narrow_tail_body_ams i st :
  i < length (exp_avg_sq st) -> i < length (max_exp_avg_sq st) ->
  ams_seg t i (i + 1) st
    (Narrow.tail_body t mode lr ss c1 c2 bcs eps wd b2 true mx scale i st).
Proof.
  intros Hv Hm.
  assert (opmath_type t = kFloat) as Hop by (by destruct t_narrow as [-> | ->]).
  pose proof (Narrow_tail_body_lengths true i st) as Hlen. revert Hlen.
  unfold Narrow.tail_body, Narrow.tail_grad, Narrow.tail_weight_decay, Narrow.tail_update.
  generalize scale_float.
  destruct scale as [s|], mx, (ne_zero wd), mode; simpl; intros Hs Hlen;
    try (pose proof (Hs s eq_refl));
    (eapply ams_seg_elem; [exact Hv|exact Hm|exact Hlen| | | |]; simpl;
     [ rewrite list_lookup_insert_eq by len; unfold to_st; rewrite Hop; reflexivity
     | intros j Hj; by rewrite !list_lookup_insert_ne by done
     | unfold to_st, to_op; rewrite Hop; reflexivity
     | right; rewrite Hop; by floats ]).
Qed.
End NarrowAms.

Lemma long_enough_same_lengths n st st' :
  same_lengths st st' -> long_enough n st -> long_enough n st'.
Proof. unfold same_lengths, long_enough. intros (?&?&?&?&?) (?&?&?&?). repeat split; lia. Qed.

Lemma long_enough_le n m st : n <= m -> long_enough m st -> long_enough n st.
Proof. unfold long_enough. intros ? (?&?&?&?). repeat split; lia. Qed.

Lemma for_loop_ams t (body : nat -> Bufs -> Bufs) (w n d base : nat) (st : Bufs) :
  (forall i s, long_enough (base + i + w) s ->
     ams_seg t (base + i) (base + i + w) s (body i s)) ->
  long_enough (base + d + n * w) st ->
  ams_seg t (base + d) (base + d + n * w) st (for_loop body w n d st).
Proof.
  intros Hbody. revert d st.
  induction n as [|n IH]; intros d st Hlong; simpl.
  - rewrite Nat.add_0_r. apply ams_seg_refl.
  - assert (ams_seg t (base + d) (base + d + w) st (body d st)) as Hstep.
    { apply Hbody. eapply long_enough_le; [|exact Hlong]. lia. }
    eapply (ams_seg_trans t _ (base + d + w)); [lia|exact Hstep|].
    replace (base + d + (w + n * w)) with (base + (d + w) + n * w) by lia.
    replace (base + d + w) with (base + (d + w)) by lia.
    apply IH. eapply long_enough_same_lengths; [apply Hstep|].
    eapply long_enough_le; [|exact Hlong]. lia.
Qed.

Lemma two_loops_ams t (w : nat) (v tl : nat -> Bufs -> Bufs) (base size : nat) (st : Bufs) :
  (forall i s, long_enough (i + w) s -> ams_seg t i (i + w) s (v i s)) ->
  (forall i s, long_enough (i + 1) s -> ams_seg t i (i + 1) s (tl i s)) ->
  long_enough (base + size) st ->
  ams_seg t base (base + size) st (two_loops w v tl base size st).
Proof.
  intros Hv Ht Hlong. unfold two_loops.
  pose proof (Nat.div_mod_eq size w) as Hdm.
  pose proof (Nat.Div0.mod_le size w) as Hle.
  assert (ams_seg t base (base + (size - size mod w)) st
            (for_loop (fun d => v (base + d)) w (size / w) 0 st)) as Hvec.
  { pose proof (for_loop_ams t (fun d => v (base + d)) w (size / w) 0 base st) as H.
    rewrite Nat.add_0_r in H.
    replace (base + (size - size mod w)) with (base + size / w * w) by lia.
    apply H; [intros i s; apply Hv|].
    eapply long_enough_le; [|exact Hlong]. lia. }
  eapply (ams_seg_trans t _ (base + (size - size mod w))); [lia|exact Hvec|].
  pose proof (for_loop_ams t (fun d => tl (base + d)) 1 (size mod w)
                (size - size mod w) base) as H.
  replace (base + size) with (base + (size - size mod w) + size mod w * 1) by lia.
  apply H; [intros i s; apply Ht|].
  eapply long_enough_same_lengths; [apply Hvec|].
  eapply long_enough_le; [|exact Hlong]. lia.
Qed.

Lemma parallel_for_ams t (shards : list (nat * nat)) (body : nat -> nat -> Bufs -> Bufs)
    (b n : nat) (st : Bufs) :
  is_partition b n shards ->
  (forall lo hi s, lo <= hi -> long_enough hi s -> ams_seg t lo hi s (body lo hi s)) ->
  long_enough n st ->
  ams_seg t b n st (parallel_for shards body st).
Proof.
  intros Hp Hbody. unfold parallel_for. revert b st Hp.
  induction shards as [|[b' e] shards IH]; simpl; intros b st Hp Hlong.
  - subst. apply ams_seg_refl.
  - destruct Hp as (-> & Hbe & Hen & Hrest).
    assert (ams_seg t b e st (body b e st)) as Hstep.
    { apply Hbody; [exact Hbe|]. eapply long_enough_le; [|exact Hlong]. lia. }
    eapply (ams_seg_trans t _ e); [lia|exact Hstep|].
    apply IH; [exact Hrest|]. eapply long_enough_same_lengths; [apply Hstep|exact Hlong].
Qed.

Lemma adam_math_ams k scalar_t adam_mode lr sc eps weight_decay beta2 maximize
    grad_scale_ptr base size st :
  opmath_type scalar_t = scalar_t \/ valid_in kFloat (exp_avg_sq_grad_coefficient sc) ->
  (forall s, grad_scale_ptr = Some s -> valid_in kFloat s) ->
  long_enough (base + size) st ->
  ams_seg scalar_t base (base + size) st
    (adam_math k scalar_t adam_mode lr sc eps weight_decay beta2 true maximize
       grad_scale_ptr base size st).
Proof.
  intros Hc2 Hscale Hlong. unfold adam_math, Wide.adam_math, Narrow.adam_math.
  destruct scalar_t; try (destruct Hc2 as [Hc2|Hc2]; [discriminate|]);
    apply two_loops_ams; try exact Hlong;
    intros i s (Hp & Hg & Hv & Hm);
    first [ apply Wide_vec_body_ams | apply Wide_tail_body_ams
          | apply Narrow_vec_body_ams | apply Narrow_tail_body_ams ];
    first [ assumption | lia | reflexivity | by left | by right
          | apply convert_double_float ].
Qed.

Lemma fused_adam_kernel_ams std_pow k shards
    param_t grad_t exp_avg_t exp_avg_sq_t max_exp_avg_sq_t state_step
    lr beta1 beta2 weight_decay eps maximize grad_scale_ptr adam_mode (d : nat) :
  is_partition 0 (numel param_t) shards ->
  numel param_t <= length (data_ptr param_t) ->
  numel param_t <= length (data_ptr grad_t) ->
  numel param_t <= length (data_ptr exp_avg_sq_t) ->
  numel param_t <= length (data_ptr max_exp_avg_sq_t) ->
  (forall s, grad_scale_ptr = Some s -> valid_in kFloat s) ->
  d < numel param_t ->
  ams_step (scalar_type param_t)
    (mkBufs (data_ptr param_t) (data_ptr exp_avg_t) (data_ptr exp_avg_sq_t)
       (data_ptr grad_t) (data_ptr max_exp_avg_sq_t))
    (fused_adam_kernel std_pow k shards param_t grad_t exp_avg_t exp_avg_sq_t
       max_exp_avg_sq_t state_step lr beta1 beta2 weight_decay eps true maximize
       grad_scale_ptr adam_mode) d.
Proof.
  intros Hp H1 H2 H3 H4 Hscale Hd.
  assert (forall mode,
    ams_seg (scalar_type param_t) 0 (numel param_t)
      (mkBufs (data_ptr param_t) (data_ptr exp_avg_t) (data_ptr exp_avg_sq_t)
         (data_ptr grad_t) (data_ptr max_exp_avg_sq_t))
      (adam_fused_step_impl std_pow k shards (scalar_type param_t) mode param_t grad_t
         exp_avg_t exp_avg_sq_t max_exp_avg_sq_t state_step lr beta1 beta2 weight_decay eps
         true maximize grad_scale_ptr)) as Himpl.
  { intros mode. unfold adam_fused_step_impl.
    apply parallel_for_ams; [exact Hp| |by repeat split].
    intros lo hi s Hle Hlong.
    replace hi with (lo + (hi - lo)) at 1 by lia.
    apply adam_math_ams; [|exact Hscale|by replace (lo + (hi - lo)) with hi by lia].
    destruct (scalar_type param_t); [by left|by left| |];
      right; apply convert_double_float. }
  unfold fused_adam_kernel.
  destruct adam_mode; apply (Himpl _); lia.
Qed.

(** C5, amended: with [amsgrad], at every index whose maximum before the
    call is not a NaN, the call stores a second moment and a maximum, and
    when the stored second moment is not a NaN either, the stored maximum
    is at least the maximum before the call and at least the stored second
    moment.  The buffers are taken to hold values of the tensor's type and
    the gradient scale to be a [float]. *)
Theorem amsgrad_monotone std_pow k shards
    param_t grad_t exp_avg_t exp_avg_sq_t max_exp_avg_sq_t state_step
    lr beta1 beta2 weight_decay eps maximize grad_scale_ptr adam_mode
    (d : nat) (a : spec_float) :
  is_partition 0 (numel param_t) shards ->
  numel param_t <= length (data_ptr param_t) ->
  numel param_t <= length (data_ptr grad_t) ->
  numel param_t <= length (data_ptr exp_avg_sq_t) ->
  numel param_t <= length (data_ptr max_exp_avg_sq_t) ->
  (forall s, grad_scale_ptr = Some s -> valid_in kFloat s) ->
  d < numel param_t ->
  data_ptr max_exp_avg_sq_t !! d = Some a ->
  valid_in (scalar_type param_t) a ->
  is_nan a = false ->
  let post :=
    fused_adam_kernel std_pow k shards param_t grad_t exp_avg_t exp_avg_sq_t
      max_exp_avg_sq_t state_step lr beta1 beta2 weight_decay eps true maximize
      grad_scale_ptr adam_mode in
  exists v m,
    exp_avg_sq post !! d = Some v /\
    max_exp_avg_sq post !! d = Some m /\
    (is_nan v = false -> SFleb a m = true /\ SFleb v m = true).
Proof.
  intros Hp H1 H2 H3 H4 Hscale Hd Ha Hva Hna post.
  destruct (fused_adam_kernel_ams std_pow k shards param_t grad_t exp_avg_t exp_avg_sq_t
              max_exp_avg_sq_t state_step lr beta1 beta2 weight_decay eps maximize
              grad_scale_ptr adam_mode d Hp H1 H2 H3 H4 Hscale Hd)
    as (v & a' & mx & Hmx & Hval & Hv & Ha' & Hm).
  simpl in Ha'. rewrite Ha in Ha'. injection Ha' as <-.
  exists (to_st (scalar_type param_t) v),
    (to_st (scalar_type param_t) (mx (to_op (scalar_type param_t) a) v)).
  split; [exact Hv|]. split; [exact Hm|].
  intros Hnv. by apply ams_step_order.
Qed.

(** ** Worked examples *)

(** Scenario 1 of the specification: [exp_avg = 0.05], [exp_avg_sq =
    0.00025] and [param = 0.9], as [float]s. *)
Example scenario1_values :
  exp_avg scenario1 = [lit kFloat 5 2] /\
  exp_avg_sq scenario1 = [lit kFloat 25 5] /\
  param scenario1 = [lit kFloat 9 1].
Proof. vm_compute. by repeat split. Qed.

(** Scenario 4: the gradients [128 * 3] come back as [3], with or without
    [maximize]. *)
Example scenario4_values (maximize : bool) :
  grad (scenario4 maximize) = replicate 9 (lit kFloat 3 0).
Proof. destruct maximize; vm_compute; reflexivity. Qed.

(** Scenario 5: maximizing with the gradient [1] gives [exp_avg = -0.1]. *)
Example scenario5_values :
  exp_avg (scenario5 ones_grad true) = replicate 4 (fneg (lit kFloat 1 1)).
Proof. vm_compute. reflexivity. Qed.

Lemma unscale_write_back_witness :
  grad (scenario4 true) !! 8 = unscale kFloat (lit kFloat 128 0) <$> data_ptr scaled_grad !! 8.
Proof.
  unfold scenario4. apply unscale_write_back.
  - vm_compute. repeat split; lia.
  - vm_compute. lia.
Defined.

Lemma grad_written_iff_scaled_witness :
  grad (run_two strided_grad None) = data_ptr strided_grad /\
  grad (run_two strided_grad (Some (lit kFloat 2 0))) !! 1
  = unscale kFloat (lit kFloat 2 0) <$> data_ptr strided_grad !! 1.
Proof.
  unfold run_two.
  destruct (grad_written_iff_scaled pow_model 4 [(0, 2)] (zeros kFloat 2) strided_grad
              (zeros kFloat 2) (zeros kFloat 2) (tensor kFloat []) first_step
              (dec 1 3) (dec 9 1) (dec 999 3) (dec 0 0) (dec 1 8) false false ORIGINAL)
    as [Hnone Hsome].
  split; [exact Hnone|].
  apply Hsome.
  - vm_compute. repeat split; lia.
  - vm_compute. lia.
Defined.

Lemma maximize_symmetry_witness :
  exp_avg (scenario5 ones_grad true) = exp_avg (scenario5 (neg_tensor ones_grad) false) /\
  exp_avg_sq (scenario5 ones_grad true) = exp_avg_sq (scenario5 (neg_tensor ones_grad) false) /\
  param (scenario5 ones_grad true) = param (scenario5 (neg_tensor ones_grad) false) /\
  max_exp_avg_sq (scenario5 ones_grad true)
  = max_exp_avg_sq (scenario5 (neg_tensor ones_grad) false).
Proof.
  unfold scenario5. apply maximize_symmetry.
  - vm_compute. repeat split; lia.
  - vm_compute. lia.
  - repeat (constructor; [reflexivity|]). constructor.
Defined.

Lemma fused_adam_kernel_zero_numel_witness :
  scenario_empty = mkBufs [] [] [] [] [].
Proof.
  unfold scenario_empty.
  apply (fused_adam_kernel_zero_numel pow_model 4 [] (zeros kHalf 0) (zeros kHalf 0)
           (zeros kHalf 0) (zeros kHalf 0) (zeros kHalf 0)).
  - reflexivity.
  - reflexivity.
Defined.

Lemma amsgrad_monotone_witness :
  exists v m,
    exp_avg_sq scenario_amsgrad !! 16 = Some v /\
    max_exp_avg_sq scenario_amsgrad !! 16 = Some m /\
    (is_nan v = false -> SFleb (lit kHalf 1 4) m = true /\ SFleb v m = true).
Proof.
  unfold scenario_amsgrad.
  apply (amsgrad_monotone pow_model 4 [(0, 17)] (seventeen (lit kHalf 1 0))
           (seventeen (lit kHalf 5 1)) (zeros kHalf 17) (zeros kHalf 17)
           (seventeen (lit kHalf 1 4)) first_step (dec 1 3) (dec 9 1) (dec 999 3)
           (dec 0 0) (dec 1 8) false None ORIGINAL 16 (lit kHalf 1 4)).
  - vm_compute. repeat split; lia.
  - vm_compute. lia.
  - vm_compute. lia.
  - vm_compute. lia.
  - vm_compute. lia.
  - intros s Hs. discriminate Hs.
  - vm_compute. lia.
  - reflexivity.
  - reflexivity.
  - reflexivity.
Defined.

(** ** A NaN under AMSGrad *)

(** C5 as stated fails: on one [float] element with the maximum [1] and a
    NaN gradient, the call stores a NaN second moment and leaves the
    maximum [1], and [NaN <= 1] does not hold. *)
Lemma amsgrad_not_monotone_on_nan :
  exp_avg_sq scenario_nan !! 0 = Some S754_nan /\
  max_exp_avg_sq scenario_nan !! 0 = Some (lit kFloat 1 0) /\
  SFleb S754_nan (lit kFloat 1 0) = false.
Proof. vm_compute. by repeat split. Qed.

(** ** The second half of a [Half] or [BFloat16] register *)

(** C1, at a failing input: on sixteen [Half] elements, the vector loop
    gives the element of index 8, whose gradient is [2], the first moment
    [0.1] that belongs to the gradient [1] of index 0; the tail loop gives
    the same element the first moment [0.2]. *)
Theorem vec_body_second_half_first_moment :
  exp_avg (run_two_halves [(0, 16)]) !! 8 = Some (lit kHalf 1 1) /\
  exp_avg (run_two_halves [(0, 8); (8, 16)]) !! 8 = Some (lit kHalf 2 1) /\
  lit kHalf 1 1 <> lit kHalf 2 1.
Proof. vm_compute. by repeat split. Qed.

(** C3, at a failing input: the same sixteen [Half] elements in one shard
    and in two shards of eight end with different buffers. *)
Theorem shards_change_the_result :
  is_partition 0 16 [(0, 16)] /\ is_partition 0 16 [(0, 8); (8, 16)] /\
  exp_avg (run_two_halves [(0, 16)]) <> exp_avg (run_two_halves [(0, 8); (8, 16)]) /\
  param (run_two_halves [(0, 16)]) <> param (run_two_halves [(0, 8); (8, 16)]).
Proof.
  split; [simpl; lia|]. split; [simpl; lia|].
  vm_compute. by split.
Qed.

(** ** A gradient that is not contiguous *)

(** C2, at a failing input: for the gradients [1; 2] stored two elements
    apart, the contiguous copy [[1; 2]] is made and dropped; the math layer
    reads the storage slots [[1; 9]], so the first moments are [0.1 * 1] and
    [0.1 * 9] and not the [0.1 * 1] and [0.1 * 2] of the copy, and with a
    scale of [2] it is the slot in between that is unscaled, not the second
    gradient. *)
Theorem strided_grad_read_through_data_ptr :
  is_contiguous strided_grad = false /\
  data_ptr (contiguous strided_grad) = [lit kFloat 1 0; lit kFloat 2 0] /\
  exp_avg (run_two strided_grad None)
  = fmul binary32 (lit kFloat 1 1) <$> [lit kFloat 1 0; lit kFloat 9 0] /\
  exp_avg (run_two (contiguous strided_grad) None)
  = fmul binary32 (lit kFloat 1 1) <$> [lit kFloat 1 0; lit kFloat 2 0] /\
  grad (run_two strided_grad (Some (lit kFloat 2 0)))
  = [lit kFloat 5 1; lit kFloat 45 1; lit kFloat 2 0].
Proof. vm_compute. by repeat split. Qed.

(** ** The scalars of a step *)





(** * The kernel, element by element *)

Lemma enough_le ams n m st : n <= m -> enough ams m st -> enough ams n st.
Proof.
  unfold enough. intros ? (?&?&?&?&Hm). repeat split; try lia.
  intros E. specialize (Hm E). lia.
Qed.

Lemma enough_same_lengths ams n st st' :
  same_lengths st st' -> enough ams n st -> enough ams n st'.
Proof.
  unfold same_lengths, enough. intros (?&?&?&?&?) (?&?&?&?&Hm).
  repeat split; try lia. intros E. specialize (Hm E). lia.
Qed.

Lemma elem_state_eq st st' j :
  (forall b, get b st' !! j = get b st !! j) -> elem_state st' j = elem_state st j.
Proof.
  intros H. unfold elem_state. rewrite !list_lookup_total_alt.
  pose proof (H Param). pose proof (H ExpAvg). pose proof (H ExpAvgSq).
  pose proof (H Grad). pose proof (H MaxExpAvgSq). simpl in *. congruence.
Qed.

Lemma elem_seg_refl good sel T lo st : elem_seg good sel T lo lo st st.
Proof. split; [apply same_lengths_refl|]. split; [lia|done]. Qed.

Lemma elem_seg_trans good sel T lo mid hi st st' st'' :
  lo <= mid <= hi ->
  elem_seg good sel T lo mid st st' -> elem_seg good sel T mid hi st' st'' ->
  elem_seg good sel T lo hi st st''.
Proof.
  intros Hle (Hl1 & Hin1 & Hout1) (Hl2 & Hin2 & Hout2).
  split; [by eapply same_lengths_trans|]. split.
  - intros j b Hj Hgood Hb. destruct (decide (j < mid)) as [Hlt|Hge].
    + rewrite Hout2 by lia. apply Hin1; [lia|done|done].
    + assert (elem_state st' j = elem_state st j) as He
        by (apply elem_state_eq; intros b'; apply Hout1; lia).
      rewrite <- He. apply Hin2; [lia| |done]. by rewrite He.
  - intros j b Hj. rewrite Hout2, Hout1 by lia. done.
Qed.

Lemma elem_seg_lengths good sel T lo hi st st' :
  elem_seg good sel T lo hi st st' -> same_lengths st st'.
Proof. by intros [H _]. Qed.

(** ** Loops over segments *)

Section Segments.
Variable seg : nat -> nat -> Bufs -> Bufs -> Prop.
Variable room : nat -> Bufs -> Prop.
Hypothesis seg_refl : forall lo st, seg lo lo st st.
Hypothesis seg_trans : forall lo mid hi st st' st'',
  lo <= mid <= hi -> seg lo mid st st' -> seg mid hi st' st'' -> seg lo hi st st''.
Hypothesis seg_lengths : forall lo hi st st', seg lo hi st st' -> same_lengths st st'.
Hypothesis room_le : forall n m st, n <= m -> room m st -> room n st.
Hypothesis room_lengths : forall n st st', same_lengths st st' -> room n st -> room n st'.

Lemma for_loop_seg (body : nat -> Bufs -> Bufs) (w n d base : nat) (st : Bufs) :
  (forall i s, room (base + i + w) s -> seg (base + i) (base + i + w) s (body i s)) ->
  room (base + d + n * w) st ->
  seg (base + d) (base + d + n * w) st (for_loop body w n d st).
Proof.
  intros Hbody. revert d st.
  induction n as [|n IH]; intros d st Hroom; simpl.
  - rewrite Nat.add_0_r. apply seg_refl.
  - assert (seg (base + d) (base + d + w) st (body d st)) as Hstep.
    { apply Hbody. eapply room_le; [|exact Hroom]. lia. }
    eapply (seg_trans _ (base + d + w)); [lia|exact Hstep|].
    replace (base + d + (w + n * w)) with (base + (d + w) + n * w) by lia.
    replace (base + d + w) with (base + (d + w)) by lia.
    apply IH. eapply room_lengths; [eapply seg_lengths, Hstep|].
    eapply room_le; [|exact Hroom]. lia.
Qed.

Lemma two_loops_seg (w : nat) (v tl : nat -> Bufs -> Bufs) (base size : nat) (st : Bufs) :
  (forall i s, room (i + w) s -> seg i (i + w) s (v i s)) ->
  (forall i s, room (i + 1) s -> seg i (i + 1) s (tl i s)) ->
  room (base + size) st ->
  seg base (base + size) st (two_loops w v tl base size st).
Proof.
  intros Hv Ht Hroom. unfold two_loops.
  pose proof (Nat.div_mod_eq size w) as Hdm.
  pose proof (Nat.Div0.mod_le size w) as Hle.
  assert (seg base (base + (size - size mod w)) st
            (for_loop (fun d => v (base + d)) w (size / w) 0 st)) as Hvec.
  { pose proof (for_loop_seg (fun d => v (base + d)) w (size / w) 0 base st) as H.
    rewrite Nat.add_0_r in H.
    replace (base + (size - size mod w)) with (base + size / w * w) by lia.
    apply H; [intros i s; apply Hv|].
    eapply room_le; [|exact Hroom]. lia. }
  eapply (seg_trans _ (base + (size - size mod w))); [lia|exact Hvec|].
  pose proof (for_loop_seg (fun d => tl (base + d)) 1 (size mod w)
                (size - size mod w) base) as H.
  replace (base + size) with (base + (size - size mod w) + size mod w * 1) by lia.
  apply H; [intros i s; apply Ht|].
  eapply room_lengths; [eapply seg_lengths, Hvec|].
  eapply room_le; [|exact Hroom]. lia.
Qed.

Lemma parallel_for_seg (shards : list (nat * nat)) (body : nat -> nat -> Bufs -> Bufs)
    (b n : nat) (st : Bufs) :
  is_partition b n shards ->
  (forall lo hi s, lo <= hi -> room hi s -> seg lo hi s (body lo hi s)) ->
  room n st ->
  seg b n st (parallel_for shards body st).
Proof.
  intros Hp Hbody. unfold parallel_for. revert b st Hp.
  induction shards as [|[b' e] shards IH]; simpl; intros b st Hp Hroom.
  - subst. apply seg_refl.
  - destruct Hp as (-> & Hbe & Hen & Hrest).
    assert (seg b e st (body b e st)) as Hstep.
    { apply Hbody; [exact Hbe|]. eapply room_le; [|exact Hroom]. lia. }
    eapply (seg_trans _ e); [lia|exact Hstep|].
    apply IH; [exact Hrest|]. eapply room_lengths; [eapply seg_lengths, Hstep|exact Hroom].
Qed.
End Segments.

(** ** Lanes *)

Lemma lookup_loadu w (l : list spec_float) i j :
  i <= j < i + w -> i + w <= length l -> loadu w l i !! (j - i) = Some (l !!! j).
Proof.
  intros Hj Hl. unfold loadu. rewrite lookup_take_lt, lookup_drop by lia.
  replace (i + (j - i)) with j by lia. apply list_lookup_lookup_total_lt. lia.
Qed.

Lemma lookup_broadcast w x n : n < w -> broadcast w x !! n = Some x.
Proof. intros. by apply lookup_replicate_2. Qed.

Lemma lookup_zip_with_Some2 {A B C} (f : A -> B -> C) (l : list A) (l' : list B) n x y :
  l !! n = Some x -> l' !! n = Some y -> zip_with f l l' !! n = Some (f x y).
Proof. intros Hx Hy. by rewrite lookup_zip_with, Hx, Hy. Qed.

Lemma lookup_fmap_Some2 {A B} (f : A -> B) (l : list A) n x :
  l !! n = Some x -> (f <$> l) !! n = Some (f x).
Proof. intros Hx. by rewrite list_lookup_fmap, Hx. Qed.

Lemma lookup_store (v buf : list spec_float) i j x :
  i <= j -> j < length buf -> v !! (j - i) = Some x -> store v buf i !! j = Some x.
Proof.
  intros Hi Hj Hx. unfold store. pose proof (lookup_lt_Some _ _ _ Hx).
  rewrite list_lookup_inserts by lia. exact Hx.
Qed.

Lemma lookup_store_out (v buf : list spec_float) w i j :
  length v = w -> ~ i <= j < i + w -> store v buf i !! j = buf !! j.
Proof.
  intros Hv Hj. unfold store. destruct (decide (j < i)).
  - by rewrite list_lookup_inserts_lt.
  - rewrite list_lookup_inserts_ge; [done|lia].
Qed.

(** The lane of index [j - i] of a register computed from registers
    loaded at [i]. *)
Ltac lane :=
  repeat first
    [ apply lookup_zip_with_Some2 | apply lookup_fmap_Some2
    | apply lookup_broadcast | apply lookup_loadu ];
  try lia.

Lemma fdiv_valid t x y :
  valid_in t x -> valid_in t y -> valid_in t (fdiv (format_of t) x y).
Proof. apply SFdiv_valid, format_prec_pos. Qed.

Lemma convert_float_valid t s :
  opmath_type t = t -> valid_in kFloat s -> valid_in t (convert kFloat t s).
Proof.
  intros Ht Hs. destruct t; try discriminate.
  - by apply (round_to_valid binary64).
  - exact Hs.
Qed.

Section WideElem.
Variables (w : nat) (t : ScalarType) (mode : ADAM_MODE).
Variables (lr ss c1 c2 bcs eps wd b2 : spec_float) (ams mx : bool) (scale : option spec_float).
Hypothesis t_wide : opmath_type t = t.

Local Abbreviation T := (Wide.tail_body t mode lr ss c1 c2 bcs eps wd b2 ams mx scale 0).
Local Abbreviation good := (good_elem t scale).

Lemma Wide_vec_body_out i j b st :
  enough ams (i + w) st ->
  ~ i <= j < i + w ->
  get b (Wide.vec_body w t mode lr ss c1 c2 bcs eps wd b2 ams mx scale i st) !! j
  = get b st !! j.
Proof.
  intros (Hp & Hm & Hv & Hg & Ha) Hj.
  unfold Wide.vec_body, Wide.vec_grad, Wide.vec_weight_decay, Wide.vec_update.
  destruct scale, mx, (ne_zero wd), mode, ams, b; simpl;
    try specialize (Ha eq_refl);
    first [ apply (lookup_store_out _ _ w); [lanes|exact Hj] | reflexivity ].
Qed.

Lemma fneg_lane x :
  valid_in t x -> fneg x = fmul (format_of t) x (minus_one (format_of t)).
Proof. intros Hx. rewrite <- t_wide. symmetry. apply fmul_minus_one. by rewrite t_wide. Qed.

Lemma Wide_vec_body_in i j b st :
  enough ams (i + w) st ->
  i <= j < i + w ->
  good (elem_state st j) ->
  b ∈ wide_sel ams ->
  get b (Wide.vec_body w t mode lr ss c1 c2 bcs eps wd b2 ams mx scale i st) !! j
  = get b (T (elem_state st j)) !! 0.
Proof.
  intros (Hp & Hm & Hv & Hg & Ha) Hj [Hgood Hs] Hb. simpl in Hgood.
  unfold Wide.vec_body, Wide.vec_grad, Wide.vec_weight_decay, Wide.vec_update.
  unfold Wide.tail_body, Wide.tail_grad, Wide.tail_weight_decay, Wide.tail_update.
  revert Hs.
  destruct scale as [s|]; intros Hs;
    try (pose proof (convert_float_valid t s t_wide (Hs s eq_refl)) as Hs'; clear Hs);
    destruct mx, (ne_zero wd), mode, ams; simpl in Hb |- *;
    repeat (apply elem_of_cons in Hb as [-> | Hb]); try (by apply elem_of_nil in Hb); simpl;
    try specialize (Ha eq_refl);
    rewrite ?(fneg_lane (grad st !!! j)) by exact Hgood;
    rewrite ?(fneg_lane (fdiv (format_of t) (grad st !!! j) (convert kFloat t s)))
      by (by apply fdiv_valid);
    first [ by apply list_lookup_lookup_total_lt; lia
          | by (apply lookup_store; [lia|lia|lane]) ].
Qed.

Lemma Wide_vec_body_elem i st :
  enough ams (i + w) st ->
  elem_seg good (wide_sel ams) T i (i + w) st
    (Wide.vec_body w t mode lr ss c1 c2 bcs eps wd b2 ams mx scale i st).
Proof.
  intros Hroom. split; [apply Wide_vec_body_lengths|]. split.
  - intros j b Hj Hgood Hb. by apply Wide_vec_body_in.
  - intros j b Hj. by apply Wide_vec_body_out.
Qed.

Lemma Wide_tail_body_out i j b st :
  j <> i ->
  get b (Wide.tail_body t mode lr ss c1 c2 bcs eps wd b2 ams mx scale i st) !! j
  = get b st !! j.
Proof.
  intros Hj.
  unfold Wide.tail_body, Wide.tail_grad, Wide.tail_weight_decay, Wide.tail_update.
  destruct scale, mx, (ne_zero wd), mode, ams, b; simpl;
    first [ by rewrite !list_lookup_insert_ne by done | reflexivity ].
Qed.

Lemma Wide_tail_body_in i b st :
  enough ams (i + 1) st ->
  b ∈ wide_sel ams ->
  get b (Wide.tail_body t mode lr ss c1 c2 bcs eps wd b2 ams mx scale i st) !! i
  = get b (T (elem_state st i)) !! 0.
Proof.
  intros (Hp & Hm & Hv & Hg & Ha) Hb.
  unfold Wide.tail_body, Wide.tail_grad, Wide.tail_weight_decay, Wide.tail_update.
  destruct scale as [s|], mx, (ne_zero wd), mode, ams; simpl in Hb |- *;
    repeat (apply elem_of_cons in Hb as [-> | Hb]); try (by apply elem_of_nil in Hb); simpl;
    try specialize (Ha eq_refl);
    rewrite ?list_lookup_insert_eq by (rewrite ?length_insert; lia);
    rewrite ?list_lookup_total_insert_eq by (rewrite ?length_insert; lia);
    first [ reflexivity | by apply list_lookup_lookup_total_lt; lia ].
Qed.

Lemma Wide_tail_body_elem i st :
  enough ams (i + 1) st ->
  elem_seg good (wide_sel ams) T i (i + 1) st
    (Wide.tail_body t mode lr ss c1 c2 bcs eps wd b2 ams mx scale i st).
Proof.
  intros Hroom. split; [apply Wide_tail_body_lengths|]. split.
  - intros j b Hj Hgood Hb. assert (j = i) as -> by lia. by apply Wide_tail_body_in.
  - intros j b Hj. apply Wide_tail_body_out. lia.
Qed.
End WideElem.

Lemma lookup_take_loadu h W (l : list spec_float) i j :
  i <= j < i + h -> h <= W -> i + W <= length l ->
  take h (loadu W l i) !! (j - i) = Some (l !!! j).
Proof.
  intros Hj HW Hl. rewrite lookup_take_lt by lia. apply lookup_loadu; lia.
Qed.

Lemma lookup_drop_loadu h W (l : list spec_float) i j :
  i + h <= j < i + W -> i + W <= length l ->
  drop h (loadu W l i) !! (j - i - h) = Some (l !!! j).
Proof.
  intros Hj Hl. rewrite lookup_drop.
  replace (h + (j - i - h)) with (j - i) by lia. apply lookup_loadu; lia.
Qed.

Lemma lookup_app_Some_l (v1 v2 : list spec_float) n x :
  v1 !! n = Some x -> (v1 ++ v2) !! n = Some x.
Proof. intros H. by apply lookup_app_l_Some. Qed.

Lemma lookup_app_Some_r (v1 v2 : list spec_float) h n x :
  length v1 = h -> h <= n -> v2 !! (n - h) = Some x -> (v1 ++ v2) !! n = Some x.
Proof. intros Hh Hn H. rewrite lookup_app_r by lia. by rewrite Hh. Qed.

Lemma length_two_halves (v1 v2 : list spec_float) h :
  length v1 = h -> length v2 = h -> length (v1 ++ v2) = 2 * h.
Proof. intros. rewrite length_app. lia. Qed.

Ltac lane2 :=
  repeat first
    [ apply lookup_zip_with_Some2 | apply lookup_fmap_Some2
    | apply lookup_broadcast | apply lookup_take_loadu | apply lookup_drop_loadu ];
  try lia.

Section NarrowElem.
Variables (h : nat) (t : ScalarType) (mode : ADAM_MODE).
Variables (lr ss c1 c2 bcs eps wd b2 : spec_float) (ams mx : bool) (scale : option spec_float).
Hypothesis t_narrow : t = kHalf \/ t = kBFloat16.

Local Abbreviation T := (Narrow.tail_body t mode lr ss c1 c2 bcs eps wd b2 ams mx scale 0).
Local Abbreviation good := (good_elem t scale).

Lemma fneg_float_lane x :
  valid_in kFloat x -> fneg x = fmul binary32 x (minus_one binary32).
Proof. intros Hx. symmetry. by apply (fmul_minus_one kFloat). Qed.

Lemma Narrow_vec_grad_lanes i st :
  i + 2 * h <= length (grad st) ->
  let '(g1, g2, _) := Narrow.vec_grad h t mx scale i st in length g1 = h /\ length g2 = h.
Proof.
  intros Hg. unfold Narrow.vec_grad, Narrow.convert_to_float.
  destruct scale, mx; simpl; split; lanes.
Qed.

Lemma Narrow_vec_grad_out i j b st :
  i + 2 * h <= length (grad st) ->
  ~ i <= j < i + 2 * h ->
  let '(_, _, st') := Narrow.vec_grad h t mx scale i st in
  get b st' !! j = get b st !! j /\ same_lengths st st'.
Proof.
  intros Hg Hj. unfold Narrow.vec_grad, Narrow.convert_to_float, Narrow.convert_from_float.
  destruct scale, mx, b; simpl; (split; [|repeat split; len]);
    first [ apply (lookup_store_out _ _ (2 * h)); [|exact Hj];
            apply length_two_halves; lanes
          | reflexivity ].
Qed.

Lemma Narrow_vec_weight_decay_lanes (g1 g2 p1 p2 : list spec_float) :
  length g1 = h -> length g2 = h -> length p1 = h -> length p2 = h ->
  let '(g1', g2', p1', p2') := Narrow.vec_weight_decay h mode lr wd g1 g2 p1 p2 in
  length g1' = h /\ length g2' = h /\ length p1' = h /\ length p2' = h.
Proof.
  intros H1 H2 H3 H4. unfold Narrow.vec_weight_decay.
  destruct (ne_zero wd), mode; repeat split; lanes.
Qed.

Lemma Narrow_vec_update_out i j b (g1 g2 p1 p2 : list spec_float) st :
  length g1 = h -> length g2 = h -> length p1 = h -> length p2 = h ->
  enough ams (i + 2 * h) st ->
  ~ i <= j < i + 2 * h ->
  get b (Narrow.vec_update h t ss c1 c2 bcs eps b2 ams i g1 g2 p1 p2 st) !! j = get b st !! j.
Proof.
  intros H1 H2 H3 H4 (Hp & Hm & Hv & Hg & Ha) Hj.
  unfold Narrow.vec_update, Narrow.convert_to_float, Narrow.convert_from_float.
  destruct ams, b;
    cbn [get param exp_avg exp_avg_sq grad max_exp_avg_sq set_param set_exp_avg
         set_exp_avg_sq set_grad set_max_exp_avg_sq];
    try specialize (Ha eq_refl);
    first [ apply (lookup_store_out _ _ (2 * h)); [|exact Hj];
            apply length_two_halves; lanes
          | reflexivity ].
Qed.

Lemma Narrow_vec_body_out i j b st :
  enough ams (i + 2 * h) st ->
  ~ i <= j < i + 2 * h ->
  get b (Narrow.vec_body h t mode lr ss c1 c2 bcs eps wd b2 ams mx scale i st) !! j
  = get b st !! j.
Proof.
  intros Hroom Hj.
  pose proof Hroom as (Hp & Hm & Hv & Hg & Ha).
  unfold Narrow.vec_body.
  pose proof (Narrow_vec_grad_lanes i st Hg) as Hl.
  pose proof (Narrow_vec_grad_out i j b st Hg Hj) as Ho.
  destruct (Narrow.vec_grad h t mx scale i st) as [[g1 g2] st1].
  destruct Hl as [Hg1 Hg2]. destruct Ho as [Ho Hlen].
  pose proof (Narrow_vec_weight_decay_lanes g1 g2
                (Narrow.to_opmath t <$> take h (loadu (2 * h) (param st) i))
                (Narrow.to_opmath t <$> drop h (loadu (2 * h) (param st) i))
                Hg1 Hg2 ltac:(lanes) ltac:(lanes)) as Hwd.
  unfold Narrow.convert_to_float.
  destruct (Narrow.vec_weight_decay _ _ _ _ _ _ _ _) as [[[g1' g2'] p1'] p2'].
  destruct Hwd as (? & ? & ? & ?).
  rewrite Narrow_vec_update_out; try assumption.
  by eapply enough_same_lengths.
Qed.

Lemma Narrow_vec_body_in i j b st :
  enough ams (i + 2 * h) st ->
  i <= j < i + 2 * h ->
  good (elem_state st j) ->
  b ∈ narrow_sel ->
  get b (Narrow.vec_body h t mode lr ss c1 c2 bcs eps wd b2 ams mx scale i st) !! j
  = get b (T (elem_state st j)) !! 0.
Proof.
  intros (Hp & Hm & Hv & Hg & Ha) Hj [_ Hs] Hb.
  unfold Narrow.vec_body, Narrow.vec_grad, Narrow.vec_weight_decay, Narrow.vec_update.
  unfold Narrow.convert_to_float, Narrow.convert_from_float.
  unfold Narrow.tail_body, Narrow.tail_grad, Narrow.tail_weight_decay, Narrow.tail_update.
  revert Hs.
  destruct scale as [s|]; intros Hs; try (pose proof (Hs s eq_refl) as Hs'; clear Hs);
    destruct mx, (ne_zero wd), mode, ams; simpl in Hb |- *;
    repeat (apply elem_of_cons in Hb as [-> | Hb]); try (by apply elem_of_nil in Hb); simpl;
    try specialize (Ha eq_refl);
    rewrite ?(fneg_float_lane (Narrow.to_opmath t (grad st !!! j)))
      by (by apply to_opmath_float);
    rewrite ?(fneg_float_lane (fdiv binary32 (Narrow.to_opmath t (grad st !!! j)) s))
      by (apply fdiv_float; [by apply to_opmath_float|exact Hs']);
    first [ by apply list_lookup_lookup_total_lt; lia
          | apply lookup_store; [lia|lia|];
            destruct (decide (j - i < h));
            [ apply lookup_app_Some_l; by lane2
            | apply (lookup_app_Some_r _ _ h); [by lanes|lia|];
              replace (j - i - h) with (j - i - h) by lia; by lane2 ] ].
Qed.

Lemma Narrow_vec_body_keeps_lengths i st :
  same_lengths st (Narrow.vec_body h t mode lr ss c1 c2 bcs eps wd b2 ams mx scale i st).
Proof.
  unfold Narrow.vec_body, Narrow.vec_grad, Narrow.vec_weight_decay, Narrow.vec_update.
  destruct scale, mx, (ne_zero wd), mode, ams; simpl; repeat split; len.
Qed.

Lemma Narrow_tail_body_keeps_lengths i st :
  same_lengths st (Narrow.tail_body t mode lr ss c1 c2 bcs eps wd b2 ams mx scale i st).
Proof.
  unfold Narrow.tail_body, Narrow.tail_grad, Narrow.tail_weight_decay, Narrow.tail_update.
  destruct scale, mx, (ne_zero wd), mode, ams; simpl; repeat split; len.
Qed.

Lemma Narrow_vec_body_elem i st :
  enough ams (i + 2 * h) st ->
  elem_seg good narrow_sel T i (i + 2 * h) st
    (Narrow.vec_body h t mode lr ss c1 c2 bcs eps wd b2 ams mx scale i st).
Proof.
  intros Hroom. split; [apply Narrow_vec_body_keeps_lengths|]. split.
  - intros j b Hj Hgood Hb. by apply Narrow_vec_body_in.
  - intros j b Hj. by apply Narrow_vec_body_out.
Qed.

Lemma Narrow_tail_body_out i j b st :
  j <> i ->
  get b (Narrow.tail_body t mode lr ss c1 c2 bcs eps wd b2 ams mx scale i st) !! j
  = get b st !! j.
Proof.
  intros Hj.
  unfold Narrow.tail_body, Narrow.tail_grad, Narrow.tail_weight_decay, Narrow.tail_update.
  destruct scale, mx, (ne_zero wd), mode, ams, b; simpl;
    first [ by rewrite !list_lookup_insert_ne by done | reflexivity ].
Qed.

Lemma Narrow_tail_body_in i b st :
  enough ams (i + 1) st ->
  b ∈ narrow_sel ->
  get b (Narrow.tail_body t mode lr ss c1 c2 bcs eps wd b2 ams mx scale i st) !! i
  = get b (T (elem_state st i)) !! 0.
Proof.
  intros (Hp & Hm & Hv & Hg & Ha) Hb.
  unfold Narrow.tail_body, Narrow.tail_grad, Narrow.tail_weight_decay, Narrow.tail_update.
  destruct scale as [s|], mx, (ne_zero wd), mode, ams; simpl in Hb |- *;
    repeat (apply elem_of_cons in Hb as [-> | Hb]); try (by apply elem_of_nil in Hb); simpl;
    try specialize (Ha eq_refl);
    rewrite ?list_lookup_insert_eq by (rewrite ?length_insert; lia);
    rewrite ?list_lookup_total_insert_eq by (rewrite ?length_insert; lia);
    first [ reflexivity | by apply list_lookup_lookup_total_lt; lia ].
Qed.

Lemma Narrow_tail_body_elem i st :
  enough ams (i + 1) st ->
  elem_seg good narrow_sel T i (i + 1) st
    (Narrow.tail_body t mode lr ss c1 c2 bcs eps wd b2 ams mx scale i st).
Proof.
  intros Hroom. split; [apply Narrow_tail_body_keeps_lengths|]. split.
  - intros j b Hj Hgood Hb. assert (j = i) as -> by lia. by apply Narrow_tail_body_in.
  - intros j b Hj. apply Narrow_tail_body_out. lia.
Qed.
End NarrowElem.

(** ** A shard and a call as element-wise passes *)

Lemma adam_math_elem k scalar_t adam_mode lr sc eps weight_decay beta2 amsgrad maximize
    grad_scale_ptr base size st :
  enough amsgrad (base + size) st ->
  elem_seg (good_elem scalar_t grad_scale_ptr) (kernel_sel scalar_t amsgrad)
    (tail_step scalar_t adam_mode lr sc eps weight_decay beta2 amsgrad maximize grad_scale_ptr)
    base (base + size) st
    (adam_math k scalar_t adam_mode lr sc eps weight_decay beta2 amsgrad maximize
       grad_scale_ptr base size st).
Proof.
  intros Hroom. unfold adam_math, Wide.adam_math, Narrow.adam_math.
  destruct scalar_t;
    (apply (two_loops_seg (elem_seg _ _ _) (enough amsgrad));
     [ apply elem_seg_refl | apply elem_seg_trans | apply elem_seg_lengths
     | apply enough_le | apply enough_same_lengths
     | intros i s Hs | intros i s Hs | exact Hroom ]);
    first [ by apply Wide_vec_body_elem | by apply Wide_tail_body_elem
          | apply Narrow_vec_body_elem; first [by left | by right | exact Hs]
          | apply Narrow_tail_body_elem; first [by left | by right | exact Hs] ].
Qed.

Lemma adam_fused_step_impl_elem std_pow k shards scalar_t adam_mode
    param_t grad_t exp_avg_t exp_avg_sq_t max_exp_avg_sq_t state_step
    lr beta1 beta2 weight_decay eps amsgrad maximize grad_scale_ptr :
  is_partition 0 (numel param_t) shards ->
  enough amsgrad (numel param_t)
    (initial amsgrad param_t grad_t exp_avg_t exp_avg_sq_t max_exp_avg_sq_t) ->
  elem_seg (good_elem scalar_t grad_scale_ptr) (kernel_sel scalar_t amsgrad)
    (tail_step scalar_t adam_mode lr
       (step_scalars std_pow scalar_t (item_float state_step) lr beta1 beta2)
       eps weight_decay beta2 amsgrad maximize grad_scale_ptr)
    0 (numel param_t)
    (initial amsgrad param_t grad_t exp_avg_t exp_avg_sq_t max_exp_avg_sq_t)
    (parallel_for shards
       (fun begin end_ =>
          adam_math k scalar_t adam_mode lr
            (step_scalars std_pow scalar_t (item_float state_step) lr beta1 beta2)
            eps weight_decay beta2 amsgrad maximize grad_scale_ptr begin (end_ - begin))
       (initial amsgrad param_t grad_t exp_avg_t exp_avg_sq_t max_exp_avg_sq_t)).
Proof.
  intros Hp Hroom.
  apply (parallel_for_seg (elem_seg _ _ _) (enough amsgrad));
    [ apply elem_seg_refl | apply elem_seg_trans | apply elem_seg_lengths
    | apply enough_le | apply enough_same_lengths | exact Hp | | exact Hroom ].
  intros lo hi s Hle Hs.
  replace hi with (lo + (hi - lo)) at 1 by lia.
  apply adam_math_elem. by replace (lo + (hi - lo)) with hi by lia.
Qed.

(** ** The frame of a call *)

Lemma fused_adam_kernel_shards std_pow k shards
    param_t grad_t exp_avg_t exp_avg_sq_t max_exp_avg_sq_t state_step
    lr beta1 beta2 weight_decay eps amsgrad maximize grad_scale_ptr adam_mode :
  fused_adam_kernel std_pow k shards param_t grad_t exp_avg_t exp_avg_sq_t max_exp_avg_sq_t
    state_step lr beta1 beta2 weight_decay eps amsgrad maximize grad_scale_ptr adam_mode
  = let st :=
      parallel_for shards
        (fun begin end_ =>
           adam_math k (scalar_type param_t) adam_mode lr
             (step_scalars std_pow (scalar_type param_t) (item_float state_step) lr beta1 beta2)
             eps weight_decay beta2 amsgrad maximize grad_scale_ptr begin (end_ - begin))
        (initial amsgrad param_t grad_t exp_avg_t exp_avg_sq_t max_exp_avg_sq_t) in
    if amsgrad then st else set_max_exp_avg_sq st (data_ptr max_exp_avg_sq_t).
Proof. unfold fused_adam_kernel. by destruct adam_mode. Qed.

Lemma get_set_max_exp_avg_sq b st l :
  b <> MaxExpAvgSq -> get b (set_max_exp_avg_sq st l) = get b st.
Proof. by destruct b. Qed.

(** The kernel as an element-wise pass, up to [max_exp_avg_sq] when
    [amsgrad] is off. *)
Lemma fused_adam_kernel_elem std_pow k shards
    param_t grad_t exp_avg_t exp_avg_sq_t max_exp_avg_sq_t state_step
    lr beta1 beta2 weight_decay eps amsgrad maximize grad_scale_ptr adam_mode :
  let st0 := initial amsgrad param_t grad_t exp_avg_t exp_avg_sq_t max_exp_avg_sq_t in
  let post :=
    fused_adam_kernel std_pow k shards param_t grad_t exp_avg_t exp_avg_sq_t
      max_exp_avg_sq_t state_step lr beta1 beta2 weight_decay eps amsgrad maximize
      grad_scale_ptr adam_mode in
  let T :=
    tail_step (scalar_type param_t) adam_mode lr
      (step_scalars std_pow (scalar_type param_t) (item_float state_step) lr beta1 beta2)
      eps weight_decay beta2 amsgrad maximize grad_scale_ptr in
  is_partition 0 (numel param_t) shards ->
  enough amsgrad (numel param_t) st0 ->
  (forall b, b <> MaxExpAvgSq -> length (get b post) = length (get b st0)) /\
  (forall j b, j < numel param_t ->
     good_elem (scalar_type param_t) grad_scale_ptr (elem_state st0 j) ->
     b ∈ kernel_sel (scalar_type param_t) amsgrad ->
     get b post !! j = get b (T (elem_state st0 j)) !! 0) /\
  (forall j b, numel param_t <= j -> b <> MaxExpAvgSq -> get b post !! j = get b st0 !! j).
Proof.
  intros st0 post T Hp Hroom.
  pose proof (adam_fused_step_impl_elem std_pow k shards (scalar_type param_t) adam_mode
                param_t grad_t exp_avg_t exp_avg_sq_t max_exp_avg_sq_t state_step
                lr beta1 beta2 weight_decay eps amsgrad maximize grad_scale_ptr Hp Hroom)
    as (Hlen & Hin & Hout).
  fold st0 in Hlen, Hin, Hout. fold T in Hin.
  assert (forall b, b <> MaxExpAvgSq ->
            get b post = get b (parallel_for shards
              (fun begin end_ =>
                 adam_math k (scalar_type param_t) adam_mode lr
                   (step_scalars std_pow (scalar_type param_t) (item_float state_step)
                      lr beta1 beta2)
                   eps weight_decay beta2 amsgrad maximize grad_scale_ptr begin
                   (end_ - begin)) st0)) as Hpost.
  { intros b Hb. unfold post. rewrite fused_adam_kernel_shards. fold st0. simpl.
    destruct amsgrad; [reflexivity|]. by apply get_set_max_exp_avg_sq. }
  split; [|split].
  - intros b Hb. rewrite Hpost by exact Hb.
    destruct Hlen as (?&?&?&?&?). by destruct b.
  - intros j b Hj Hgood Hb.
    assert (b <> MaxExpAvgSq) as Hne.
    { intros ->. destruct (scalar_type param_t), amsgrad; simpl in Hb;
        repeat (apply elem_of_cons in Hb as [Hb|Hb]; [discriminate|]);
        by apply elem_of_nil in Hb. }
    rewrite Hpost by exact Hne. apply Hin; [lia|exact Hgood|exact Hb].
  - intros j b Hj Hb. rewrite Hpost by exact Hb. apply Hout. lia.
Qed.

(** X1: the call writes no element from [numel] on, changes no length, and
    leaves [max_exp_avg_sq] alone without [amsgrad]. *)
Theorem fused_adam_kernel_frame std_pow k shards
    param_t grad_t exp_avg_t exp_avg_sq_t max_exp_avg_sq_t state_step
    lr beta1 beta2 weight_decay eps amsgrad maximize grad_scale_ptr adam_mode :
  is_partition 0 (numel param_t) shards ->
  numel param_t <= length (data_ptr param_t) ->
  numel param_t <= length (data_ptr exp_avg_t) ->
  numel param_t <= length (data_ptr exp_avg_sq_t) ->
  numel param_t <= length (data_ptr grad_t) ->
  (amsgrad = true -> numel param_t <= length (data_ptr max_exp_avg_sq_t)) ->
  let post :=
    fused_adam_kernel std_pow k shards param_t grad_t exp_avg_t exp_avg_sq_t
      max_exp_avg_sq_t state_step lr beta1 beta2 weight_decay eps amsgrad maximize
      grad_scale_ptr adam_mode in
  (forall j, numel param_t <= j ->
     param post !! j = data_ptr param_t !! j /\
     exp_avg post !! j = data_ptr exp_avg_t !! j /\
     exp_avg_sq post !! j = data_ptr exp_avg_sq_t !! j /\
     grad post !! j = data_ptr grad_t !! j /\
     max_exp_avg_sq post !! j = data_ptr max_exp_avg_sq_t !! j) /\
  length (param post) = length (data_ptr param_t) /\
  length (exp_avg post) = length (data_ptr exp_avg_t) /\
  length (exp_avg_sq post) = length (data_ptr exp_avg_sq_t) /\
  length (grad post) = length (data_ptr grad_t) /\
  length (max_exp_avg_sq post) = length (data_ptr max_exp_avg_sq_t) /\
  (amsgrad = false -> max_exp_avg_sq post = data_ptr max_exp_avg_sq_t).
Proof.
  intros Hp H1 H2 H3 H4 H5 post.
  assert (enough amsgrad (numel param_t)
            (initial amsgrad param_t grad_t exp_avg_t exp_avg_sq_t max_exp_avg_sq_t))
    as Hroom.
  { repeat split; try assumption. intros ->. by apply H5. }
  pose proof (adam_fused_step_impl_elem std_pow k shards (scalar_type param_t) adam_mode
                param_t grad_t exp_avg_t exp_avg_sq_t max_exp_avg_sq_t state_step
                lr beta1 beta2 weight_decay eps amsgrad maximize grad_scale_ptr Hp Hroom)
    as (Hlen & _ & Hout).
  unfold post. rewrite fused_adam_kernel_shards.
  destruct amsgrad; simpl.
  - split.
    + intros j Hj.
      pose proof (Hout j Param ltac:(lia)). pose proof (Hout j ExpAvg ltac:(lia)).
      pose proof (Hout j ExpAvgSq ltac:(lia)). pose proof (Hout j Grad ltac:(lia)).
      pose proof (Hout j MaxExpAvgSq ltac:(lia)). by repeat split.
    + destruct Hlen as (?&?&?&?&?). by repeat split.
  - split.
    + intros j Hj.
      pose proof (Hout j Param ltac:(lia)). pose proof (Hout j ExpAvg ltac:(lia)).
      pose proof (Hout j ExpAvgSq ltac:(lia)). pose proof (Hout j Grad ltac:(lia)).
      by repeat split.
    + destruct Hlen as (?&?&?&?&?). by repeat split.
Qed.

(** ** Shards and register widths *)

Lemma good_elem_initial amsgrad param_t grad_t exp_avg_t exp_avg_sq_t max_exp_avg_sq_t
    grad_scale_ptr t j :
  (forall g, data_ptr grad_t !! j = Some g -> valid_in t g) ->
  (forall s, grad_scale_ptr = Some s -> valid_in kFloat s) ->
  j < length (data_ptr grad_t) ->
  good_elem t grad_scale_ptr
    (elem_state (initial amsgrad param_t grad_t exp_avg_t exp_avg_sq_t max_exp_avg_sq_t) j).
Proof.
  intros Hg Hs Hj. split; [|exact Hs]. simpl.
  apply Hg. by apply list_lookup_lookup_total_lt.
Qed.

Lemma Bufs_eq (s s' : Bufs) : (forall b, get b s = get b s') -> s = s'.
Proof.
  intros H. destruct s, s'.
  pose proof (H Param). pose proof (H ExpAvg). pose proof (H ExpAvgSq).
  pose proof (H Grad). pose proof (H MaxExpAvgSq). simpl in *. congruence.
Qed.

(** The buffers updated element by element do not depend on the shards
    and on the register width. *)
Lemma fused_adam_kernel_sel_invariant std_pow k1 shards1 k2 shards2
    param_t grad_t exp_avg_t exp_avg_sq_t max_exp_avg_sq_t state_step
    lr beta1 beta2 weight_decay eps amsgrad maximize grad_scale_ptr adam_mode b :
  is_partition 0 (numel param_t) shards1 ->
  is_partition 0 (numel param_t) shards2 ->
  enough amsgrad (numel param_t)
    (initial amsgrad param_t grad_t exp_avg_t exp_avg_sq_t max_exp_avg_sq_t) ->
  Forall (valid_in (scalar_type param_t)) (data_ptr grad_t) ->
  (forall s, grad_scale_ptr = Some s -> valid_in kFloat s) ->
  b ∈ kernel_sel (scalar_type param_t) amsgrad ->
  get b (fused_adam_kernel std_pow k1 shards1 param_t grad_t exp_avg_t exp_avg_sq_t
           max_exp_avg_sq_t state_step lr beta1 beta2 weight_decay eps amsgrad maximize
           grad_scale_ptr adam_mode)
  = get b (fused_adam_kernel std_pow k2 shards2 param_t grad_t exp_avg_t exp_avg_sq_t
             max_exp_avg_sq_t state_step lr beta1 beta2 weight_decay eps amsgrad maximize
             grad_scale_ptr adam_mode).
Proof.
  intros Hp1 Hp2 Hroom Hg Hs Hb.
  destruct (fused_adam_kernel_elem std_pow k1 shards1 param_t grad_t exp_avg_t exp_avg_sq_t
              max_exp_avg_sq_t state_step lr beta1 beta2 weight_decay eps amsgrad maximize
              grad_scale_ptr adam_mode Hp1 Hroom) as (Hlen1 & Hin1 & Hout1).
  destruct (fused_adam_kernel_elem std_pow k2 shards2 param_t grad_t exp_avg_t exp_avg_sq_t
              max_exp_avg_sq_t state_step lr beta1 beta2 weight_decay eps amsgrad maximize
              grad_scale_ptr adam_mode Hp2 Hroom) as (Hlen2 & Hin2 & Hout2).
  assert (b <> MaxExpAvgSq) as Hne.
  { intros ->. destruct (scalar_type param_t), amsgrad; simpl in Hb;
      repeat (apply elem_of_cons in Hb as [Hb|Hb]; [discriminate|]);
      by apply elem_of_nil in Hb. }
  apply list_eq. intros j.
  destruct (decide (j < numel param_t)) as [Hj|Hj].
  - rewrite Hin1, Hin2; try assumption; try reflexivity;
      (apply good_elem_initial; [|exact Hs|destruct Hroom as (?&?&?&?&?); simpl in *; lia]);
      intros g Hgj; by apply (Forall_lookup_1 _ _ _ _ Hg Hgj).
  - rewrite Hout1, Hout2 by (first [lia|exact Hne]). reflexivity.
Qed.

(** X2: for [float] and [double] storage without [amsgrad], the result of
    the call depends neither on the shards nor on the register width. *)
Theorem float_double_shard_invariance std_pow k1 shards1 k2 shards2
    param_t grad_t exp_avg_t exp_avg_sq_t max_exp_avg_sq_t state_step
    lr beta1 beta2 weight_decay eps maximize grad_scale_ptr adam_mode :
  scalar_type param_t = kFloat \/ scalar_type param_t = kDouble ->
  is_partition 0 (numel param_t) shards1 ->
  is_partition 0 (numel param_t) shards2 ->
  numel param_t <= length (data_ptr param_t) ->
  numel param_t <= length (data_ptr exp_avg_t) ->
  numel param_t <= length (data_ptr exp_avg_sq_t) ->
  numel param_t <= length (data_ptr grad_t) ->
  Forall (valid_in (scalar_type param_t)) (data_ptr grad_t) ->
  (forall s, grad_scale_ptr = Some s -> valid_in kFloat s) ->
  fused_adam_kernel std_pow k1 shards1 param_t grad_t exp_avg_t exp_avg_sq_t
    max_exp_avg_sq_t state_step lr beta1 beta2 weight_decay eps false maximize
    grad_scale_ptr adam_mode
  = fused_adam_kernel std_pow k2 shards2 param_t grad_t exp_avg_t exp_avg_sq_t
      max_exp_avg_sq_t state_step lr beta1 beta2 weight_decay eps false maximize
      grad_scale_ptr adam_mode.
Proof.
  intros Ht Hp1 Hp2 H1 H2 H3 H4 Hg Hs.
  apply Bufs_eq. intros b.
  assert (b = MaxExpAvgSq \/ b ∈ wide_sel false) as [->|Hb].
  { destruct b; first [ by left | right; unfold wide_sel; simpl; by repeat constructor ]. }
  - rewrite !fused_adam_kernel_shards. reflexivity.
  - apply fused_adam_kernel_sel_invariant; try assumption.
    + repeat split; try assumption. discriminate.
    + by destruct Ht as [-> | ->].
Qed.

(** X3: for every storage type and whatever the flags, the second moments
    and the gradients after the call depend neither on the shards nor on
    the register width; for [float] and [double] storage the same holds of
    the first moments. *)
Theorem second_moment_shard_invariance std_pow k1 shards1 k2 shards2
    param_t grad_t exp_avg_t exp_avg_sq_t max_exp_avg_sq_t state_step
    lr beta1 beta2 weight_decay eps amsgrad maximize grad_scale_ptr adam_mode :
  is_partition 0 (numel param_t) shards1 ->
  is_partition 0 (numel param_t) shards2 ->
  numel param_t <= length (data_ptr param_t) ->
  numel param_t <= length (data_ptr exp_avg_t) ->
  numel param_t <= length (data_ptr exp_avg_sq_t) ->
  numel param_t <= length (data_ptr grad_t) ->
  (amsgrad = true -> numel param_t <= length (data_ptr max_exp_avg_sq_t)) ->
  Forall (valid_in (scalar_type param_t)) (data_ptr grad_t) ->
  (forall s, grad_scale_ptr = Some s -> valid_in kFloat s) ->
  let post1 :=
    fused_adam_kernel std_pow k1 shards1 param_t grad_t exp_avg_t exp_avg_sq_t
      max_exp_avg_sq_t state_step lr beta1 beta2 weight_decay eps amsgrad maximize
      grad_scale_ptr adam_mode in
  let post2 :=
    fused_adam_kernel std_pow k2 shards2 param_t grad_t exp_avg_t exp_avg_sq_t
      max_exp_avg_sq_t state_step lr beta1 beta2 weight_decay eps amsgrad maximize
      grad_scale_ptr adam_mode in
  exp_avg_sq post1 = exp_avg_sq post2 /\
  grad post1 = grad post2 /\
  (scalar_type param_t = kFloat \/ scalar_type param_t = kDouble ->
   exp_avg post1 = exp_avg post2).
Proof.
  intros Hp1 Hp2 H1 H2 H3 H4 H5 Hg Hs post1 post2.
  assert (enough amsgrad (numel param_t)
            (initial amsgrad param_t grad_t exp_avg_t exp_avg_sq_t max_exp_avg_sq_t))
    as Hroom.
  { repeat split; try assumption. intros ->. by apply H5. }
  assert (forall b, b ∈ kernel_sel (scalar_type param_t) amsgrad ->
            get b post1 = get b post2) as H.
  { intros b Hb. by apply fused_adam_kernel_sel_invariant. }
  split; [|split].
  - apply (H ExpAvgSq). destruct (scalar_type param_t); simpl;
      by repeat constructor.
  - apply (H Grad). destruct (scalar_type param_t); simpl;
      by repeat constructor.
  - intros Ht. apply (H ExpAvg). destruct Ht as [-> | ->]; simpl; by repeat constructor.
Qed.

(** ** One element at a time *)

Lemma elem_state_initial_eq param1 grad1 exp_avg1 exp_avg_sq1 max1
    param2 grad2 exp_avg2 exp_avg_sq2 max2 d1 d2 :
  data_ptr param1 !! d1 = data_ptr param2 !! d2 ->
  data_ptr exp_avg1 !! d1 = data_ptr exp_avg2 !! d2 ->
  data_ptr exp_avg_sq1 !! d1 = data_ptr exp_avg_sq2 !! d2 ->
  data_ptr grad1 !! d1 = data_ptr grad2 !! d2 ->
  elem_state (initial false param1 grad1 exp_avg1 exp_avg_sq1 max1) d1
  = elem_state (initial false param2 grad2 exp_avg2 exp_avg_sq2 max2) d2.
Proof.
  intros Hp Hm Hv Hg. unfold elem_state, initial. simpl.
  rewrite !list_lookup_total_alt, Hp, Hm, Hv, Hg. reflexivity.
Qed.

(** X4: for [float] and [double] storage without [amsgrad], what the call
    leaves at an index is a function of the four elements at that index
    and of the scalars: two calls with the same scalars, on tensors of any
    sizes, with any shards and register widths, leave the same values at
    two indices where they found the same values. *)
Theorem float_double_elementwise std_pow k1 shards1 k2 shards2
    param1 grad1 exp_avg1 exp_avg_sq1 max1 param2 grad2 exp_avg2 exp_avg_sq2 max2
    state_step lr beta1 beta2 weight_decay eps maximize grad_scale_ptr adam_mode
    (d1 d2 : nat) :
  scalar_type param1 = kFloat \/ scalar_type param1 = kDouble ->
  scalar_type param2 = scalar_type param1 ->
  is_partition 0 (numel param1) shards1 ->
  is_partition 0 (numel param2) shards2 ->
  enough false (numel param1) (initial false param1 grad1 exp_avg1 exp_avg_sq1 max1) ->
  enough false (numel param2) (initial false param2 grad2 exp_avg2 exp_avg_sq2 max2) ->
  d1 < numel param1 -> d2 < numel param2 ->
  data_ptr param1 !! d1 = data_ptr param2 !! d2 ->
  data_ptr exp_avg1 !! d1 = data_ptr exp_avg2 !! d2 ->
  data_ptr exp_avg_sq1 !! d1 = data_ptr exp_avg_sq2 !! d2 ->
  data_ptr grad1 !! d1 = data_ptr grad2 !! d2 ->
  (forall g, data_ptr grad1 !! d1 = Some g -> valid_in (scalar_type param1) g) ->
  (forall s, grad_scale_ptr = Some s -> valid_in kFloat s) ->
  let post1 :=
    fused_adam_kernel std_pow k1 shards1 param1 grad1 exp_avg1 exp_avg_sq1 max1
      state_step lr beta1 beta2 weight_decay eps false maximize grad_scale_ptr adam_mode in
  let post2 :=
    fused_adam_kernel std_pow k2 shards2 param2 grad2 exp_avg2 exp_avg_sq2 max2
      state_step lr beta1 beta2 weight_decay eps false maximize grad_scale_ptr adam_mode in
  param post1 !! d1 = param post2 !! d2 /\
  exp_avg post1 !! d1 = exp_avg post2 !! d2 /\
  exp_avg_sq post1 !! d1 = exp_avg_sq post2 !! d2 /\
  grad post1 !! d1 = grad post2 !! d2.
Proof.
  intros Ht Ht2 Hp1 Hp2 Hr1 Hr2 Hd1 Hd2 Ep Em Ev Eg Hg Hs post1 post2.
  destruct (fused_adam_kernel_elem std_pow k1 shards1 param1 grad1 exp_avg1 exp_avg_sq1
              max1 state_step lr beta1 beta2 weight_decay eps false maximize
              grad_scale_ptr adam_mode Hp1 Hr1) as (_ & Hin1 & _).
  destruct (fused_adam_kernel_elem std_pow k2 shards2 param2 grad2 exp_avg2 exp_avg_sq2
              max2 state_step lr beta1 beta2 weight_decay eps false maximize
              grad_scale_ptr adam_mode Hp2 Hr2) as (_ & Hin2 & _).
  fold post1 in Hin1. fold post2 in Hin2.
  pose proof (elem_state_initial_eq param1 grad1 exp_avg1 exp_avg_sq1 max1
                param2 grad2 exp_avg2 exp_avg_sq2 max2 d1 d2 Ep Em Ev Eg) as He.
  assert (good_elem (scalar_type param1) grad_scale_ptr
            (elem_state (initial false param1 grad1 exp_avg1 exp_avg_sq1 max1) d1)) as Hg1.
  { apply good_elem_initial; [exact Hg|exact Hs|].
    destruct Hr1 as (?&?&?&?&?). simpl in *. lia. }
  assert (forall b, b ∈ wide_sel false -> get b post1 !! d1 = get b post2 !! d2) as H.
  { intros b Hb.
    assert (b ∈ kernel_sel (scalar_type param1) false) as Hb1
      by (by destruct Ht as [-> | ->]).
    rewrite (Hin1 d1 b Hd1 Hg1 Hb1).
    pose proof (Hin2 d2 b Hd2) as H2. rewrite Ht2, <- He in H2.
    rewrite (H2 Hg1 Hb1). reflexivity. }
  split; [|split; [|split]].
  - apply (H Param). unfold wide_sel. simpl. by repeat constructor.
  - apply (H ExpAvg). by repeat constructor.
  - apply (H ExpAvgSq). by repeat constructor.
  - apply (H Grad). by repeat constructor.
Qed.

(** ** A NaN gradient *)

Lemma fadd_nan_l f y : fadd f S754_nan y = S754_nan.
Proof. reflexivity. Qed.
Lemma fadd_nan_r f x : fadd f x S754_nan = S754_nan.
Proof. by destruct x. Qed.
Lemma fsub_nan_l f y : fsub f S754_nan y = S754_nan.
Proof. reflexivity. Qed.
Lemma fsub_nan_r f x : fsub f x S754_nan = S754_nan.
Proof. by destruct x. Qed.
Lemma fmul_nan_l f y : fmul f S754_nan y = S754_nan.
Proof. reflexivity. Qed.
Lemma fmul_nan_r f x : fmul f x S754_nan = S754_nan.
Proof. by destruct x. Qed.
Lemma fdiv_nan_l f y : fdiv f S754_nan y = S754_nan.
Proof. reflexivity. Qed.
Lemma fdiv_nan_r f x : fdiv f x S754_nan = S754_nan.
Proof. by destruct x. Qed.
Lemma convert_nan_eq a b : convert a b S754_nan = S754_nan.
Proof. unfold convert. by destruct (ScalarType_eqb a b). Qed.

Ltac nans :=
  repeat first
    [ rewrite fadd_nan_l | rewrite fadd_nan_r | rewrite fsub_nan_l | rewrite fsub_nan_r
    | rewrite fmul_nan_l | rewrite fmul_nan_r | rewrite fdiv_nan_l | rewrite fdiv_nan_r
    | rewrite convert_nan_eq
    | progress change (fneg S754_nan) with S754_nan
    | progress change (Narrow.to_opmath ?t S754_nan) with (convert t kFloat S754_nan)
    | progress change (Narrow.to_scalar ?t S754_nan) with (convert kFloat t S754_nan) ].

Lemma tail_step_nan scalar_t adam_mode lr sc eps weight_decay beta2 amsgrad maximize
    grad_scale_ptr (p m v a : spec_float) :
  let e' :=
    tail_step scalar_t adam_mode lr sc eps weight_decay beta2 amsgrad maximize grad_scale_ptr
      (mkBufs [p] [m] [v] [S754_nan] [a]) in
  exp_avg_sq e' !! 0 = Some S754_nan /\
  (opmath_type scalar_t = scalar_t -> exp_avg e' !! 0 = Some S754_nan) /\
  (opmath_type scalar_t = scalar_t -> amsgrad = false -> param e' !! 0 = Some S754_nan).
Proof.
  unfold tail_step.
  unfold Wide.tail_body, Wide.tail_grad, Wide.tail_weight_decay, Wide.tail_update.
  unfold Narrow.tail_body, Narrow.tail_grad, Narrow.tail_weight_decay, Narrow.tail_update.
  destruct scalar_t, grad_scale_ptr, maximize, (ne_zero _), adam_mode, amsgrad; simpl;
    (split; [|split]); try discriminate; intros; nans; reflexivity.
Qed.

(** X5: a NaN gradient at an index makes the second moment at that index
    a NaN, for every storage type and whatever the flags; for [float] and
    [double] storage it also makes the first moment a NaN and, without
    [amsgrad], the parameter. *)
Theorem nan_gradient_propagates std_pow k shards
    param_t grad_t exp_avg_t exp_avg_sq_t max_exp_avg_sq_t state_step
    lr beta1 beta2 weight_decay eps amsgrad maximize grad_scale_ptr adam_mode (d : nat) :
  is_partition 0 (numel param_t) shards ->
  numel param_t <= length (data_ptr param_t) ->
  numel param_t <= length (data_ptr exp_avg_t) ->
  numel param_t <= length (data_ptr exp_avg_sq_t) ->
  numel param_t <= length (data_ptr grad_t) ->
  (amsgrad = true -> numel param_t <= length (data_ptr max_exp_avg_sq_t)) ->
  (forall s, grad_scale_ptr = Some s -> valid_in kFloat s) ->
  d < numel param_t ->
  data_ptr grad_t !! d = Some S754_nan ->
  let post :=
    fused_adam_kernel std_pow k shards param_t grad_t exp_avg_t exp_avg_sq_t
      max_exp_avg_sq_t state_step lr beta1 beta2 weight_decay eps amsgrad maximize
      grad_scale_ptr adam_mode in
  exp_avg_sq post !! d = Some S754_nan /\
  (scalar_type param_t = kFloat \/ scalar_type param_t = kDouble ->
   exp_avg post !! d = Some S754_nan) /\
  (scalar_type param_t = kFloat \/ scalar_type param_t = kDouble ->
   amsgrad = false -> param post !! d = Some S754_nan).
Proof.
  intros Hp H1 H2 H3 H4 H5 Hs Hd Hnan post.
  assert (enough amsgrad (numel param_t)
            (initial amsgrad param_t grad_t exp_avg_t exp_avg_sq_t max_exp_avg_sq_t))
    as Hroom.
  { repeat split; try assumption. intros ->. by apply H5. }
  destruct (fused_adam_kernel_elem std_pow k shards param_t grad_t exp_avg_t exp_avg_sq_t
              max_exp_avg_sq_t state_step lr beta1 beta2 weight_decay eps amsgrad maximize
              grad_scale_ptr adam_mode Hp Hroom) as (_ & Hin & _).
  fold post in Hin.
  assert (good_elem (scalar_type param_t) grad_scale_ptr
            (elem_state (initial amsgrad param_t grad_t exp_avg_t exp_avg_sq_t
                           max_exp_avg_sq_t) d)) as Hgood.
  { apply good_elem_initial; [|exact Hs|lia].
    intros g Hg. rewrite Hnan in Hg. by injection Hg as <-. }
  specialize (Hin d). 
  assert (elem_state (initial amsgrad param_t grad_t exp_avg_t exp_avg_sq_t
                        max_exp_avg_sq_t) d
          = mkBufs [data_ptr param_t !!! d] [data_ptr exp_avg_t !!! d]
              [data_ptr exp_avg_sq_t !!! d] [S754_nan]
              [(if amsgrad then data_ptr max_exp_avg_sq_t else []) !!! d]) as He.
  { unfold elem_state, initial. simpl.
    by rewrite (list_lookup_total_correct _ _ _ Hnan). }
  rewrite He in Hin.
  destruct (tail_step_nan (scalar_type param_t) adam_mode lr
              (step_scalars std_pow (scalar_type param_t) (item_float state_step)
                 lr beta1 beta2)
              eps weight_decay beta2 amsgrad maximize grad_scale_ptr
              (data_ptr param_t !!! d) (data_ptr exp_avg_t !!! d)
              (data_ptr exp_avg_sq_t !!! d)
              ((if amsgrad then data_ptr max_exp_avg_sq_t else []) !!! d))
    as (Nv & Nm & Np).
  rewrite He in Hgood.
  split; [|split].
  - rewrite <- Nv. apply (Hin ExpAvgSq Hd Hgood).
    destruct (scalar_type param_t); simpl; by repeat constructor.
  - intros Ht. rewrite <- Nm by (by destruct Ht as [-> | ->]).
    apply (Hin ExpAvg Hd Hgood). destruct Ht as [-> | ->]; simpl; by repeat constructor.
  - intros Ht ->. rewrite <- Np by first [reflexivity | by destruct Ht as [-> | ->]].
    apply (Hin Param Hd Hgood).
    destruct Ht as [-> | ->]; unfold kernel_sel, wide_sel; simpl; by repeat constructor.
Qed.

(** ** The stored maximum is one of the two values *)

Lemma max_selects (mx : spec_float -> spec_float -> spec_float) a v :
  mx = maximum \/ mx = std_max -> mx a v = a \/ mx a v = v.
Proof.
  intros [-> | ->].
  - unfold maximum. destruct (is_nan a); [by left|]. destruct (SFltb v a); auto.
  - unfold std_max. destruct (SFltb a v); auto.
Qed.

Lemma to_st_to_op_valid t a : valid_in t a -> to_st t (to_op t a) = a.
Proof.
  intros Ha.
  assert (opmath_type t = t \/ (t = kHalf \/ t = kBFloat16)) as [Hw|Hn]
    by (destruct t; auto).
  - by rewrite to_st_wide, to_op_wide.
  - by apply to_st_to_op.
Qed.

(** X6: with [amsgrad], the maximum stored at an index is the maximum
    found there or the second moment stored there, NaNs included. *)
Theorem amsgrad_selects std_pow k shards
    param_t grad_t exp_avg_t exp_avg_sq_t max_exp_avg_sq_t state_step
    lr beta1 beta2 weight_decay eps maximize grad_scale_ptr adam_mode
    (d : nat) (a : spec_float) :
  is_partition 0 (numel param_t) shards ->
  numel param_t <= length (data_ptr param_t) ->
  numel param_t <= length (data_ptr grad_t) ->
  numel param_t <= length (data_ptr exp_avg_sq_t) ->
  numel param_t <= length (data_ptr max_exp_avg_sq_t) ->
  (forall s, grad_scale_ptr = Some s -> valid_in kFloat s) ->
  d < numel param_t ->
  data_ptr max_exp_avg_sq_t !! d = Some a ->
  valid_in (scalar_type param_t) a ->
  let post :=
    fused_adam_kernel std_pow k shards param_t grad_t exp_avg_t exp_avg_sq_t
      max_exp_avg_sq_t state_step lr beta1 beta2 weight_decay eps true maximize
      grad_scale_ptr adam_mode in
  max_exp_avg_sq post !! d = Some a \/
  max_exp_avg_sq post !! d = exp_avg_sq post !! d.
Proof.
  intros Hp H1 H2 H3 H4 Hscale Hd Ha Hva post.
  destruct (fused_adam_kernel_ams std_pow k shards param_t grad_t exp_avg_t exp_avg_sq_t
              max_exp_avg_sq_t state_step lr beta1 beta2 weight_decay eps maximize
              grad_scale_ptr adam_mode d Hp H1 H2 H3 H4 Hscale Hd)
    as (v & a' & mx & Hmx & Hval & Hv & Ha' & Hm).
  simpl in Ha'. rewrite Ha in Ha'. injection Ha' as <-.
  fold post in Hv, Hm. rewrite Hm, Hv.
  destruct (max_selects mx (to_op (scalar_type param_t) a) v Hmx) as [-> | ->].
  - left. by rewrite to_st_to_op_valid.
  - by right.
Qed.

(** ** Decoupled weight decay *)

Lemma parallel_for_rel_any (R : Bufs -> Bufs -> Prop) (shards : list (nat * nat))
    (f g : nat -> nat -> Bufs -> Bufs) (st st' : Bufs) :
  (forall lo hi s s', R s s' -> R (f lo hi s) (g lo hi s')) ->
  R st st' -> R (parallel_for shards f st) (parallel_for shards g st').
Proof.
  intros Hfg. unfold parallel_for. revert st st'.
  induction shards as [|[b e] shards IH]; simpl; intros st st' Hst; [assumption|].
  apply IH. by apply Hfg.
Qed.

Section Decoupled.
Variables (t : ScalarType).
Variables (lr lr' ss ss' c1 c2 bcs bcs' eps eps' wd wd' b2 : spec_float).
Variables (ams mx : bool) (scale : option spec_float).

Lemma Wide_vec_body_adamw w i s s' :
  same_but_param s s' ->
  same_but_param
    (Wide.vec_body w t ADAMW lr ss c1 c2 bcs eps wd b2 ams mx scale i s)
    (Wide.vec_body w t ADAMW lr' ss' c1 c2 bcs' eps' wd' b2 ams mx scale i s').
Proof.
  intros (E1 & E2 & E3 & E4). destruct s, s'. simpl in *. subst.
  unfold Wide.vec_body, Wide.vec_grad, Wide.vec_weight_decay, Wide.vec_update.
  destruct scale, mx, (ne_zero wd), (ne_zero wd'), ams; simpl; by repeat split.
Qed.

Lemma Wide_tail_body_adamw i s s' :
  same_but_param s s' ->
  same_but_param
    (Wide.tail_body t ADAMW lr ss c1 c2 bcs eps wd b2 ams mx scale i s)
    (Wide.tail_body t ADAMW lr' ss' c1 c2 bcs' eps' wd' b2 ams mx scale i s').
Proof.
  intros (E1 & E2 & E3 & E4). destruct s, s'. simpl in *. subst.
  unfold Wide.tail_body, Wide.tail_grad, Wide.tail_weight_decay, Wide.tail_update.
  destruct scale, mx, (ne_zero wd), (ne_zero wd'), ams; simpl; by repeat split.
Qed.

Lemma Narrow_vec_body_adamw h i s s' :
  same_but_param s s' ->
  same_but_param
    (Narrow.vec_body h t ADAMW lr ss c1 c2 bcs eps wd b2 ams mx scale i s)
    (Narrow.vec_body h t ADAMW lr' ss' c1 c2 bcs' eps' wd' b2 ams mx scale i s').
Proof.
  intros (E1 & E2 & E3 & E4). destruct s, s'. simpl in *. subst.
  unfold Narrow.vec_body, Narrow.vec_grad, Narrow.vec_weight_decay, Narrow.vec_update.
  unfold Narrow.convert_to_float, Narrow.convert_from_float.
  destruct scale, mx, (ne_zero wd), (ne_zero wd'), ams; simpl; by repeat split.
Qed.

Lemma Narrow_tail_body_adamw i s s' :
  same_but_param s s' ->
  same_but_param
    (Narrow.tail_body t ADAMW lr ss c1 c2 bcs eps wd b2 ams mx scale i s)
    (Narrow.tail_body t ADAMW lr' ss' c1 c2 bcs' eps' wd' b2 ams mx scale i s').
Proof.
  intros (E1 & E2 & E3 & E4). destruct s, s'. simpl in *. subst.
  unfold Narrow.tail_body, Narrow.tail_grad, Narrow.tail_weight_decay, Narrow.tail_update.
  destruct scale, mx, (ne_zero wd), (ne_zero wd'), ams; simpl; by repeat split.
Qed.
End Decoupled.

Lemma adam_math_adamw k scalar_t lr lr' sc sc' eps eps' weight_decay weight_decay' beta2
    amsgrad maximize grad_scale_ptr base size st st' :
  exp_avg_grad_coefficient sc = exp_avg_grad_coefficient sc' ->
  exp_avg_sq_grad_coefficient sc = exp_avg_sq_grad_coefficient sc' ->
  same_but_param st st' ->
  same_but_param
    (adam_math k scalar_t ADAMW lr sc eps weight_decay beta2 amsgrad maximize
       grad_scale_ptr base size st)
    (adam_math k scalar_t ADAMW lr' sc' eps' weight_decay' beta2 amsgrad maximize
       grad_scale_ptr base size st').
Proof.
  intros Hc1 Hc2 Hst. unfold adam_math, Wide.adam_math, Narrow.adam_math.
  rewrite Hc1, Hc2.
  destruct scalar_t; apply two_loops_rel; try exact Hst; intros i s s' **;
    first [ by apply Wide_vec_body_adamw | by apply Wide_tail_body_adamw
          | by apply Narrow_vec_body_adamw | by apply Narrow_tail_body_adamw ].
Qed.

(** X7: in [ADAMW] mode the weight decay is decoupled: the first and
    second moments, the gradients and the AMSGrad maxima after the call do
    not depend on the parameters, nor on [lr], [eps] and [weight_decay]:
    two calls that differ in these leave the same four buffers. *)
Theorem adamw_moments_decoupled std_pow k shards
    param1 param2 grad_t exp_avg_t exp_avg_sq_t max_exp_avg_sq_t state_step
    lr1 lr2 beta1 beta2 weight_decay1 weight_decay2 eps1 eps2
    amsgrad maximize grad_scale_ptr :
  scalar_type param1 = scalar_type param2 ->
  numel param1 = numel param2 ->
  is_partition 0 (numel param1) shards ->
  numel param1 <= length (data_ptr param1) ->
  numel param1 <= length (data_ptr param2) ->
  numel param1 <= length (data_ptr exp_avg_t) ->
  numel param1 <= length (data_ptr exp_avg_sq_t) ->
  numel param1 <= length (data_ptr grad_t) ->
  (amsgrad = true -> numel param1 <= length (data_ptr max_exp_avg_sq_t)) ->
  let post1 :=
    fused_adam_kernel std_pow k shards param1 grad_t exp_avg_t exp_avg_sq_t
      max_exp_avg_sq_t state_step lr1 beta1 beta2 weight_decay1 eps1 amsgrad maximize
      grad_scale_ptr ADAMW in
  let post2 :=
    fused_adam_kernel std_pow k shards param2 grad_t exp_avg_t exp_avg_sq_t
      max_exp_avg_sq_t state_step lr2 beta1 beta2 weight_decay2 eps2 amsgrad maximize
      grad_scale_ptr ADAMW in
  exp_avg post1 = exp_avg post2 /\
  exp_avg_sq post1 = exp_avg_sq post2 /\
  grad post1 = grad post2 /\
  max_exp_avg_sq post1 = max_exp_avg_sq post2.
Proof.
  intros Ht _ _ _ _ _ _ _ _ post1 post2. unfold post1, post2.
  rewrite !fused_adam_kernel_shards. rewrite <- Ht.
  assert (same_but_param
    (parallel_for shards
       (fun begin end_ =>
          adam_math k (scalar_type param1) ADAMW lr1
            (step_scalars std_pow (scalar_type param1) (item_float state_step) lr1 beta1 beta2)
            eps1 weight_decay1 beta2 amsgrad maximize grad_scale_ptr begin (end_ - begin))
       (initial amsgrad param1 grad_t exp_avg_t exp_avg_sq_t max_exp_avg_sq_t))
    (parallel_for shards
       (fun begin end_ =>
          adam_math k (scalar_type param1) ADAMW lr2
            (step_scalars std_pow (scalar_type param1) (item_float state_step) lr2 beta1 beta2)
            eps2 weight_decay2 beta2 amsgrad maximize grad_scale_ptr begin (end_ - begin))
       (initial amsgrad param2 grad_t exp_avg_t exp_avg_sq_t max_exp_avg_sq_t)))
    as (E1 & E2 & E3 & E4).
  { apply parallel_for_rel_any; [|by repeat split].
    intros lo hi s s' Hs. by apply adam_math_adamw. }
  simpl. destruct amsgrad; simpl; by repeat split.
Qed.

(** ** Signs *)

Lemma has_sign_ex x : exists s, has_sign s x.
Proof. destruct x as [s|s| |s m e]; simpl; eauto. exists false. exact I. Qed.

Lemma binary_round_aux_sign prec emax s m e l :
  has_sign s (binary_round_aux prec emax s m e l).
Proof.
  unfold binary_round_aux.
  destruct (shr_fexp prec emax m e l) as [mrs' e'].
  destruct (shr_fexp prec emax _ e' loc_Exact) as [mrs'' e''].
  destruct (shr_m mrs''); [reflexivity| |exact I].
  by destruct (e'' <=? emax - prec)%Z.
Qed.

Lemma binary_round_sign prec emax s m e : has_sign s (binary_round prec emax s m e).
Proof.
  unfold binary_round. destruct (shl_align _ _ _) as [mz ez]. apply binary_round_aux_sign.
Qed.

Lemma round_to_sign f s x : has_sign s x -> has_sign s (round_to f x).
Proof.
  destruct x as [s'|s'| |s' m e]; simpl; try done. intros ->. apply binary_round_sign.
Qed.

Lemma convert_sign a b s x : has_sign s x -> has_sign s (convert a b x).
Proof. unfold convert. destruct (ScalarType_eqb a b); [done|apply round_to_sign]. Qed.

Lemma fmul_sign f s s' x y :
  has_sign s x -> has_sign s' y -> has_sign (xorb s s') (fmul f x y).
Proof.
  unfold fmul.
  destruct x as [sx|sx| |sx mx ex], y as [sy|sy| |sy my ey]; simpl; try done;
    try (by intros -> ->).
  intros -> ->. apply binary_round_aux_sign.
Qed.

Lemma fadd_not_negative f x y :
  not_negative x -> not_negative y -> not_negative (fadd f x y).
Proof.
  unfold not_negative, fadd.
  destruct x as [sx|sx| |sx mx ex], y as [sy|sy| |sy my ey]; simpl; try done;
    try (by intros -> ->).
  intros -> ->. simpl. apply binary_round_sign.
Qed.

(** The sum [v * beta2 + c2 * g * g] of the second moment. *)
Lemma second_moment_not_negative f v b2 c2 g :
  not_negative v -> not_negative b2 -> not_negative c2 ->
  not_negative (fadd f (fmul f v b2) (fmul f (fmul f c2 g) g)).
Proof.
  intros Hv Hb Hc. apply fadd_not_negative.
  - apply (fmul_sign f false false); assumption.
  - destruct (has_sign_ex g) as [s Hs].
    assert (has_sign (xorb (xorb false s) s) (fmul f (fmul f c2 g) g)) as H
      by (apply fmul_sign; [by apply fmul_sign|exact Hs]).
    by destruct s.
Qed.

Lemma shl_align_scaled (m : positive) (e ez : Z) :
  (ez <= e)%Z -> Z.pos (fst (shl_align m e ez)) = scaled ez (Z.pos m) e.
Proof.
  intros Hle. unfold shl_align, scaled.
  destruct (ez - e)%Z as [|d|d] eqn:Hd; simpl; try lia.
  - replace (e - ez)%Z with 0%Z by lia. simpl. lia.
  - rewrite Zpos_iter_xO. f_equal. f_equal. lia.
Qed.

Lemma binary_normalize_not_negative prec emax m e :
  (0 <= m)%Z -> not_negative (binary_normalize prec emax m e false).
Proof.
  intros Hm. unfold binary_normalize. destruct m as [|m|m]; [reflexivity| |lia].
  apply binary_round_sign.
Qed.

(** [1 - b] in [double] is not negative when [b <= 1]. *)
Lemma one_minus_not_negative b :
  valid_in kDouble b -> SFleb b (one kDouble) = true ->
  not_negative (fsub binary64 (one kDouble) b).
Proof.
  intros Hb Hle.
  change (one kDouble) with (S754_finite false 4503599627370496 (-52)) in *.
  destruct b as [s|s| |s m e]; try done.
  - by destruct s.
  - unfold fsub, SFsub. cbv zeta. apply binary_normalize_not_negative.
    rewrite !shl_align_scaled by lia.
    destruct s; simpl cond_Zopp.
    + assert (0 < scaled (Z.min (-52) e) (Z.pos m) e)%Z by (apply scaled_pos; lia).
      assert (0 < scaled (Z.min (-52) e) 4503599627370496 (-52))%Z
        by (apply scaled_pos; lia).
      lia.
    + apply (SFleb_pos 53 1024 (Z.min (-52) e)) in Hle; try lia.
      * by apply bounded_iff in Hb as [Hc _].
      * reflexivity.
Qed.

(** The second moment the tail step stores. *)
Lemma tail_step_second_moment scalar_t adam_mode lr sc eps weight_decay beta2 amsgrad
    maximize grad_scale_ptr (p m v g0 a : spec_float) :
  exists g,
    exp_avg_sq
      (tail_step scalar_t adam_mode lr sc eps weight_decay beta2 amsgrad maximize
         grad_scale_ptr (mkBufs [p] [m] [v] [g0] [a])) !! 0
    = Some (to_st scalar_t
              (fadd (format_of (opmath_type scalar_t))
                 (fmul (format_of (opmath_type scalar_t)) (to_op scalar_t v)
                    (convert kDouble (opmath_type scalar_t) beta2))
                 (fmul (format_of (opmath_type scalar_t))
                    (fmul (format_of (opmath_type scalar_t))
                       (exp_avg_sq_grad_coefficient sc) g) g))).
Proof.
  unfold tail_step.
  unfold Wide.tail_body, Wide.tail_grad, Wide.tail_weight_decay, Wide.tail_update.
  unfold Narrow.tail_body, Narrow.tail_grad, Narrow.tail_weight_decay, Narrow.tail_update.
  destruct scalar_t, grad_scale_ptr, maximize, (ne_zero _), adam_mode, amsgrad; simpl;
    eexists; reflexivity.
Qed.

Lemma fused_adam_kernel_second_moment_sign std_pow k shards
    param_t grad_t exp_avg_t exp_avg_sq_t max_exp_avg_sq_t state_step
    lr beta1 beta2 weight_decay eps amsgrad maximize grad_scale_ptr adam_mode
    (d : nat) (v : spec_float) :
  is_partition 0 (numel param_t) shards ->
  numel param_t <= length (data_ptr param_t) ->
  numel param_t <= length (data_ptr exp_avg_t) ->
  numel param_t <= length (data_ptr exp_avg_sq_t) ->
  numel param_t <= length (data_ptr grad_t) ->
  (amsgrad = true -> numel param_t <= length (data_ptr max_exp_avg_sq_t)) ->
  Forall (valid_in (scalar_type param_t)) (data_ptr grad_t) ->
  (forall s, grad_scale_ptr = Some s -> valid_in kFloat s) ->
  valid_in kDouble beta2 ->
  not_negative beta2 ->
  SFleb beta2 (one kDouble) = true ->
  d < numel param_t ->
  data_ptr exp_avg_sq_t !! d = Some v ->
  not_negative v ->
  let post :=
    fused_adam_kernel std_pow k shards param_t grad_t exp_avg_t exp_avg_sq_t
      max_exp_avg_sq_t state_step lr beta1 beta2 weight_decay eps amsgrad maximize
      grad_scale_ptr adam_mode in
  exists v', exp_avg_sq post !! d = Some v' /\ not_negative v'.
Proof.
  intros Hp H1 H2 H3 H4 H5 Hg Hs Hb Hb0 Hb1 Hd Hv Hv0 post.
  assert (enough amsgrad (numel param_t)
            (initial amsgrad param_t grad_t exp_avg_t exp_avg_sq_t max_exp_avg_sq_t))
    as Hroom.
  { repeat split; try assumption. intros ->. by apply H5. }
  destruct (fused_adam_kernel_elem std_pow k shards param_t grad_t exp_avg_t exp_avg_sq_t
              max_exp_avg_sq_t state_step lr beta1 beta2 weight_decay eps amsgrad maximize
              grad_scale_ptr adam_mode Hp Hroom) as (_ & Hin & _).
  fold post in Hin.
  assert (good_elem (scalar_type param_t) grad_scale_ptr
            (elem_state (initial amsgrad param_t grad_t exp_avg_t exp_avg_sq_t
                           max_exp_avg_sq_t) d)) as Hgood.
  { apply good_elem_initial; [|exact Hs|lia].
    intros g Hgd. by apply (Forall_lookup_1 _ _ _ _ Hg Hgd). }
  assert (ExpAvgSq ∈ kernel_sel (scalar_type param_t) amsgrad) as Hsel
    by (destruct (scalar_type param_t); simpl; by repeat constructor).
  specialize (Hin d ExpAvgSq Hd Hgood Hsel). simpl get in Hin.
  unfold elem_state in Hin.
  destruct (tail_step_second_moment (scalar_type param_t) adam_mode lr
              (step_scalars std_pow (scalar_type param_t) (item_float state_step)
                 lr beta1 beta2)
              eps weight_decay beta2 amsgrad maximize grad_scale_ptr
              (param (initial amsgrad param_t grad_t exp_avg_t exp_avg_sq_t
                        max_exp_avg_sq_t) !!! d)
              (exp_avg (initial amsgrad param_t grad_t exp_avg_t exp_avg_sq_t
                          max_exp_avg_sq_t) !!! d)
              (exp_avg_sq (initial amsgrad param_t grad_t exp_avg_t exp_avg_sq_t
                             max_exp_avg_sq_t) !!! d)
              (grad (initial amsgrad param_t grad_t exp_avg_t exp_avg_sq_t
                       max_exp_avg_sq_t) !!! d)
              (max_exp_avg_sq (initial amsgrad param_t grad_t exp_avg_t exp_avg_sq_t
                                 max_exp_avg_sq_t) !!! d))
    as [g Hsm].
  rewrite Hsm in Hin. eexists. split; [exact Hin|].
  unfold to_st. apply convert_sign.
  apply second_moment_not_negative.
  - unfold to_op. apply convert_sign. simpl.
    by rewrite (list_lookup_total_correct _ _ _ Hv).
  - by apply convert_sign.
  - unfold step_scalars. simpl exp_avg_sq_grad_coefficient.
    apply convert_sign. by apply one_minus_not_negative.
Qed.

(** X8: the second moment stays not negative: when the second moment found
    at an index is not negative and [0 <= beta2 <= 1], the second moment
    stored there is not negative (it may be a NaN). *)
Theorem second_moment_stays_not_negative std_pow k shards
    param_t grad_t exp_avg_t exp_avg_sq_t max_exp_avg_sq_t state_step
    lr beta1 beta2 weight_decay eps amsgrad maximize grad_scale_ptr adam_mode
    (d : nat) (v : spec_float) :
  is_partition 0 (numel param_t) shards ->
  numel param_t <= length (data_ptr param_t) ->
  numel param_t <= length (data_ptr exp_avg_t) ->
  numel param_t <= length (data_ptr exp_avg_sq_t) ->
  numel param_t <= length (data_ptr grad_t) ->
  (amsgrad = true -> numel param_t <= length (data_ptr max_exp_avg_sq_t)) ->
  Forall (valid_in (scalar_type param_t)) (data_ptr grad_t) ->
  (forall s, grad_scale_ptr = Some s -> valid_in kFloat s) ->
  valid_in kDouble beta2 ->
  not_negative beta2 ->
  SFleb beta2 (one kDouble) = true ->
  d < numel param_t ->
  data_ptr exp_avg_sq_t !! d = Some v ->
  not_negative v ->
  let post :=
    fused_adam_kernel std_pow k shards param_t grad_t exp_avg_t exp_avg_sq_t
      max_exp_avg_sq_t state_step lr beta1 beta2 weight_decay eps amsgrad maximize
      grad_scale_ptr adam_mode in
  exists v', exp_avg_sq post !! d = Some v' /\ not_negative v'.
Proof. apply fused_adam_kernel_second_moment_sign. Qed.

(** X9: with [amsgrad] the maximum stays not negative too, so that the
    square root of the denominator is never taken of a negative number:
    when the second moment and the maximum found at an index are not
    negative and [0 <= beta2 <= 1], the maximum stored there is not
    negative (it may be a NaN). *)
Theorem amsgrad_maximum_stays_not_negative std_pow k shards
    param_t grad_t exp_avg_t exp_avg_sq_t max_exp_avg_sq_t state_step
    lr beta1 beta2 weight_decay eps maximize grad_scale_ptr adam_mode
    (d : nat) (v a : spec_float) :
  is_partition 0 (numel param_t) shards ->
  numel param_t <= length (data_ptr param_t) ->
  numel param_t <= length (data_ptr exp_avg_t) ->
  numel param_t <= length (data_ptr exp_avg_sq_t) ->
  numel param_t <= length (data_ptr grad_t) ->
  numel param_t <= length (data_ptr max_exp_avg_sq_t) ->
  Forall (valid_in (scalar_type param_t)) (data_ptr grad_t) ->
  (forall s, grad_scale_ptr = Some s -> valid_in kFloat s) ->
  valid_in kDouble beta2 ->
  not_negative beta2 ->
  SFleb beta2 (one kDouble) = true ->
  d < numel param_t ->
  data_ptr exp_avg_sq_t !! d = Some v ->
  not_negative v ->
  data_ptr max_exp_avg_sq_t !! d = Some a ->
  not_negative a ->
  let post :=
    fused_adam_kernel std_pow k shards param_t grad_t exp_avg_t exp_avg_sq_t
      max_exp_avg_sq_t state_step lr beta1 beta2 weight_decay eps true maximize
      grad_scale_ptr adam_mode in
  exists m, max_exp_avg_sq post !! d = Some m /\ not_negative m.
Proof.
  intros Hp H1 H2 H3 H4 H5 Hg Hs Hb Hb0 Hb1 Hd Hv Hv0 Ha Ha0 post.
  destruct (fused_adam_kernel_second_moment_sign std_pow k shards param_t grad_t exp_avg_t
              exp_avg_sq_t max_exp_avg_sq_t state_step lr beta1 beta2 weight_decay eps true
              maximize grad_scale_ptr adam_mode d v Hp H1 H2 H3 H4 ltac:(done) Hg Hs Hb Hb0
              Hb1 Hd Hv Hv0) as (v' & Hv' & Hv'0).
  fold post in Hv'.
  destruct (fused_adam_kernel_ams std_pow k shards param_t grad_t exp_avg_t exp_avg_sq_t
              max_exp_avg_sq_t state_step lr beta1 beta2 weight_decay eps maximize
              grad_scale_ptr adam_mode d Hp H1 H4 H3 H5 Hs Hd)
    as (w & a' & mx & Hmx & _ & Hw & Ha' & Hm).
  simpl in Ha'. rewrite Ha in Ha'. injection Ha' as <-.
  fold post in Hw, Hm. rewrite Hm. eexists. split; [reflexivity|].
  destruct (max_selects mx (to_op (scalar_type param_t) a) w Hmx) as [-> | ->].
  - unfold to_st, to_op. by do 2 apply convert_sign.
  - rewrite Hw in Hv'. injection Hv' as ->. exact Hv'0.
Qed.

(** ** Maximizing with a gradient scale *)

Lemma binary_round_aux_opp prec emax s m e l :
  binary_round_aux prec emax (negb s) m e l = SFopp (binary_round_aux prec emax s m e l).
Proof.
  unfold binary_round_aux.
  destruct (shr_fexp prec emax m e l) as [mrs' e'].
  destruct (shr_fexp prec emax _ e' loc_Exact) as [mrs'' e''].
  destruct (shr_m mrs''); try reflexivity.
  by destruct (e'' <=? emax - prec)%Z.
Qed.

Lemma fdiv_opp f x y : fdiv f (fneg x) y = fneg (fdiv f x y).
Proof.
  unfold fdiv, fneg.
  destruct x as [sx|sx| |sx mx ex], y as [sy|sy| |sy my ey]; simpl; try reflexivity;
    try (by destruct sx, sy).
  destruct (SFdiv_core_binary _ _ _ _ _ _) as [[mz ez] lz].
  rewrite <- binary_round_aux_opp. by destruct sx, sy.
Qed.

Lemma store_fmap (f : spec_float -> spec_float) (v l : list spec_float) i :
  store (f <$> v) (f <$> l) i = f <$> store v l i.
Proof.
  unfold store. revert i. induction v as [|x v IH]; intros i; simpl; [reflexivity|].
  by rewrite IH, list_fmap_insert.
Qed.

Lemma Forall_store (P : spec_float -> Prop) (v l : list spec_float) i :
  Forall P v -> Forall P l -> Forall P (store v l i).
Proof.
  unfold store. intros Hv. revert i.
  induction Hv as [|x v Hx Hv IH]; intros i Hl; simpl; [exact Hl|].
  apply Forall_insert; [by apply IH|exact Hx].
Qed.

Lemma length_store (v l : list spec_float) i : length (store v l i) = length l.
Proof. apply length_inserts. Qed.

Lemma zip_with_broadcast_r (f : spec_float -> spec_float -> spec_float) (l : list spec_float)
    w c :
  length l <= w -> zip_with f l (broadcast w c) = (fun x => f x c) <$> l.
Proof. intros. unfold broadcast. by rewrite zip_with_replicate_r. Qed.

Lemma length_loadu_le w (l : list spec_float) i : length (loadu w l i) <= w.
Proof. unfold loadu. rewrite length_take. lia. Qed.

Section WideNegScaled.
Variables (w : nat) (t : ScalarType) (mode : ADAM_MODE).
Variables (lr ss c1 c2 bcs eps wd b2 : spec_float) (ams : bool).
Hypothesis t_wide : opmath_type t = t.

Lemma Wide_unscaled_negated_chunk (G : list spec_float) c i :
  zip_with (fdiv (format_of t)) (loadu w (fneg <$> G) i) (broadcast w c)
  = fneg <$> zip_with (fdiv (format_of t)) (loadu w G i) (broadcast w c).
Proof.
  rewrite loadu_fmap, !zip_with_broadcast_r
    by (rewrite ?length_fmap; apply length_loadu_le).
  rewrite <- !list_fmap_compose. apply list_fmap_ext. intros _ x _. simpl. apply fdiv_opp.
Qed.

Lemma Wide_negated_register (X : list spec_float) :
  length X <= w -> Forall (valid_in t) X ->
  zip_with (fmul (format_of t)) X (broadcast w (minus_one (format_of t))) = fneg <$> X.
Proof.
  intros Hl HX. rewrite zip_with_broadcast_r by exact Hl.
  apply Forall_fmap_ext_1. eapply Forall_impl; [exact HX|].
  intros x Hx. simpl. rewrite <- t_wide. apply fmul_minus_one. by rewrite t_wide.
Qed.

Lemma Forall_unscaled (G : list spec_float) c i :
  Forall (valid_in t) G -> valid_in t c ->
  Forall (valid_in t) (zip_with (fdiv (format_of t)) (loadu w G i) (broadcast w c)).
Proof.
  intros HG Hc. apply Forall_zip_with_op.
  - intros x y Hx Hy. by apply fdiv_valid.
  - by apply Forall_loadu.
  - by apply Forall_broadcast.
Qed.

Lemma Wide_vec_body_negated scale n i st st' :
  (forall s, scale = Some s -> valid_in kFloat s) ->
  negated_grads t n st st' ->
  negated_grads t n
    (Wide.vec_body w t mode lr ss c1 c2 bcs eps wd b2 ams true scale i st)
    (Wide.vec_body w t mode lr ss c1 c2 bcs eps wd b2 ams false scale i st').
Proof.
  intros Hs (Hn & HG & ->). unfold Wide.vec_body, Wide.vec_grad. simpl.
  destruct scale as [s|].
  - pose proof (convert_float_valid t s t_wide (Hs s eq_refl)) as Hc.
    rewrite Wide_unscaled_negated_chunk.
    rewrite Wide_negated_register
      by (first [ rewrite length_zip_with; pose proof (length_loadu_le w (grad st) i); lia
                | by apply Forall_unscaled ]).
    rewrite store_fmap.
    destruct (Wide.vec_weight_decay _ _ _ _ _ _ _) as [gv pv].
    change (set_grad (set_grad st (fneg <$> grad st)) ?X) with (set_grad st X).
    rewrite !Wide_vec_update_set_grad.
    split; [|split]; simpl; [by rewrite length_store| |reflexivity].
    apply Forall_store; [by apply Forall_unscaled|exact HG].
  - rewrite Wide_negated_register
      by (first [ apply length_loadu_le | by apply Forall_loadu ]).
    rewrite <- loadu_fmap.
    destruct (Wide.vec_weight_decay _ _ _ _ _ _ _) as [gv pv].
    rewrite Wide_vec_update_set_grad.
    split; [|split]; simpl; by rewrite Wide_vec_update_grad.
Qed.

Lemma Wide_tail_body_negated scale n i st st' :
  (forall s, scale = Some s -> valid_in kFloat s) ->
  i < n ->
  negated_grads t n st st' ->
  negated_grads t n
    (Wide.tail_body t mode lr ss c1 c2 bcs eps wd b2 ams true scale i st)
    (Wide.tail_body t mode lr ss c1 c2 bcs eps wd b2 ams false scale i st').
Proof.
  intros Hs Hin (Hn & HG & ->). assert (i < length (grad st)) as Hi by lia.
  unfold Wide.tail_body, Wide.tail_grad. simpl.
  rewrite (list_lookup_total_fmap fneg (grad st) i Hi).
  destruct scale as [s|].
  - pose proof (convert_float_valid t s t_wide (Hs s eq_refl)) as Hc.
    rewrite fdiv_opp, <- list_fmap_insert.
    change (set_grad (set_grad st (fneg <$> grad st)) ?X) with (set_grad st X).
    rewrite !Wide_tail_weight_decay_set_grad.
    destruct (Wide.tail_weight_decay _ _ _ _ _ _ _) as [gv s'] eqn:Hwd. simpl.
    rewrite !Wide_tail_update_set_grad.
    split; [|split]; simpl; [by rewrite length_insert| |reflexivity].
    apply Forall_insert; [exact HG|].
    apply fdiv_valid; [|exact Hc].
    apply (Forall_lookup_1 _ _ i _ HG). by apply list_lookup_lookup_total_lt.
  - rewrite Wide_tail_weight_decay_set_grad.
    destruct (Wide.tail_weight_decay _ _ _ _ _ _ _) as [gv s'] eqn:Hwd. simpl.
    rewrite Wide_tail_update_set_grad.
    assert (grad (Wide.tail_update t ss c1 c2 bcs eps b2 ams i gv s') = grad st) as Hg.
    { rewrite Wide_tail_update_grad. change s' with (gv, s').2. rewrite <- Hwd.
      by rewrite Wide_tail_weight_decay_grad. }
    split; [|split]; simpl; by rewrite Hg.
Qed.
End WideNegScaled.

Section NarrowNegScaled.
Variables (h : nat) (t : ScalarType) (mode : ADAM_MODE).
Variables (lr ss c1 c2 bcs eps wd b2 : spec_float) (ams : bool).
Hypothesis t_narrow : t = kHalf \/ t = kBFloat16.

Lemma to_opmath_opp x : Narrow.to_opmath t (fneg x) = fneg (Narrow.to_opmath t x).
Proof. apply convert_opp. Qed.

Lemma to_scalar_opp x : Narrow.to_scalar t (fneg x) = fneg (Narrow.to_scalar t x).
Proof. apply convert_opp. Qed.

Lemma to_scalar_valid x : valid_in t (Narrow.to_scalar t x).
Proof. destruct t_narrow as [-> | ->]; by apply round_to_valid. Qed.

Lemma fmap_to_opmath_opp (l : list spec_float) :
  Narrow.to_opmath t <$> (fneg <$> l) = fneg <$> (Narrow.to_opmath t <$> l).
Proof.
  rewrite <- !list_fmap_compose. apply list_fmap_ext. intros _ x _. simpl.
  apply to_opmath_opp.
Qed.

Lemma fmap_to_scalar_opp (l : list spec_float) :
  Narrow.to_scalar t <$> (fneg <$> l) = fneg <$> (Narrow.to_scalar t <$> l).
Proof.
  rewrite <- !list_fmap_compose. apply list_fmap_ext. intros _ x _. simpl.
  apply to_scalar_opp.
Qed.

Lemma Narrow_unscaled_negated (X : list spec_float) c :
  length X <= h ->
  zip_with (fdiv binary32) (fneg <$> X) (broadcast h c)
  = fneg <$> zip_with (fdiv binary32) X (broadcast h c).
Proof.
  intros Hl. rewrite !zip_with_broadcast_r by (by rewrite ?length_fmap).
  rewrite <- !list_fmap_compose. apply list_fmap_ext. intros _ x _. simpl. apply fdiv_opp.
Qed.

Lemma Narrow_negated_register (X : list spec_float) :
  length X <= h -> Forall (valid_in kFloat) X ->
  zip_with (fmul binary32) X (broadcast h (minus_one binary32)) = fneg <$> X.
Proof.
  intros Hl HX. rewrite zip_with_broadcast_r by exact Hl.
  apply Forall_fmap_ext_1. eapply Forall_impl; [exact HX|].
  intros x Hx. simpl. by apply (fmul_minus_one kFloat).
Qed.

Lemma Narrow_vec_body_negated scale n i st st' :
  (forall s, scale = Some s -> valid_in kFloat s) ->
  negated_grads t n st st' ->
  negated_grads t n
    (Narrow.vec_body h t mode lr ss c1 c2 bcs eps wd b2 ams true scale i st)
    (Narrow.vec_body h t mode lr ss c1 c2 bcs eps wd b2 ams false scale i st').
Proof.
  intros Hs (Hn & HG & ->). unfold Narrow.vec_body, Narrow.vec_grad. simpl param. simpl grad.
  destruct (Narrow.convert_to_float h t (loadu (2 * h) (param st) i)) as [p1 p2].
  unfold Narrow.convert_to_float.
  rewrite loadu_fmap, <- fmap_take, <- fmap_drop, !fmap_to_opmath_opp.
  set (g1 := Narrow.to_opmath t <$> take h (loadu (2 * h) (grad st) i)).
  set (g2 := Narrow.to_opmath t <$> drop h (loadu (2 * h) (grad st) i)).
  assert (length g1 <= h) as Hl1
    by (unfold g1; rewrite length_fmap, length_take; lia).
  assert (length g2 <= h) as Hl2.
  { unfold g2. rewrite length_fmap, length_drop.
    pose proof (length_loadu_le (2 * h) (grad st) i). lia. }
  assert (Forall (valid_in kFloat) g1) as Hv1 by (by apply Forall_to_opmath).
  assert (Forall (valid_in kFloat) g2) as Hv2 by (by apply Forall_to_opmath).
  destruct scale as [s|].
  - pose proof (Hs s eq_refl) as Hc.
    rewrite !Narrow_unscaled_negated by assumption.
    rewrite !Narrow_negated_register
      by (first [ rewrite length_zip_with; lia
                | apply Forall_zip_with_op;
                  [by intros; apply fdiv_float|assumption|by apply Forall_broadcast] ]).
    unfold Narrow.convert_from_float.
    rewrite !fmap_to_scalar_opp, <- (fmap_app fneg), store_fmap.
    destruct (Narrow.vec_weight_decay _ _ _ _ _ _ _ _) as [[[g1' g2'] p1'] p2'].
    change (set_grad (set_grad st (fneg <$> grad st)) ?X) with (set_grad st X).
    rewrite !Narrow_vec_update_set_grad.
    split; [|split]; simpl; [by rewrite length_store| |reflexivity].
    apply Forall_store; [|exact HG].
    apply Forall_app; split; apply Forall_fmap, Forall_true; intros x; apply to_scalar_valid.
  - rewrite !Narrow_negated_register by assumption.
    destruct (Narrow.vec_weight_decay _ _ _ _ _ _ _ _) as [[[g1' g2'] p1'] p2'].
    rewrite Narrow_vec_update_set_grad.
    split; [|split]; simpl; by rewrite Narrow_vec_update_grad.
Qed.

Lemma Narrow_tail_body_negated scale n i st st' :
  (forall s, scale = Some s -> valid_in kFloat s) ->
  i < n ->
  negated_grads t n st st' ->
  negated_grads t n
    (Narrow.tail_body t mode lr ss c1 c2 bcs eps wd b2 ams true scale i st)
    (Narrow.tail_body t mode lr ss c1 c2 bcs eps wd b2 ams false scale i st').
Proof.
  intros Hs Hin (Hn & HG & ->). assert (i < length (grad st)) as Hi by lia.
  unfold Narrow.tail_body, Narrow.tail_grad. simpl param. simpl grad.
  rewrite (list_lookup_total_fmap fneg (grad st) i Hi), to_opmath_opp.
  destruct scale as [s|].
  - rewrite fdiv_opp, to_scalar_opp, <- list_fmap_insert.
    change (set_grad (set_grad st (fneg <$> grad st)) ?X) with (set_grad st X).
    change (Narrow.tail_weight_decay t mode lr wd i ?g ?p (set_grad st ?x))
      with (Narrow.tail_weight_decay t mode lr wd i g p st).
    destruct (Narrow.tail_weight_decay _ _ _ _ _ _ _ _) as [gv pv].
    rewrite !Narrow_tail_update_set_grad.
    split; [|split]; simpl; [by rewrite length_insert| |reflexivity].
    apply Forall_insert; [exact HG|apply to_scalar_valid].
  - change (Narrow.tail_weight_decay t mode lr wd i ?g ?p (set_grad st ?x))
      with (Narrow.tail_weight_decay t mode lr wd i g p st).
    destruct (Narrow.tail_weight_decay _ _ _ _ _ _ _ _) as [gv pv].
    rewrite Narrow_tail_update_set_grad.
    split; [|split]; simpl; by rewrite Narrow_tail_update_grad.
Qed.
End NarrowNegScaled.

Lemma adam_math_negated k scalar_t adam_mode lr sc eps weight_decay beta2 amsgrad
    grad_scale_ptr n base size st st' :
  (forall s, grad_scale_ptr = Some s -> valid_in kFloat s) ->
  base + size <= n ->
  negated_grads scalar_t n st st' ->
  negated_grads scalar_t n
    (adam_math k scalar_t adam_mode lr sc eps weight_decay beta2 amsgrad true
       grad_scale_ptr base size st)
    (adam_math k scalar_t adam_mode lr sc eps weight_decay beta2 amsgrad false
       grad_scale_ptr base size st').
Proof.
  intros Hs Hn Hst. unfold adam_math, Wide.adam_math, Narrow.adam_math.
  destruct scalar_t; apply two_loops_rel; try exact Hst; intros i s s' **;
    first [ apply Wide_vec_body_negated | apply Wide_tail_body_negated
          | apply Narrow_vec_body_negated | apply Narrow_tail_body_negated ];
    first [ assumption | lia | by left | by right | reflexivity ].
Qed.

(** X10: maximizing is minimizing the negated gradients, with a gradient
    scale as without one: the two calls leave the same [param], [exp_avg],
    [exp_avg_sq] and [max_exp_avg_sq], and gradients that are the
    negations of each other. *)
Theorem maximize_symmetry_scaled std_pow k shards
    param_t grad_t exp_avg_t exp_avg_sq_t max_exp_avg_sq_t state_step
    lr beta1 beta2 weight_decay eps amsgrad grad_scale_ptr adam_mode :
  is_partition 0 (numel param_t) shards ->
  numel param_t <= length (data_ptr param_t) ->
  numel param_t <= length (data_ptr exp_avg_t) ->
  numel param_t <= length (data_ptr exp_avg_sq_t) ->
  numel param_t <= length (data_ptr grad_t) ->
  (amsgrad = true -> numel param_t <= length (data_ptr max_exp_avg_sq_t)) ->
  Forall (valid_in (scalar_type param_t)) (data_ptr grad_t) ->
  (forall s, grad_scale_ptr = Some s -> valid_in kFloat s) ->
  let maximized :=
    fused_adam_kernel std_pow k shards param_t grad_t exp_avg_t exp_avg_sq_t
      max_exp_avg_sq_t state_step lr beta1 beta2 weight_decay eps amsgrad true
      grad_scale_ptr adam_mode in
  let negated :=
    fused_adam_kernel std_pow k shards param_t (neg_tensor grad_t) exp_avg_t exp_avg_sq_t
      max_exp_avg_sq_t state_step lr beta1 beta2 weight_decay eps amsgrad false
      grad_scale_ptr adam_mode in
  exp_avg maximized = exp_avg negated /\
  exp_avg_sq maximized = exp_avg_sq negated /\
  param maximized = param negated /\
  max_exp_avg_sq maximized = max_exp_avg_sq negated /\
  grad negated = fneg <$> grad maximized.
Proof.
  intros Hp _ _ _ Hlen _ HG Hs maximized negated. unfold maximized, negated.
  rewrite !fused_adam_kernel_shards.
  assert (negated_grads (scalar_type param_t) (numel param_t)
    (parallel_for shards
       (fun begin end_ =>
          adam_math k (scalar_type param_t) adam_mode lr
            (step_scalars std_pow (scalar_type param_t) (item_float state_step)
               lr beta1 beta2)
            eps weight_decay beta2 amsgrad true grad_scale_ptr begin (end_ - begin))
       (initial amsgrad param_t grad_t exp_avg_t exp_avg_sq_t max_exp_avg_sq_t))
    (parallel_for shards
       (fun begin end_ =>
          adam_math k (scalar_type param_t) adam_mode lr
            (step_scalars std_pow (scalar_type param_t) (item_float state_step)
               lr beta1 beta2)
            eps weight_decay beta2 amsgrad false grad_scale_ptr begin (end_ - begin))
       (initial amsgrad param_t (neg_tensor grad_t) exp_avg_t exp_avg_sq_t
          max_exp_avg_sq_t)))
    as (_ & _ & ->).
  { eapply parallel_for_rel; [exact Hp| |by repeat split].
    intros lo hi s s' Hlohi Hst. apply adam_math_negated; [exact Hs|lia|exact Hst]. }
  simpl. destruct amsgrad; simpl; by repeat split.
Qed.

(** ** The first moment of the second half of a register *)

Lemma lookup_take_loadu_lane h W (l : list spec_float) i n :
  n < h -> h <= W -> i + W <= length l ->
  take h (loadu W l i) !! n = Some (l !!! (i + n)).
Proof.
  intros Hn HW Hl. replace n with (i + n - i) at 1 by lia.
  apply lookup_take_loadu; lia.
Qed.

Lemma lookup_drop_loadu_lane h W (l : list spec_float) i n :
  h + n < W -> i + W <= length l ->
  drop h (loadu W l i) !! n = Some (l !!! (i + h + n)).
Proof.
  intros Hn Hl. replace n with (i + h + n - i - h) at 1 by lia.
  apply lookup_drop_loadu; lia.
Qed.

Lemma lookup_store_lane (v buf : list spec_float) i n x :
  i + n < length buf -> v !! n = Some x -> store v buf i !! (i + n) = Some x.
Proof.
  intros Hl Hx. apply lookup_store; [lia|lia|]. by replace (i + n - i) with n by lia.
Qed.

Lemma lookup_app_lane (v1 v2 : list spec_float) h n x :
  length v1 = h -> v2 !! n = Some x -> (v1 ++ v2) !! (h + n) = Some x.
Proof.
  intros Hh Hx. apply (lookup_app_Some_r _ _ h); [exact Hh|lia|].
  by replace (h + n - h) with n by lia.
Qed.

Ltac lane3 :=
  repeat first
    [ apply lookup_zip_with_Some2 | apply lookup_fmap_Some2
    | apply lookup_broadcast | apply lookup_take_loadu_lane | apply lookup_drop_loadu_lane ];
  try lia.

Section SecondHalf.
Variables (h : nat) (t : ScalarType) (mode : ADAM_MODE).
Variables (lr ss c1 c2 bcs eps wd b2 : spec_float) (ams mx : bool) (scale : option spec_float).
Hypothesis t_narrow : t = kHalf \/ t = kBFloat16.

Lemma Narrow_vec_body_second_half i l st :
  enough ams (i + 2 * h) st ->
  (forall s, scale = Some s -> valid_in kFloat s) ->
  l < h ->
  exp_avg (Narrow.vec_body h t mode lr ss c1 c2 bcs eps wd b2 ams mx scale i st)
    !! (i + (h + l))
  = exp_avg
      (Narrow.tail_body t mode lr ss c1 c2 bcs eps wd b2 ams mx scale 0
         (mkBufs [param st !!! (i + l)] [exp_avg st !!! (i + h + l)]
            [exp_avg_sq st !!! (i + h + l)] [grad st !!! (i + l)]
            [max_exp_avg_sq st !!! (i + h + l)])) !! 0.
Proof.
  intros (Hp & Hm & Hv & Hg & Ha) Hs Hl.
  unfold Narrow.vec_body, Narrow.vec_grad, Narrow.vec_weight_decay, Narrow.vec_update.
  unfold Narrow.convert_to_float, Narrow.convert_from_float.
  unfold Narrow.tail_body, Narrow.tail_grad, Narrow.tail_weight_decay, Narrow.tail_update.
  revert Hs.
  destruct scale as [s|]; intros Hs; try (pose proof (Hs s eq_refl) as Hs'; clear Hs);
    destruct mx, (ne_zero wd), mode, ams; simpl;
    try specialize (Ha eq_refl);
    rewrite ?(fneg_float_lane (Narrow.to_opmath t (grad st !!! (i + l))))
      by (by apply to_opmath_float);
    rewrite ?(fneg_float_lane (fdiv binary32 (Narrow.to_opmath t (grad st !!! (i + l))) s))
      by (apply fdiv_float; [by apply to_opmath_float|exact Hs']);
    (apply lookup_store_lane; [lia|]);
    (apply (lookup_app_lane _ _ h); [by lanes|]);
    by lane3.
Qed.
End SecondHalf.

Lemma for_loop_split (f : nat -> Bufs -> Bufs) w a b d st :
  for_loop f w (a + b) d st = for_loop f w b (d + a * w) (for_loop f w a d st).
Proof.
  revert d st. induction a as [|a IH]; intros d st; simpl.
  - by rewrite Nat.add_0_r.
  - rewrite IH. f_equal. lia.
Qed.

Lemma elem_state_frame st st' (j j' : nat) :
  (forall b, get b st' !! j = get b st !! j) ->
  (forall b, get b st' !! j' = get b st !! j') ->
  mkBufs [param st' !!! j'] [exp_avg st' !!! j] [exp_avg_sq st' !!! j] [grad st' !!! j']
    [max_exp_avg_sq st' !!! j]
  = mkBufs [param st !!! j'] [exp_avg st !!! j] [exp_avg_sq st !!! j] [grad st !!! j']
      [max_exp_avg_sq st !!! j].
Proof.
  intros H H'. rewrite !list_lookup_total_alt.
  pose proof (H' Param). pose proof (H ExpAvg). pose proof (H ExpAvgSq).
  pose proof (H' Grad). pose proof (H MaxExpAvgSq). simpl in *. congruence.
Qed.

(** In the shard [[base, base + size)] of [Half] or [BFloat16] elements,
    the element in the second half of the register [q] gets the first
    moment of the gradient that is half a register before it. *)
Lemma adam_math_second_half k scalar_t adam_mode lr sc eps weight_decay beta2 amsgrad
    maximize grad_scale_ptr base size q l st :
  scalar_t = kHalf \/ scalar_t = kBFloat16 ->
  enough amsgrad (base + size) st ->
  (forall s, grad_scale_ptr = Some s -> valid_in kFloat s) ->
  q < size / (2 * Vec_size k kFloat) ->
  l < Vec_size k kFloat ->
  let j := base + q * (2 * Vec_size k kFloat) + Vec_size k kFloat + l in
  exp_avg (adam_math k scalar_t adam_mode lr sc eps weight_decay beta2 amsgrad maximize
             grad_scale_ptr base size st) !! j
  = exp_avg
      (tail_step scalar_t adam_mode lr sc eps weight_decay beta2 amsgrad maximize
         grad_scale_ptr
         (mkBufs [param st !!! (j - Vec_size k kFloat)] [exp_avg st !!! j]
            [exp_avg_sq st !!! j] [grad st !!! (j - Vec_size k kFloat)]
            [max_exp_avg_sq st !!! j])) !! 0.
Proof.
  intros Ht Hroom Hs Hq Hl j.
  set (h := Vec_size k kFloat) in *. set (w := 2 * h) in *.
  assert (0 < w) as Hw by (unfold w; lia).
  pose proof (Nat.div_mod_eq size w) as Hdm.
  pose proof (Nat.Div0.mod_le size w) as Hle.
  assert (q * w + w <= size / w * w) as Hqw by nia.
  assert (size / w * w <= size) as Hnw by lia.
  pose (T := tail_step scalar_t adam_mode lr sc eps weight_decay beta2 amsgrad maximize
               grad_scale_ptr).
  pose (seg := elem_seg (good_elem scalar_t grad_scale_ptr) narrow_sel T).
  assert (forall i s, enough amsgrad (i + w) s ->
            seg i (i + w) s
              (Narrow.vec_body h scalar_t adam_mode
                 (convert kDouble (opmath_type scalar_t) lr) (step_size sc)
                 (exp_avg_grad_coefficient sc) (exp_avg_sq_grad_coefficient sc)
                 (bias_correction2_sqrt sc) (convert kDouble (opmath_type scalar_t) eps)
                 (convert kDouble (opmath_type scalar_t) weight_decay)
                 (convert kDouble (opmath_type scalar_t) beta2)
                 amsgrad maximize grad_scale_ptr i s)) as Hvec.
  { intros i s Hi. unfold seg, T, tail_step.
    destruct Ht as [-> | ->]; apply Narrow_vec_body_elem;
      first [by left | by right | exact Hi]. }
  assert (forall i s, enough amsgrad (i + 1) s ->
            seg i (i + 1) s
              (Narrow.tail_body scalar_t adam_mode
                 (convert kDouble (opmath_type scalar_t) lr) (step_size sc)
                 (exp_avg_grad_coefficient sc) (exp_avg_sq_grad_coefficient sc)
                 (bias_correction2_sqrt sc) (convert kDouble (opmath_type scalar_t) eps)
                 (convert kDouble (opmath_type scalar_t) weight_decay)
                 (convert kDouble (opmath_type scalar_t) beta2)
                 amsgrad maximize grad_scale_ptr i s)) as Htail.
  { intros i s Hi. unfold seg, T, tail_step.
    destruct Ht as [-> | ->]; apply Narrow_tail_body_elem;
      first [by left | by right | exact Hi]. }
  assert (adam_math k scalar_t adam_mode lr sc eps weight_decay beta2 amsgrad maximize
            grad_scale_ptr base size st
          = two_loops w
              (Narrow.vec_body h scalar_t adam_mode
                 (convert kDouble (opmath_type scalar_t) lr) (step_size sc)
                 (exp_avg_grad_coefficient sc) (exp_avg_sq_grad_coefficient sc)
                 (bias_correction2_sqrt sc) (convert kDouble (opmath_type scalar_t) eps)
                 (convert kDouble (opmath_type scalar_t) weight_decay)
                 (convert kDouble (opmath_type scalar_t) beta2)
                 amsgrad maximize grad_scale_ptr)
              (Narrow.tail_body scalar_t adam_mode
                 (convert kDouble (opmath_type scalar_t) lr) (step_size sc)
                 (exp_avg_grad_coefficient sc) (exp_avg_sq_grad_coefficient sc)
                 (bias_correction2_sqrt sc) (convert kDouble (opmath_type scalar_t) eps)
                 (convert kDouble (opmath_type scalar_t) weight_decay)
                 (convert kDouble (opmath_type scalar_t) beta2)
                 amsgrad maximize grad_scale_ptr)
              base size st) as ->.
  { unfold adam_math, Narrow.adam_math. by destruct Ht as [-> | ->]. }
  unfold two_loops.
  set (V := fun d => Narrow.vec_body h scalar_t adam_mode _ _ _ _ _ _ _ _ amsgrad maximize
                       grad_scale_ptr (base + d)).
  set (L := fun d => Narrow.tail_body scalar_t adam_mode _ _ _ _ _ _ _ _ amsgrad maximize
                       grad_scale_ptr (base + d)).
  replace (size / w) with (q + (1 + (size / w - q - 1))) by lia.
  rewrite !for_loop_split.
  set (st1 := for_loop V w q 0 st).
  set (st2 := for_loop V w 1 (0 + q * w) st1).
  set (st3 := for_loop V w (size / w - q - 1) (0 + q * w + 1 * w) st2).
  (* the registers before *)
  assert (seg (base + 0) (base + 0 + q * w) st st1) as H1.
  { apply (for_loop_seg seg (enough amsgrad));
      [ apply elem_seg_refl | apply elem_seg_trans | apply elem_seg_lengths
      | apply enough_le | apply enough_same_lengths | | ].
    - intros i s Hi. apply Hvec. exact Hi.
    - eapply enough_le; [|exact Hroom]. lia. }
  assert (enough amsgrad (base + size) st1) as Hr1
    by (eapply enough_same_lengths; [eapply elem_seg_lengths, H1|exact Hroom]).
  (* the registers after *)
  assert (seg (base + (0 + q * w + 1 * w))
            (base + (0 + q * w + 1 * w) + (size / w - q - 1) * w) st2 st3) as H3.
  { assert (same_lengths st1 st2) as Hl12.
    { unfold st2. simpl. eapply elem_seg_lengths. apply Hvec.
      eapply enough_le; [|exact Hr1]. lia. }
    apply (for_loop_seg seg (enough amsgrad));
      [ apply elem_seg_refl | apply elem_seg_trans | apply elem_seg_lengths
      | apply enough_le | apply enough_same_lengths | | ].
    - intros i s Hi. apply Hvec. exact Hi.
    - eapply enough_same_lengths; [exact Hl12|].
      eapply enough_le; [|exact Hr1]. nia. }
  assert (enough amsgrad (base + size) st3) as Hr3.
  { eapply enough_same_lengths; [eapply elem_seg_lengths, H3|].
    eapply enough_same_lengths; [|exact Hr1].
    unfold st2. simpl. eapply elem_seg_lengths. apply Hvec.
    eapply enough_le; [|exact Hr1]. lia. }
  (* the tail *)
  assert (seg (base + (size - size mod w)) (base + (size - size mod w) + size mod w * 1)
            st3 (for_loop L 1 (size mod w) (size - size mod w) st3)) as H4.
  { apply (for_loop_seg seg (enough amsgrad));
      [ apply elem_seg_refl | apply elem_seg_trans | apply elem_seg_lengths
      | apply enough_le | apply enough_same_lengths | | ].
    - intros i s Hi. apply Htail. exact Hi.
    - eapply enough_le; [|exact Hr3]. lia. }
  destruct H1 as (_ & _ & Hout1). destruct H3 as (_ & _ & Hout3).
  destruct H4 as (_ & _ & Hout4).
  assert (j = base + q * w + (h + l)) as Hj by (unfold j; lia).
  pose proof (Hout4 j ExpAvg ltac:(unfold w in *; lia)) as E4.
  pose proof (Hout3 j ExpAvg ltac:(unfold w in *; lia)) as E3.
  simpl get in E4, E3. rewrite E4, E3. clear E4 E3.
  unfold st2. simpl for_loop. unfold V at 1.
  replace (base + (0 + q * w)) with (base + q * w) by lia.
  rewrite Hj.
  rewrite (Narrow_vec_body_second_half h scalar_t adam_mode _ _ _ _ _ _ _ _ amsgrad maximize
             grad_scale_ptr Ht (base + q * w) l st1);
    [ | eapply enough_le; [|exact Hr1]; unfold w in *; lia | exact Hs | exact Hl ].
  replace (base + q * w + (h + l) - h) with (base + q * w + l) by lia.
  rewrite (elem_state_frame st st1 (base + q * w + h + l) (base + q * w + l));
    [ | intros b; apply Hout1; unfold w in *; lia | intros b; apply Hout1; unfold w in *; lia ].
  replace (base + q * w + (h + l)) with (base + q * w + h + l) by lia.
  unfold tail_step. by destruct Ht as [-> | ->].
Qed.

Lemma is_partition_le b n shards : is_partition b n shards -> b <= n.
Proof.
  revert b. induction shards as [|[b' e] shards IH]; simpl; intros b H; [lia|].
  destruct H as (-> & Hbe & Hen & Hrest). lia.
Qed.

Lemma is_partition_lookup a n shards s b e :
  is_partition a n shards -> shards !! s = Some (b, e) ->
  is_partition a b (take s shards) /\ is_partition e n (drop (S s) shards) /\
  a <= b /\ b <= e /\ e <= n.
Proof.
  revert a s. induction shards as [|[b' e'] shards IH]; intros a s Hp Hs; [done|].
  destruct Hp as (-> & Hbe & Hen & Hrest).
  destruct s as [|s]; simpl in *.
  - injection Hs as -> ->. repeat split; try lia. exact Hrest.
  - destruct (IH e' s Hrest Hs) as (H1 & H2 & H3 & H4 & H5).
    repeat split; try assumption; lia.
Qed.

Lemma parallel_for_lookup shards (f : nat -> nat -> Bufs -> Bufs) s b e st :
  shards !! s = Some (b, e) ->
  parallel_for shards f st
  = parallel_for (drop (S s) shards) f (f b e (parallel_for (take s shards) f st)).
Proof.
  intros Hs. rewrite <- (take_drop_middle shards s (b, e) Hs) at 1.
  unfold parallel_for. by rewrite fold_left_app.
Qed.

(** X11: in a shard of [Half] or [BFloat16] elements, the element in the
    second half of a full register gets the first moment that the tail
    loop computes from its own first moment and from the gradient (and,
    for the weight decay of [ORIGINAL], the parameter) of the element half
    a register before it. *)
Theorem second_half_first_moment std_pow k shards
    param_t grad_t exp_avg_t exp_avg_sq_t max_exp_avg_sq_t state_step
    lr beta1 beta2 weight_decay eps amsgrad maximize grad_scale_ptr adam_mode
    (s b e q l : nat) :
  scalar_type param_t = kHalf \/ scalar_type param_t = kBFloat16 ->
  is_partition 0 (numel param_t) shards ->
  numel param_t <= length (data_ptr param_t) ->
  numel param_t <= length (data_ptr exp_avg_t) ->
  numel param_t <= length (data_ptr exp_avg_sq_t) ->
  numel param_t <= length (data_ptr grad_t) ->
  (amsgrad = true -> numel param_t <= length (data_ptr max_exp_avg_sq_t)) ->
  (forall c, grad_scale_ptr = Some c -> valid_in kFloat c) ->
  shards !! s = Some (b, e) ->
  q < (e - b) / (2 * Vec_size k kFloat) ->
  l < Vec_size k kFloat ->
  let j := b + q * (2 * Vec_size k kFloat) + Vec_size k kFloat + l in
  let st0 := initial amsgrad param_t grad_t exp_avg_t exp_avg_sq_t max_exp_avg_sq_t in
  let post :=
    fused_adam_kernel std_pow k shards param_t grad_t exp_avg_t exp_avg_sq_t
      max_exp_avg_sq_t state_step lr beta1 beta2 weight_decay eps amsgrad maximize
      grad_scale_ptr adam_mode in
  exp_avg post !! j
  = exp_avg
      (tail_step (scalar_type param_t) adam_mode lr
         (step_scalars std_pow (scalar_type param_t) (item_float state_step) lr beta1 beta2)
         eps weight_decay beta2 amsgrad maximize grad_scale_ptr
         (mkBufs [param st0 !!! (j - Vec_size k kFloat)] [exp_avg st0 !!! j]
            [exp_avg_sq st0 !!! j] [grad st0 !!! (j - Vec_size k kFloat)]
            [max_exp_avg_sq st0 !!! j])) !! 0.
Proof.
  intros Ht Hp H1 H2 H3 H4 H5 Hs Hsh Hq Hl j st0 post.
  set (h := Vec_size k kFloat) in *. set (w := 2 * h) in *.
  assert (enough amsgrad (numel param_t) st0) as Hroom.
  { repeat split; try assumption. intros ->. by apply H5. }
  destruct (is_partition_lookup 0 (numel param_t) shards s b e Hp Hsh)
    as (Hpre & Hpost & _ & Hbe & Hen).
  assert (0 < w) as Hw by (unfold w; lia).
  pose proof (Nat.div_mod_eq (e - b) w) as Hdm.
  assert (q * w + w <= (e - b) / w * w) as Hqw by nia.
  assert (j < e /\ b + h <= j) as [Hje Hjb] by (unfold j, w in *; lia).
  set (sc := step_scalars std_pow (scalar_type param_t) (item_float state_step)
               lr beta1 beta2).
  set (F := fun begin end_ =>
              adam_math k (scalar_type param_t) adam_mode lr sc eps weight_decay beta2
                amsgrad maximize grad_scale_ptr begin (end_ - begin)).
  assert (forall lo hi st, lo <= hi -> enough amsgrad hi st ->
            elem_seg (good_elem (scalar_type param_t) grad_scale_ptr)
              (kernel_sel (scalar_type param_t) amsgrad)
              (tail_step (scalar_type param_t) adam_mode lr sc eps weight_decay beta2
                 amsgrad maximize grad_scale_ptr)
              lo hi st (F lo hi st)) as HF.
  { intros lo hi st Hle Hr. unfold F.
    replace hi with (lo + (hi - lo)) at 1 by lia.
    apply adam_math_elem. by replace (lo + (hi - lo)) with hi by lia. }
  assert (exp_avg post = exp_avg (parallel_for shards F st0)) as ->.
  { unfold post. rewrite fused_adam_kernel_shards. fold st0 sc F. simpl.
    by destruct amsgrad. }
  rewrite (parallel_for_lookup shards F s b e st0 Hsh).
  set (st1 := parallel_for (take s shards) F st0).
  (* the shards before *)
  assert (elem_seg (good_elem (scalar_type param_t) grad_scale_ptr)
            (kernel_sel (scalar_type param_t) amsgrad)
            (tail_step (scalar_type param_t) adam_mode lr sc eps weight_decay beta2
               amsgrad maximize grad_scale_ptr) 0 b st0 st1) as Hseg1.
  { apply (parallel_for_seg (elem_seg _ _ _) (enough amsgrad));
      [ apply elem_seg_refl | apply elem_seg_trans | apply elem_seg_lengths
      | apply enough_le | apply enough_same_lengths | exact Hpre | exact HF | ].
    eapply enough_le; [|exact Hroom]. lia. }
  assert (enough amsgrad (numel param_t) st1) as Hr1
    by (eapply enough_same_lengths; [eapply elem_seg_lengths, Hseg1|exact Hroom]).
  (* the shards after *)
  assert (enough amsgrad (numel param_t) (F b e st1)) as Hr2.
  { eapply enough_same_lengths; [|exact Hr1].
    eapply elem_seg_lengths. apply HF; [exact Hbe|]. eapply enough_le; [|exact Hr1]. lia. }
  assert (elem_seg (good_elem (scalar_type param_t) grad_scale_ptr)
            (kernel_sel (scalar_type param_t) amsgrad)
            (tail_step (scalar_type param_t) adam_mode lr sc eps weight_decay beta2
               amsgrad maximize grad_scale_ptr) e (numel param_t) (F b e st1)
            (parallel_for (drop (S s) shards) F (F b e st1))) as Hseg3.
  { apply (parallel_for_seg (elem_seg _ _ _) (enough amsgrad));
      [ apply elem_seg_refl | apply elem_seg_trans | apply elem_seg_lengths
      | apply enough_le | apply enough_same_lengths | exact Hpost | exact HF | exact Hr2 ]. }
  destruct Hseg1 as (_ & _ & Hout1). destruct Hseg3 as (_ & _ & Hout3).
  pose proof (Hout3 j ExpAvg ltac:(lia)) as E3. simpl get in E3. rewrite E3. clear E3.
  unfold F at 1.
  pose proof (adam_math_second_half k (scalar_type param_t) adam_mode lr sc eps weight_decay
                beta2 amsgrad maximize grad_scale_ptr b (e - b) q l st1 Ht) as H.
  fold h w in H. cbv zeta in H. fold j in H.
  rewrite H; [ | eapply enough_le; [|exact Hr1]; lia | exact Hs | exact Hq | exact Hl ].
  rewrite (elem_state_frame st0 st1 j (j - h));
    [ reflexivity | intros c; apply Hout1; lia | intros c; apply Hout1; lia ].
Qed.

(** ** The first half of a register and the tail *)

Section FirstHalf.
Variables (h : nat) (t : ScalarType) (mode : ADAM_MODE).
Variables (lr ss c1 c2 bcs eps wd b2 : spec_float) (ams mx : bool) (scale : option spec_float).
Hypothesis t_narrow : t = kHalf \/ t = kBFloat16.

Local Abbreviation T := (Narrow.tail_body t mode lr ss c1 c2 bcs eps wd b2 ams mx scale 0).

Lemma Narrow_vec_body_first_half i l b st :
  enough ams (i + 2 * h) st ->
  (forall s, scale = Some s -> valid_in kFloat s) ->
  l < h ->
  b ∈ wide_sel ams ->
  get b (Narrow.vec_body h t mode lr ss c1 c2 bcs eps wd b2 ams mx scale i st) !! (i + l)
  = get b (T (elem_state st (i + l))) !! 0.
Proof.
  intros (Hp & Hm & Hv & Hg & Ha) Hs Hl Hb.
  unfold Narrow.vec_body, Narrow.vec_grad, Narrow.vec_weight_decay, Narrow.vec_update.
  unfold Narrow.convert_to_float, Narrow.convert_from_float.
  unfold Narrow.tail_body, Narrow.tail_grad, Narrow.tail_weight_decay, Narrow.tail_update.
  unfold wide_sel in Hb.
  revert Hs.
  destruct scale as [s|]; intros Hs; try (pose proof (Hs s eq_refl) as Hs'; clear Hs);
    destruct mx, (ne_zero wd), mode, ams; simpl in Hb |- *;
    repeat (apply elem_of_cons in Hb as [-> | Hb]); try (by apply elem_of_nil in Hb); simpl;
    try specialize (Ha eq_refl);
    rewrite ?(fneg_float_lane (Narrow.to_opmath t (grad st !!! (i + l))))
      by (by apply to_opmath_float);
    rewrite ?(fneg_float_lane (fdiv binary32 (Narrow.to_opmath t (grad st !!! (i + l))) s))
      by (apply fdiv_float; [by apply to_opmath_float|exact Hs']);
    first [ by apply list_lookup_lookup_total_lt; lia
          | apply lookup_store_lane; [lia|]; apply lookup_app_Some_l; by lane3 ].
Qed.

Lemma Narrow_tail_body_at i b st :
  enough ams (i + 1) st ->
  (ams = false -> b <> MaxExpAvgSq) ->
  get b (Narrow.tail_body t mode lr ss c1 c2 bcs eps wd b2 ams mx scale i st) !! i
  = get b (T (elem_state st i)) !! 0.
Proof.
  intros (Hp & Hm & Hv & Hg & Ha) Hb.
  unfold Narrow.tail_body, Narrow.tail_grad, Narrow.tail_weight_decay, Narrow.tail_update.
  destruct scale as [s|], mx, (ne_zero wd), mode, ams, b; simpl;
    try (by destruct (Hb eq_refl));
    try specialize (Ha eq_refl);
    rewrite ?list_lookup_insert_eq by (rewrite ?length_insert; lia);
    rewrite ?list_lookup_total_insert_eq by (rewrite ?length_insert; lia);
    first [ reflexivity | by apply list_lookup_lookup_total_lt; lia ].
Qed.
End FirstHalf.

(** ** One iteration of a loop, one shard of a call *)

Section Isolate.
Variables (good : Bufs -> Prop) (sel : list Buf) (T : Bufs -> Bufs) (ams : bool).

Local Abbreviation seg := (elem_seg good sel T).

Lemma for_loop_seg_elem (body : nat -> Bufs -> Bufs) (w n d base : nat) (st : Bufs) :
  (forall i s, enough ams (base + i + w) s -> seg (base + i) (base + i + w) s (body i s)) ->
  enough ams (base + d + n * w) st ->
  seg (base + d) (base + d + n * w) st (for_loop body w n d st).
Proof.
  apply (for_loop_seg seg (enough ams));
    [ apply elem_seg_refl | apply elem_seg_trans | apply elem_seg_lengths
    | apply enough_le | apply enough_same_lengths ].
Qed.

(** What the loop leaves in the range of its iteration [q] is what that
    iteration stores, run on a state that the iterations before it have
    not changed from that range on. *)
Lemma for_loop_at (body : nat -> Bufs -> Bufs) (w n d base q : nat) (st : Bufs) :
  (forall i s, enough ams (base + i + w) s -> seg (base + i) (base + i + w) s (body i s)) ->
  enough ams (base + d + n * w) st ->
  q < n ->
  exists st1,
    seg (base + d) (base + d + q * w) st st1 /\
    forall j b, base + d + q * w <= j < base + d + q * w + w ->
      get b (for_loop body w n d st) !! j = get b (body (d + q * w) st1) !! j.
Proof.
  intros Hbody Hroom Hq.
  replace n with (q + (1 + (n - q - 1))) by lia.
  rewrite !for_loop_split.
  set (st1 := for_loop body w q d st).
  assert (seg (base + d) (base + d + q * w) st st1) as H1.
  { apply for_loop_seg_elem; [exact Hbody|]. eapply enough_le; [|exact Hroom]. nia. }
  exists st1. split; [exact H1|].
  assert (enough ams (base + d + n * w) st1) as Hr1
    by (eapply enough_same_lengths; [eapply elem_seg_lengths, H1|exact Hroom]).
  simpl for_loop at 2.
  set (st2 := body (d + q * w) st1).
  assert (seg (base + (d + q * w)) (base + (d + q * w) + w) st1 st2) as H2.
  { apply Hbody. eapply enough_le; [|exact Hr1]. nia. }
  assert (seg (base + (d + q * w + 1 * w)) (base + (d + q * w + 1 * w) + (n - q - 1) * w)
            st2 (for_loop body w (n - q - 1) (d + q * w + 1 * w) st2)) as H3.
  { apply for_loop_seg_elem; [exact Hbody|].
    eapply enough_same_lengths; [eapply elem_seg_lengths, H2|].
    eapply enough_le; [|exact Hr1]. nia. }
  destruct H3 as (_ & _ & Hout3).
  intros j b Hj. apply Hout3. lia.
Qed.

Lemma two_loops_at_register (w : nat) (v tl : nat -> Bufs -> Bufs) (base size q : nat)
    (st : Bufs) :
  0 < w ->
  (forall i s, enough ams (i + w) s -> seg i (i + w) s (v i s)) ->
  (forall i s, enough ams (i + 1) s -> seg i (i + 1) s (tl i s)) ->
  enough ams (base + size) st ->
  q < size / w ->
  exists st1,
    seg base (base + q * w) st st1 /\
    forall j b, base + q * w <= j < base + q * w + w ->
      get b (two_loops w v tl base size st) !! j = get b (v (base + q * w) st1) !! j.
Proof.
  intros Hw Hv Ht Hroom Hq. unfold two_loops.
  pose proof (Nat.div_mod_eq size w) as Hdm.
  pose proof (Nat.Div0.mod_le size w) as Hle.
  assert (q * w + w <= size / w * w) as Hqw by nia.
  destruct (for_loop_at (fun d => v (base + d)) w (size / w) 0 base q st) as (st1 & H1 & Hat);
    [ intros i s; apply Hv | eapply enough_le; [|exact Hroom]; lia | exact Hq | ].
  rewrite Nat.add_0_r in H1. exists st1. split; [exact H1|].
  set (stv := for_loop (fun d => v (base + d)) w (size / w) 0 st) in *.
  assert (seg (base + 0) (base + 0 + size / w * w) st stv) as Hvec.
  { apply for_loop_seg_elem; [intros i s; apply Hv|].
    eapply enough_le; [|exact Hroom]. lia. }
  assert (seg (base + (size - size mod w)) (base + (size - size mod w) + size mod w * 1)
            stv (for_loop (fun d => tl (base + d)) 1 (size mod w) (size - size mod w) stv))
    as (_ & _ & Hout).
  { apply for_loop_seg_elem; [intros i s; apply Ht|].
    eapply enough_same_lengths; [eapply elem_seg_lengths, Hvec|].
    eapply enough_le; [|exact Hroom]. lia. }
  intros j b Hj. rewrite Hout by lia.
  rewrite Hat by lia. reflexivity.
Qed.

Lemma two_loops_at_tail (w : nat) (v tl : nat -> Bufs -> Bufs) (base size n : nat)
    (st : Bufs) :
  (forall i s, enough ams (i + w) s -> seg i (i + w) s (v i s)) ->
  (forall i s, enough ams (i + 1) s -> seg i (i + 1) s (tl i s)) ->
  enough ams (base + size) st ->
  n < size mod w ->
  let j := base + size / w * w + n in
  exists st1,
    seg base j st st1 /\
    forall b, get b (two_loops w v tl base size st) !! j = get b (tl j st1) !! j.
Proof.
  intros Hv Ht Hroom Hn j. unfold two_loops.
  pose proof (Nat.div_mod_eq size w) as Hdm.
  pose proof (Nat.Div0.mod_le size w) as Hle.
  set (stv := for_loop (fun d => v (base + d)) w (size / w) 0 st).
  assert (seg (base + 0) (base + 0 + size / w * w) st stv) as Hvec.
  { apply for_loop_seg_elem; [intros i s; apply Hv|].
    eapply enough_le; [|exact Hroom]. lia. }
  destruct (for_loop_at (fun d => tl (base + d)) 1 (size mod w) (size - size mod w) base n stv)
    as (st1 & H1 & Hat);
    [ intros i s; apply Ht
    | eapply enough_same_lengths; [eapply elem_seg_lengths, Hvec|];
      eapply enough_le; [|exact Hroom]; lia
    | exact Hn | ].
  exists st1. split.
  - replace base with (base + 0) at 1 by lia.
    eapply (elem_seg_trans _ _ _ _ (base + 0 + size / w * w)); [unfold j; lia|exact Hvec|].
    replace (base + 0 + size / w * w) with (base + (size - size mod w)) by lia.
    replace j with (base + (size - size mod w) + n * 1) by (unfold j; lia).
    exact H1.
  - intros b. rewrite Hat by (unfold j; lia).
    replace (base + (size - size mod w + n * 1)) with j by (unfold j; lia). reflexivity.
Qed.

Lemma parallel_for_at (shards : list (nat * nat)) (F : nat -> nat -> Bufs -> Bufs)
    (a n s b e : nat) (st : Bufs) :
  is_partition a n shards ->
  (forall lo hi s, lo <= hi -> enough ams hi s -> seg lo hi s (F lo hi s)) ->
  enough ams n st ->
  shards !! s = Some (b, e) ->
  exists st1,
    seg a b st st1 /\
    forall j c, b <= j < e ->
      get c (parallel_for shards F st) !! j = get c (F b e st1) !! j.
Proof.
  intros Hp HF Hroom Hs.
  destruct (is_partition_lookup a n shards s b e Hp Hs) as (Hpre & Hpost & Hab & Hbe & Hen).
  rewrite (parallel_for_lookup shards F s b e st Hs).
  set (st1 := parallel_for (take s shards) F st).
  assert (seg a b st st1) as H1.
  { apply (parallel_for_seg seg (enough ams));
      [ apply elem_seg_refl | apply elem_seg_trans | apply elem_seg_lengths
      | apply enough_le | apply enough_same_lengths | exact Hpre | exact HF | ].
    eapply enough_le; [|exact Hroom]. lia. }
  exists st1. split; [exact H1|].
  assert (enough ams n st1) as Hr1
    by (eapply enough_same_lengths; [eapply elem_seg_lengths, H1|exact Hroom]).
  assert (seg e n (F b e st1) (parallel_for (drop (S s) shards) F (F b e st1)))
    as (_ & _ & Hout).
  { apply (parallel_for_seg seg (enough ams));
      [ apply elem_seg_refl | apply elem_seg_trans | apply elem_seg_lengths
      | apply enough_le | apply enough_same_lengths | exact Hpost | exact HF | ].
    eapply enough_same_lengths; [|exact Hr1].
    eapply elem_seg_lengths. apply HF; [exact Hbe|]. eapply enough_le; [|exact Hr1]. lia. }
  intros j c Hj. apply Hout. lia.
Qed.

Lemma elem_seg_elem_state lo hi st st' j :
  seg lo hi st st' -> hi <= j -> elem_state st' j = elem_state st j.
Proof.
  intros (_ & _ & Hout) Hj. apply elem_state_eq. intros b. apply Hout. lia.
Qed.
End Isolate.

(** In the shard [[base, base + size)] of [Half] or [BFloat16] elements, an
    element of the first half of a full register or of the tail loop is
    updated as the tail loop updates it. *)
Lemma adam_math_narrow_exact k scalar_t adam_mode lr sc eps weight_decay beta2 amsgrad
    maximize grad_scale_ptr base size j b st :
  scalar_t = kHalf \/ scalar_t = kBFloat16 ->
  enough amsgrad (base + size) st ->
  (forall s, grad_scale_ptr = Some s -> valid_in kFloat s) ->
  base <= j < base + size ->
  (j - base < size / (2 * Vec_size k kFloat) * (2 * Vec_size k kFloat) ->
   (j - base) mod (2 * Vec_size k kFloat) < Vec_size k kFloat) ->
  b ∈ wide_sel amsgrad ->
  get b (adam_math k scalar_t adam_mode lr sc eps weight_decay beta2 amsgrad maximize
           grad_scale_ptr base size st) !! j
  = get b (tail_step scalar_t adam_mode lr sc eps weight_decay beta2 amsgrad maximize
             grad_scale_ptr (elem_state st j)) !! 0.
Proof.
  intros Ht Hroom Hs Hj Hlane Hb.
  set (h := Vec_size k kFloat) in *. set (w := 2 * h) in *.
  pose proof (Nat.div_mod_eq size w) as Hdm.
  pose proof (Nat.div_mod_eq (j - base) w) as Hjm.
  pose (T := tail_step scalar_t adam_mode lr sc eps weight_decay beta2 amsgrad maximize
               grad_scale_ptr).
  assert (forall i s, enough amsgrad (i + w) s ->
            elem_seg (good_elem scalar_t grad_scale_ptr) narrow_sel T i (i + w) s
              (Narrow.vec_body h scalar_t adam_mode
                 (convert kDouble (opmath_type scalar_t) lr) (step_size sc)
                 (exp_avg_grad_coefficient sc) (exp_avg_sq_grad_coefficient sc)
                 (bias_correction2_sqrt sc) (convert kDouble (opmath_type scalar_t) eps)
                 (convert kDouble (opmath_type scalar_t) weight_decay)
                 (convert kDouble (opmath_type scalar_t) beta2)
                 amsgrad maximize grad_scale_ptr i s)) as Hvec.
  { intros i s Hi. unfold T, tail_step.
    destruct Ht as [-> | ->]; apply Narrow_vec_body_elem;
      first [by left | by right | exact Hi]. }
  assert (forall i s, enough amsgrad (i + 1) s ->
            elem_seg (good_elem scalar_t grad_scale_ptr) narrow_sel T i (i + 1) s
              (Narrow.tail_body scalar_t adam_mode
                 (convert kDouble (opmath_type scalar_t) lr) (step_size sc)
                 (exp_avg_grad_coefficient sc) (exp_avg_sq_grad_coefficient sc)
                 (bias_correction2_sqrt sc) (convert kDouble (opmath_type scalar_t) eps)
                 (convert kDouble (opmath_type scalar_t) weight_decay)
                 (convert kDouble (opmath_type scalar_t) beta2)
                 amsgrad maximize grad_scale_ptr i s)) as Htail.
  { intros i s Hi. unfold T, tail_step.
    destruct Ht as [-> | ->]; apply Narrow_tail_body_elem;
      first [by left | by right | exact Hi]. }
  assert (adam_math k scalar_t adam_mode lr sc eps weight_decay beta2 amsgrad maximize
            grad_scale_ptr base size st
          = two_loops w
              (Narrow.vec_body h scalar_t adam_mode
                 (convert kDouble (opmath_type scalar_t) lr) (step_size sc)
                 (exp_avg_grad_coefficient sc) (exp_avg_sq_grad_coefficient sc)
                 (bias_correction2_sqrt sc) (convert kDouble (opmath_type scalar_t) eps)
                 (convert kDouble (opmath_type scalar_t) weight_decay)
                 (convert kDouble (opmath_type scalar_t) beta2)
                 amsgrad maximize grad_scale_ptr)
              (Narrow.tail_body scalar_t adam_mode
                 (convert kDouble (opmath_type scalar_t) lr) (step_size sc)
                 (exp_avg_grad_coefficient sc) (exp_avg_sq_grad_coefficient sc)
                 (bias_correction2_sqrt sc) (convert kDouble (opmath_type scalar_t) eps)
                 (convert kDouble (opmath_type scalar_t) weight_decay)
                 (convert kDouble (opmath_type scalar_t) beta2)
                 amsgrad maximize grad_scale_ptr)
              base size st) as ->.
  { unfold adam_math, Narrow.adam_math. by destruct Ht as [-> | ->]. }
  assert (tail_step scalar_t adam_mode lr sc eps weight_decay beta2 amsgrad maximize
            grad_scale_ptr
          = Narrow.tail_body scalar_t adam_mode
              (convert kDouble (opmath_type scalar_t) lr) (step_size sc)
              (exp_avg_grad_coefficient sc) (exp_avg_sq_grad_coefficient sc)
              (bias_correction2_sqrt sc) (convert kDouble (opmath_type scalar_t) eps)
              (convert kDouble (opmath_type scalar_t) weight_decay)
              (convert kDouble (opmath_type scalar_t) beta2)
              amsgrad maximize grad_scale_ptr 0) as HT.
  { unfold tail_step. by destruct Ht as [-> | ->]. }
  destruct (decide (j - base < size / w * w)) as [Hin|Hin].
  - (* a lane of the first half of a register *)
    specialize (Hlane Hin).
    assert (0 < w) as Hw by lia.
    set (q := (j - base) / w) in *. set (l := (j - base) mod w) in *.
    assert (q < size / w) as Hq by nia.
    destruct (two_loops_at_register (good_elem scalar_t grad_scale_ptr) narrow_sel T amsgrad
                w _ _ base size q st Hw Hvec Htail Hroom Hq) as (st1 & H1 & Hat).
    assert (j = base + q * w + l) as Ej by lia.
    rewrite Hat by lia. rewrite Ej.
    rewrite (Narrow_vec_body_first_half h scalar_t adam_mode _ _ _ _ _ _ _ _ amsgrad maximize
               grad_scale_ptr Ht (base + q * w) l b st1);
      [ | eapply enough_same_lengths; [eapply elem_seg_lengths, H1|];
          eapply enough_le; [|exact Hroom]; unfold w in *; nia
        | exact Hs | exact Hlane | exact Hb ].
    rewrite (elem_seg_elem_state _ _ _ _ _ _ _ _ H1) by lia.
    by rewrite HT.
  - (* an element of the tail loop *)
    set (n := j - base - size / w * w).
    assert (n < size mod w) as Hn by (unfold n; lia).
    destruct (two_loops_at_tail (good_elem scalar_t grad_scale_ptr) narrow_sel T amsgrad
                w _ _ base size n st Hvec Htail Hroom Hn) as (st1 & H1 & Hat).
    assert (j = base + size / w * w + n) as Ej by (unfold n; lia).
    rewrite <- Ej in H1, Hat. rewrite Hat.
    rewrite (Narrow_tail_body_at scalar_t adam_mode _ _ _ _ _ _ _ _ amsgrad maximize
               grad_scale_ptr j b st1);
      [ | eapply enough_same_lengths; [eapply elem_seg_lengths, H1|];
          eapply enough_le; [|exact Hroom]; lia
        | intros -> ->; unfold wide_sel in Hb; simpl in Hb;
          repeat (apply elem_of_cons in Hb as [Hb|Hb]; [discriminate|]);
          by apply elem_of_nil in Hb ].
    rewrite (elem_seg_elem_state _ _ _ _ _ _ _ _ H1) by lia.
    by rewrite HT.
Qed.

(** X12: for [Half] and [BFloat16] storage, an element outside the second
    halves of the full registers of its shard (an element of the first
    half of a register, or of the tail loop) gets the first moment that the
    tail loop computes from the elements of its own index and, without
    [amsgrad], the parameter too. *)
Theorem half_exact_outside_second_halves std_pow k shards
    param_t grad_t exp_avg_t exp_avg_sq_t max_exp_avg_sq_t state_step
    lr beta1 beta2 weight_decay eps amsgrad maximize grad_scale_ptr adam_mode
    (s b e j : nat) :
  scalar_type param_t = kHalf \/ scalar_type param_t = kBFloat16 ->
  is_partition 0 (numel param_t) shards ->
  numel param_t <= length (data_ptr param_t) ->
  numel param_t <= length (data_ptr exp_avg_t) ->
  numel param_t <= length (data_ptr exp_avg_sq_t) ->
  numel param_t <= length (data_ptr grad_t) ->
  (amsgrad = true -> numel param_t <= length (data_ptr max_exp_avg_sq_t)) ->
  (forall c, grad_scale_ptr = Some c -> valid_in kFloat c) ->
  shards !! s = Some (b, e) ->
  b <= j < e ->
  (j - b < (e - b) / (2 * Vec_size k kFloat) * (2 * Vec_size k kFloat) ->
   (j - b) mod (2 * Vec_size k kFloat) < Vec_size k kFloat) ->
  let st0 := initial amsgrad param_t grad_t exp_avg_t exp_avg_sq_t max_exp_avg_sq_t in
  let post :=
    fused_adam_kernel std_pow k shards param_t grad_t exp_avg_t exp_avg_sq_t
      max_exp_avg_sq_t state_step lr beta1 beta2 weight_decay eps amsgrad maximize
      grad_scale_ptr adam_mode in
  let T :=
    tail_step (scalar_type param_t) adam_mode lr
      (step_scalars std_pow (scalar_type param_t) (item_float state_step) lr beta1 beta2)
      eps weight_decay beta2 amsgrad maximize grad_scale_ptr in
  exp_avg post !! j = exp_avg (T (elem_state st0 j)) !! 0 /\
  (amsgrad = false -> param post !! j = param (T (elem_state st0 j)) !! 0).
Proof.
  intros Ht Hp H1 H2 H3 H4 H5 Hs Hsh Hj Hlane st0 post T.
  assert (enough amsgrad (numel param_t) st0) as Hroom.
  { repeat split; try assumption. intros ->. by apply H5. }
  destruct (is_partition_lookup 0 (numel param_t) shards s b e Hp Hsh)
    as (_ & _ & _ & Hbe & Hen).
  set (sc := step_scalars std_pow (scalar_type param_t) (item_float state_step)
               lr beta1 beta2) in *.
  set (F := fun begin end_ =>
              adam_math k (scalar_type param_t) adam_mode lr sc eps weight_decay beta2
                amsgrad maximize grad_scale_ptr begin (end_ - begin)).
  assert (forall lo hi st, lo <= hi -> enough amsgrad hi st ->
            elem_seg (good_elem (scalar_type param_t) grad_scale_ptr)
              (kernel_sel (scalar_type param_t) amsgrad) T lo hi st (F lo hi st)) as HF.
  { intros lo hi st Hle Hr. unfold F.
    replace hi with (lo + (hi - lo)) at 1 by lia.
    apply adam_math_elem. by replace (lo + (hi - lo)) with hi by lia. }
  destruct (parallel_for_at _ _ _ amsgrad shards F 0 (numel param_t) s b e st0 Hp HF Hroom Hsh)
    as (st1 & Hseg1 & Hat).
  assert (forall c, c ∈ wide_sel amsgrad -> get c post !! j = get c (T (elem_state st0 j)) !! 0)
    as H.
  { intros c Hc.
    assert (get c post = get c (parallel_for shards F st0)) as ->.
    { unfold post. rewrite fused_adam_kernel_shards. fold st0 sc F. simpl.
      destruct amsgrad; [reflexivity|]. apply get_set_max_exp_avg_sq.
      intros ->. unfold wide_sel in Hc. simpl in Hc.
      repeat (apply elem_of_cons in Hc as [Hc|Hc]; [discriminate|]).
      by apply elem_of_nil in Hc. }
    rewrite Hat by exact Hj. unfold F.
    rewrite adam_math_narrow_exact;
      [ | exact Ht
        | eapply enough_same_lengths; [eapply elem_seg_lengths, Hseg1|];
          eapply enough_le; [|exact Hroom]; lia
        | exact Hs | lia | exact Hlane | exact Hc ].
    by rewrite (elem_seg_elem_state _ _ _ _ _ _ _ _ Hseg1) by lia. }
  split.
  - apply (H ExpAvg). unfold wide_sel. by repeat constructor.
  - intros ->. apply (H Param). unfold wide_sel. simpl. by repeat constructor.
Qed.

(** ** The moments and the AMSGrad flag *)

Section TailAmsgrad.
Variables (t : ScalarType) (mode : ADAM_MODE).
Variables (lr ss c1 c2 bcs eps wd b2 : spec_float) (mx : bool) (scale : option spec_float).

Lemma Wide_tail_body_amsgrad ams1 ams2 p m v g a1 a2 b :
  b ∈ [ExpAvg; ExpAvgSq; Grad] ->
  get b (Wide.tail_body t mode lr ss c1 c2 bcs eps wd b2 ams1 mx scale 0
           (mkBufs [p] [m] [v] [g] [a1])) !! 0
  = get b (Wide.tail_body t mode lr ss c1 c2 bcs eps wd b2 ams2 mx scale 0
             (mkBufs [p] [m] [v] [g] [a2])) !! 0.
Proof.
  intros Hb.
  unfold Wide.tail_body, Wide.tail_grad, Wide.tail_weight_decay, Wide.tail_update.
  destruct scale, (ne_zero wd), mode, ams1, ams2; simpl;
    repeat (apply elem_of_cons in Hb as [-> | Hb]); try (by apply elem_of_nil in Hb);
    reflexivity.
Qed.

Lemma Narrow_tail_body_amsgrad ams1 ams2 p m v g a1 a2 b :
  b ∈ [ExpAvg; ExpAvgSq; Grad] ->
  get b (Narrow.tail_body t mode lr ss c1 c2 bcs eps wd b2 ams1 mx scale 0
           (mkBufs [p] [m] [v] [g] [a1])) !! 0
  = get b (Narrow.tail_body t mode lr ss c1 c2 bcs eps wd b2 ams2 mx scale 0
             (mkBufs [p] [m] [v] [g] [a2])) !! 0.
Proof.
  intros Hb.
  unfold Narrow.tail_body, Narrow.tail_grad, Narrow.tail_weight_decay, Narrow.tail_update.
  destruct scale, (ne_zero wd), mode, ams1, ams2; simpl;
    repeat (apply elem_of_cons in Hb as [-> | Hb]); try (by apply elem_of_nil in Hb);
    reflexivity.
Qed.
End TailAmsgrad.

(** The moments and the gradient that the tail loop stores depend neither
    on [amsgrad] nor on the maximum. *)
Lemma tail_step_amsgrad scalar_t adam_mode lr sc eps weight_decay beta2 amsgrad1 amsgrad2
    maximize grad_scale_ptr p m v g a1 a2 b :
  b ∈ [ExpAvg; ExpAvgSq; Grad] ->
  get b (tail_step scalar_t adam_mode lr sc eps weight_decay beta2 amsgrad1 maximize
           grad_scale_ptr (mkBufs [p] [m] [v] [g] [a1])) !! 0
  = get b (tail_step scalar_t adam_mode lr sc eps weight_decay beta2 amsgrad2 maximize
             grad_scale_ptr (mkBufs [p] [m] [v] [g] [a2])) !! 0.
Proof.
  intros Hb. unfold tail_step.
  destruct scalar_t;
    first [ by apply Wide_tail_body_amsgrad | by apply Narrow_tail_body_amsgrad ].
Qed.

Lemma fused_adam_kernel_amsgrad std_pow k1 shards1 k2 shards2
    param_t grad_t exp_avg_t exp_avg_sq_t max1 max2 state_step
    lr beta1 beta2 weight_decay eps amsgrad1 amsgrad2 maximize grad_scale_ptr adam_mode b :
  is_partition 0 (numel param_t) shards1 ->
  is_partition 0 (numel param_t) shards2 ->
  enough amsgrad1 (numel param_t) (initial amsgrad1 param_t grad_t exp_avg_t exp_avg_sq_t max1) ->
  enough amsgrad2 (numel param_t) (initial amsgrad2 param_t grad_t exp_avg_t exp_avg_sq_t max2) ->
  Forall (valid_in (scalar_type param_t)) (data_ptr grad_t) ->
  (forall s, grad_scale_ptr = Some s -> valid_in kFloat s) ->
  b ∈ [ExpAvg; ExpAvgSq; Grad] ->
  b ∈ kernel_sel (scalar_type param_t) amsgrad1 ->
  b ∈ kernel_sel (scalar_type param_t) amsgrad2 ->
  get b (fused_adam_kernel std_pow k1 shards1 param_t grad_t exp_avg_t exp_avg_sq_t
           max1 state_step lr beta1 beta2 weight_decay eps amsgrad1 maximize
           grad_scale_ptr adam_mode)
  = get b (fused_adam_kernel std_pow k2 shards2 param_t grad_t exp_avg_t exp_avg_sq_t
             max2 state_step lr beta1 beta2 weight_decay eps amsgrad2 maximize
             grad_scale_ptr adam_mode).
Proof.
  intros Hp1 Hp2 Hr1 Hr2 Hg Hs Hb Hb1 Hb2.
  destruct (fused_adam_kernel_elem std_pow k1 shards1 param_t grad_t exp_avg_t exp_avg_sq_t
              max1 state_step lr beta1 beta2 weight_decay eps amsgrad1 maximize
              grad_scale_ptr adam_mode Hp1 Hr1) as (Hlen1 & Hin1 & Hout1).
  destruct (fused_adam_kernel_elem std_pow k2 shards2 param_t grad_t exp_avg_t exp_avg_sq_t
              max2 state_step lr beta1 beta2 weight_decay eps amsgrad2 maximize
              grad_scale_ptr adam_mode Hp2 Hr2) as (Hlen2 & Hin2 & Hout2).
  assert (b <> MaxExpAvgSq) as Hne.
  { intros ->. repeat (apply elem_of_cons in Hb as [Hb|Hb]; [discriminate|]).
    by apply elem_of_nil in Hb. }
  apply list_eq. intros j.
  destruct (decide (j < numel param_t)) as [Hj|Hj].
  - rewrite Hin1, Hin2; try assumption;
      [ apply tail_step_amsgrad; exact Hb | | ];
      (apply good_elem_initial;
       [|exact Hs|destruct Hr1 as (?&?&?&?&?); simpl in *; lia]);
      intros g Hgj; by apply (Forall_lookup_1 _ _ _ _ Hg Hgj).
  - rewrite Hout1, Hout2 by (first [lia|exact Hne]).
    repeat (apply elem_of_cons in Hb as [-> | Hb]); try (by apply elem_of_nil in Hb);
      reflexivity.
Qed.

(** X13: turning [amsgrad] on changes neither the second moments nor the
    gradients the call leaves, whatever the storage type, nor, for [float]
    and [double] storage, the first moments. *)
Theorem amsgrad_leaves_the_moments std_pow k shards
    param_t grad_t exp_avg_t exp_avg_sq_t max_exp_avg_sq_t state_step
    lr beta1 beta2 weight_decay eps maximize grad_scale_ptr adam_mode :
  is_partition 0 (numel param_t) shards ->
  numel param_t <= length (data_ptr param_t) ->
  numel param_t <= length (data_ptr exp_avg_t) ->
  numel param_t <= length (data_ptr exp_avg_sq_t) ->
  numel param_t <= length (data_ptr grad_t) ->
  numel param_t <= length (data_ptr max_exp_avg_sq_t) ->
  Forall (valid_in (scalar_type param_t)) (data_ptr grad_t) ->
  (forall s, grad_scale_ptr = Some s -> valid_in kFloat s) ->
  let on :=
    fused_adam_kernel std_pow k shards param_t grad_t exp_avg_t exp_avg_sq_t
      max_exp_avg_sq_t state_step lr beta1 beta2 weight_decay eps true maximize
      grad_scale_ptr adam_mode in
  let off :=
    fused_adam_kernel std_pow k shards param_t grad_t exp_avg_t exp_avg_sq_t
      max_exp_avg_sq_t state_step lr beta1 beta2 weight_decay eps false maximize
      grad_scale_ptr adam_mode in
  exp_avg_sq on = exp_avg_sq off /\
  grad on = grad off /\
  (scalar_type param_t = kFloat \/ scalar_type param_t = kDouble ->
   exp_avg on = exp_avg off).
Proof.
  intros Hp H1 H2 H3 H4 H5 Hg Hs on off.
  assert (forall b, b ∈ [ExpAvg; ExpAvgSq; Grad] ->
            b ∈ kernel_sel (scalar_type param_t) true ->
            b ∈ kernel_sel (scalar_type param_t) false ->
            get b on = get b off) as H.
  { intros b Hb Hb1 Hb2. apply fused_adam_kernel_amsgrad; try assumption.
    - by repeat split.
    - repeat split; try assumption. discriminate. }
  split; [|split].
  - apply (H ExpAvgSq); [by repeat constructor| |];
      destruct (scalar_type param_t); simpl; by repeat constructor.
  - apply (H Grad); [by repeat constructor| |];
      destruct (scalar_type param_t); simpl; by repeat constructor.
  - intros Ht. apply (H ExpAvg); [by repeat constructor| |];
      destruct Ht as [-> | ->]; simpl; by repeat constructor.
Qed.

(** ** AMSGrad on [float] and [double] storage *)

Lemma SFcompare_Eq_not_negative a v :
  is_nan a = false -> is_nan v = false -> not_negative a -> not_negative v ->
  SFcompare a v = Some Eq -> a = v.
Proof.
  destruct a as [sa|sa| |sa ma ea], v as [sv|sv| |sv mv ev]; simpl;
    intros _ _ Ha Hv H; try discriminate; subst; simpl in H; try discriminate;
    try reflexivity.
  destruct (Z.compare ea ev) eqn:He; try discriminate.
  apply Z.compare_eq in He. subst.
  injection H as H. apply Pos.compare_eq in H. by subst.
Qed.

Lemma maximum_std_max a v :
  is_nan a = false -> is_nan v = false -> not_negative a -> not_negative v ->
  maximum a v = std_max a v.
Proof.
  intros Ha Hv Ha0 Hv0. unfold maximum, std_max, SFltb. rewrite Ha.
  destruct (SFcompare_not_nan a v Ha Hv) as [c Hc].
  rewrite (SFcompare_antisym a v c Hc), Hc.
  destruct c; simpl; try reflexivity.
  symmetry. by apply SFcompare_Eq_not_negative.
Qed.

Section WideAmsElem.
Variables (w : nat) (t : ScalarType) (mode : ADAM_MODE).
Variables (lr ss c1 c2 bcs eps wd b2 : spec_float) (mx : bool) (scale : option spec_float).
Hypothesis t_wide : opmath_type t = t.

Local Abbreviation T := (Wide.tail_body t mode lr ss c1 c2 bcs eps wd b2 true mx scale 0).

Lemma Wide_vec_body_in_ams i j b st :
  enough true (i + w) st ->
  i <= j < i + w ->
  good_elem t scale (elem_state st j) ->
  agree_on_max T (elem_state st j) ->
  b = Param \/ b = MaxExpAvgSq ->
  get b (Wide.vec_body w t mode lr ss c1 c2 bcs eps wd b2 true mx scale i st) !! j
  = get b (T (elem_state st j)) !! 0.
Proof.
  intros (Hp & Hm & Hv & Hg & Ha) Hj [Hgood Hs] Hmax Hb. simpl in Hgood.
  specialize (Ha eq_refl).
  unfold agree_on_max in Hmax.
  unfold Wide.vec_body, Wide.vec_grad, Wide.vec_weight_decay, Wide.vec_update.
  unfold Wide.tail_body, Wide.tail_grad, Wide.tail_weight_decay, Wide.tail_update in Hmax |- *.
  revert Hs Hmax.
  destruct scale as [s|]; intros Hs;
    try (pose proof (convert_float_valid t s t_wide (Hs s eq_refl)) as Hs'; clear Hs);
    destruct mx, (ne_zero wd), mode; simpl; intros Hmax;
    destruct Hb as [-> | ->]; simpl;
    rewrite <- Hmax;
    rewrite ?(fneg_lane t t_wide (grad st !!! j)) by exact Hgood;
    rewrite ?(fneg_lane t t_wide (fdiv (format_of t) (grad st !!! j) (convert kFloat t s)))
      by (by apply fdiv_valid);
    by (apply lookup_store; [lia|lia|lane]).
Qed.
Lemma Wide_tail_body_at_ams i b st :
  enough true (i + 1) st ->
  get b (Wide.tail_body t mode lr ss c1 c2 bcs eps wd b2 true mx scale i st) !! i
  = get b (T (elem_state st i)) !! 0.
Proof.
  intros (Hp & Hm & Hv & Hg & Ha). specialize (Ha eq_refl).
  unfold Wide.tail_body, Wide.tail_grad, Wide.tail_weight_decay, Wide.tail_update.
  destruct scale as [s|], mx, (ne_zero wd), mode, b; simpl;
    rewrite ?list_lookup_insert_eq by (rewrite ?length_insert; lia);
    rewrite ?list_lookup_total_insert_eq by (rewrite ?length_insert; lia);
    first [ reflexivity | by apply list_lookup_lookup_total_lt; lia ].
Qed.

Lemma Wide_vec_body_elem_ams i st :
  enough true (i + w) st ->
  elem_seg (fun e => good_elem t scale e /\ agree_on_max T e) all_bufs T i (i + w) st
    (Wide.vec_body w t mode lr ss c1 c2 bcs eps wd b2 true mx scale i st).
Proof.
  intros Hroom. split; [apply Wide_vec_body_lengths|]. split.
  - intros j b Hj [Hgood Hmax] _.
    assert (b ∈ wide_sel true \/ (b = Param \/ b = MaxExpAvgSq)) as [Hb|Hb].
    { destruct b; first [ right; by auto | left; unfold wide_sel; simpl; by repeat constructor ]. }
    + by apply Wide_vec_body_in.
    + by apply Wide_vec_body_in_ams.
  - intros j b Hj. by apply Wide_vec_body_out.
Qed.

Lemma Wide_tail_body_elem_ams i st :
  enough true (i + 1) st ->
  elem_seg (fun e => good_elem t scale e /\ agree_on_max T e) all_bufs T i (i + 1) st
    (Wide.tail_body t mode lr ss c1 c2 bcs eps wd b2 true mx scale i st).
Proof.
  intros Hroom. split; [apply Wide_tail_body_lengths|]. split.
  - intros j b Hj _ _. assert (j = i) as -> by lia. by apply Wide_tail_body_at_ams.
  - intros j b Hj. apply Wide_tail_body_out. lia.
Qed.
End WideAmsElem.

Lemma fused_adam_kernel_elem_ams std_pow k shards
    param_t grad_t exp_avg_t exp_avg_sq_t max_exp_avg_sq_t state_step
    lr beta1 beta2 weight_decay eps maximize grad_scale_ptr adam_mode :
  let st0 := initial true param_t grad_t exp_avg_t exp_avg_sq_t max_exp_avg_sq_t in
  let T :=
    tail_step (scalar_type param_t) adam_mode lr
      (step_scalars std_pow (scalar_type param_t) (item_float state_step) lr beta1 beta2)
      eps weight_decay beta2 true maximize grad_scale_ptr in
  scalar_type param_t = kFloat \/ scalar_type param_t = kDouble ->
  is_partition 0 (numel param_t) shards ->
  enough true (numel param_t) st0 ->
  elem_seg (fun e => good_elem (scalar_type param_t) grad_scale_ptr e /\ agree_on_max T e)
    all_bufs T 0 (numel param_t) st0
    (fused_adam_kernel std_pow k shards param_t grad_t exp_avg_t exp_avg_sq_t
       max_exp_avg_sq_t state_step lr beta1 beta2 weight_decay eps true maximize
       grad_scale_ptr adam_mode).
Proof.
  intros st0 T Ht Hp Hroom.
  rewrite fused_adam_kernel_shards. cbv zeta. fold st0.
  apply (parallel_for_seg (elem_seg _ _ _) (enough true));
    [ apply elem_seg_refl | apply elem_seg_trans | apply elem_seg_lengths
    | apply enough_le | apply enough_same_lengths | exact Hp | | exact Hroom ].
  intros lo hi s Hle Hs.
  replace hi with (lo + (hi - lo)) at 1 by lia.
  assert (enough true (lo + (hi - lo)) s) as Hs' by (by replace (lo + (hi - lo)) with hi by lia).
  unfold T, tail_step, adam_math, Wide.adam_math.
  destruct Ht as [-> | ->];
    (apply (two_loops_seg (elem_seg _ _ _) (enough true));
     [ apply elem_seg_refl | apply elem_seg_trans | apply elem_seg_lengths
     | apply enough_le | apply enough_same_lengths
     | intros i s1 Hs1 | intros i s1 Hs1 | exact Hs' ]);
    first [ by apply Wide_vec_body_elem_ams | by apply Wide_tail_body_elem_ams ].
Qed.

(** X14: for [float] and [double] storage with [amsgrad], the result of the
    call depends neither on the shards nor on the register width, as long
    as [0 <= beta2 <= 1], the second moments found are not negative, the
    maxima found are neither negative nor NaNs, and no second moment
    stored is a NaN. *)
Theorem float_double_amsgrad_shard_invariance std_pow k1 shards1 k2 shards2
    param_t grad_t exp_avg_t exp_avg_sq_t max_exp_avg_sq_t state_step
    lr beta1 beta2 weight_decay eps maximize grad_scale_ptr adam_mode :
  scalar_type param_t = kFloat \/ scalar_type param_t = kDouble ->
  is_partition 0 (numel param_t) shards1 ->
  is_partition 0 (numel param_t) shards2 ->
  numel param_t <= length (data_ptr param_t) ->
  numel param_t <= length (data_ptr exp_avg_t) ->
  numel param_t <= length (data_ptr exp_avg_sq_t) ->
  numel param_t <= length (data_ptr grad_t) ->
  numel param_t <= length (data_ptr max_exp_avg_sq_t) ->
  Forall (valid_in (scalar_type param_t)) (data_ptr grad_t) ->
  (forall s, grad_scale_ptr = Some s -> valid_in kFloat s) ->
  valid_in kDouble beta2 ->
  not_negative beta2 ->
  SFleb beta2 (one kDouble) = true ->
  Forall not_negative (data_ptr exp_avg_sq_t) ->
  Forall (fun a => is_nan a = false /\ not_negative a) (data_ptr max_exp_avg_sq_t) ->
  let post1 :=
    fused_adam_kernel std_pow k1 shards1 param_t grad_t exp_avg_t exp_avg_sq_t
      max_exp_avg_sq_t state_step lr beta1 beta2 weight_decay eps true maximize
      grad_scale_ptr adam_mode in
  let post2 :=
    fused_adam_kernel std_pow k2 shards2 param_t grad_t exp_avg_t exp_avg_sq_t
      max_exp_avg_sq_t state_step lr beta1 beta2 weight_decay eps true maximize
      grad_scale_ptr adam_mode in
  (forall j v, j < numel param_t -> exp_avg_sq post1 !! j = Some v -> is_nan v = false) ->
  post1 = post2.
Proof.
  intros Ht Hp1 Hp2 H1 H2 H3 H4 H5 Hg Hs Hb Hb0 Hb1 Hv0 Ha0 post1 post2 Hnan.
  set (st0 := initial true param_t grad_t exp_avg_t exp_avg_sq_t max_exp_avg_sq_t).
  set (T := tail_step (scalar_type param_t) adam_mode lr
              (step_scalars std_pow (scalar_type param_t) (item_float state_step)
                 lr beta1 beta2)
              eps weight_decay beta2 true maximize grad_scale_ptr).
  assert (enough true (numel param_t) st0) as Hroom by (by repeat split).
  destruct (fused_adam_kernel_elem_ams std_pow k1 shards1 param_t grad_t exp_avg_t
              exp_avg_sq_t max_exp_avg_sq_t state_step lr beta1 beta2 weight_decay eps
              maximize grad_scale_ptr adam_mode Ht Hp1 Hroom) as (_ & Hin1 & Hout1).
  destruct (fused_adam_kernel_elem_ams std_pow k2 shards2 param_t grad_t exp_avg_t
              exp_avg_sq_t max_exp_avg_sq_t state_step lr beta1 beta2 weight_decay eps
              maximize grad_scale_ptr adam_mode Ht Hp2 Hroom) as (_ & Hin2 & Hout2).
  fold st0 T post1 in Hin1, Hout1. fold st0 T post2 in Hin2, Hout2.
  destruct (fused_adam_kernel_elem std_pow k1 shards1 param_t grad_t exp_avg_t exp_avg_sq_t
              max_exp_avg_sq_t state_step lr beta1 beta2 weight_decay eps true maximize
              grad_scale_ptr adam_mode Hp1 Hroom) as (_ & Hsq & _).
  fold st0 T post1 in Hsq.
  assert (forall j, j < numel param_t ->
            good_elem (scalar_type param_t) grad_scale_ptr (elem_state st0 j) /\
            agree_on_max T (elem_state st0 j)) as Hgood.
  { intros j Hj.
    assert (good_elem (scalar_type param_t) grad_scale_ptr (elem_state st0 j)) as Hgj.
    { apply good_elem_initial; [|exact Hs|lia].
      intros g Hgd. by apply (Forall_lookup_1 _ _ _ _ Hg Hgd). }
    split; [exact Hgj|].
    assert (ExpAvgSq ∈ kernel_sel (scalar_type param_t) true) as Hsel
      by (destruct (scalar_type param_t); simpl; by repeat constructor).
    specialize (Hsq j ExpAvgSq Hj Hgj Hsel). simpl get in Hsq.
    destruct (lookup_lt_is_Some_2 (data_ptr exp_avg_sq_t) j ltac:(lia)) as [v Hv].
    destruct (fused_adam_kernel_second_moment_sign std_pow k1 shards1 param_t grad_t
                exp_avg_t exp_avg_sq_t max_exp_avg_sq_t state_step lr beta1 beta2
                weight_decay eps true maximize grad_scale_ptr adam_mode j v Hp1 H1 H2 H3 H4
                ltac:(done) Hg Hs Hb Hb0 Hb1 Hj Hv
                (Forall_lookup_1 _ _ j v Hv0 Hv)) as (v' & Hv' & Hv'0).
    fold post1 in Hv'.
    pose proof (Hnan j v' Hj Hv') as Hv'n.
    rewrite Hv' in Hsq. symmetry in Hsq.
    destruct (lookup_lt_is_Some_2 (data_ptr max_exp_avg_sq_t) j ltac:(lia)) as [a Ha].
    destruct (Forall_lookup_1 _ _ j a Ha0 Ha) as [Han Ha0'].
    unfold agree_on_max.
    rewrite (list_lookup_total_correct _ _ _ Hsq).
    simpl. rewrite (list_lookup_total_correct _ _ _ Ha).
    by apply maximum_std_max. }
  apply Bufs_eq. intros b. apply list_eq. intros j.
  destruct (decide (j < numel param_t)) as [Hj|Hj].
  - rewrite Hin1, Hin2; first [ reflexivity | lia | by apply Hgood | idtac ];
      unfold all_bufs; destruct b; by repeat constructor.
  - rewrite Hout1, Hout2 by lia. reflexivity.
Qed.

(** ** A weight decay below the range of [opmath_t] *)

Section Underflow.
Local Open Scope Z_scope.

(** Shifting out more digits than there are leaves no round bit. *)
Lemma iter_shr_1_small (n : positive) (m : Z) :
  0 <= m -> m < 2 ^ (Z.pos n - 1) ->
  let x := SpecFloat.iter_pos shr_1 n (Build_shr_record m false false) in
  shr_m x = 0 /\ shr_r x = false.
Proof.
  intros Hm Hlt. induction n as [|n IH] using Pos.peano_ind.
  - simpl in Hlt. assert (m = 0) as -> by lia. by simpl.
  - clear IH. cbv zeta. rewrite iter_pos_succ, iter_pos_comm.
    replace (Z.pos (Pos.succ n) - 1) with (Z.pos n) in Hlt by lia.
    pose proof (iter_shr_1_m n (Build_shr_record m false false) Hm) as Hq.
    simpl shr_m in Hq. rewrite Z.div_small in Hq by lia.
    destruct (SpecFloat.iter_pos shr_1 n (Build_shr_record m false false)) as [mx r s].
    simpl in Hq. subst mx. by simpl.
Qed.

(** A value below half the least positive value of the format rounds to
    zero. *)
Lemma binary_round_underflow prec emax s m e :
  0 < prec ->
  Z.pos (digits2_pos m) + e < SpecFloat.emin prec emax ->
  binary_round prec emax s m e = S754_zero s.
Proof.
  intros Hprec Hlt.
  set (d := Z.pos (digits2_pos m)) in *.
  assert (SpecFloat.fexp prec emax (d + e) = SpecFloat.emin prec emax) as Hf
    by (unfold SpecFloat.fexp; lia).
  rewrite binary_round_no_shl by (fold d; lia).
  unfold binary_round_aux, shr_fexp. simpl Zdigits2. fold d. rewrite Hf.
  destruct (SpecFloat.emin prec emax - e) as [|n|n] eqn:Hn; try lia.
  unfold shr. simpl shr_record_of_loc.
  pose proof (digits2_pos_spec m) as [_ Hhi]. fold d in Hhi.
  assert (Z.pos m < 2 ^ (Z.pos n - 1)) as Hsmall.
  { assert (2 ^ d <= 2 ^ (Z.pos n - 1)) by (apply Z.pow_le_mono_r; lia). lia. }
  destruct (iter_shr_1_small n (Z.pos m) ltac:(lia) Hsmall) as [Hm0 Hr0].
  destruct (SpecFloat.iter_pos shr_1 n (Build_shr_record (Z.pos m) false false))
    as [mx r sx].
  simpl in Hm0, Hr0. subst mx r.
  replace (e + Z.pos n) with (SpecFloat.emin prec emax) by lia.
  cbn [shr_m].
  assert (round_nearest_even 0 (loc_of_shr_record (Build_shr_record 0 false sx)) = 0) as ->
    by (by destruct sx).
  simpl Zdigits2.
  replace (SpecFloat.fexp prec emax (0 + SpecFloat.emin prec emax)
           - SpecFloat.emin prec emax) with 0 by (unfold SpecFloat.fexp; lia).
  reflexivity.
Qed.
End Underflow.

Lemma ne_zero_below_float t x :
  opmath_type t = kFloat -> below_float x -> ne_zero (convert kDouble (opmath_type t) x) = false.
Proof.
  intros -> Hx. destruct x as [s|s| |s m e]; try done.
  unfold convert. simpl ScalarType_eqb. cbv iota. simpl round_to.
  rewrite binary_round_underflow; [reflexivity|reflexivity|].
  simpl in Hx. unfold SpecFloat.emin. simpl. lia.
Qed.

(** X15: for [float], [Half] and [BFloat16] storage the test
    [weight_decay != 0.f] is made on [weight_decay] rounded to [float]: a
    weight decay of magnitude below [2^-150] is no weight decay at all,
    in both modes. *)
Theorem vanishing_weight_decay std_pow k shards
    param grad exp_avg exp_avg_sq max_exp_avg_sq state_step
    lr beta1 beta2 weight_decay eps amsgrad maximize grad_scale_ptr adam_mode :
  scalar_type param <> kDouble ->
  below_float weight_decay ->
  fused_adam_kernel std_pow k shards param grad exp_avg exp_avg_sq max_exp_avg_sq state_step
    lr beta1 beta2 weight_decay eps amsgrad maximize grad_scale_ptr adam_mode
  = fused_adam_kernel_no_decay std_pow k shards param grad exp_avg exp_avg_sq max_exp_avg_sq
      state_step lr beta1 beta2 eps amsgrad maximize grad_scale_ptr.
Proof.
  intros Ht Hwd.
  assert (ne_zero (convert kDouble (opmath_type (scalar_type param)) weight_decay) = false)
    as Hz.
  { apply ne_zero_below_float; [|exact Hwd]. by destruct (scalar_type param). }
  assert (forall mode,
    adam_fused_step_impl std_pow k shards (scalar_type param) mode param grad exp_avg
      exp_avg_sq max_exp_avg_sq state_step lr beta1 beta2 weight_decay eps amsgrad maximize
      grad_scale_ptr
    = adam_fused_step_impl_no_decay std_pow k shards (scalar_type param) param grad exp_avg
        exp_avg_sq max_exp_avg_sq state_step lr beta1 beta2 eps amsgrad maximize
        grad_scale_ptr) as Himpl.
  { intros mode. unfold adam_fused_step_impl, adam_fused_step_impl_no_decay.
    erewrite parallel_for_ext; [reflexivity|].
    intros b e st. unfold adam_math, adam_math_no_decay.
    revert Hz. destruct (scalar_type param); intros Hz;
      first [by apply Wide_adam_math_no_decay | by apply Narrow_adam_math_no_decay]. }
  unfold fused_adam_kernel, fused_adam_kernel_no_decay. destruct adam_mode; apply Himpl.
Qed.

(** ** Worked instances *)

Ltac sizes := vm_compute; repeat split; lia.
Ltac no_scale := let s := fresh in let H := fresh in intros s H; discriminate H.
Ltac the_scale :=
  let s := fresh in let H := fresh in intros s H; injection H as <-; reflexivity.
Ltac all_valid := repeat (constructor; [reflexivity|]); constructor.

Lemma fused_adam_kernel_frame_witness :
  let post :=
    fused_adam_kernel pow_model 4 [(0, 1); (1, 3)] (padded kHalf (lit kHalf 1 0))
      (padded kHalf (lit kHalf 5 1)) (padded kHalf (lit kHalf 2 0))
      (padded kHalf (lit kHalf 3 0)) (padded kHalf (lit kHalf 4 0)) first_step
      (dec 1 3) (dec 9 1) (dec 999 3) (dec 1 2) (dec 1 8) false true
      (Some (lit kFloat 128 0)) ADAMW in
  (forall j, numel (padded kHalf (lit kHalf 1 0)) <= j ->
     param post !! j = data_ptr (padded kHalf (lit kHalf 1 0)) !! j /\
     exp_avg post !! j = data_ptr (padded kHalf (lit kHalf 2 0)) !! j /\
     exp_avg_sq post !! j = data_ptr (padded kHalf (lit kHalf 3 0)) !! j /\
     grad post !! j = data_ptr (padded kHalf (lit kHalf 5 1)) !! j /\
     max_exp_avg_sq post !! j = data_ptr (padded kHalf (lit kHalf 4 0)) !! j) /\
  length (param post) = length (data_ptr (padded kHalf (lit kHalf 1 0))) /\
  length (exp_avg post) = length (data_ptr (padded kHalf (lit kHalf 2 0))) /\
  length (exp_avg_sq post) = length (data_ptr (padded kHalf (lit kHalf 3 0))) /\
  length (grad post) = length (data_ptr (padded kHalf (lit kHalf 5 1))) /\
  length (max_exp_avg_sq post) = length (data_ptr (padded kHalf (lit kHalf 4 0))) /\
  (false = false -> max_exp_avg_sq post = data_ptr (padded kHalf (lit kHalf 4 0))).
Proof.
  apply (fused_adam_kernel_frame pow_model 4 [(0, 1); (1, 3)] (padded kHalf (lit kHalf 1 0))
           (padded kHalf (lit kHalf 5 1)) (padded kHalf (lit kHalf 2 0))
           (padded kHalf (lit kHalf 3 0)) (padded kHalf (lit kHalf 4 0))).
  - sizes.
  - sizes.
  - sizes.
  - sizes.
  - sizes.
  - discriminate.
Defined.

Lemma float_double_shard_invariance_witness :
  fused_adam_kernel pow_model 4 [(0, 9)] (zeros kFloat 9) scaled_grad (zeros kFloat 9)
    (zeros kFloat 9) (tensor kFloat []) first_step
    (dec 1 3) (dec 9 1) (dec 999 3) (dec 1 2) (dec 1 8) false false
    (Some (lit kFloat 128 0)) ORIGINAL
  = fused_adam_kernel pow_model 1 [(0, 4); (4, 4); (4, 9)] (zeros kFloat 9) scaled_grad
      (zeros kFloat 9) (zeros kFloat 9) (tensor kFloat []) first_step
      (dec 1 3) (dec 9 1) (dec 999 3) (dec 1 2) (dec 1 8) false false
      (Some (lit kFloat 128 0)) ORIGINAL.
Proof.
  apply float_double_shard_invariance.
  - by left.
  - sizes.
  - sizes.
  - sizes.
  - sizes.
  - sizes.
  - sizes.
  - all_valid.
  - the_scale.
Defined.

Lemma second_moment_shard_invariance_witness :
  let post1 :=
    fused_adam_kernel pow_model 4 [(0, 17)] (seventeen (lit kHalf 1 0))
      (seventeen (lit kHalf 5 1)) (zeros kHalf 17) (zeros kHalf 17)
      (seventeen (lit kHalf 1 4)) first_step (dec 1 3) (dec 9 1) (dec 999 3)
      (dec 0 0) (dec 1 8) true false None ORIGINAL in
  let post2 :=
    fused_adam_kernel pow_model 2 [(0, 5); (5, 17)] (seventeen (lit kHalf 1 0))
      (seventeen (lit kHalf 5 1)) (zeros kHalf 17) (zeros kHalf 17)
      (seventeen (lit kHalf 1 4)) first_step (dec 1 3) (dec 9 1) (dec 999 3)
      (dec 0 0) (dec 1 8) true false None ORIGINAL in
  exp_avg_sq post1 = exp_avg_sq post2 /\
  grad post1 = grad post2 /\
  (scalar_type (seventeen (lit kHalf 1 0)) = kFloat \/
   scalar_type (seventeen (lit kHalf 1 0)) = kDouble ->
   exp_avg post1 = exp_avg post2).
Proof.
  apply second_moment_shard_invariance.
  - sizes.
  - sizes.
  - sizes.
  - sizes.
  - sizes.
  - sizes.
  - intros _. sizes.
  - all_valid.
  - no_scale.
Defined.

Lemma float_double_elementwise_witness :
  let post1 :=
    fused_adam_kernel pow_model 4 [(0, 2)] two_floats two_floats (zeros kFloat 2)
      (zeros kFloat 2) (tensor kFloat []) first_step
      (dec 1 3) (dec 9 1) (dec 999 3) (dec 1 2) (dec 1 8) false false None ORIGINAL in
  let post2 :=
    fused_adam_kernel pow_model 1 [(0, 1); (1, 3)] three_floats three_floats
      (zeros kFloat 3) (zeros kFloat 3) (tensor kFloat []) first_step
      (dec 1 3) (dec 9 1) (dec 999 3) (dec 1 2) (dec 1 8) false false None ORIGINAL in
  param post1 !! 1 = param post2 !! 2 /\
  exp_avg post1 !! 1 = exp_avg post2 !! 2 /\
  exp_avg_sq post1 !! 1 = exp_avg_sq post2 !! 2 /\
  grad post1 !! 1 = grad post2 !! 2.
Proof.
  apply float_double_elementwise.
  - by left.
  - reflexivity.
  - sizes.
  - sizes.
  - vm_compute. repeat split; first [lia | discriminate].
  - vm_compute. repeat split; first [lia | discriminate].
  - sizes.
  - sizes.
  - reflexivity.
  - reflexivity.
  - reflexivity.
  - reflexivity.
  - intros g Hg. injection Hg as <-. reflexivity.
  - no_scale.
Defined.

Lemma nan_gradient_propagates_witness :
  let post :=
    fused_adam_kernel pow_model 4 [(0, 1)] (zeros kFloat 1) (tensor kFloat [S754_nan])
      (zeros kFloat 1) (zeros kFloat 1) (tensor kFloat [lit kFloat 1 0]) first_step
      (dec 1 3) (dec 9 1) (dec 999 3) (dec 0 0) (dec 1 8) true false None ORIGINAL in
  exp_avg_sq post !! 0 = Some S754_nan /\
  (scalar_type (zeros kFloat 1) = kFloat \/ scalar_type (zeros kFloat 1) = kDouble ->
   exp_avg post !! 0 = Some S754_nan) /\
  (scalar_type (zeros kFloat 1) = kFloat \/ scalar_type (zeros kFloat 1) = kDouble ->
   true = false -> param post !! 0 = Some S754_nan).
Proof.
  apply nan_gradient_propagates.
  - sizes.
  - sizes.
  - sizes.
  - sizes.
  - sizes.
  - intros _. sizes.
  - no_scale.
  - sizes.
  - reflexivity.
Defined.

Lemma amsgrad_selects_witness :
  let post :=
    fused_adam_kernel pow_model 4 [(0, 17)] (seventeen (lit kHalf 1 0))
      (seventeen (lit kHalf 5 1)) (zeros kHalf 17) (zeros kHalf 17)
      (seventeen (lit kHalf 1 4)) first_step (dec 1 3) (dec 9 1) (dec 999 3)
      (dec 0 0) (dec 1 8) true false None ORIGINAL in
  max_exp_avg_sq post !! 7 = Some (lit kHalf 1 4) \/
  max_exp_avg_sq post !! 7 = exp_avg_sq post !! 7.
Proof.
  apply amsgrad_selects.
  - sizes.
  - sizes.
  - sizes.
  - sizes.
  - sizes.
  - no_scale.
  - sizes.
  - reflexivity.
  - reflexivity.
Defined.

Lemma adamw_moments_decoupled_witness :
  let post1 :=
    fused_adam_kernel pow_model 4 [(0, 4)] (zeros kFloat 4) ones_grad (zeros kFloat 4)
      (zeros kFloat 4) (tensor kFloat []) first_step
      (dec 1 3) (dec 9 1) (dec 999 3) (dec 1 2) (dec 1 8) false false None ADAMW in
  let post2 :=
    fused_adam_kernel pow_model 4 [(0, 4)] ones_grad ones_grad (zeros kFloat 4)
      (zeros kFloat 4) (tensor kFloat []) first_step
      (dec 1 1) (dec 9 1) (dec 999 3) (dec 5 1) (dec 1 6) false false None ADAMW in
  exp_avg post1 = exp_avg post2 /\
  exp_avg_sq post1 = exp_avg_sq post2 /\
  grad post1 = grad post2 /\
  max_exp_avg_sq post1 = max_exp_avg_sq post2.
Proof.
  apply adamw_moments_decoupled.
  - reflexivity.
  - reflexivity.
  - sizes.
  - sizes.
  - sizes.
  - sizes.
  - sizes.
  - sizes.
  - discriminate.
Defined.

Lemma second_moment_stays_not_negative_witness :
  let post :=
    fused_adam_kernel pow_model 4 [(0, 9)] (zeros kFloat 9) scaled_grad (zeros kFloat 9)
      (zeros kFloat 9) (tensor kFloat []) first_step
      (dec 1 3) (dec 9 1) (dec 999 3) (dec 0 0) (dec 1 8) false true
      (Some (lit kFloat 128 0)) ORIGINAL in
  exists v', exp_avg_sq post !! 8 = Some v' /\ not_negative v'.
Proof.
  apply (second_moment_stays_not_negative pow_model 4 [(0, 9)] (zeros kFloat 9) scaled_grad
           (zeros kFloat 9) (zeros kFloat 9) (tensor kFloat []) first_step
           (dec 1 3) (dec 9 1) (dec 999 3) (dec 0 0) (dec 1 8) false true
           (Some (lit kFloat 128 0)) ORIGINAL 8 (S754_zero false)).
  - sizes.
  - sizes.
  - sizes.
  - sizes.
  - sizes.
  - discriminate.
  - all_valid.
  - the_scale.
  - reflexivity.
  - reflexivity.
  - reflexivity.
  - sizes.
  - reflexivity.
  - reflexivity.
Defined.

Lemma amsgrad_maximum_stays_not_negative_witness :
  let post :=
    fused_adam_kernel pow_model 4 [(0, 17)] (seventeen (lit kHalf 1 0))
      (seventeen (lit kHalf 5 1)) (zeros kHalf 17) (zeros kHalf 17)
      (seventeen (lit kHalf 1 4)) first_step (dec 1 3) (dec 9 1) (dec 999 3)
      (dec 0 0) (dec 1 8) true false None ORIGINAL in
  exists m, max_exp_avg_sq post !! 16 = Some m /\ not_negative m.
Proof.
  apply (amsgrad_maximum_stays_not_negative pow_model 4 [(0, 17)] (seventeen (lit kHalf 1 0))
           (seventeen (lit kHalf 5 1)) (zeros kHalf 17) (zeros kHalf 17)
           (seventeen (lit kHalf 1 4)) first_step (dec 1 3) (dec 9 1) (dec 999 3)
           (dec 0 0) (dec 1 8) false None ORIGINAL 16 (S754_zero false) (lit kHalf 1 4)).
  - sizes.
  - sizes.
  - sizes.
  - sizes.
  - sizes.
  - sizes.
  - all_valid.
  - no_scale.
  - reflexivity.
  - reflexivity.
  - reflexivity.
  - sizes.
  - reflexivity.
  - reflexivity.
  - reflexivity.
  - reflexivity.
Defined.

Lemma maximize_symmetry_scaled_witness :
  let maximized :=
    fused_adam_kernel pow_model 4 [(0, 4); (4, 9)] (zeros kFloat 9) scaled_grad
      (zeros kFloat 9) (zeros kFloat 9) (tensor kFloat []) first_step
      (dec 1 3) (dec 9 1) (dec 999 3) (dec 0 0) (dec 1 8) false true
      (Some (lit kFloat 128 0)) ORIGINAL in
  let negated :=
    fused_adam_kernel pow_model 4 [(0, 4); (4, 9)] (zeros kFloat 9) (neg_tensor scaled_grad)
      (zeros kFloat 9) (zeros kFloat 9) (tensor kFloat []) first_step
      (dec 1 3) (dec 9 1) (dec 999 3) (dec 0 0) (dec 1 8) false false
      (Some (lit kFloat 128 0)) ORIGINAL in
  exp_avg maximized = exp_avg negated /\
  exp_avg_sq maximized = exp_avg_sq negated /\
  param maximized = param negated /\
  max_exp_avg_sq maximized = max_exp_avg_sq negated /\
  grad negated = fneg <$> grad maximized.
Proof.
  apply maximize_symmetry_scaled.
  - sizes.
  - sizes.
  - sizes.
  - sizes.
  - sizes.
  - discriminate.
  - all_valid.
  - the_scale.
Defined.

Lemma second_half_first_moment_witness :
  let st0 := initial false (zeros kHalf 16) two_halves (zeros kHalf 16) (zeros kHalf 16)
               (tensor kHalf []) in
  exp_avg (run_two_halves [(0, 16)]) !! (0 + 0 * (2 * Vec_size 4 kFloat) + Vec_size 4 kFloat + 3)
  = exp_avg
      (tail_step (scalar_type (zeros kHalf 16)) ORIGINAL (dec 1 3)
         (step_scalars pow_model (scalar_type (zeros kHalf 16)) (item_float first_step)
            (dec 1 3) (dec 9 1) (dec 999 3))
         (dec 1 8) (dec 0 0) (dec 999 3) false false None
         (mkBufs
            [param st0 !!! (0 + 0 * (2 * Vec_size 4 kFloat) + Vec_size 4 kFloat + 3
                            - Vec_size 4 kFloat)]
            [exp_avg st0 !!! (0 + 0 * (2 * Vec_size 4 kFloat) + Vec_size 4 kFloat + 3)]
            [exp_avg_sq st0 !!! (0 + 0 * (2 * Vec_size 4 kFloat) + Vec_size 4 kFloat + 3)]
            [grad st0 !!! (0 + 0 * (2 * Vec_size 4 kFloat) + Vec_size 4 kFloat + 3
                           - Vec_size 4 kFloat)]
            [max_exp_avg_sq st0 !!!
               (0 + 0 * (2 * Vec_size 4 kFloat) + Vec_size 4 kFloat + 3)])) !! 0.
Proof.
  unfold run_two_halves.
  apply (second_half_first_moment pow_model 4 [(0, 16)] (zeros kHalf 16) two_halves
           (zeros kHalf 16) (zeros kHalf 16) (tensor kHalf []) first_step
           (dec 1 3) (dec 9 1) (dec 999 3) (dec 0 0) (dec 1 8) false false None ORIGINAL
           0 0 16 0 3).
  - by left.
  - sizes.
  - sizes.
  - sizes.
  - sizes.
  - sizes.
  - discriminate.
  - no_scale.
  - reflexivity.
  - sizes.
  - sizes.
Defined.

Lemma half_exact_outside_second_halves_witness :
  let st0 := initial false (zeros kHalf 16) two_halves (zeros kHalf 16) (zeros kHalf 16)
               (tensor kHalf []) in
  let post :=
    fused_adam_kernel pow_model 4 [(0, 16)] (zeros kHalf 16) two_halves (zeros kHalf 16)
      (zeros kHalf 16) (tensor kHalf []) first_step
      (dec 1 3) (dec 9 1) (dec 999 3) (dec 0 0) (dec 1 8) false false None ORIGINAL in
  let T :=
    tail_step (scalar_type (zeros kHalf 16)) ORIGINAL (dec 1 3)
      (step_scalars pow_model (scalar_type (zeros kHalf 16)) (item_float first_step)
         (dec 1 3) (dec 9 1) (dec 999 3))
      (dec 1 8) (dec 0 0) (dec 999 3) false false None in
  exp_avg post !! 3 = exp_avg (T (elem_state st0 3)) !! 0 /\
  (false = false -> param post !! 3 = param (T (elem_state st0 3)) !! 0).
Proof.
  apply (half_exact_outside_second_halves pow_model 4 [(0, 16)] (zeros kHalf 16) two_halves
           (zeros kHalf 16) (zeros kHalf 16) (tensor kHalf []) first_step
           (dec 1 3) (dec 9 1) (dec 999 3) (dec 0 0) (dec 1 8) false false None ORIGINAL
           0 0 16 3).
  - by left.
  - sizes.
  - sizes.
  - sizes.
  - sizes.
  - sizes.
  - discriminate.
  - no_scale.
  - reflexivity.
  - sizes.
  - intros _. sizes.
Defined.

Lemma amsgrad_leaves_the_moments_witness :
  let on :=
    fused_adam_kernel pow_model 4 [(0, 4); (4, 9)] (zeros kFloat 9) scaled_grad
      (zeros kFloat 9) (zeros kFloat 9) (zeros kFloat 9) first_step
      (dec 1 3) (dec 9 1) (dec 999 3) (dec 1 2) (dec 1 8) true false
      (Some (lit kFloat 128 0)) ORIGINAL in
  let off :=
    fused_adam_kernel pow_model 4 [(0, 4); (4, 9)] (zeros kFloat 9) scaled_grad
      (zeros kFloat 9) (zeros kFloat 9) (zeros kFloat 9) first_step
      (dec 1 3) (dec 9 1) (dec 999 3) (dec 1 2) (dec 1 8) false false
      (Some (lit kFloat 128 0)) ORIGINAL in
  exp_avg_sq on = exp_avg_sq off /\
  grad on = grad off /\
  (scalar_type (zeros kFloat 9) = kFloat \/ scalar_type (zeros kFloat 9) = kDouble ->
   exp_avg on = exp_avg off).
Proof.
  apply amsgrad_leaves_the_moments.
  - sizes.
  - sizes.
  - sizes.
  - sizes.
  - sizes.
  - sizes.
  - all_valid.
  - the_scale.
Defined.

Lemma float_double_amsgrad_shard_invariance_witness :
  fused_adam_kernel pow_model 4 [(0, 9)] (zeros kFloat 9) scaled_grad (zeros kFloat 9)
    (zeros kFloat 9) (zeros kFloat 9) first_step
    (dec 1 3) (dec 9 1) (dec 999 3) (dec 1 2) (dec 1 8) true false
    (Some (lit kFloat 128 0)) ORIGINAL
  = fused_adam_kernel pow_model 1 [(0, 4); (4, 4); (4, 9)] (zeros kFloat 9) scaled_grad
      (zeros kFloat 9) (zeros kFloat 9) (zeros kFloat 9) first_step
      (dec 1 3) (dec 9 1) (dec 999 3) (dec 1 2) (dec 1 8) true false
      (Some (lit kFloat 128 0)) ORIGINAL.
Proof.
  apply float_double_amsgrad_shard_invariance.
  - by left.
  - sizes.
  - sizes.
  - sizes.
  - sizes.
  - sizes.
  - sizes.
  - sizes.
  - all_valid.
  - the_scale.
  - reflexivity.
  - reflexivity.
  - reflexivity.
  - all_valid.
  - repeat (constructor; [split; reflexivity|]). constructor.
  - intros j v Hj Hv.
    do 9 (destruct j as [|j]; [vm_compute in Hv; injection Hv as <-; reflexivity|]).
    vm_compute in Hj. lia.
Defined.

Lemma vanishing_weight_decay_witness :
  fused_adam_kernel pow_model 4 [(0, 4)] ones_grad ones_grad (zeros kFloat 4)
    (zeros kFloat 4) (tensor kFloat []) first_step
    (dec 1 3) (dec 9 1) (dec 999 3) (dec 1 50) (dec 1 8) false false None ADAMW
  = fused_adam_kernel_no_decay pow_model 4 [(0, 4)] ones_grad ones_grad (zeros kFloat 4)
      (zeros kFloat 4) (tensor kFloat []) first_step
      (dec 1 3) (dec 9 1) (dec 999 3) (dec 1 8) false false None /\
  fused_adam_kernel pow_model 4 [(0, 4)] ones_grad ones_grad (zeros kFloat 4)
    (zeros kFloat 4) (tensor kFloat []) first_step
    (dec 1 3) (dec 9 1) (dec 999 3) (dec 1 2) (dec 1 8) false false None ADAMW
  <> fused_adam_kernel_no_decay pow_model 4 [(0, 4)] ones_grad ones_grad (zeros kFloat 4)
       (zeros kFloat 4) (tensor kFloat []) first_step
       (dec 1 3) (dec 9 1) (dec 999 3) (dec 1 8) false false None.
Proof.
  split.
  - apply vanishing_weight_decay.
    + discriminate.
    + vm_compute. discriminate.
  - vm_compute. discriminate.
Defined.
